(** * The DAG scheduler of Minerva (backend/dag/dag_scheduler.cpp)

    A shallow embedding of [DagScheduler]: every member function of
    dag_scheduler.cpp is a computation in a state-and-abort monad over a
    record holding the scheduler's fields together with the state of the
    collaborators it drives (the physical DAG, the runtime-info map, the
    dispatcher queue).  Every primitive that touches shared state also
    appends an [Action] to a trace, in program order, so that statements
    about ordering and about what happens inside or outside a critical
    section are statements about that trace. *)

From Stdlib Require Import ZArith NArith Lia List String.
From stdpp Require Import base option list gmap sets.

Local Open Scope Z_scope.

(** ** Data model *)

(** [DagNode::NodeType]. *)
Inductive NodeType := kOpNode | kDataNode.

(** [NodeState].  Modelled from the spec: the enum's declaration is not part
    of the sources at hand; the scheduler names [kReady] and [kCompleted],
    and the [default:] arm of the switch in [OnExternRCUpdate] handles any
    further enumerator, which [kOtherState] stands for. *)
Inductive NodeState := kReady | kCompleted | kOtherState.

(** [TaskType], the kind of a dispatcher event. *)
Inductive TaskType := kToRun | kToComplete.

#[global] Instance NodeType_eq_dec : EqDecision NodeType.
Proof. solve_decision. Defined.
#[global] Instance NodeState_eq_dec : EqDecision NodeState.
Proof. solve_decision. Defined.
#[global] Instance TaskType_eq_dec : EqDecision TaskType.
Proof. solve_decision. Defined.

(** [Scale]: the extent of an array along each dimension. *)
Definition Scale := list Z.

(** The product of the extents, as a number. *)
Definition Prod (size : Scale) : Z := fold_right Z.mul 1 size.

(** [sizeof(float)]. *)
Definition sizeof_float : Z := 4.

(** The machine integers of [GetValue]: [int], the result type of
    [Scale::Prod], has 32 bits and [size_t] has 64. *)
Definition INT_MIN : Z := - 2 ^ 31.
Definition INT_MAX : Z := 2 ^ 31 - 1.
Definition fits_int (z : Z) : bool := (INT_MIN <=? z) && (z <=? INT_MAX).
Definition SIZE_MODULUS : Z := 2 ^ 64.

(** The conversion of an [int] to [size_t], and the product of two
    [size_t], both modulo 2^64. *)
Definition to_size_t (z : Z) : Z := z mod SIZE_MODULUS.
Definition size_t_mul (a b : Z) : Z := (a * b) mod SIZE_MODULUS.

(** [Scale::Prod] in [int] arithmetic.  Modelled from the spec: scale.h is
    not part of the sources at hand; the specification has a shape whose
    product yields the element count.  The extents are multiplied up one
    after the other, starting from 1; a product that does not fit [int] is
    a signed overflow, where the behaviour is undefined, and [None] stands
    for it. *)
Fixpoint Prod_from (acc : Z) (size : Scale) : option Z :=
  match size with
  | [] => Some acc
  | x :: size' => if fits_int (acc * x) then Prod_from (acc * x) size' else None
  end.
Definition Prod_int (size : Scale) : option Z := Prod_from 1 size.

(** [PhysicalData]: what a data node carries ([data_size] is the member
    [size]). *)
Record PhysicalData := mkPhysicalData {
  data_size : Scale;
  device_id : N;
  data_id : N;
  extern_rc : Z
}.

(** The compute function is opaque to the scheduler. *)
Definition ComputeFn := N.

(** [PhysicalOp]: what an op node carries. *)
Record PhysicalOp := mkPhysicalOp {
  compute_fn : ComputeFn;
  op_device_id : N
}.

(** The two variants of a node: [PhysicalDataNode] with its [data_], and
    [PhysicalOpNode] with its [op_] and its ordered [inputs_] and
    [outputs_]. *)
Inductive NodeBody :=
| DataBody (data_ : PhysicalData)
| OpBody (op_ : PhysicalOp) (inputs_ outputs_ : list N).

(** [DagNode]: neighbours are kept by node id. *)
Record DagNode := mkDagNode {
  predecessors_ : gset N;
  successors_ : gset N;
  body : NodeBody
}.

(** [DagNode::Type]. *)
Definition Type_ (n : DagNode) : NodeType :=
  match body n with DataBody _ => kDataNode | OpBody _ _ _ => kOpNode end.

(** [RuntimeInfo].  The counters are modelled as mathematical integers; [++]
    and [--] add and subtract one. *)
Record RuntimeInfo := mkRuntimeInfo {
  state : NodeState;
  reference_count : Z;
  num_triggers_needed : Z
}.

(** [TaskData] and [Task], as handed to a device ([task_id] is the member
    [id]). *)
Record Task := mkTask {
  inputs : list (PhysicalData * N);
  outputs : list (PhysicalData * N);
  op : PhysicalOp;
  task_id : N
}.

(** [BackendChunk]: the scheduler only accepts its own [DagChunk], which
    points at a data node. *)
Inductive BackendChunk :=
| DagChunk (node_ : N)
| ForeignChunk.

(** What the scheduler does to shared state, in program order. *)
Inductive Action :=
| ALock (cover : gset N)        (* a MultiNodeLock is constructed *)
| AUnlock                       (* ... and destroyed *)
| AFinishLock                   (* finish_mutex_ is taken *)
| AFinishUnlock
| AWait                         (* finish_cond_.wait (lck) *)
| ANotifyAll                    (* finish_cond_.notify_all () *)
| ANewDataNode (n : N)
| ANewOpNode (n : N)
| ASetDevice (n : N)            (* op_node->op_.device_id = ... *)
| ANewChunk (n : N)
| AAddNode (n : N)              (* rt_info_.AddNode *)
| ARemoveNode (n : N)           (* rt_info_.RemoveNode *)
| ARtWrite (n : N)              (* a write through rt_info_.At (n) *)
| AIncYetToFinish               (* ++num_nodes_yet_to_finish_ *)
| ADecYetToFinish               (* --num_nodes_yet_to_finish_ *)
| AQueuePush (ev : TaskType * N)
| APushTask (device : N) (t : Task)
| AFreeData (d : N)             (* dm_->FreeData *)
| ARemoveNodeFromDag (n : N)
| ADelete (n : N).              (* delete of a node object *)

(** The scheduler together with what it points to. *)
Record DagScheduler := mkDagScheduler {
  heap : gmap N DagNode;              (* the node objects that are allocated *)
  index_to_node_ : gset N;            (* the nodes that are in dag_ *)
  next_node_id : N;                   (* dag_'s id counter *)
  next_data_id : N;                   (* MinervaSystem's data id counter *)
  current_device_id_ : N;
  rt_info_ : gmap N RuntimeInfo;
  dispatcher_queue_ : list (TaskType * N);
  num_nodes_yet_to_finish_ : Z;
  target_ : Z;
  trace : list Action
}.

(** ** The monad: state, and abort of the process *)

Inductive Fatal :=
| CheckNotNull                  (* CHECK_NOTNULL failed *)
| CheckFailed (msg : string)    (* CHECK_EQ / CHECK_NE failed *)
| LogFatal (msg : string)       (* LOG(FATAL) *)
| NoSuchNode (n : N)            (* dag_->GetNode on an absent id *)
| NoRuntimeInfo (n : N)         (* rt_info_ has no entry for the id *)
| Dangling (n : N)              (* a node object used after its delete *)
| BadArrayNewLength             (* new T[n] with n < 0, uncaught *)
| BadAlloc                      (* new T[n] that the allocator cannot serve, uncaught *)
| Undefined (what : string).    (* from here on the behaviour is undefined *)

Inductive result (A : Type) :=
| Ok (a : A)
| Abort (why : Fatal).
Arguments Ok {A} a.
Arguments Abort {A} why.

Definition M (A : Type) : Type := DagScheduler → result (A * DagScheduler).

#[global] Instance M_ret : MRet M := λ A a s, Ok (a, s).
#[global] Instance M_bind : MBind M := λ A B f m s,
  match m s with
  | Ok (a, s') => f a s'
  | Abort e => Abort e
  end.

Definition abort {A} (e : Fatal) : M A := λ _, Abort e.
Definition gets {A} (f : DagScheduler → A) : M A := λ s, Ok (f s, s).
Definition modify (f : DagScheduler → DagScheduler) : M unit := λ s, Ok (tt, f s).

(** [Iter (v, f)] of common/common.h: apply [f] to each element in order. *)
Fixpoint Iter {A} (f : A → M unit) (v : list A) : M unit :=
  match v with
  | [] => mret tt
  | x :: v' => f x ;; Iter f v'
  end.

(** [Map<U> (v, f)] of common/common.h. *)
Fixpoint Map {A B} (f : A → M B) (v : list A) : M (list B) :=
  match v with
  | [] => mret []
  | x :: v' => y ← f x; ys ← Map f v'; mret (y :: ys)
  end.

(** Field updates. *)
Definition set_heap (f : gmap N DagNode → gmap N DagNode) (s : DagScheduler) :=
  mkDagScheduler (f (heap s)) (index_to_node_ s) (next_node_id s) (next_data_id s)
    (current_device_id_ s) (rt_info_ s) (dispatcher_queue_ s)
    (num_nodes_yet_to_finish_ s) (target_ s) (trace s).
Definition set_index (f : gset N → gset N) (s : DagScheduler) :=
  mkDagScheduler (heap s) (f (index_to_node_ s)) (next_node_id s) (next_data_id s)
    (current_device_id_ s) (rt_info_ s) (dispatcher_queue_ s)
    (num_nodes_yet_to_finish_ s) (target_ s) (trace s).
Definition set_next_node_id (f : N → N) (s : DagScheduler) :=
  mkDagScheduler (heap s) (index_to_node_ s) (f (next_node_id s)) (next_data_id s)
    (current_device_id_ s) (rt_info_ s) (dispatcher_queue_ s)
    (num_nodes_yet_to_finish_ s) (target_ s) (trace s).
Definition set_next_data_id (f : N → N) (s : DagScheduler) :=
  mkDagScheduler (heap s) (index_to_node_ s) (next_node_id s) (f (next_data_id s))
    (current_device_id_ s) (rt_info_ s) (dispatcher_queue_ s)
    (num_nodes_yet_to_finish_ s) (target_ s) (trace s).
Definition set_rt_info (f : gmap N RuntimeInfo → gmap N RuntimeInfo) (s : DagScheduler) :=
  mkDagScheduler (heap s) (index_to_node_ s) (next_node_id s) (next_data_id s)
    (current_device_id_ s) (f (rt_info_ s)) (dispatcher_queue_ s)
    (num_nodes_yet_to_finish_ s) (target_ s) (trace s).
Definition set_queue (f : list (TaskType * N) → list (TaskType * N)) (s : DagScheduler) :=
  mkDagScheduler (heap s) (index_to_node_ s) (next_node_id s) (next_data_id s)
    (current_device_id_ s) (rt_info_ s) (f (dispatcher_queue_ s))
    (num_nodes_yet_to_finish_ s) (target_ s) (trace s).
Definition set_yet_to_finish (f : Z → Z) (s : DagScheduler) :=
  mkDagScheduler (heap s) (index_to_node_ s) (next_node_id s) (next_data_id s)
    (current_device_id_ s) (rt_info_ s) (dispatcher_queue_ s)
    (f (num_nodes_yet_to_finish_ s)) (target_ s) (trace s).
Definition set_target (t : Z) (s : DagScheduler) :=
  mkDagScheduler (heap s) (index_to_node_ s) (next_node_id s) (next_data_id s)
    (current_device_id_ s) (rt_info_ s) (dispatcher_queue_ s)
    (num_nodes_yet_to_finish_ s) t (trace s).
Definition set_trace (f : list Action → list Action) (s : DagScheduler) :=
  mkDagScheduler (heap s) (index_to_node_ s) (next_node_id s) (next_data_id s)
    (current_device_id_ s) (rt_info_ s) (dispatcher_queue_ s)
    (num_nodes_yet_to_finish_ s) (target_ s) (f (trace s)).

(** Record an action at the end of the trace. *)
Definition emit (a : Action) : M unit := modify (set_trace (λ t, t ++ [a])).

(** [CHECK_EQ], [CHECK_NE]: abort with the message unless the test holds. *)
Definition CHECK (b : bool) (msg : string) : M unit :=
  if b then mret tt else abort (CheckFailed msg).

(** Following a pointer to a node object. *)
Definition deref (n : N) : M DagNode := λ s,
  match heap s !! n with
  | Some node => Ok (node, s)
  | None => Abort (Dangling n)
  end.

(** [dynamic_cast<PhysicalDataNode*>] under [CHECK_NOTNULL], then [->data_]. *)
Definition as_data_node (n : N) : M PhysicalData :=
  node ← deref n;
  match body node with
  | DataBody d => mret d
  | OpBody _ _ _ => abort CheckNotNull
  end.

(** ** PhysicalDag

    Modelled from the spec: physical_dag.h and dag.h are not part of the
    sources at hand.  Section 4.1 of the specification gives the operations:
    ids are handed out by a counter, a new data node has no neighbours, a new
    op node gets an edge from each input and to each output, [GetNode] panics
    on an absent id, and [RemoveNodeFromDag] erases the node from the edge
    sets of its neighbours, drops it from the DAG and returns the object,
    still allocated, for its later [delete]. *)

Definition add_successor (v : N) (n : DagNode) : DagNode :=
  mkDagNode (predecessors_ n) ({[v]} ∪ successors_ n) (body n).
Definition add_predecessor (u : N) (n : DagNode) : DagNode :=
  mkDagNode ({[u]} ∪ predecessors_ n) (successors_ n) (body n).

Definition AddEdge (u v : N) : M unit :=
  deref u ;; deref v ;;
  modify (set_heap (alter (add_successor v) u)) ;;
  modify (set_heap (alter (add_predecessor u) v)).

Definition NewDataNode (d : PhysicalData) : M N :=
  n ← gets next_node_id;
  modify (set_next_node_id N.succ) ;;
  modify (set_heap (insert n (mkDagNode ∅ ∅ (DataBody d)))) ;;
  modify (set_index (union {[n]})) ;;
  emit (ANewDataNode n) ;;
  mret n.

Definition NewOpNode (ins outs : list N) (o : PhysicalOp) : M N :=
  n ← gets next_node_id;
  modify (set_next_node_id N.succ) ;;
  modify (set_heap (insert n (mkDagNode ∅ ∅ (OpBody o ins outs)))) ;;
  modify (set_index (union {[n]})) ;;
  Iter (λ d, AddEdge d n) ins ;;
  Iter (λ d, AddEdge n d) outs ;;
  emit (ANewOpNode n) ;;
  mret n.

Definition GetNode (n : N) : M DagNode :=
  idx ← gets index_to_node_;
  if decide (n ∈ idx) then deref n else abort (NoSuchNode n).

(** The heap once [node], with id [n], is erased from its neighbours. *)
Definition detach (n : N) (node : DagNode) (h : gmap N DagNode) : gmap N DagNode :=
  map_imap (λ k x, Some (mkDagNode
      (if decide (k ∈ successors_ node) then predecessors_ x ∖ {[n]} else predecessors_ x)
      (if decide (k ∈ predecessors_ node) then successors_ x ∖ {[n]} else successors_ x)
      (body x))) h.

Definition RemoveNodeFromDag (n : N) : M N :=
  node ← GetNode n;
  modify (set_heap (detach n node)) ;;
  modify (set_index (λ idx, idx ∖ {[n]})) ;;
  emit (ARemoveNodeFromDag n) ;;
  mret n.

(** [delete] of a node object. *)
Definition Delete (n : N) : M unit :=
  modify (set_heap (delete n)) ;; emit (ADelete n).

(** ** RuntimeInfoMap

    Modelled from the spec: runtime_info_map.h is not part of the sources at
    hand.  Section 4.2 of the specification gives [AddNode], [RemoveNode],
    [At] and [GetState]; a new entry is in state [kReady] with both counters
    0; asking for an id without an entry ends the process. *)

Definition AddNode (n : N) : M unit :=
  modify (set_rt_info (insert n (mkRuntimeInfo kReady 0 0))) ;; emit (AAddNode n).

Definition RemoveNode (n : N) : M unit :=
  modify (set_rt_info (delete n)) ;; emit (ARemoveNode n).

Definition At (n : N) : M RuntimeInfo := λ s,
  match rt_info_ s !! n with
  | Some ri => Ok (ri, s)
  | None => Abort (NoRuntimeInfo n)
  end.

Definition GetState (n : N) : M NodeState := ri ← At n; mret (state ri).

(** An assignment through the reference [rt_info_.At (n)]. *)
Definition At_update (n : N) (f : RuntimeInfo → RuntimeInfo) : M unit :=
  At n ;; modify (set_rt_info (alter f n)) ;; emit (ARtWrite n).

Definition set_state (st : NodeState) (ri : RuntimeInfo) : RuntimeInfo :=
  mkRuntimeInfo st (reference_count ri) (num_triggers_needed ri).
Definition add_reference_count (d : Z) (ri : RuntimeInfo) : RuntimeInfo :=
  mkRuntimeInfo (state ri) (reference_count ri + d) (num_triggers_needed ri).
Definition add_num_triggers_needed (d : Z) (ri : RuntimeInfo) : RuntimeInfo :=
  mkRuntimeInfo (state ri) (reference_count ri) (num_triggers_needed ri + d).

(** ** MultiNodeLock

    Modelled from the spec: multi_node_lock.h is not part of the sources at
    hand.  Section 4.3 of the specification gives the two constructors: over
    one node the lock covers the node, its predecessors and its successors;
    over a vector of nodes it covers each node and its successors.  The lock
    is released when its scope ends. *)

Definition MultiNodeLock (n : N) : M unit :=
  node ← deref n;
  emit (ALock ({[n]} ∪ predecessors_ node ∪ successors_ node)).

Definition MultiNodeLock_vec (ns : list N) : M unit :=
  covers ← Map (λ n, node ← deref n; mret ({[n]} ∪ successors_ node)) ns;
  emit (ALock (⋃ covers)).

Definition Unlock : M unit := emit AUnlock.

(** ** The other collaborators *)

(** [MinervaSystem::GenerateDataId].  Modelled from the spec: the id is
    fresh. *)
Definition GenerateDataId : M N :=
  d ← gets next_data_id; modify (set_next_data_id N.succ) ;; mret d.

(** [new DagChunk (n)].  Modelled from the spec: dag_chunk.h is not part of
    the sources at hand; [extern_rc] counts the frontend handles that pin
    the data node, so a new handle adds one. *)
Definition pin (x : DagNode) : DagNode :=
  mkDagNode (predecessors_ x) (successors_ x)
    match body x with
    | DataBody d => DataBody (mkPhysicalData (data_size d) (device_id d) (data_id d) (extern_rc d + 1))
    | b => b
    end.

Definition new_DagChunk (n : N) : M BackendChunk :=
  deref n ;; modify (set_heap (alter pin n)) ;; emit (ANewChunk n) ;; mret (DagChunk n).

(** [op_node->op_.device_id = d]. *)
Definition set_op_device_id (d : N) (x : DagNode) : DagNode :=
  mkDagNode (predecessors_ x) (successors_ x)
    match body x with
    | OpBody o ins outs => OpBody (mkPhysicalOp (compute_fn o) d) ins outs
    | b => b
    end.

(** [dispatcher_queue_.Push]. *)
Definition Push (ev : TaskType * N) : M unit :=
  modify (set_queue (λ q, q ++ [ev])) ;; emit (AQueuePush ev).

(** [++num_nodes_yet_to_finish_] and [--num_nodes_yet_to_finish_]. *)
Definition incr_yet_to_finish : M unit :=
  modify (set_yet_to_finish (λ k, k + 1)) ;; emit AIncYetToFinish.
Definition decr_yet_to_finish : M unit :=
  modify (set_yet_to_finish (λ k, k - 1)) ;; emit ADecYetToFinish.

(** ** DagScheduler *)

Definition FreeDataNodeRes (n : N) : M unit :=
  d ← as_data_node n; emit (AFreeData (data_id d)).

Definition OnCreateNode (n : N) : M unit := AddNode n.

Definition OnDeleteNode (n : N) : M unit := RemoveNode n.

Definition OnCreateEdge (from to : N) : M unit :=
  st ← GetState to;
  CHECK (bool_decide (st = kReady)) "invalid state of node" ;;
  At_update from (add_reference_count 1) ;;
  st_from ← GetState from;
  if decide (st_from ≠ kCompleted)
  then At_update to (add_num_triggers_needed 1)
  else mret tt.

Definition ProcessIfReady (target : N) : M unit :=
  let node_id := target in
  st ← GetState node_id;
  CHECK (bool_decide (st = kReady)) "invalid state of node" ;;
  ri ← At node_id;
  if decide (num_triggers_needed ri = 0)
  then incr_yet_to_finish ;; Push (kToRun, node_id)
  else mret tt.

Definition Create (params : list BackendChunk) (result_sizes : list Scale)
    (fn : ComputeFn) : M (list BackendChunk) :=
  current_device_id ← gets current_device_id_;
  rst_data_nodes ← Map (λ sz,
      d ← GenerateDataId;
      NewDataNode (mkPhysicalData sz current_device_id d 0)) result_sizes;
  Iter OnCreateNode rst_data_nodes ;;
  param_data_nodes ← Map (λ i,
      match i with
      | DagChunk n => mret n
      | ForeignChunk => abort CheckNotNull
      end) params;
  ret ← Map new_DagChunk rst_data_nodes;
  MultiNodeLock_vec param_data_nodes ;;
  op_node ← NewOpNode param_data_nodes rst_data_nodes (mkPhysicalOp fn 0);
  modify (set_heap (alter (set_op_device_id current_device_id) op_node)) ;;
  emit (ASetDevice op_node) ;;
  OnCreateNode op_node ;;
  Iter (λ n, OnCreateEdge n op_node) param_data_nodes ;;
  Iter (λ n, OnCreateEdge op_node n) rst_data_nodes ;;
  ProcessIfReady op_node ;;
  Unlock ;;
  mret ret.

(** [OnOperationComplete]: the device listener. *)
Definition OnOperationComplete (task : Task) : M unit :=
  Push (kToComplete, task_id task).

(** The reclamation that [OnExternRCUpdate] and [DispatcherRoutine] share:
    [FreeDataNodeRes], [RemoveNodeFromDag], [OnDeleteNode]. *)
Definition reclaim_data_node (n : N) : M N :=
  FreeDataNodeRes n ;;
  to_delete ← RemoveNodeFromDag n;
  OnDeleteNode n ;;
  mret to_delete.

Definition OnExternRCUpdate (node : N) : M unit :=
  to_delete ← (
    MultiNodeLock node ;;
    let node_id := node in
    st ← GetState node_id;
    to_delete ← match st with
      | kCompleted =>
          ri ← At node_id;
          d ← as_data_node node;
          if decide (reference_count ri = 0 ∧ extern_rc d = 0)
          then n ← reclaim_data_node node; mret (Some n)
          else mret None
      | kReady => mret None
      | kOtherState => abort (LogFatal "incorrect state for node")
      end;
    Unlock ;;
    mret to_delete);
  match to_delete with
  | Some n => Delete n
  | None => mret tt
  end.

(** [Collect f v]: run [f] over [v] in order and gather what each call adds
    to [to_delete]. *)
Fixpoint Collect {A B} (f : A → M (list B)) (v : list A) : M (list B) :=
  match v with
  | [] => mret []
  | x :: v' => ys ← f x; zs ← Collect f v'; mret (ys ++ zs)
  end.

(** The body of the loop over the predecessors of a completed op node. *)
Definition release_predecessor (pred : N) : M (list N) :=
  pred_ri ← At pred;
  pred_node ← as_data_node pred;
  CHECK (bool_decide (num_triggers_needed pred_ri = 0))
    "#triggers incorrect for a completed data node" ;;
  At_update pred (add_reference_count (-1)) ;;
  if decide (reference_count pred_ri - 1 = 0 ∧ extern_rc pred_node = 0)
  then n ← reclaim_data_node pred; mret [n]
  else mret [].

(** One round of [for (auto pred : node->predecessors_)] in the completion
    of the op node [node_id].  The loop walks the set that the node itself
    holds, not a copy of it.  When the body reclaims [pred],
    [RemoveNodeFromDag] erases [pred] from the edge sets of its neighbours,
    and so from this very set: the iterator of the loop then points at an
    erased element, and advancing it is undefined.  No other element is
    erased or inserted by the body, so that the rounds which are defined
    visit the elements the set had at the start. *)
Definition release_live (node_id pred : N) : M (list N) :=
  del ← release_predecessor pred;
  now ← deref node_id;
  if decide (pred ∈ predecessors_ now)
  then mret del
  else abort (Undefined "iterator into predecessors_ advanced after erase").

(** The body of the loop over the successors of a completed node. *)
Definition trigger_successor (succ : N) : M unit :=
  ri ← At succ;
  At_update succ (add_num_triggers_needed (-1)) ;;
  if decide (state ri = kReady ∧ num_triggers_needed ri - 1 = 0)
  then incr_yet_to_finish ;; Push (kToRun, succ)
  else mret tt.

(** The new-task arm of the dispatcher. *)
Definition dispatch_op_node (node_id : N) (node : DagNode) : M unit :=
  match body node with
  | DataBody _ => abort CheckNotNull
  | OpBody o ins outs =>
      let device_id := op_device_id o in
      task_inputs ← Map (λ n, d ← as_data_node n; mret (d, n)) ins;
      task_outputs ← Map (λ n, d ← as_data_node n; mret (d, n)) outs;
      emit (APushTask device_id (mkTask task_inputs task_outputs o node_id))
  end.

(** The task-completed arm of the dispatcher; returns [to_delete]. *)
Definition complete_node (node_id : N) (node : DagNode) : M (list N) :=
  At_update node_id (set_state kCompleted) ;;
  to_delete ← (
    if decide (Type_ node = kOpNode) then
      ri ← At node_id;
      CHECK (negb (bool_decide (reference_count ri = 0))) "op node generated but not needed" ;;
      now ← deref node_id;
      Collect (release_live node_id) (elements (predecessors_ now))
    else
      data_node ← as_data_node node_id;
      ri ← At node_id;
      del1 ← (if decide (reference_count ri = 0 ∧ extern_rc data_node = 0)
              then n ← reclaim_data_node node_id; mret [n]
              else mret []);
      now ← deref node_id;
      CHECK (bool_decide (size (predecessors_ now) = 1%nat))
        "data node should have no more than one predecessor" ;;
      match elements (predecessors_ now) with
      | [] => abort (CheckFailed "data node should have no more than one predecessor")
      | pred_node :: _ =>
          pred_ri ← At pred_node;
          CHECK (bool_decide (num_triggers_needed pred_ri = 0))
            "#triggers incorrect for a completed op node" ;;
          At_update pred_node (add_reference_count (-1)) ;;
          del2 ← (if decide (reference_count pred_ri - 1 = 0)
                  then n ← RemoveNodeFromDag pred_node; OnDeleteNode pred_node ;; mret [n]
                  else mret []);
          mret (del1 ++ del2)
      end);
  now ← deref node_id;
  Iter trigger_successor (elements (successors_ now)) ;;
  decr_yet_to_finish ;;
  emit AFinishLock ;;
  k ← gets num_nodes_yet_to_finish_;
  t ← gets target_;
  (if decide (k = 0 ∨ Z.of_N node_id = t) then emit ANotifyAll else mret tt) ;;
  emit AFinishUnlock ;;
  mret to_delete.

(** One iteration of the loop of [DispatcherRoutine], for the event [task]
    that [Pop] returned. *)
Definition DispatcherBody (task : TaskType * N) : M unit :=
  let node_id := task.2 in
  node ← GetNode node_id;
  to_delete ← (
    MultiNodeLock node_id ;;
    At node_id ;;
    to_delete ← (
      if decide (task.1 = kToRun ∧ Type_ node = kOpNode)
      then dispatch_op_node node_id node ;; mret []
      else if decide (task.1 = kToComplete ∨ (task.1 = kToRun ∧ Type_ node = kDataNode))
      then complete_node node_id node
      else mret []);
    Unlock ;;
    mret to_delete);
  Iter Delete to_delete.

(** [dispatcher_queue_.Pop]: the event at the head of the queue, if any
    (the caller blocks on an empty queue). *)
Definition Pop : DagScheduler → option ((TaskType * N) * DagScheduler) := λ s,
  match dispatcher_queue_ s with
  | [] => None
  | ev :: q => Some (ev, set_queue (λ _, q) s)
  end.

(** [DispatcherRoutine], for at most [fuel] events: it stops early only
    when the queue is empty, where the thread blocks in [Pop]. *)
Fixpoint DispatcherRoutine (fuel : nat) : M unit := λ s,
  match fuel with
  | O => Ok (tt, s)
  | S fuel' =>
      match Pop s with
      | None => Ok (tt, s)
      | Some (task, s') => (DispatcherBody task ;; DispatcherRoutine fuel') s'
      end
  end.

(** ** The blocking calls

    A thread that sleeps in [finish_cond_.wait] finds, when it wakes up, the
    scheduler as the other threads left it.  A wait is therefore run against
    [wakeups], one state transformer per wake-up, standing for what the
    other threads did in between.  The loop answers [true] when it is left,
    and [false] when the condition still holds after the last wake-up, where
    the thread is still blocked. *)
Fixpoint wait_while (cond : M bool) (wakeups : list (DagScheduler → DagScheduler))
    : M bool :=
  c ← cond;
  if c : bool then
    match wakeups with
    | [] => mret false
    | w :: wakeups' => emit AWait ;; modify w ;; wait_while cond wakeups'
    end
  else mret true.

Definition Wait (data : BackendChunk) (wakeups : list (DagScheduler → DagScheduler))
    : M bool :=
  emit AFinishLock ;;
  node_id ← match data with
            | DagChunk n => deref n ;; mret n
            | ForeignChunk => abort CheckNotNull
            end;
  modify (set_target (Z.of_N node_id)) ;;
  left ← wait_while (st ← GetState node_id; mret (negb (bool_decide (st = kCompleted)))) wakeups;
  if left : bool
  then modify (set_target (-1)) ;; emit AFinishUnlock ;; mret true
  else mret false.

Definition WaitForAll (wakeups : list (DagScheduler → DagScheduler)) : M bool :=
  emit AFinishLock ;;
  t ← gets target_;
  CHECK (bool_decide (t = -1)) "CHECK_EQ(target_, -1)" ;;
  left ← wait_while (k ← gets num_nodes_yet_to_finish_; mret (negb (bool_decide (k = 0)))) wakeups;
  if left : bool
  then emit AFinishUnlock ;; mret true
  else mret false.

(** [GetValue].  [new float[n]] throws [std::bad_array_new_length] for a
    negative [n] and [std::bad_alloc] when the allocator cannot serve the
    request; nothing catches either, so the process ends.  [can_alloc n]
    is the allocator's answer to a request for [n] floats.  (The objects of
    fixed size that the scheduler allocates elsewhere are taken to be
    served.)  [GetPtr device data] is the device manager's answer, the bytes
    found from the device-side pointer on.  The byte count of the copy is
    [data.size.Prod() * sizeof(float)], an [int] times a [size_t], computed
    in [size_t]; [UniversalMemcpy] copies that many bytes into the new host
    buffer, which is the result. *)
Definition UniversalMemcpy (src : nat → Byte.byte) (count : N) : list Byte.byte :=
  map src (seq 0 (N.to_nat count)).

Definition GetValue (can_alloc : Z → bool) (GetPtr : N → N → nat → Byte.byte)
    (chunk : BackendChunk) : M (list Byte.byte) :=
  data ← match chunk with
         | DagChunk n => as_data_node n
         | ForeignChunk => abort CheckNotNull
         end;
  match Prod_int (data_size data) with
  | None => abort (Undefined "signed overflow in Scale::Prod")
  | Some n =>
      if n <? 0 then abort BadArrayNewLength
      else if negb (can_alloc n) then abort BadAlloc
      else
        let dev_pair := GetPtr (device_id data) (data_id data) in
        mret (UniversalMemcpy dev_pair (Z.to_N (size_t_mul (to_size_t n) sizeof_float)))
  end.


(** ** Reading a trace *)

(** What a computation appended to the trace. *)
Definition new_trace (s s' : DagScheduler) : list Action :=
  drop (length (trace s)) (trace s').

(** The actions of a trace that are performed while no [MultiNodeLock] is
    held; [held] tells whether one is held where the trace starts. *)
Fixpoint outside_lock (held : bool) (t : list Action) : list Action :=
  match t with
  | [] => []
  | ALock _ :: t' => outside_lock true t'
  | AUnlock :: t' => outside_lock false t'
  | a :: t' => if held then outside_lock held t' else a :: outside_lock held t'
  end.

Definition is_lock_action (a : Action) : bool :=
  match a with ALock _ | AUnlock => true | _ => false end.

(** A stretch of a trace in which no [MultiNodeLock] is taken or released. *)
Definition lock_free (t : list Action) : Prop :=
  Forall (λ a, is_lock_action a = false) t.

(** ** Some schedulers to run the code on *)

(** A scheduler that has not been given anything yet. *)
Definition empty_scheduler : DagScheduler :=
  mkDagScheduler ∅ ∅ 0%N 0%N 0%N ∅ [] 0 (-1) [].

(** The state a computation leaves, when it does not abort. *)
Definition exec {A} (m : M A) (s : DagScheduler) : option DagScheduler :=
  match m s with Ok (_, s') => Some s' | Abort _ => None end.

Definition after {A} (m : M A) (s : DagScheduler) : DagScheduler :=
  default s (exec m s).

(** ** The two places that enqueue a [kToRun] event *)

Inductive ToRun_site := at_ProcessIfReady | at_trigger_successor.

Definition at_site (site : ToRun_site) (n : N) : M unit :=
  match site with
  | at_ProcessIfReady => ProcessIfReady n
  | at_trigger_successor => trigger_successor n
  end.

(** The value of [num_triggers_needed] that the test at the site sees, given
    the entry [ri] the node had before: a successor is tested after its
    decrement. *)
Definition triggers_seen (site : ToRun_site) (ri : RuntimeInfo) : Z :=
  match site with
  | at_ProcessIfReady => num_triggers_needed ri
  | at_trigger_successor => num_triggers_needed ri - 1
  end.

(** The scheduler without its trace: two states with the same
    [forget_trace] differ in nothing but what was recorded. *)
Definition forget_trace (s : DagScheduler) : DagScheduler := set_trace (λ _, []) s.

(** [appends P m]: whenever [m] returns, it has only added to the trace, and
    what it added satisfies [P]. *)
Definition appends {A} (P : list Action → Prop) (m : M A) : Prop :=
  ∀ s a s', m s = Ok (a, s') → ∃ t, trace s' = trace s ++ t ∧ P t.

(** A scheduler holding one completed data node, numbered 0, that nothing
    refers to any more: no pending consumer and no frontend handle. *)
Definition lone_completed_node : DagScheduler :=
  mkDagScheduler {[ 0%N := mkDagNode ∅ ∅ (DataBody (mkPhysicalData [4] 0%N 0%N 0)) ]}
    {[ 0%N ]} 1%N 1%N 0%N {[ 0%N := mkRuntimeInfo kCompleted 0 0 ]} [] 0 (-1) [].

(** [a = op0 ()]: one op without inputs and with one result.  The result is
    data node 0, the op is node 1, and [(kToRun, 1)] is in the queue. *)
Definition one_op_created : DagScheduler :=
  Eval vm_compute in after (Create [] [[4]] 7%N) empty_scheduler.

(** The task the dispatcher pushes for node 1 of [one_op_created]. *)
Definition task_of_node_1 : Task :=
  mkTask [] [(mkPhysicalData [4] 0%N 0%N 1, 0%N)] (mkPhysicalOp 7%N 0%N) 1%N.

(** ... the op was dispatched, the device reported it complete twice, and
    the dispatcher has handled the first report: node 1 is [kCompleted] and
    the second report, [(kToComplete, 1)], is at the head of the queue. *)
Definition completion_replayed : DagScheduler :=
  Eval vm_compute in
    after (DispatcherRoutine 1 ;;
           OnOperationComplete task_of_node_1 ;;
           OnOperationComplete task_of_node_1 ;;
           DispatcherRoutine 1) one_op_created.

(** Device memory that reads as zero everywhere. *)
Definition zero_memory : N → N → nat → Byte.byte := λ _ _ _, Byte.x00.

(** ** The claims that the code does not meet, as they are stated *)

(** An allocator that serves every request. *)
Definition ample_memory : Z → bool := λ _, true.

(** [GetValue] is fatal on a data node that is not [kCompleted]. *)
Definition GetValue_fatal_unless_completed (can_alloc : Z → bool)
    (GetPtr : N → N → nat → Byte.byte) (n : N) (s : DagScheduler) : Prop :=
  ∀ ri, rt_info_ s !! n = Some ri → state ri ≠ kCompleted →
    ∃ e, GetValue can_alloc GetPtr (DagChunk n) s = Abort e.

(** A [kToComplete] event for a node that is already [kCompleted] makes the
    dispatcher abort. *)
Definition replay_detected (n : N) (s : DagScheduler) : Prop :=
  ∀ ri, rt_info_ s !! n = Some ri → state ri = kCompleted →
    ∃ e, DispatcherBody (kToComplete, n) s = Abort e.

(** Every action of [Create] is performed while the [MultiNodeLock] is
    held. *)
Definition Create_all_under_lock (params : list BackendChunk)
    (result_sizes : list Scale) (fn : ComputeFn) (s : DagScheduler) : Prop :=
  ∀ ret s', Create params result_sizes fn s = Ok (ret, s') →
    outside_lock false (new_trace s s') = [].

(** The states a waiting thread tests its condition on: the one it starts
    from, and the one it finds at each wake-up after recording its wait. *)
Fixpoint seen_by_waiter (s : DagScheduler) (wakeups : list (DagScheduler → DagScheduler))
    : list DagScheduler :=
  s :: match wakeups with
       | [] => []
       | w :: wakeups' => seen_by_waiter (w (set_trace (λ t, t ++ [AWait]) s)) wakeups'
       end.

(** ** Views of a scheduler state *)

Definition preds_at (s : DagScheduler) (k : N) : gset N :=
  from_option predecessors_ ∅ (heap s !! k).
Definition succs_at (s : DagScheduler) (k : N) : gset N :=
  from_option successors_ ∅ (heap s !! k).
Definition type_at (s : DagScheduler) (k : N) : option NodeType :=
  Type_ <$> heap s !! k.
Definition state_at (s : DagScheduler) (k : N) : option NodeState :=
  state <$> rt_info_ s !! k.
Definition triggers_at (s : DagScheduler) (k : N) : Z :=
  from_option num_triggers_needed 0 (rt_info_ s !! k).

(** The predecessors of [k] that are not [kCompleted]. *)
Definition open_preds (s : DagScheduler) (k : N) : gset N :=
  filter (λ p, state_at s p ≠ Some kCompleted) (preds_at s k).

(** The ids of the tasks pushed to a device, in the order of the pushes. *)
Definition pushed_ids (t : list Action) : list N :=
  omap (λ a, match a with APushTask _ task => Some (task_id task) | _ => None end) t.

(** The ids whose completion the device listener has enqueued. *)
Definition reported_ids (t : list Action) : list N :=
  omap (λ a, match a with AQueuePush (kToComplete, k) => Some k | _ => None end) t.

(** The ids of the [kToRun], and of the [kToComplete], events of a queue. *)
Definition torun_ids (q : list (TaskType * N)) : list N :=
  omap (λ ev, match ev.1 with kToRun => Some ev.2 | kToComplete => None end) q.
Definition tocomplete_ids (q : list (TaskType * N)) : list N :=
  omap (λ ev, match ev.1 with kToComplete => Some ev.2 | kToRun => None end) q.

(** A node is activated once a [kToRun] event for it is in the queue or its
    task was pushed. *)
Definition activated (s : DagScheduler) (k : N) : Prop :=
  k ∈ pushed_ids (trace s) ∨ k ∈ torun_ids (dispatcher_queue_ s).

(** ** The scheduler as a transition system

    The threads of the system interleave at the granularity of the member
    functions: the frontend calls [Create], changes the handle count of a
    data node and calls [OnExternRCUpdate], and waits; the dispatcher
    thread runs one iteration of its loop; a device reports, once, the
    completion of a task that was pushed to it. *)

Definition set_extern_rc (x : Z) (node : DagNode) : DagNode :=
  mkDagNode (predecessors_ node) (successors_ node)
    match body node with
    | DataBody d => DataBody (mkPhysicalData (data_size d) (device_id d) (data_id d) x)
    | b => b
    end.

Definition is_wait_action (a : Action) : bool :=
  match a with AFinishLock | AFinishUnlock | AWait => true | _ => false end.

Inductive step : DagScheduler → DagScheduler → Prop :=
| step_Create params result_sizes fn s ret s' :
    Create params result_sizes fn s = Ok (ret, s') →
    step s s'
| step_Dispatcher s s' :
    DispatcherRoutine 1 s = Ok (tt, s') →
    step s s'
| step_OnOperationComplete device task s s' :
    APushTask device task ∈ trace s →
    task_id task ∉ reported_ids (trace s) →
    OnOperationComplete task s = Ok (tt, s') →
    step s s'
| step_handle n x s :
    step s (set_heap (alter (set_extern_rc x) n) s)
| step_OnExternRCUpdate n s s' :
    OnExternRCUpdate n s = Ok (tt, s') →
    step s s'
| step_wait t acts s :
    Forall (λ a, is_wait_action a = true) acts →
    step s (set_trace (λ tr, tr ++ acts) (set_target t s)).

(** A scheduler as its constructor leaves it: nothing in the DAG, nothing
    queued, nothing recorded. *)
Definition initial (s : DagScheduler) : Prop :=
  heap s = ∅ ∧ index_to_node_ s = ∅ ∧ rt_info_ s = ∅ ∧
  dispatcher_queue_ s = [] ∧ trace s = [].

Definition reachable (s : DagScheduler) : Prop :=
  ∃ s0, initial s0 ∧ rtc step s0 s.

(** ** The invariant of the scheduler

    [GInv D pend s] holds inside a critical section of the dispatcher: [D]
    are the nodes taken out of the DAG whose objects are not deleted yet,
    and [pend] are the successors of the node being completed whose
    [num_triggers_needed] still counts it.  Between the steps of the
    system both sets are empty. *)
Record GInv (D pend : gset N) (s : DagScheduler) : Prop := mkGInv {
  g_heap_dom : dom (heap s) = index_to_node_ s ∪ D;
  g_removed : D ## index_to_node_ s;
  g_rt_dom : dom (rt_info_ s) = index_to_node_ s;
  g_fresh : ∀ k, k ∈ dom (heap s) → (k < next_node_id s)%N;
  g_pushed_fresh : ∀ k, k ∈ pushed_ids (trace s) → (k < next_node_id s)%N;
  g_preds : ∀ k p, k ∈ index_to_node_ s → p ∈ preds_at s k →
      p ∈ index_to_node_ s ∧ k ∈ succs_at s p;
  g_succs : ∀ k x, k ∈ index_to_node_ s → x ∈ succs_at s k →
      x ∈ index_to_node_ s ∧ k ∈ preds_at s x;
  g_queue : ∀ ev, ev ∈ dispatcher_queue_ s →
      ev.2 ∈ index_to_node_ s ∧ state_at s ev.2 = Some kReady;
  g_reported : ∀ k, k ∈ tocomplete_ids (dispatcher_queue_ s) →
      k ∈ reported_ids (trace s);
  g_reported_pushed : ∀ k, k ∈ reported_ids (trace s) → k ∈ pushed_ids (trace s);
  g_running : ∀ k, k ∈ pushed_ids (trace s) → k ∉ reported_ids (trace s) →
      k ∈ index_to_node_ s ∧ state_at s k = Some kReady;
  g_nodup : NoDup (pushed_ids (trace s) ++ torun_ids (dispatcher_queue_ s));
  g_nodup_complete : NoDup (tocomplete_ids (dispatcher_queue_ s));
  g_activated : ∀ k p, activated s k → k ∈ index_to_node_ s → p ∈ preds_at s k →
      state_at s p = Some kCompleted;
  g_triggers : ∀ k, k ∈ index_to_node_ s → state_at s k ≠ Some kCompleted →
      Z.of_nat (size (open_preds s k)) + (if decide (k ∈ pend) then 1 else 0)
      ≤ triggers_at s k;
  g_pend : ∀ x, x ∈ pend → ¬ activated s x
}.

Definition Inv (s : DagScheduler) : Prop := GInv ∅ ∅ s.

(** The invariant reads the trace only through [pushed_ids] and
    [reported_ids]; two states with the same core are the same to it. *)
Definition same_core (s s' : DagScheduler) : Prop :=
  heap s = heap s' ∧ index_to_node_ s = index_to_node_ s' ∧
  rt_info_ s = rt_info_ s' ∧ dispatcher_queue_ s = dispatcher_queue_ s' ∧
  next_node_id s = next_node_id s' ∧
  pushed_ids (trace s) = pushed_ids (trace s') ∧
  reported_ids (trace s) = reported_ids (trace s').

(** A stretch of trace without pushes to a device and without reports. *)
Definition quiet (t : list Action) : Prop := pushed_ids t = [] ∧ reported_ids t = [].

(** A node leaves the DAG: what [RemoveNodeFromDag] and [OnDeleteNode] do
    to the state, the trace aside. *)
Definition remove_core (n : N) (node : DagNode) (s : DagScheduler) : DagScheduler :=
  set_rt_info (delete n) (set_index (λ idx, idx ∖ {[n]}) (set_heap (detach n node) s)).

(** [shrinks s s']: from [s] to [s'] nodes were at most taken out of the
    DAG.  No state of a node changed, no edge and no event was added, and
    an edge is gone only where its target left the DAG. *)
Record shrinks (s s' : DagScheduler) : Prop := mkShrinks {
  sh_index : index_to_node_ s' ⊆ index_to_node_ s;
  sh_state : ∀ k st, state_at s' k = Some st → state_at s k = Some st;
  sh_preds : ∀ k, preds_at s' k ⊆ preds_at s k;
  sh_succs : ∀ k, succs_at s' k ⊆ succs_at s k;
  sh_succs_gone : ∀ k x, x ∈ succs_at s k → x ∈ succs_at s' k ∨ x ∉ index_to_node_ s';
  sh_queue : dispatcher_queue_ s' = dispatcher_queue_ s;
  sh_pushed : pushed_ids (trace s') = pushed_ids (trace s);
  sh_reported : reported_ids (trace s') = reported_ids (trace s)
}.

(** [grows Old s s']: from [s] to [s'] the nodes of [Old] kept their
    predecessors, their state and their [num_triggers_needed], and lost no
    successor; nothing was queued, pushed or reported; the id counter did
    not go back. *)
Record grows (Old : gset N) (s s' : DagScheduler) : Prop := mkGrows {
  gr_next : (next_node_id s ≤ next_node_id s')%N;
  gr_queue : dispatcher_queue_ s' = dispatcher_queue_ s;
  gr_pushed : pushed_ids (trace s') = pushed_ids (trace s);
  gr_reported : reported_ids (trace s') = reported_ids (trace s);
  gr_heap_dom : dom (heap s) ⊆ dom (heap s');
  gr_index : index_to_node_ s ⊆ index_to_node_ s';
  gr_rt_dom : dom (rt_info_ s) ⊆ dom (rt_info_ s');
  gr_preds : ∀ j, j ∈ Old → preds_at s' j = preds_at s j;
  gr_succs : ∀ j, j ∈ Old → succs_at s j ⊆ succs_at s' j;
  gr_state : ∀ j, j ∈ Old → state_at s' j = state_at s j;
  gr_triggers : ∀ j, j ∈ Old → triggers_at s' j = triggers_at s j
}.

(** What a phase of [Create] leaves alone: [quiet_step] when it neither
    queues, pushes nor reports; [same_dag] when on top it leaves the DAG
    alone; [same_rt] when on top it leaves the runtime info alone. *)
Definition quiet_step (s s' : DagScheduler) : Prop :=
  dispatcher_queue_ s' = dispatcher_queue_ s ∧
  pushed_ids (trace s') = pushed_ids (trace s) ∧
  reported_ids (trace s') = reported_ids (trace s).

Definition same_dag (s s' : DagScheduler) : Prop :=
  heap s' = heap s ∧ index_to_node_ s' = index_to_node_ s ∧
  next_node_id s' = next_node_id s ∧ quiet_step s s'.

Definition same_rt (s s' : DagScheduler) : Prop :=
  rt_info_ s' = rt_info_ s ∧ quiet_step s s'.

(** The two loops of [Create] over its arguments, as it runs them. *)
Definition new_result_nodes (device : N) (result_sizes : list Scale) : M (list N) :=
  Map (λ sz, d ← GenerateDataId; NewDataNode (mkPhysicalData sz device d 0)) result_sizes.

Definition param_nodes (params : list BackendChunk) : M (list N) :=
  Map (λ i, match i with
            | DagChunk n => mret n
            | ForeignChunk => abort CheckNotNull
            end) params.

(** [a = op0 (); b = op1 (a)], run up to the dispatch of [op1]: the states
    after each step.  Data node 0 and op node 1 are [a] and [op0], data node
    2 and op node 3 are [b] and [op1]. *)
Definition chain_created : DagScheduler :=
  Eval vm_compute in after (Create [DagChunk 0%N] [[4]] 8%N) one_op_created.
Definition chain_op0_pushed : DagScheduler :=
  Eval vm_compute in after (DispatcherRoutine 1) chain_created.
Definition chain_op0_reported : DagScheduler :=
  Eval vm_compute in after (OnOperationComplete task_of_node_1) chain_op0_pushed.
Definition chain_op0_completed : DagScheduler :=
  Eval vm_compute in after (DispatcherRoutine 1) chain_op0_reported.
Definition chain_a_completed : DagScheduler :=
  Eval vm_compute in after (DispatcherRoutine 1) chain_op0_completed.

(** [a = op0 (); b = op1 (a, a)]: the same run with [a] given twice to
    [op1], up to the completion of [a]. *)
Definition twice_created : DagScheduler :=
  Eval vm_compute in after (Create [DagChunk 0%N; DagChunk 0%N] [[4]] 8%N) one_op_created.
Definition twice_op0_pushed : DagScheduler :=
  Eval vm_compute in after (DispatcherRoutine 1) twice_created.
Definition twice_op0_reported : DagScheduler :=
  Eval vm_compute in after (OnOperationComplete task_of_node_1) twice_op0_pushed.
Definition twice_op0_completed : DagScheduler :=
  Eval vm_compute in after (DispatcherRoutine 1) twice_op0_reported.
Definition twice_a_completed : DagScheduler :=
  Eval vm_compute in after (DispatcherRoutine 1) twice_op0_completed.

(** An op node that waits in the DAG is on its way to a device (its
    [kToRun] event is queued or its task was pushed) exactly when all its
    predecessors are [kCompleted]. *)
Definition dispatched_iff_inputs_completed (s : DagScheduler) : Prop :=
  ∀ k, k ∈ index_to_node_ s → type_at s k = Some kOpNode →
    state_at s k = Some kReady →
    (activated s k ↔ ∀ p, p ∈ preds_at s k → state_at s p = Some kCompleted).

(** ** Views for the completion of a node *)

(** The [data_] of a data node, and the [reference_count] of a node. *)
Definition data_at (s : DagScheduler) (k : N) : option PhysicalData :=
  match body <$> heap s !! k with
  | Some (DataBody d) => Some d
  | _ => None
  end.
Definition rc_at (s : DagScheduler) (k : N) : option Z :=
  reference_count <$> rt_info_ s !! k.

(** The actions that take a node out of the scheduler. *)
Definition is_reclaim_action (a : Action) : bool :=
  match a with
  | AFreeData _ | ARemoveNodeFromDag _ | ARemoveNode _ => true
  | _ => false
  end.
Definition reclaim_free (t : list Action) : Prop :=
  Forall (λ a, is_reclaim_action a = false) t.

(** [keeps_counts s s']: from [s] to [s'] no node left or joined the DAG
    and no state, [reference_count] or node body changed. *)
Definition keeps_counts (s s' : DagScheduler) : Prop :=
  index_to_node_ s' = index_to_node_ s ∧
  (∀ k, body <$> heap s' !! k = body <$> heap s !! k) ∧
  ∀ k, (λ ri, (state ri, reference_count ri)) <$> rt_info_ s' !! k
       = (λ ri, (state ri, reference_count ri)) <$> rt_info_ s !! k.

(** What the completion of an op node does to its predecessor [p], read
    off the states [s] before and [s'] after, the stretch [tr] of trace in
    between, and [deleted], the node objects that get deleted: with the
    counters [p] has in [s], its [num_triggers_needed] is 0, and either its
    [reference_count] is 1 and its [extern_rc] is 0, and then its device
    storage is freed and it leaves the DAG and the runtime-info map; or it
    stays, with its [reference_count] one less. *)
Definition input_released (s s' : DagScheduler) (tr : list Action)
    (deleted : N → Prop) (p : N) : Prop :=
  ∃ ri d, rt_info_ s !! p = Some ri ∧ data_at s p = Some d ∧
    num_triggers_needed ri = 0 ∧
    if decide (reference_count ri - 1 = 0 ∧ extern_rc d = 0)
    then AFreeData (data_id d) ∈ tr ∧ ARemoveNodeFromDag p ∈ tr ∧
         (p ∉ index_to_node_ s') ∧ rt_info_ s' !! p = None ∧ deleted p
    else (ARemoveNodeFromDag p ∉ tr) ∧
         (p ∈ index_to_node_ s' ↔ p ∈ index_to_node_ s) ∧
         rc_at s' p = Some (reference_count ri - 1) ∧ ¬ deleted p.

(** Device storage is freed in [tr] only for nodes of [l] that had, in [s],
    [reference_count] 1 and [extern_rc] 0. *)
Definition frees_only_released (s : DagScheduler) (tr : list Action) (l : N → Prop) : Prop :=
  ∀ x, AFreeData x ∈ tr →
    ∃ p ri d, l p ∧ rt_info_ s !! p = Some ri ∧ data_at s p = Some d ∧
      x = data_id d ∧ reference_count ri - 1 = 0 ∧ extern_rc d = 0.

(** The run of [a = op0 (); b = op1 (a)] goes on: [op1] is pushed and
    reported complete.  Then the frontend drops its handle of [a]; the
    report of [op1] is at the head of the dispatcher queue. *)
Definition task_of_node_3 : Task :=
  mkTask [(mkPhysicalData [4] 0%N 0%N 1, 0%N)] [(mkPhysicalData [4] 0%N 1%N 1, 2%N)]
    (mkPhysicalOp 8%N 0%N) 3%N.
Definition chain_op1_pushed : DagScheduler :=
  Eval vm_compute in after (DispatcherRoutine 1) chain_a_completed.
Definition chain_op1_reported : DagScheduler :=
  Eval vm_compute in after (OnOperationComplete task_of_node_3) chain_op1_pushed.
Definition chain_a_dropped : DagScheduler :=
  Eval vm_compute in set_heap (alter (set_extern_rc 0) 0%N) chain_op1_reported.

(** [chain_a_dropped] where the loop over the predecessors of op node 3
    starts: the dispatcher has taken the report off its queue, locked the
    node and set its state. *)
Definition chain_op1_completing : DagScheduler :=
  Eval vm_compute in
    after (MultiNodeLock 3%N ;; At_update 3%N (set_state kCompleted))
      (set_queue (λ _, []) chain_a_dropped).

(** [op0 ()] with no result at all: op node 0, pushed and reported
    complete, the report taken off the queue. *)
Definition task_of_lone_op : Task := mkTask [] [] (mkPhysicalOp 7%N 0%N) 0%N.
Definition lone_op_reported : DagScheduler :=
  Eval vm_compute in
    set_queue (λ _, [])
      (after (Create [] [] 7%N ;; DispatcherRoutine 1 ;; OnOperationComplete task_of_lone_op)
         empty_scheduler).

(** [chain_op0_completed] once the dispatcher has taken [(kToRun, 0)], the
    event of data node [a], off its queue. *)
Definition chain_a_completing : DagScheduler :=
  Eval vm_compute in set_queue (λ _, []) chain_op0_completed.


(** ** The count of unfinished work *)

(** The tasks that are on a device: pushed, and not reported complete
    yet. *)
Definition running (s : DagScheduler) : Z :=
  Z.of_nat (length (pushed_ids (trace s))) - Z.of_nat (length (reported_ids (trace s))).

(** By how much [num_nodes_yet_to_finish_] exceeds the events that wait in
    the queue and the tasks that are on a device. *)
Definition surplus (s : DagScheduler) : Z :=
  num_nodes_yet_to_finish_ s - Z.of_nat (length (dispatcher_queue_ s)) - running s.

(** [shifts d m]: whenever [m] returns, it has moved [surplus] by [d]. *)
Definition shifts {A} (d : Z) (m : M A) : Prop :=
  ∀ s a s', m s = Ok (a, s') → surplus s' = surplus s + d.

(** A scheduler as its constructor leaves it: [initial], with
    [num_nodes_yet_to_finish_] set to 0. *)
Definition constructed (s : DagScheduler) : Prop :=
  initial s ∧ num_nodes_yet_to_finish_ s = 0.

Definition run_from_constructor (s : DagScheduler) : Prop :=
  ∃ s0, constructed s0 ∧ rtc step s0 s.

(** [keeps f m]: whenever [m] returns, the view [f] of the scheduler is as
    it was. *)
Definition keeps {X A} (f : DagScheduler → X) (m : M A) : Prop :=
  ∀ s a s', m s = Ok (a, s') → f s' = f s.

(** ** Views for the waiting threads *)

(** The actions on [finish_mutex_] and [finish_cond_]. *)
Definition is_finish_action (a : Action) : bool :=
  match a with
  | AFinishLock | AFinishUnlock | AWait | ANotifyAll => true
  | _ => false
  end.
Definition finish_free (t : list Action) : Prop :=
  Forall (λ a, is_finish_action a = false) t.

(** ** Views for the removal of nodes *)

(** The nodes taken out of the DAG, in the order of their removal. *)
Definition removed_ids (t : list Action) : list N :=
  omap (λ a, match a with ARemoveNodeFromDag k => Some k | _ => None end) t.

(** The data ids handed to [dm_->FreeData], in the order of the calls. *)
Definition freed_ids (t : list Action) : list N :=
  omap (λ a, match a with AFreeData d => Some d | _ => None end) t.

(** The node objects deleted, in the order of the deletions. *)
Definition deleted_ids (t : list Action) : list N :=
  omap (λ a, match a with ADelete k => Some k | _ => None end) t.

(** The data id that the node object [k] holds, if it is a data node. *)
Definition body_data_id (b : NodeBody) : option N :=
  match b with
  | DataBody d => Some (data_id d)
  | OpBody _ _ _ => None
  end.
Definition data_id_at (s : DagScheduler) (k : N) : option N :=
  x ← heap s !! k; body_data_id (body x).

(** What the reclamation keeps true: no node leaves the DAG twice and none
    comes back; no data id is freed twice, and none that a node of the DAG
    holds; the data nodes of the DAG hold different data ids; node ids and
    data ids in use are below their counters. *)
Definition Reclaim (s : DagScheduler) : Prop :=
  NoDup (removed_ids (trace s)) ∧
  (∀ k, k ∈ removed_ids (trace s) → (k ∉ index_to_node_ s) ∧ (k < next_node_id s)%N) ∧
  (∀ k, k ∈ index_to_node_ s → (k < next_node_id s)%N) ∧
  NoDup (freed_ids (trace s)) ∧
  (∀ d, d ∈ freed_ids (trace s) →
     (d < next_data_id s)%N ∧ ∀ k, k ∈ index_to_node_ s → data_id_at s k ≠ Some d) ∧
  (∀ k d, k ∈ index_to_node_ s → data_id_at s k = Some d → (d < next_data_id s)%N) ∧
  (∀ k k' d, k ∈ index_to_node_ s → k' ∈ index_to_node_ s →
     data_id_at s k = Some d → data_id_at s k' = Some d → k = k').

(** A stretch of trace in which no node leaves the DAG and no node object
    is deleted. *)
Definition undeleting (t : list Action) : Prop :=
  removed_ids t = [] ∧ deleted_ids t = [].

(** [hands_over R m]: whenever [m] returns [a], it has only added to the
    trace, it deleted no node object, and the nodes [l] it took out of the
    DAG are related to [a] by [R]. *)
Definition hands_over {A} (R : A → list N → Prop) (m : M A) : Prop :=
  ∀ s a s', m s = Ok (a, s') →
    ∃ t, trace s' = trace s ++ t ∧ deleted_ids t = [] ∧ R a (removed_ids t).

(** [balanced m]: whenever [m] returns, the node objects it deleted are the
    nodes it took out of the DAG, in the same order. *)
Definition balanced {A} (m : M A) : Prop :=
  ∀ s a s', m s = Ok (a, s') →
    ∃ t, trace s' = trace s ++ t ∧ deleted_ids t = removed_ids t.

Definition maintains {A} (I : DagScheduler → Prop) (m : M A) : Prop :=
  ∀ s a s', I s → m s = Ok (a, s') → I s'.

(** ** Views for [Create] *)

(** How often [p] occurs among the input handles. *)
Definition occurrences (p : N) (ps : list N) : Z :=
  Z.of_nat (length (filter (λ q, q = p) ps)).

(** The inputs, with repetition, that are not [kCompleted] in [s]. *)
Definition pending_inputs (s : DagScheduler) (ps : list N) : list N :=
  filter (λ p, state_at s p ≠ Some kCompleted) ps.

(** The ids [Create] gives to its [k] results in [s]; the op node gets the
    next one. *)
Definition result_ids (s : DagScheduler) (k : nat) : list N :=
  map (λ i, (next_node_id s + N.of_nat i)%N) (seq 0 k).

(** The run of [a = op0 (); b = op1 (a)] to the end of [op1], with the
    handle of [a] still held: the dispatcher handles the report of [op1],
    which leaves [a] without a pending consumer.  Then the frontend drops
    the handle and tells the scheduler, which reclaims [a]. *)
Definition chain_op1_completed : DagScheduler :=
  Eval vm_compute in after (DispatcherRoutine 1) chain_op1_reported.
Definition chain_a_released : DagScheduler :=
  Eval vm_compute in set_heap (alter (set_extern_rc 0) 0%N) chain_op1_completed.
Definition chain_a_reclaimed : DagScheduler :=
  Eval vm_compute in after (OnExternRCUpdate 0%N) chain_a_released.

(** ** The ways in which the completion of a node ends the process *)

(** The messages of the checks of the completion arm of the dispatcher:
    on the [reference_count] of a completed op node, on the
    [num_triggers_needed] of a predecessor, and on the number of
    predecessors of a data node. *)
Definition completion_checks : list string :=
  ["op node generated but not needed";
   "#triggers incorrect for a completed data node";
   "data node should have no more than one predecessor";
   "#triggers incorrect for a completed op node"]%string.

(** A look-up of a node that is gone, a node of the wrong kind, one of the
    checks above, or the loop over the predecessors run into an erased
    element; not a test of a state. *)
Definition completion_fatal (e : Fatal) : Prop :=
  match e with
  | NoSuchNode _ | NoRuntimeInfo _ | Dangling _ | CheckNotNull => True
  | CheckFailed msg => msg ∈ completion_checks
  | Undefined what => what = "iterator into predecessors_ advanced after erase"%string
  | LogFatal _ | BadArrayNewLength | BadAlloc => False
  end.

(** [aborts_with P m]: whenever [m] ends the process, it does so in one of
    the ways [P]. *)
Definition aborts_with {A} (P : Fatal → Prop) (m : M A) : Prop :=
  ∀ s e, m s = Abort e → P e.

(** A stretch of trace with no action in it. *)
Definition silent (t : list Action) : Prop := t = [].


(** * Reasoning about computations *)

Section Inversion.
Context {A B : Type}.

Lemma bind_Ok (m : M A) (f : A → M B) s r :
  (m ≫= f) s = Ok r ↔ ∃ a s1, m s = Ok (a, s1) ∧ f a s1 = Ok r.
Proof.
  unfold mbind, M_bind. split.
  - destruct (m s) as [[a s1]|e]; [eauto | discriminate].
  - intros (a & s1 & -> & H). exact H.
Qed.

Lemma bind_Abort (m : M A) (f : A → M B) s e :
  (m ≫= f) s = Abort e ↔
  m s = Abort e ∨ ∃ a s1, m s = Ok (a, s1) ∧ f a s1 = Abort e.
Proof.
  unfold mbind, M_bind. split.
  - destruct (m s) as [[a s1]|e']; [eauto | intros [= ->]; by left].
  - intros [-> | (a & s1 & -> & H)]; done.
Qed.

Lemma bind_eq (m : M A) (f : A → M B) s a s1 :
  m s = Ok (a, s1) → (m ≫= f) s = f a s1.
Proof. unfold mbind, M_bind. by intros ->. Qed.

Lemma mret_Ok (a : A) s r : (mret a : M A) s = Ok r ↔ r = (a, s).
Proof. unfold mret, M_ret. split; [by intros [= <-] | by intros ->]. Qed.

Lemma gets_Ok (f : DagScheduler → A) s r : gets f s = Ok r ↔ r = (f s, s).
Proof. unfold gets. split; [by intros [= <-] | by intros ->]. Qed.

Lemma abort_Ok e s (r : A * DagScheduler) : abort e s = Ok r ↔ False.
Proof. unfold abort. split; [discriminate | done]. Qed.
End Inversion.

Lemma emit_Ok a s r : emit a s = Ok r ↔ r = (tt, set_trace (λ t, t ++ [a]) s).
Proof. unfold emit, modify. split; [by intros [= <-] | by intros ->]. Qed.

Lemma modify_Ok f s r : modify f s = Ok r ↔ r = (tt, f s).
Proof. unfold modify. split; [by intros [= <-] | by intros ->]. Qed.

Lemma CHECK_Ok b msg s r : CHECK b msg s = Ok r ↔ b = true ∧ r = (tt, s).
Proof.
  unfold CHECK. destruct b.
  - rewrite mret_Ok. split; [done | by intros [_ ->]].
  - rewrite abort_Ok. split; [done | by intros [? _]].
Qed.

Lemma At_Ok n s r : At n s = Ok r ↔ ∃ ri, rt_info_ s !! n = Some ri ∧ r = (ri, s).
Proof.
  unfold At. destruct (rt_info_ s !! n) as [ri|].
  - split; [intros [= <-]; eauto | by intros (? & [= <-] & ->)].
  - split; [discriminate | by intros (? & ? & _)].
Qed.

Lemma deref_Ok n s r : deref n s = Ok r ↔ ∃ x, heap s !! n = Some x ∧ r = (x, s).
Proof.
  unfold deref. destruct (heap s !! n) as [x|].
  - split; [intros [= <-]; eauto | by intros (? & [= <-] & ->)].
  - split; [discriminate | by intros (? & ? & _)].
Qed.

(** [inv_M H] takes apart a hypothesis [H : m s = Ok r] along the binds of
    [m], down to the primitives. *)
Ltac inv_M H :=
  lazymatch type of H with
  | (_ ≫= _) _ = Ok _ =>
      let a := fresh "a" in let s := fresh "s" in
      let H1 := fresh "H" in let H2 := fresh "H" in
      apply bind_Ok in H; destruct H as (a & s & H1 & H2); inv_M H1; inv_M H2
  | mret _ _ = Ok _ => apply mret_Ok in H; simplify_eq/=
  | emit _ _ = Ok _ => apply emit_Ok in H; simplify_eq/=
  | modify _ _ = Ok _ => apply modify_Ok in H; simplify_eq/=
  | gets _ _ = Ok _ => apply gets_Ok in H; simplify_eq/=
  | abort _ _ = Ok _ => apply abort_Ok in H; destruct H
  | CHECK _ _ _ = Ok _ => apply CHECK_Ok in H; destruct H as [H ?]; simplify_eq/=
  | At _ _ = Ok _ => apply At_Ok in H; destruct H as (? & H & ?); simplify_eq/=
  | deref _ _ = Ok _ => apply deref_Ok in H; destruct H as (? & H & ?); simplify_eq/=
  | GetState _ _ = Ok _ => unfold GetState in H; inv_M H
  | At_update _ _ _ = Ok _ => unfold At_update in H; inv_M H
  | incr_yet_to_finish _ = Ok _ => unfold incr_yet_to_finish in H; inv_M H
  | decr_yet_to_finish _ = Ok _ => unfold decr_yet_to_finish in H; inv_M H
  | Push _ _ = Ok _ => unfold Push in H; inv_M H
  | Unlock _ = Ok _ => unfold Unlock in H; inv_M H
  | MultiNodeLock _ _ = Ok _ => unfold MultiNodeLock in H; inv_M H
  | AddNode _ _ = Ok _ => unfold AddNode in H; inv_M H
  | RemoveNode _ _ = Ok _ => unfold RemoveNode in H; inv_M H
  | OnCreateNode _ _ = Ok _ => unfold OnCreateNode in H; inv_M H
  | OnDeleteNode _ _ = Ok _ => unfold OnDeleteNode in H; inv_M H
  | Delete _ _ = Ok _ => unfold Delete in H; inv_M H
  | GetNode _ _ = Ok _ => unfold GetNode in H; inv_M H
  | as_data_node _ _ = Ok _ => unfold as_data_node in H; inv_M H
  | FreeDataNodeRes _ _ = Ok _ => unfold FreeDataNodeRes in H; inv_M H
  | RemoveNodeFromDag _ _ = Ok _ => unfold RemoveNodeFromDag in H; inv_M H
  | (if decide ?P then _ else _) _ = Ok _ => destruct (decide P); inv_M H
  | (match body ?x with _ => _ end) _ = Ok _ => destruct (body x) eqn:?; inv_M H
  | _ => idtac
  end.

(** Turn the boolean tests that [CHECK] leaves behind into propositions. *)
Ltac clean_checks :=
  repeat match goal with
  | H : bool_decide _ = true |- _ => apply bool_decide_eq_true in H
  | H : negb (bool_decide _) = true |- _ =>
      apply negb_true_iff, bool_decide_eq_false in H
  end.

Lemma new_trace_app s s' t : trace s' = trace s ++ t → new_trace s s' = t.
Proof. unfold new_trace. intros ->. apply drop_app_length. Qed.

Lemma new_trace_refl s : new_trace s s = [].
Proof. apply new_trace_app. by rewrite app_nil_r. Qed.

(** ** What a computation appends to the trace *)

Section Appends.
Variable P : list Action → Prop.
Hypothesis P_nil : P [].
Hypothesis P_app : ∀ t1 t2, P t1 → P t2 → P (t1 ++ t2).

Lemma appends_ret {A} (a : A) : appends P (mret a).
Proof. intros s a' s' H. inv_M H. exists []. by rewrite app_nil_r. Qed.

Lemma appends_abort {A} e : appends P (abort e : M A).
Proof. intros s a' s' H. inv_M H. Qed.

Lemma appends_bind {A B} (m : M A) (f : A → M B) :
  appends P m → (∀ a, appends P (f a)) → appends P (m ≫= f).
Proof.
  intros Hm Hf s b s' H. apply bind_Ok in H as (a & s1 & H1 & H2).
  destruct (Hm _ _ _ H1) as (t1 & E1 & ?), (Hf _ _ _ _ H2) as (t2 & E2 & ?).
  exists (t1 ++ t2). rewrite E2, E1, app_assoc. auto.
Qed.

Lemma appends_gets {A} (f : DagScheduler → A) : appends P (gets f).
Proof. intros s a' s' H. inv_M H. exists []. by rewrite app_nil_r. Qed.

Lemma appends_modify f : (∀ s, trace (f s) = trace s) → appends P (modify f).
Proof. intros Hf s a' s' H. inv_M H. exists []. by rewrite Hf, app_nil_r. Qed.

Lemma appends_emit a : P [a] → appends P (emit a).
Proof. intros Ha s a' s' H. inv_M H. eauto. Qed.

Lemma appends_CHECK b msg : appends P (CHECK b msg).
Proof. intros s a' s' H. inv_M H. exists []. by rewrite app_nil_r. Qed.

Lemma appends_At n : appends P (At n).
Proof. intros s a' s' H. inv_M H. exists []. by rewrite app_nil_r. Qed.

Lemma appends_deref n : appends P (deref n).
Proof. intros s a' s' H. inv_M H. exists []. by rewrite app_nil_r. Qed.

Lemma appends_Iter {A} (f : A → M unit) v :
  (∀ x, appends P (f x)) → appends P (Iter f v).
Proof.
  intros Hf. induction v as [|x v IH]; simpl.
  - apply appends_ret.
  - apply appends_bind; auto.
Qed.

Lemma appends_Map {A B} (f : A → M B) v :
  (∀ x, appends P (f x)) → appends P (Map f v).
Proof.
  intros Hf. induction v as [|x v IH]; simpl.
  - apply appends_ret.
  - apply appends_bind; [auto|]. intros y.
    apply appends_bind; [auto|]. intros ys. apply appends_ret.
Qed.

Lemma appends_Collect {A B} (f : A → M (list B)) v :
  (∀ x, appends P (f x)) → appends P (Collect f v).
Proof.
  intros Hf. induction v as [|x v IH]; simpl.
  - apply appends_ret.
  - apply appends_bind; [auto|]. intros y.
    apply appends_bind; [auto|]. intros ys. apply appends_ret.
Qed.
End Appends.

(** [solve_appends] proves [appends P m] by following the structure of [m],
    given [P []] and closure of [P] under [++] as the hypotheses [Hnil] and
    [Happ], and a tactic for [P [a]]. *)
Ltac solve_appends Hnil Happ one :=
  repeat first
    [ apply (appends_bind _ Happ); [|intros ?]
    | apply (appends_ret _ Hnil)
    | apply appends_abort
    | apply (appends_gets _ Hnil)
    | apply (appends_modify _ Hnil); intros ?; reflexivity
    | apply appends_emit; one
    | apply (appends_CHECK _ Hnil)
    | apply (appends_At _ Hnil)
    | apply (appends_deref _ Hnil)
    | apply (appends_Iter _ Hnil Happ); intros ?
    | apply (appends_Map _ Hnil Happ); intros ?
    | apply (appends_Collect _ Hnil Happ); intros ?
    | match goal with
      | |- appends _ (if ?c then _ else _) => destruct c
      | |- appends _ (match ?c with _ => _ end) => destruct c
      | |- appends _ (?f _ _ _ _) => unfold f
      | |- appends _ (?f _ _ _) => unfold f
      | |- appends _ (?f _ _) => unfold f
      | |- appends _ (?f _) => unfold f
      | |- appends _ ?f => unfold f
      end ].

Lemma lock_free_nil : lock_free [].
Proof. constructor. Qed.

Lemma lock_free_app t1 t2 : lock_free t1 → lock_free t2 → lock_free (t1 ++ t2).
Proof. apply Forall_app_2. Qed.

Ltac lock_free_one := by repeat constructor.

Lemma outside_lock_free held t :
  lock_free t → outside_lock held t = if held then [] else t.
Proof.
  induction 1 as [|a t Ha _ IH]; simpl; [by destruct held|].
  destruct a; try discriminate; destruct held; simpl; by rewrite ?IH.
Qed.

Lemma outside_lock_app_free t1 t2 :
  lock_free t1 → outside_lock false (t1 ++ t2) = t1 ++ outside_lock false t2.
Proof.
  induction 1 as [|a t Ha _ IH]; simpl; [done|].
  destruct a; try discriminate; simpl; by rewrite IH.
Qed.

(** ** The loop over the predecessors of a completed op node *)

(** A round of the loop that returns did what [release_predecessor] does,
    and left [p] among the predecessors of the node. *)
Lemma release_live_Ok n p s del s' :
  release_live n p s = Ok (del, s') →
  release_predecessor p s = Ok (del, s') ∧
  ∃ now, heap s' !! n = Some now ∧ p ∈ predecessors_ now.
Proof.
  intros H. unfold release_live in H.
  apply bind_Ok in H as (del0 & s1 & H1 & H).
  apply bind_Ok in H as (now & s2 & H2 & H).
  unfold deref in H2. destruct (heap s1 !! n) as [x|] eqn:Hx; [|discriminate].
  injection H2 as <- <-.
  destruct (decide (p ∈ predecessors_ x)) as [Hin|]; [|discriminate].
  injection H as <- <-. eauto.
Qed.

Lemma Collect_release_live_Ok n l : ∀ s del s',
  Collect (release_live n) l s = Ok (del, s') →
  Collect release_predecessor l s = Ok (del, s').
Proof.
  induction l as [|p l IH]; intros s del s' H; simpl in *; [done|].
  apply bind_Ok in H as (ys & s1 & H1 & H).
  apply bind_Ok in H as (zs & s2 & H2 & H).
  apply release_live_Ok in H1 as [H1 _]. apply IH in H2.
  apply bind_Ok. exists ys, s1. split; [done|].
  apply bind_Ok. by exists zs, s2.
Qed.


(** * Readiness: where a [kToRun] event is enqueued *)

(** C6: at both places that enqueue a [kToRun] event, [ProcessIfReady] and
    the loop over the successors of a completed node, the event is enqueued
    exactly when the node is in state [kReady] and its
    [num_triggers_needed] (after the decrement, for a successor) is 0, and
    then [num_nodes_yet_to_finish_] is incremented by 1 just before the
    push. *)
Theorem ToRun_enqueued_when_ready (site : ToRun_site) (n : N) (s s' : DagScheduler)
    (Hrun : at_site site n s = Ok (tt, s')) :
  ∃ ri, rt_info_ s !! n = Some ri ∧
    let ready := state ri = kReady ∧ triggers_seen site ri = 0 in
    (AQueuePush (kToRun, n) ∈ new_trace s s' ↔ ready) ∧
    (ready →
       (∃ before, new_trace s s' = before ++ [AIncYetToFinish; AQueuePush (kToRun, n)] ∧
                  Forall (λ a, ∃ m, a = ARtWrite m) before) ∧
       num_nodes_yet_to_finish_ s' = num_nodes_yet_to_finish_ s + 1 ∧
       dispatcher_queue_ s' = dispatcher_queue_ s ++ [(kToRun, n)]) ∧
    (¬ ready →
       num_nodes_yet_to_finish_ s' = num_nodes_yet_to_finish_ s ∧
       dispatcher_queue_ s' = dispatcher_queue_ s).
Proof.
  destruct site; simpl in Hrun.
  - unfold ProcessIfReady in Hrun. inv_M Hrun.
    + eexists; split; [eassumption|]. simpl.
      clean_checks.
      rewrite (new_trace_app _ _ [AIncYetToFinish; AQueuePush (kToRun, n)])
        by (simpl; by rewrite <- app_assoc).
      split_and!; [ split; [done | intros _; set_solver] | | tauto ].
      intros _. split_and!; [ by exists [] | done | done ].
    + eexists; split; [eassumption|]. simpl.
      clean_checks. rewrite new_trace_refl.
      split_and!; [ split; [by intros ?%elem_of_nil | tauto] | tauto | done ].
  - unfold trigger_successor in Hrun. inv_M Hrun.
    + eexists; split; [eassumption|]. simpl.
      rewrite (new_trace_app _ _ [ARtWrite n; AIncYetToFinish; AQueuePush (kToRun, n)])
        by (simpl; by rewrite <- !app_assoc).
      split_and!; [ split; [done | intros _; set_solver] | | tauto ].
      intros _. split_and!; [ exists [ARtWrite n]; split; [done | repeat constructor; eauto] | done | done ].
    + eexists; split; [eassumption|]. simpl.
      rewrite (new_trace_app _ _ [ARtWrite n]) by done.
      split_and!; [ split; [ | tauto] | tauto | done ].
      intros Hin. apply list_elem_of_singleton in Hin. discriminate.
Qed.

Lemma ToRun_enqueued_when_ready_witness :
  ∃ s', trigger_successor 3%N chain_a_completing = Ok (tt, s') ∧
    AQueuePush (kToRun, 3%N) ∈ new_trace chain_a_completing s' ∧
    num_nodes_yet_to_finish_ s' = num_nodes_yet_to_finish_ chain_a_completing + 1 ∧
    dispatcher_queue_ s' = [(kToRun, 3%N)].
Proof.
  exists (after (trigger_successor 3%N) chain_a_completing).
  assert (trigger_successor 3%N chain_a_completing
          = Ok (tt, after (trigger_successor 3%N) chain_a_completing)) as Hrun
    by (vm_compute; reflexivity).
  destruct (ToRun_enqueued_when_ready at_trigger_successor 3%N chain_a_completing _ Hrun)
    as (ri & Hri & Hiff & Hready & _).
  vm_compute in Hri. injection Hri as <-.
  assert (kReady = kReady ∧ 1 - 1 = 0) as Hr by done.
  destruct (Hready Hr) as (_ & Hnum & Hq).
  split_and!; [exact Hrun | by apply Hiff | exact Hnum | exact Hq].
Defined.

(** * External reference count updates *)

(** C7: [OnExternRCUpdate], for a data node of the DAG, locks the node with
    its neighbours; it frees the device storage, removes the node from the
    DAG and from the runtime-info map, and deletes the node object after
    the lock is released, exactly when the node is [kCompleted] with
    [reference_count] 0 and [extern_rc] 0; a [kReady] node, and a
    [kCompleted] one that is still referenced, are left untouched; any
    other state is fatal. *)
Theorem OnExternRCUpdate_cases (n : N) (s : DagScheduler) node d ri
    (Hheap : heap s !! n = Some node) (Hbody : body node = DataBody d)
    (Hrt : rt_info_ s !! n = Some ri) (Hidx : n ∈ index_to_node_ s) :
  let cover := {[n]} ∪ predecessors_ node ∪ successors_ node in
  match state ri with
  | kCompleted =>
      ∃ s', OnExternRCUpdate n s = Ok (tt, s') ∧
      (if decide (reference_count ri = 0 ∧ extern_rc d = 0) then
         new_trace s s' = [ALock cover; AFreeData (data_id d); ARemoveNodeFromDag n;
                           ARemoveNode n; AUnlock; ADelete n] ∧
         (n ∉ index_to_node_ s') ∧ rt_info_ s' !! n = None ∧ heap s' !! n = None
       else
         new_trace s s' = [ALock cover; AUnlock] ∧ forget_trace s' = forget_trace s)
  | kReady =>
      ∃ s', OnExternRCUpdate n s = Ok (tt, s') ∧
        new_trace s s' = [ALock cover; AUnlock] ∧ forget_trace s' = forget_trace s
  | kOtherState => OnExternRCUpdate n s = Abort (LogFatal "incorrect state for node")
  end.
Proof.
  intros cover.
  unfold OnExternRCUpdate, MultiNodeLock, GetState, reclaim_data_node, FreeDataNodeRes,
    RemoveNodeFromDag, GetNode, OnDeleteNode, RemoveNode, as_data_node, Unlock, Delete.
  unfold mbind, M_bind, deref, At, emit, modify, gets, mret, M_ret, abort. simpl.
  rewrite Hheap. simpl. rewrite Hrt. simpl.
  destruct (state ri) eqn:Hst; simpl.
  - eexists; split; [reflexivity|]. split.
    + apply new_trace_app. simpl. by rewrite <- app_assoc.
    + reflexivity.
  - rewrite Hrt; simpl. rewrite Hheap, Hbody; simpl.
    destruct (decide (reference_count ri = 0 ∧ extern_rc d = 0)) as [Hc|Hc]; simpl.
    + rewrite Hheap, Hbody; simpl. rewrite decide_True by done. simpl. rewrite Hheap. simpl.
      eexists; split; [reflexivity|]. simpl. split_and!.
      * apply new_trace_app. simpl. by rewrite <- !app_assoc.
      * set_solver.
      * apply lookup_delete_eq.
      * apply lookup_delete_eq.
    + eexists; split; [reflexivity|]. split.
      * apply new_trace_app. simpl. by rewrite <- app_assoc.
      * reflexivity.
  - reflexivity.
Qed.

Lemma OnExternRCUpdate_cases_witness :
  ∃ s', OnExternRCUpdate 0%N lone_completed_node = Ok (tt, s') ∧
        new_trace lone_completed_node s' =
          [ALock {[0%N]}; AFreeData 0%N; ARemoveNodeFromDag 0%N; ARemoveNode 0%N;
           AUnlock; ADelete 0%N].
Proof.
  destruct (OnExternRCUpdate_cases 0%N lone_completed_node
              (mkDagNode ∅ ∅ (DataBody (mkPhysicalData [4] 0%N 0%N 0)))
              (mkPhysicalData [4] 0%N 0%N 0) (mkRuntimeInfo kCompleted 0 0))
    as (s' & Hrun & Htrace & _); [reflexivity | reflexivity | reflexivity | | ].
  - unfold lone_completed_node; simpl. set_solver.
  - exists s'. split; [exact Hrun|]. rewrite Htrace. simpl.
    by rewrite !(right_id_L ∅ (∪)).
Defined.

(** * Waiting for all *)

Lemma wait_while_yet_to_finish wakeups s :
  ∃ left s',
    wait_while (k ← gets num_nodes_yet_to_finish_; mret (negb (bool_decide (k = 0))))
      wakeups s = Ok (left, s') ∧
    if left : bool
    then s' ∈ seen_by_waiter s wakeups ∧ num_nodes_yet_to_finish_ s' = 0
    else ∀ si, si ∈ seen_by_waiter s wakeups → num_nodes_yet_to_finish_ si ≠ 0.
Proof.
  revert s. induction wakeups as [|w wakeups IH]; intros s; simpl;
    unfold mbind, M_bind, gets, mret, M_ret; simpl;
    destruct (bool_decide_reflect (num_nodes_yet_to_finish_ s = 0)) as [Hk|Hk]; simpl.
  - exists true, s. split; [done|]. split; [set_solver | done].
  - exists false, s. split; [done|]. intros si ->%list_elem_of_singleton. done.
  - exists true, s. split; [done|]. split; [set_solver | done].
  - destruct (IH (w (set_trace (λ t, t ++ [AWait]) s))) as (left & s' & Hrun & Hleft).
    exists left, s'. split; [exact Hrun|].
    destruct left.
    + destruct Hleft. split; [set_solver | done].
    + intros si [->|Hin]%elem_of_cons; [done | auto].
Qed.

(** C8: [WaitForAll] takes [finish_mutex_] and is fatal when [target_] is
    not -1; otherwise it sleeps on [finish_cond_] for as long as every state
    it tests has a nonzero [num_nodes_yet_to_finish_], and it returns,
    releasing the mutex, only from a state whose counter is 0. *)
Theorem WaitForAll_returns_at_zero (wakeups : list (DagScheduler → DagScheduler))
    (s : DagScheduler) :
  let seen := seen_by_waiter (set_trace (λ t, t ++ [AFinishLock]) s) wakeups in
  if decide (target_ s = -1) then
    ∃ left s', WaitForAll wakeups s = Ok (left, s') ∧
      if left : bool
      then ∃ si, si ∈ seen ∧ num_nodes_yet_to_finish_ si = 0 ∧
                 s' = set_trace (λ t, t ++ [AFinishUnlock]) si
      else ∀ si, si ∈ seen → num_nodes_yet_to_finish_ si ≠ 0
  else WaitForAll wakeups s = Abort (CheckFailed "CHECK_EQ(target_, -1)").
Proof.
  intros seen. unfold WaitForAll.
  erewrite bind_eq by reflexivity. erewrite bind_eq by reflexivity. simpl.
  destruct (decide (target_ s = -1)) as [Ht|Ht].
  - destruct (wait_while_yet_to_finish wakeups (set_trace (λ t, t ++ [AFinishLock]) s))
      as (left & s' & Hrun & Hleft).
    rewrite bool_decide_eq_true_2 by done.
    erewrite bind_eq by reflexivity. erewrite bind_eq by exact Hrun.
    destruct left; simpl.
    + eexists true, _. split; [reflexivity|]. exists s'. tauto.
    + exists false, s'. split; [reflexivity|]. exact Hleft.
  - by rewrite bool_decide_eq_false_2 by done.
Qed.

(** * Reading a value back *)

(** C2, as stated, fails: data node 0 of [one_op_created] is [kReady], its
    producer has not even been dispatched, and [GetValue] returns a buffer
    for it. *)
Lemma GetValue_not_fatal_on_ready_node :
  ¬ GetValue_fatal_unless_completed ample_memory zero_memory 0%N one_op_created.
Proof.
  intros Hclaim.
  destruct (Hclaim (mkRuntimeInfo kReady 0 1)) as [e He]; [reflexivity | discriminate |].
  vm_compute in He. discriminate.
Qed.

Lemma fits_int_spec z : fits_int z = true ↔ INT_MIN ≤ z ≤ INT_MAX.
Proof. unfold fits_int. rewrite andb_true_iff, !Z.leb_le. tauto. Qed.

(** [Prod_from] returns the product if it returns at all, and what it
    returns fits [int]. *)
Lemma Prod_from_Some size : ∀ acc c,
  Prod_from acc size = Some c →
  c = acc * Prod size ∧ (fits_int acc = true → fits_int c = true).
Proof.
  induction size as [|x size IH]; intros acc c H; simpl in *.
  - injection H as <-. split; [lia|done].
  - destruct (fits_int (acc * x)) eqn:Hfit; [|discriminate].
    apply IH in H as [-> Hc]. split; [lia|auto].
Qed.

(** For extents that are all positive, the running product stays below the
    whole product: if that fits [int], no step overflows. *)
Lemma Prod_from_positive size : ∀ acc,
  Forall (λ x, 1 ≤ x) size → 1 ≤ acc → acc * Prod size ≤ INT_MAX →
  Prod_from acc size = Some (acc * Prod size).
Proof.
  induction size as [|x size IH]; intros acc Hpos Hacc Hmax; simpl in *.
  - f_equal. lia.
  - inversion Hpos as [|? ? Hx Hrest]; subst.
    assert (1 ≤ Prod size) as Hp.
    { clear -Hrest. induction Hrest; simpl; [lia|nia]. }
    assert (fits_int (acc * x) = true) as ->.
    { apply fits_int_spec. unfold INT_MIN, INT_MAX in *. split; [nia|nia]. }
    rewrite IH; [f_equal; lia|done|nia|].
    by replace (acc * x * Prod size) with (acc * (x * Prod size)) by lia.
Qed.

Lemma UniversalMemcpy_length src count :
  length (UniversalMemcpy src count) = N.to_nat count.
Proof. unfold UniversalMemcpy. by rewrite length_map, length_seq. Qed.

Lemma UniversalMemcpy_lookup src count i :
  (i < N.to_nat count)%nat → UniversalMemcpy src count !! i = Some (src i).
Proof.
  intros Hi. unfold UniversalMemcpy. by rewrite list_lookup_fmap, lookup_seq_lt.
Qed.

(** The byte count of the copy, for a number of elements that [int] holds
    and that is not negative: the product in [size_t] does not wrap. *)
Lemma byte_count_exact n :
  0 ≤ n ≤ INT_MAX →
  Z.to_N (size_t_mul (to_size_t n) sizeof_float) = Z.to_N (n * sizeof_float).
Proof.
  intros Hn. unfold size_t_mul, to_size_t, SIZE_MODULUS, sizeof_float, INT_MAX in *.
  rewrite (Z.mod_small n) by lia. rewrite Z.mod_small by lia. done.
Qed.

(** C2, amended: [GetValue] never looks at the runtime info, so that what
    it answers for a handle on a data node is the same in whatever state
    the node is.  Where the product of the shape, multiplied up in [int],
    overflows, the behaviour is undefined.  Otherwise, with [count] the
    product: a negative [count] is fatal ([new float[count]] throws), a
    request the allocator does not serve is fatal, and in every other case
    the result is a new buffer of [count * sizeof (float)] bytes, each
    copied from the device-side pointer.  A handle that is not a
    [DagChunk] is fatal.  A shape of positive extents whose product is at
    most [INT_MAX] has a product that does not overflow. *)
Theorem GetValue_copies_in_any_state (can_alloc : Z → bool)
    (GetPtr : N → N → nat → Byte.byte) (n : N)
    (s : DagScheduler) (node : DagNode) (d : PhysicalData)
    (Hheap : heap s !! n = Some node) (Hbody : body node = DataBody d) :
  (∀ rt, GetValue can_alloc GetPtr (DagChunk n) (set_rt_info (λ _, rt) s)
         = match GetValue can_alloc GetPtr (DagChunk n) s with
           | Ok (buf, _) => Ok (buf, set_rt_info (λ _, rt) s)
           | Abort e => Abort e
           end) ∧
  match Prod_int (data_size d) with
  | None =>
      GetValue can_alloc GetPtr (DagChunk n) s
      = Abort (Undefined "signed overflow in Scale::Prod")
  | Some count =>
      count = Prod (data_size d) ∧ INT_MIN ≤ count ≤ INT_MAX ∧
      if decide (count < 0)
      then GetValue can_alloc GetPtr (DagChunk n) s = Abort BadArrayNewLength
      else if can_alloc count
      then ∃ buf,
             GetValue can_alloc GetPtr (DagChunk n) s = Ok (buf, s) ∧
             length buf = Z.to_nat (count * sizeof_float) ∧
             ∀ i, (i < length buf)%nat →
                  buf !! i = Some (GetPtr (device_id d) (data_id d) i)
      else GetValue can_alloc GetPtr (DagChunk n) s = Abort BadAlloc
  end ∧
  (Forall (λ x, 1 ≤ x) (data_size d) → Prod (data_size d) ≤ INT_MAX →
   Prod_int (data_size d) = Some (Prod (data_size d))) ∧
  GetValue can_alloc GetPtr ForeignChunk s = Abort CheckNotNull.
Proof.
  assert (Hrun : ∀ s0, heap s0 = heap s →
            GetValue can_alloc GetPtr (DagChunk n) s0
            = match Prod_int (data_size d) with
              | None => Abort (Undefined "signed overflow in Scale::Prod")
              | Some count =>
                  if count <? 0 then Abort BadArrayNewLength
                  else if negb (can_alloc count) then Abort BadAlloc
                  else Ok (UniversalMemcpy (GetPtr (device_id d) (data_id d))
                             (Z.to_N (size_t_mul (to_size_t count) sizeof_float)), s0)
              end).
  { intros s0 Hs0. unfold GetValue, as_data_node.
    erewrite bind_eq; [|erewrite bind_eq;
      [rewrite Hbody; reflexivity | unfold deref; rewrite Hs0, Hheap; reflexivity]].
    destruct (Prod_int (data_size d)) as [count|]; [|done].
    destruct (count <? 0); [done|]. by destruct (can_alloc count). }
  split_and!.
  - intros rt. rewrite (Hrun s eq_refl), (Hrun (set_rt_info (λ _, rt) s) eq_refl).
    destruct (Prod_int (data_size d)) as [count|]; [|done].
    destruct (count <? 0); [done|]. by destruct (can_alloc count).
  - rewrite (Hrun s eq_refl).
    destruct (Prod_int (data_size d)) as [count|] eqn:Hp; [|done].
    apply Prod_from_Some in Hp as [Hc Hfit].
    specialize (Hfit eq_refl). apply fits_int_spec in Hfit.
    split; [lia|]. split; [done|].
    destruct (decide (count < 0)) as [Hneg|Hpos].
    + by rewrite (proj2 (Z.ltb_lt _ _) Hneg).
    + rewrite (proj2 (Z.ltb_ge _ _)) by lia.
      destruct (can_alloc count); simpl; [|done].
      rewrite byte_count_exact by lia. eexists. split; [reflexivity|].
      rewrite UniversalMemcpy_length. split; [unfold sizeof_float; lia|].
      intros i Hi. by apply UniversalMemcpy_lookup.
  - intros Hpos Hmax. unfold Prod_int.
    rewrite (Prod_from_positive _ 1 Hpos) by lia. f_equal. lia.
  - reflexivity.
Qed.

Lemma GetValue_copies_in_any_state_witness :
  GetValue ample_memory zero_memory (DagChunk 0%N) one_op_created
  = Ok (replicate 16 Byte.x00, one_op_created).
Proof.
  destruct (GetValue_copies_in_any_state ample_memory zero_memory 0%N one_op_created
              (mkDagNode {[1%N]} ∅ (DataBody (mkPhysicalData [4] 0%N 0%N 1)))
              (mkPhysicalData [4] 0%N 0%N 1))
    as (_ & Hcase & _); [reflexivity | reflexivity |].
  change (Prod_int (data_size (mkPhysicalData [4] 0%N 0%N 1))) with (Some 4) in Hcase.
  destruct Hcase as (_ & _ & Hcase).
  rewrite decide_False in Hcase by lia.
  destruct Hcase as (buf & Hrun & _).
  rewrite Hrun. vm_compute in Hrun. by injection Hrun as <-.
Defined.

(** * Completion events *)

Lemma bind_congr_state {A B} (m : M A) (f : A → M B) s1 s2 :
  m s1 = m s2 → (m ≫= f) s1 = (m ≫= f) s2.
Proof. unfold mbind, M_bind. by intros ->. Qed.

Lemma bind_rel {A B} (R : DagScheduler → DagScheduler → Prop) (m : M A) (f : A → M B) s1 s2 :
  match m s1, m s2 with
  | Ok (a1, t1), Ok (a2, t2) => a1 = a2 ∧ R t1 t2
  | Abort e1, Abort e2 => e1 = e2
  | _, _ => False
  end →
  (∀ a t1 t2, R t1 t2 → f a t1 = f a t2) →
  (m ≫= f) s1 = (m ≫= f) s2.
Proof.
  unfold mbind, M_bind.
  destruct (m s1) as [[a1 t1]|e1], (m s2) as [[a2 t2]|e2]; try done.
  - intros [-> HR] Hf. by apply Hf.
  - by intros ->.
Qed.

Lemma seq_rel {A B} (R : DagScheduler → DagScheduler → Prop) (m : M A) (k : M B) s1 s2 :
  match m s1, m s2 with
  | Ok (_, t1), Ok (_, t2) => R t1 t2
  | Abort e1, Abort e2 => e1 = e2
  | _, _ => False
  end →
  (∀ t1 t2, R t1 t2 → k t1 = k t2) →
  (m ;; k) s1 = (m ;; k) s2.
Proof.
  unfold mbind, M_bind.
  destruct (m s1) as [[a1 t1]|e1], (m s2) as [[a2 t2]|e2]; try done.
  - intros HR Hf. by apply Hf.
  - by intros ->.
Qed.

Lemma alter_set_state_absorb (n : N) (st : NodeState) (rt : gmap N RuntimeInfo) :
  alter (set_state kCompleted) n (alter (set_state st) n rt)
  = alter (set_state kCompleted) n rt.
Proof.
  apply map_eq. intros k. destruct (decide (n = k)) as [->|Hne].
  - rewrite !lookup_alter_eq. by destruct (rt !! k).
  - by rewrite !lookup_alter_ne.
Qed.

Lemma complete_node_absorb (n : N) (node : DagNode) (st : NodeState) (s : DagScheduler) :
  complete_node n node (set_rt_info (alter (set_state st) n) s) = complete_node n node s.
Proof.
  unfold complete_node. apply bind_congr_state.
  unfold At_update, At, mbind, M_bind, modify, emit. simpl.
  rewrite lookup_alter_eq. destruct (rt_info_ s !! n); simpl; [|done].
  unfold set_rt_info, set_trace. simpl. by rewrite alter_set_state_absorb.
Qed.

(** C3, as stated, fails: in [completion_replayed] node 1 is already
    [kCompleted], and the dispatcher handles a second [kToComplete] event
    for it without aborting. *)
Lemma replayed_completion_goes_undetected : ¬ replay_detected 1%N completion_replayed.
Proof.
  intros Hclaim.
  destruct (Hclaim (mkRuntimeInfo kCompleted 1 0)) as [e He]; [reflexivity | reflexivity |].
  vm_compute in He. discriminate.
Qed.

(** The outcome of handling a [kToComplete] event for [n] does not depend
    on the state that is on record for [n]. *)
Lemma DispatcherBody_absorbs_state (n : N) (st : NodeState) (s : DagScheduler) :
  DispatcherBody (kToComplete, n) (set_rt_info (alter (set_state st) n) s)
  = DispatcherBody (kToComplete, n) s.
Proof.
  set (R := λ t1 t2 : DagScheduler, t1 = set_rt_info (alter (set_state st) n) t2).
  unfold DispatcherBody. simpl.
  apply (bind_rel R).
  { unfold GetNode, gets, deref, mbind, M_bind. simpl.
    destruct (decide (n ∈ index_to_node_ s)); [|done].
    change (heap (set_rt_info _ s)) with (heap s).
    by destruct (heap s !! n). }
  intros node t1 t2 ->. apply bind_congr_state.
  apply (bind_rel R).
  { unfold MultiNodeLock, deref, emit, modify, mbind, M_bind. simpl.
    change (heap (set_rt_info _ t2)) with (heap t2).
    by destruct (heap t2 !! n). }
  clear s. intros [] t1 s ->.
  apply (seq_rel R).
  { unfold At. simpl. rewrite lookup_alter_eq. by destruct (rt_info_ s !! n). }
  clear s. intros t1 s ->. apply bind_congr_state.
  apply complete_node_absorb.
Qed.


(** * The invariant is preserved *)

(** ** Reading traces and queues *)

Lemma pushed_ids_app t1 t2 : pushed_ids (t1 ++ t2) = pushed_ids t1 ++ pushed_ids t2.
Proof. apply omap_app. Qed.
Lemma reported_ids_app t1 t2 : reported_ids (t1 ++ t2) = reported_ids t1 ++ reported_ids t2.
Proof. apply omap_app. Qed.
Lemma torun_ids_app q1 q2 : torun_ids (q1 ++ q2) = torun_ids q1 ++ torun_ids q2.
Proof. apply omap_app. Qed.
Lemma tocomplete_ids_app q1 q2 :
  tocomplete_ids (q1 ++ q2) = tocomplete_ids q1 ++ tocomplete_ids q2.
Proof. apply omap_app. Qed.

Lemma elem_of_torun_ids q k : k ∈ torun_ids q ↔ (kToRun, k) ∈ q.
Proof.
  unfold torun_ids. rewrite list_elem_of_omap. split.
  - intros ([[] k'] & Hin & Heq); simplify_eq/=. done.
  - intros Hin. exists (kToRun, k). done.
Qed.

Lemma elem_of_tocomplete_ids q k : k ∈ tocomplete_ids q ↔ (kToComplete, k) ∈ q.
Proof.
  unfold tocomplete_ids. rewrite list_elem_of_omap. split.
  - intros ([[] k'] & Hin & Heq); simplify_eq/=. done.
  - intros Hin. exists (kToComplete, k). done.
Qed.

Lemma quiet_nil : quiet [].
Proof. done. Qed.
Lemma quiet_app t1 t2 : quiet t1 → quiet t2 → quiet (t1 ++ t2).
Proof.
  intros [H1 H2] [H3 H4]. split.
  - by rewrite pushed_ids_app, H1, H3.
  - by rewrite reported_ids_app, H2, H4.
Qed.

(** ** Views under updates *)

Lemma GInv_same_core D pend s s' : same_core s s' → GInv D pend s → GInv D pend s'.
Proof.
  intros (Hh & Hi & Hr & Hq & Hn & Hp & Hrep) [].
  unfold activated, open_preds, preds_at, succs_at, state_at, triggers_at in *.
  constructor; unfold activated, open_preds, preds_at, succs_at, state_at, triggers_at;
    rewrite <- ?Hh, <- ?Hi, <- ?Hr, <- ?Hq, <- ?Hn, <- ?Hp, <- ?Hrep; assumption.
Qed.

Lemma open_preds_ext s s' k :
  preds_at s' k = preds_at s k →
  (∀ p, p ∈ preds_at s k → state_at s' p = state_at s p) →
  open_preds s' k = open_preds s k.
Proof.
  intros Hp Hst. unfold open_preds. rewrite Hp. apply set_eq. intros p.
  rewrite !elem_of_filter. split; intros [H1 H2]; split; try done.
  - by rewrite <- Hst.
  - by rewrite Hst.
Qed.

(** A state with the same views satisfies the same invariant. *)
Lemma GInv_ext D pend s s' :
  dom (heap s') = dom (heap s) →
  index_to_node_ s' = index_to_node_ s →
  dom (rt_info_ s') = dom (rt_info_ s) →
  next_node_id s' = next_node_id s →
  pushed_ids (trace s') = pushed_ids (trace s) →
  reported_ids (trace s') = reported_ids (trace s) →
  dispatcher_queue_ s' = dispatcher_queue_ s →
  (∀ k, preds_at s' k = preds_at s k) →
  (∀ k, succs_at s' k = succs_at s k) →
  (∀ k, state_at s' k = state_at s k) →
  (∀ k, triggers_at s' k = triggers_at s k) →
  GInv D pend s → GInv D pend s'.
Proof.
  intros Hh Hi Hr Hn Hp Hrep Hq Hpr Hsu Hst Htr [].
  assert (Hop : ∀ k, open_preds s' k = open_preds s k).
  { intros k. apply open_preds_ext; auto. }
  constructor; unfold activated in *;
    repeat first [ rewrite Hh | rewrite Hi | rewrite Hr | rewrite Hn | rewrite Hp | rewrite Hrep
                 | rewrite Hq | setoid_rewrite Hpr | setoid_rewrite Hsu | setoid_rewrite Hst
                 | setoid_rewrite Htr | setoid_rewrite Hop ]; assumption.
Qed.

Lemma state_at_alter s f n k :
  (∀ ri, state (f ri) = state ri) →
  state_at (set_rt_info (alter f n) s) k = state_at s k.
Proof.
  intros Hf. unfold state_at. simpl. destruct (decide (n = k)) as [->|Hne].
  - rewrite lookup_alter_eq. destruct (rt_info_ s !! k); simpl; by rewrite ?Hf.
  - by rewrite lookup_alter_ne.
Qed.

Lemma triggers_at_alter s f n k :
  (∀ ri, num_triggers_needed (f ri) = num_triggers_needed ri) →
  triggers_at (set_rt_info (alter f n) s) k = triggers_at s k.
Proof.
  intros Hf. unfold triggers_at. simpl. destruct (decide (n = k)) as [->|Hne].
  - rewrite lookup_alter_eq. destruct (rt_info_ s !! k); simpl; by rewrite ?Hf.
  - by rewrite lookup_alter_ne.
Qed.

(** Changing a [reference_count] does not matter to the invariant. *)
Lemma GInv_add_reference_count D pend s d p :
  GInv D pend s → GInv D pend (set_rt_info (alter (add_reference_count d) p) s).
Proof.
  apply GInv_ext; try done.
  - simpl. apply dom_alter_L.
  - intros k. by apply state_at_alter.
  - intros k. by apply triggers_at_alter.
Qed.

(** Changing the body of a node object, and no edge, does not either. *)
Lemma GInv_alter_body D pend s f n :
  (∀ x, predecessors_ (f x) = predecessors_ x ∧ successors_ (f x) = successors_ x) →
  GInv D pend s → GInv D pend (set_heap (alter f n) s).
Proof.
  intros Hf. apply GInv_ext; try done.
  - simpl. apply dom_alter_L.
  - intros k. unfold preds_at. simpl. destruct (decide (n = k)) as [->|Hne].
    + rewrite lookup_alter_eq. destruct (heap s !! k); simpl; [apply Hf | done].
    + by rewrite lookup_alter_ne.
  - intros k. unfold succs_at. simpl. destruct (decide (n = k)) as [->|Hne].
    + rewrite lookup_alter_eq. destruct (heap s !! k); simpl; [apply Hf | done].
    + by rewrite lookup_alter_ne.
Qed.

(** ** A node becomes [kCompleted] *)

Lemma state_at_set_completed_eq s n :
  is_Some (rt_info_ s !! n) →
  state_at (set_rt_info (alter (set_state kCompleted) n) s) n = Some kCompleted.
Proof.
  intros [ri Hri]. unfold state_at. simpl. by rewrite lookup_alter_eq, Hri.
Qed.

Lemma state_at_set_completed_ne s n k :
  k ≠ n → state_at (set_rt_info (alter (set_state kCompleted) n) s) k = state_at s k.
Proof. intros Hne. unfold state_at. simpl. by rewrite lookup_alter_ne. Qed.

Lemma in_index_has_rt D pend s k :
  GInv D pend s → k ∈ index_to_node_ s → is_Some (rt_info_ s !! k).
Proof. intros HG Hk. apply elem_of_dom. by rewrite (g_rt_dom _ _ _ HG). Qed.

Lemma in_index_has_node D pend s k :
  GInv D pend s → k ∈ index_to_node_ s → is_Some (heap s !! k).
Proof. intros HG Hk. apply elem_of_dom. rewrite (g_heap_dom _ _ _ HG). set_solver. Qed.

(** Name the clauses of an invariant. *)
Ltac open_GInv HG :=
  pose proof (g_heap_dom _ _ _ HG) as Ghd;
  pose proof (g_removed _ _ _ HG) as Grm;
  pose proof (g_rt_dom _ _ _ HG) as Grt;
  pose proof (g_fresh _ _ _ HG) as Gfr;
  pose proof (g_pushed_fresh _ _ _ HG) as Gpf;
  pose proof (g_preds _ _ _ HG) as Gpr;
  pose proof (g_succs _ _ _ HG) as Gsu;
  pose proof (g_queue _ _ _ HG) as Gq;
  pose proof (g_reported _ _ _ HG) as Grep;
  pose proof (g_reported_pushed _ _ _ HG) as Grp;
  pose proof (g_running _ _ _ HG) as Grun;
  pose proof (g_nodup _ _ _ HG) as Gnd;
  pose proof (g_nodup_complete _ _ _ HG) as Gndc;
  pose proof (g_activated _ _ _ HG) as Gact;
  pose proof (g_triggers _ _ _ HG) as Gtr;
  pose proof (g_pend _ _ _ HG) as Gpe.

Lemma GInv_set_completed D s n :
  GInv D ∅ s →
  n ∈ index_to_node_ s →
  state_at s n ≠ Some kCompleted →
  n ∉ torun_ids (dispatcher_queue_ s) →
  n ∉ tocomplete_ids (dispatcher_queue_ s) →
  (n ∈ pushed_ids (trace s) → n ∈ reported_ids (trace s)) →
  GInv D (succs_at s n) (set_rt_info (alter (set_state kCompleted) n) s).
Proof.
  intros HG Hn Hst Hrun Hcomp Hpush.
  pose proof (in_index_has_rt _ _ _ _ HG Hn) as Hrt.
  set (s' := set_rt_info (alter (set_state kCompleted) n) s).
  assert (Hsame : ∀ k, k ≠ n → state_at s' k = state_at s k)
    by (intros; by apply state_at_set_completed_ne).
  assert (Hdone : state_at s' n = Some kCompleted)
    by (by apply state_at_set_completed_eq).
  assert (Hmono : ∀ k, state_at s k = Some kCompleted → state_at s' k = Some kCompleted).
  { intros k Hk. destruct (decide (k = n)) as [->|?]; [done | by rewrite Hsame]. }
  assert (Htr : ∀ k, k ≠ n → triggers_at s' k = triggers_at s k).
  { intros k Hk. unfold triggers_at, s'. simpl. by rewrite lookup_alter_ne. }
  open_GInv HG. constructor; try assumption.
  - subst s'. simpl. by rewrite dom_alter_L.
  - intros ev Hev. destruct (Gq ev Hev) as [Hi Hr]. split; [done|].
    rewrite Hsame; [done|]. intros Heq. destruct ev as [[] k]; simpl in *; subst k.
    + apply Hrun. by apply elem_of_torun_ids.
    + apply Hcomp. by apply elem_of_tocomplete_ids.
  - intros k Hk Hnk. destruct (Grun k Hk Hnk) as [Hi Hr]. split; [done|].
    rewrite Hsame; [done|]. intros ->. auto.
  - intros k p Hact Hk Hp. apply Hmono. by apply (Gact k p).
  - intros k Hk Hstk.
    assert (k ≠ n) as Hkn by (intros ->; done).
    rewrite Hsame in Hstk by done. rewrite Htr by done.
    specialize (Gtr k Hk Hstk). rewrite decide_False in Gtr by set_solver.
    change (preds_at s' k) with (preds_at s k) in *.
    assert (Hsub : open_preds s' k ⊆ open_preds s k).
    { intros p. unfold open_preds. rewrite !elem_of_filter.
      change (preds_at s' k) with (preds_at s k).
      intros [Hp ?]. split; [|done]. intros Hc. apply Hp. by apply Hmono. }
    destruct (decide (k ∈ succs_at s n)) as [Hsucc|Hsucc].
    + destruct (Gsu n k Hn Hsucc) as [_ Hnk].
      assert (Hsplit : open_preds s k = {[n]} ∪ open_preds s' k).
      { apply set_eq. intros p. unfold open_preds. rewrite elem_of_union, !elem_of_filter,
          elem_of_singleton. change (preds_at s' k) with (preds_at s k).
        destruct (decide (p = n)) as [->|Hpn].
        - split; [by left | intros _; done].
        - rewrite Hsame by done. split; [by right | intros [?|?]; done]. }
      assert (Hdisj : ({[n]} : gset N) ## open_preds s' k).
      { apply disjoint_singleton_l. unfold open_preds. rewrite elem_of_filter.
        intros [Hc _]. by apply Hc. }
      rewrite Hsplit, size_union, size_singleton in Gtr by done. lia.
    + apply subseteq_size in Hsub. lia.
  - intros x Hx Hact. destruct (Gsu n x Hn Hx) as [Hxi Hnx].
    apply Hst. by apply (Gact x n).
Qed.

(** ** A node leaves the DAG *)

Lemma lookup_detach n node h k :
  detach n node h !! k =
  (λ x, mkDagNode
     (if decide (k ∈ successors_ node) then predecessors_ x ∖ {[n]} else predecessors_ x)
     (if decide (k ∈ predecessors_ node) then successors_ x ∖ {[n]} else successors_ x)
     (body x)) <$> h !! k.
Proof. unfold detach. rewrite map_lookup_imap. by destruct (h !! k). Qed.

Lemma dom_detach n node h : dom (detach n node h) = dom h.
Proof.
  apply set_eq. intros k. rewrite !elem_of_dom, lookup_detach.
  by rewrite fmap_is_Some.
Qed.

Lemma preds_at_detach n node s k :
  preds_at (set_heap (detach n node) s) k =
  if decide (k ∈ successors_ node) then preds_at s k ∖ {[n]} else preds_at s k.
Proof.
  unfold preds_at. simpl. rewrite lookup_detach.
  destruct (heap s !! k); simpl; [done|]. case_decide; set_solver.
Qed.

Lemma succs_at_detach n node s k :
  succs_at (set_heap (detach n node) s) k =
  if decide (k ∈ predecessors_ node) then succs_at s k ∖ {[n]} else succs_at s k.
Proof.
  unfold succs_at. simpl. rewrite lookup_detach.
  destruct (heap s !! k); simpl; [done|]. case_decide; set_solver.
Qed.

Lemma type_at_detach n node s k :
  type_at (set_heap (detach n node) s) k = type_at s k.
Proof.
  unfold type_at. simpl. rewrite lookup_detach. by destruct (heap s !! k).
Qed.

Lemma GInv_remove D pend s n node :
  GInv D pend s →
  n ∈ index_to_node_ s →
  heap s !! n = Some node →
  state_at s n = Some kCompleted →
  GInv (D ∪ {[n]}) pend (remove_core n node s).
Proof.
  intros HG Hn Hnode Hst. open_GInv HG.
  set (s' := remove_core n node s).
  assert (Hpn : preds_at s n = predecessors_ node) by (unfold preds_at; by rewrite Hnode).
  assert (Hsn : succs_at s n = successors_ node) by (unfold succs_at; by rewrite Hnode).
  assert (Hpreds : ∀ k, k ∈ index_to_node_ s → preds_at s' k = preds_at s k ∖ {[n]}).
  { intros k Hk. unfold s', remove_core.
    change (preds_at (set_rt_info ?f (set_index ?g ?t)) k) with (preds_at t k).
    rewrite preds_at_detach. case_decide; [done|].
    assert (n ∉ preds_at s k); [|set_solver].
    intros Hin. destruct (Gpr k n Hk Hin) as [_ ?]. rewrite Hsn in *. done. }
  assert (Hsuccs : ∀ k, k ∈ index_to_node_ s → succs_at s' k = succs_at s k ∖ {[n]}).
  { intros k Hk. unfold s', remove_core.
    change (succs_at (set_rt_info ?f (set_index ?g ?t)) k) with (succs_at t k).
    rewrite succs_at_detach. case_decide; [done|].
    assert (n ∉ succs_at s k); [|set_solver].
    intros Hin. destruct (Gsu k n Hk Hin) as [_ ?]. rewrite Hpn in *. done. }
  assert (Hstate : ∀ k, k ≠ n → state_at s' k = state_at s k).
  { intros k Hk. unfold state_at, s', remove_core. simpl. by rewrite lookup_delete_ne. }
  assert (Htrig : ∀ k, k ≠ n → triggers_at s' k = triggers_at s k).
  { intros k Hk. unfold triggers_at, s', remove_core. simpl. by rewrite lookup_delete_ne. }
  assert (Hidx : index_to_node_ s' = index_to_node_ s ∖ {[n]}) by done.
  assert (Hready : ∀ k, state_at s k = Some kReady → k ≠ n).
  { intros k Hk ->. rewrite Hst in Hk. discriminate. }
  constructor; try assumption.
  - rewrite Hidx. unfold s', remove_core. simpl. rewrite dom_detach, Ghd.
    apply set_eq. intros k. destruct (decide (k = n)); set_solver.
  - rewrite Hidx. set_solver.
  - rewrite Hidx. unfold s', remove_core. simpl. by rewrite dom_delete_L, Grt.
  - unfold s', remove_core. simpl. by rewrite dom_detach.
  - rewrite Hidx. intros k p [Hk Hkn%not_elem_of_singleton]%elem_of_difference Hp.
    rewrite Hpreds in Hp by done. apply elem_of_difference in Hp as [Hp Hpn'%not_elem_of_singleton].
    destruct (Gpr k p Hk Hp) as [Hpi Hkp]. split; [set_solver|].
    rewrite Hsuccs by done. set_solver.
  - rewrite Hidx. intros k x [Hk Hkn%not_elem_of_singleton]%elem_of_difference Hx.
    rewrite Hsuccs in Hx by done. apply elem_of_difference in Hx as [Hx Hxn%not_elem_of_singleton].
    destruct (Gsu k x Hk Hx) as [Hxi Hkx]. split; [set_solver|].
    rewrite Hpreds by done. set_solver.
  - intros ev Hev. destruct (Gq ev Hev) as [Hi Hr]. rewrite Hidx.
    pose proof (Hready _ Hr). split; [set_solver | by rewrite Hstate].
  - intros k Hk Hnk. destruct (Grun k Hk Hnk) as [Hi Hr]. rewrite Hidx.
    pose proof (Hready _ Hr). split; [set_solver | by rewrite Hstate].
  - rewrite Hidx. intros k p Hact [Hk Hkn%not_elem_of_singleton]%elem_of_difference Hp.
    rewrite Hpreds in Hp by done. apply elem_of_difference in Hp as [Hp Hpn'%not_elem_of_singleton].
    rewrite Hstate by done. by apply (Gact k p).
  - rewrite Hidx. intros k [Hk Hkn%not_elem_of_singleton]%elem_of_difference Hstk.
    rewrite Hstate in Hstk by done. rewrite Htrig by done.
    assert (Hop : open_preds s' k = open_preds s k); [|rewrite Hop; by apply Gtr].
    apply set_eq. intros p. unfold open_preds. rewrite !elem_of_filter, Hpreds by done.
    rewrite elem_of_difference, not_elem_of_singleton.
    destruct (decide (p = n)) as [->|Hpn'].
    + rewrite Hst. split; [intros [_ [_ ?]]; done | intros [? _]; done].
    + rewrite Hstate by done. tauto.
Qed.

(** ** A successor is triggered *)

Lemma GInv_decr_trigger D pend s x :
  GInv D pend s → x ∈ pend →
  GInv D (pend ∖ {[x]}) (set_rt_info (alter (add_num_triggers_needed (-1)) x) s).
Proof.
  intros HG Hx. open_GInv HG.
  set (s' := set_rt_info (alter (add_num_triggers_needed (-1)) x) s).
  assert (Hstate : ∀ k, state_at s' k = state_at s k).
  { intros k. by apply state_at_alter. }
  assert (Hop : ∀ k, open_preds s' k = open_preds s k).
  { intros k. apply open_preds_ext; [done | auto]. }
  constructor; try assumption.
  - unfold s'. simpl. by rewrite dom_alter_L.
  - intros ev Hev. rewrite Hstate. by apply Gq.
  - intros k ? ?. rewrite Hstate. by apply Grun.
  - intros k p ? ? ?. rewrite Hstate. by apply (Gact k p).
  - intros k Hk Hstk. rewrite Hstate in Hstk. rewrite Hop.
    specialize (Gtr k Hk Hstk).
    destruct (decide (k = x)) as [->|Hkx].
    + rewrite decide_True in Gtr by done. rewrite decide_False by set_solver.
      destruct (in_index_has_rt _ _ _ _ HG Hk) as [ri Hri].
      unfold triggers_at, s' in *. simpl. rewrite lookup_alter_eq, Hri in *. simpl in *. lia.
    + replace (triggers_at s' k) with (triggers_at s k).
      2:{ unfold triggers_at, s'. simpl. by rewrite lookup_alter_ne. }
      destruct (decide (k ∈ pend)).
      * rewrite decide_True by set_solver. done.
      * rewrite decide_False by set_solver. done.
  - intros k Hk. apply Gpe. set_solver.
Qed.

Lemma GInv_enqueue_ToRun D pend s x :
  GInv D pend s → x ∉ pend →
  x ∈ index_to_node_ s →
  state_at s x = Some kReady →
  triggers_at s x = 0 →
  ¬ activated s x →
  GInv D pend (set_queue (λ q, q ++ [(kToRun, x)]) s).
Proof.
  intros HG Hx Hxi Hready Hzero Hnew. open_GInv HG.
  set (s' := set_queue (λ q, q ++ [(kToRun, x)]) s).
  assert (Hrun : torun_ids (dispatcher_queue_ s') = torun_ids (dispatcher_queue_ s) ++ [x]).
  { unfold s'. simpl. by rewrite torun_ids_app. }
  assert (Hcomp : tocomplete_ids (dispatcher_queue_ s') = tocomplete_ids (dispatcher_queue_ s)).
  { unfold s'. simpl. by rewrite tocomplete_ids_app, app_nil_r. }
  assert (Hact : ∀ k, activated s' k ↔ activated s k ∨ k = x).
  { intros k. unfold activated. rewrite Hrun. set_solver. }
  constructor; try assumption.
  - intros ev [Hev| ->%list_elem_of_singleton]%elem_of_app; [by apply Gq | done].
  - rewrite Hcomp. done.
  - rewrite Hrun, app_assoc. apply NoDup_app. split_and!; [done | | apply NoDup_singleton].
    intros k Hk ->%list_elem_of_singleton. apply Hnew.
    unfold activated. set_solver.
  - by rewrite Hcomp.
  - intros k p [Hk| ->]%Hact Hki Hp; [by apply (Gact k p)|].
    assert (state_at s x ≠ Some kCompleted) as Hne by (rewrite Hready; discriminate).
    specialize (Gtr x Hxi Hne). rewrite decide_False, Hzero in Gtr by done.
    assert (size (open_preds s x) = 0%nat) as Hsz by lia.
    apply size_empty_inv in Hsz.
    destruct (decide (state_at s p = Some kCompleted)) as [|Hopen]; [done|].
    assert (p ∈ open_preds s x); [|set_solver].
    unfold open_preds. rewrite elem_of_filter. done.
  - intros k Hk [Hk'| ->]%Hact; [by apply (Gpe k) | done].
Qed.

(** ** Node objects are deleted, events are popped, tasks are pushed *)

Lemma GInv_delete D pend s n :
  GInv D pend s → n ∉ index_to_node_ s → GInv (D ∖ {[n]}) pend (set_heap (delete n) s).
Proof.
  intros HG Hni. open_GInv HG.
  set (s' := set_heap (delete n) s).
  assert (Hpreds : ∀ k, k ≠ n → preds_at s' k = preds_at s k).
  { intros k Hk. unfold preds_at, s'. simpl. by rewrite lookup_delete_ne. }
  assert (Hsuccs : ∀ k, k ≠ n → succs_at s' k = succs_at s k).
  { intros k Hk. unfold succs_at, s'. simpl. by rewrite lookup_delete_ne. }
  assert (Hne : ∀ k, k ∈ index_to_node_ s → k ≠ n) by (intros k ? ->; done).
  constructor; try assumption.
  - unfold s'. simpl. rewrite dom_delete_L, Ghd.
    apply set_eq. intros k. destruct (decide (k = n)); set_solver.
  - set_solver.
  - unfold s'. simpl. rewrite dom_delete_L. intros k Hk. apply Gfr. set_solver.
  - intros k p Hk Hp. rewrite Hpreds in Hp by auto.
    destruct (Gpr k p Hk Hp). rewrite Hsuccs by auto. done.
  - intros k x Hk Hx. rewrite Hsuccs in Hx by auto.
    destruct (Gsu k x Hk Hx). rewrite Hpreds by auto. done.
  - intros k p Hact Hk Hp. rewrite Hpreds in Hp by auto. by apply (Gact k p).
  - intros k Hk Hst.
    replace (open_preds s' k) with (open_preds s k); [by apply Gtr|].
    symmetry. apply open_preds_ext; [apply Hpreds; auto | done].
Qed.

Lemma torun_ids_cons ev q :
  torun_ids (ev :: q) = match ev.1 with kToRun => ev.2 :: torun_ids q | kToComplete => torun_ids q end.
Proof. unfold torun_ids. simpl. by destruct ev as [[] ?]. Qed.

Lemma tocomplete_ids_cons ev q :
  tocomplete_ids (ev :: q) =
  match ev.1 with kToComplete => ev.2 :: tocomplete_ids q | kToRun => tocomplete_ids q end.
Proof. unfold tocomplete_ids. simpl. by destruct ev as [[] ?]. Qed.

Lemma GInv_pop D pend s ev q :
  GInv D pend s → dispatcher_queue_ s = ev :: q →
  GInv D pend (set_queue (λ _, q) s).
Proof.
  intros HG Hq. open_GInv HG. rewrite Hq in *.
  assert (Hrun : ∀ k, k ∈ torun_ids q → k ∈ torun_ids (ev :: q)).
  { intros k. rewrite torun_ids_cons. destruct (ev.1); set_solver. }
  assert (Hcomp : ∀ k, k ∈ tocomplete_ids q → k ∈ tocomplete_ids (ev :: q)).
  { intros k. rewrite tocomplete_ids_cons. destruct (ev.1); set_solver. }
  assert (Hact : ∀ k, activated (set_queue (λ _, q) s) k → activated s k).
  { intros k. unfold activated. simpl. rewrite Hq. intros [?|?]; auto. }
  constructor; try assumption; simpl.
  - intros ev' Hev'. apply Gq. by right.
  - auto.
  - rewrite torun_ids_cons in Gnd. destruct (ev.1); [|done].
    apply NoDup_app in Gnd as (? & ? & ?%NoDup_cons_1_2).
    apply NoDup_app. split_and!; [done | | done]. set_solver.
  - rewrite tocomplete_ids_cons in Gndc. destruct (ev.1); [done|].
    by apply NoDup_cons_1_2 in Gndc.
  - intros k p ?%Hact ? ?. by apply (Gact k p).
  - intros x Hx ?%Hact. by apply (Gpe x).
Qed.

Lemma GInv_push_task D pend s n device task :
  GInv D pend s → task_id task = n →
  n ∈ index_to_node_ s →
  state_at s n = Some kReady →
  (∀ p, p ∈ preds_at s n → state_at s p = Some kCompleted) →
  ¬ activated s n → n ∉ pend →
  GInv D pend (set_trace (λ t, t ++ [APushTask device task]) s).
Proof.
  intros HG Hid Hn Hready Hdone Hnew Hpend. open_GInv HG.
  set (s' := set_trace (λ t, t ++ [APushTask device task]) s).
  assert (Hpushed : pushed_ids (trace s') = pushed_ids (trace s) ++ [n]).
  { unfold s'. simpl. rewrite pushed_ids_app. simpl. by rewrite Hid. }
  assert (Hrep : reported_ids (trace s') = reported_ids (trace s)).
  { unfold s'. simpl. by rewrite reported_ids_app, app_nil_r. }
  assert (Hact : ∀ k, activated s' k ↔ activated s k ∨ k = n).
  { intros k. unfold activated. rewrite Hpushed. set_solver. }
  constructor; try assumption.
  - rewrite Hpushed. intros k [Hk| ->%list_elem_of_singleton]%elem_of_app; [auto|].
    apply Gfr. rewrite Ghd. set_solver.
  - by rewrite Hrep.
  - rewrite Hrep, Hpushed. intros k Hk. apply elem_of_app. left. auto.
  - rewrite Hrep, Hpushed.
    intros k [Hk| ->%list_elem_of_singleton]%elem_of_app Hnk; [by apply Grun | done].
  - rewrite Hpushed. apply NoDup_app in Gnd as (? & Hdisj & ?).
    apply NoDup_app. split_and!; [|  | done].
    + apply NoDup_app. split_and!; [done | | apply NoDup_singleton].
      intros k Hk ->%list_elem_of_singleton. apply Hnew. by left.
    + intros k [Hk| ->%list_elem_of_singleton]%elem_of_app; [by apply Hdisj|].
      intros Hin. apply Hnew. by right.
  - intros k p [Hk| ->]%Hact Hki Hp; [by apply (Gact k p) | by apply Hdone].
  - intros k Hk [Hk'| ->]%Hact; [by apply (Gpe k) | done].
Qed.

Lemma GInv_report D pend s k :
  GInv D pend s →
  k ∈ pushed_ids (trace s) → k ∉ reported_ids (trace s) →
  GInv D pend (set_trace (λ t, t ++ [AQueuePush (kToComplete, k)])
                 (set_queue (λ q, q ++ [(kToComplete, k)]) s)).
Proof.
  intros HG Hk Hnk. open_GInv HG.
  set (s' := set_trace _ _).
  assert (Hpushed : pushed_ids (trace s') = pushed_ids (trace s)).
  { unfold s'. simpl. by rewrite pushed_ids_app, app_nil_r. }
  assert (Hrep : reported_ids (trace s') = reported_ids (trace s) ++ [k]).
  { unfold s'. simpl. by rewrite reported_ids_app. }
  assert (Hrun : torun_ids (dispatcher_queue_ s') = torun_ids (dispatcher_queue_ s)).
  { unfold s'. simpl. by rewrite torun_ids_app, app_nil_r. }
  assert (Hcomp : tocomplete_ids (dispatcher_queue_ s')
                  = tocomplete_ids (dispatcher_queue_ s) ++ [k]).
  { unfold s'. simpl. by rewrite tocomplete_ids_app. }
  assert (Hact : ∀ x, activated s' x ↔ activated s x).
  { intros x. unfold activated. by rewrite Hpushed, Hrun. }
  constructor; try assumption.
  - by rewrite Hpushed.
  - intros ev [Hev| ->%list_elem_of_singleton]%elem_of_app; [by apply Gq|].
    by apply Grun.
  - rewrite Hcomp, Hrep. intros x [Hx| ->%list_elem_of_singleton]%elem_of_app; set_solver.
  - rewrite Hrep, Hpushed. intros x [Hx| ->%list_elem_of_singleton]%elem_of_app; auto.
  - rewrite Hrep, Hpushed. intros x Hx Hnx. apply Grun; set_solver.
  - by rewrite Hpushed, Hrun.
  - rewrite Hcomp. apply NoDup_app. split_and!; [done | | apply NoDup_singleton].
    intros x Hx ->%list_elem_of_singleton. auto.
  - intros x p ?%Hact ? ?. by apply (Gact x p).
  - intros x Hx ?%Hact. by apply (Gpe x).
Qed.


(** * The dispatcher preserves the invariant *)

Lemma shrinks_refl s : shrinks s s.
Proof. constructor; auto. Qed.

Lemma shrinks_trans s1 s2 s3 : shrinks s1 s2 → shrinks s2 s3 → shrinks s1 s3.
Proof.
  intros H12 H23. constructor.
  - pose proof (sh_index _ _ H12). pose proof (sh_index _ _ H23). set_solver.
  - intros k st Hk. by apply (sh_state _ _ H12), (sh_state _ _ H23).
  - intros k. pose proof (sh_preds _ _ H12 k). pose proof (sh_preds _ _ H23 k). set_solver.
  - intros k. pose proof (sh_succs _ _ H12 k). pose proof (sh_succs _ _ H23 k). set_solver.
  - intros k x Hx. destruct (sh_succs_gone _ _ H12 k x Hx) as [Hx'|Hx'].
    + by apply (sh_succs_gone _ _ H23).
    + right. pose proof (sh_index _ _ H23). set_solver.
  - rewrite (sh_queue _ _ H23). apply (sh_queue _ _ H12).
  - rewrite (sh_pushed _ _ H23). apply (sh_pushed _ _ H12).
  - rewrite (sh_reported _ _ H23). apply (sh_reported _ _ H12).
Qed.

Lemma shrinks_same_core s s1 s' : same_core s1 s' → shrinks s s1 → shrinks s s'.
Proof.
  intros (Hh & Hi & Hr & Hq & Hn & Hp & Hrep) [].
  constructor; unfold preds_at, succs_at, state_at in *;
    rewrite <- ?Hh, <- ?Hi, <- ?Hr, <- ?Hq, <- ?Hp, <- ?Hrep; assumption.
Qed.

Lemma shrinks_add_reference_count s d p :
  shrinks s (set_rt_info (alter (add_reference_count d) p) s).
Proof.
  constructor; try done.
  - intros k st. by rewrite state_at_alter.
  - intros k x Hx. by left.
Qed.

Lemma shrinks_remove_core s n node :
  heap s !! n = Some node →
  shrinks s (remove_core n node s).
Proof.
  intros Hnode. constructor; try done.
  - unfold remove_core. simpl. set_solver.
  - intros k st. unfold state_at, remove_core. simpl.
    destruct (decide (k = n)) as [->|Hne].
    + by rewrite lookup_delete_eq.
    + by rewrite lookup_delete_ne.
  - intros k. unfold remove_core.
    change (preds_at (set_rt_info ?f (set_index ?g ?t)) k) with (preds_at t k).
    rewrite preds_at_detach. case_decide; set_solver.
  - intros k. unfold remove_core.
    change (succs_at (set_rt_info ?f (set_index ?g ?t)) k) with (succs_at t k).
    rewrite succs_at_detach. case_decide; set_solver.
  - intros k x Hx. unfold remove_core.
    change (succs_at (set_rt_info ?f (set_index ?g ?t)) k) with (succs_at t k).
    rewrite succs_at_detach. simpl.
    destruct (decide (x = n)) as [->|Hne]; [right; set_solver|].
    left. case_decide; set_solver.
Qed.

Lemma GInv_sets D D' pend pend' s :
  D ≡ D' → pend ≡ pend' → GInv D pend s → GInv D' pend' s.
Proof. by intros ->%leibniz_equiv ->%leibniz_equiv. Qed.

(** [same_core] between a state as the code leaves it and its core. *)
Ltac solve_same_core :=
  unfold same_core, remove_core; simpl;
  rewrite ?pushed_ids_app, ?reported_ids_app; simpl; rewrite ?app_nil_r;
  repeat split; reflexivity.

Lemma reclaim_data_node_GInv D pend s q r s' :
  GInv D pend s → state_at s q = Some kCompleted →
  reclaim_data_node q s = Ok (r, s') →
  r = q ∧ GInv (D ∪ {[q]}) pend s' ∧ shrinks s s'.
Proof.
  intros HG Hst H. unfold reclaim_data_node in H. inv_M H.
  match goal with Hn : heap s !! q = Some ?node |- _ ∧ GInv _ _ ?t ∧ _ =>
    assert (Hcore : same_core (remove_core q node s) t) by solve_same_core;
    split_and!;
      [ done
      | eapply GInv_same_core; [exact Hcore|]; by apply GInv_remove
      | eapply shrinks_same_core; [exact Hcore|]; by apply shrinks_remove_core ]
  end.
Qed.

Lemma remove_op_node_GInv D pend s q (r : list N) s' :
  GInv D pend s → state_at s q = Some kCompleted →
  (n ← RemoveNodeFromDag q; OnDeleteNode q ;; mret [n]) s = Ok (r, s') →
  r = [q] ∧ GInv (D ∪ {[q]}) pend s' ∧ shrinks s s'.
Proof.
  intros HG Hst H. inv_M H.
  match goal with Hn : heap s !! q = Some ?node |- _ ∧ GInv _ _ ?t ∧ _ =>
    assert (Hcore : same_core (remove_core q node s) t) by solve_same_core;
    split_and!;
      [ done
      | eapply GInv_same_core; [exact Hcore|]; by apply GInv_remove
      | eapply shrinks_same_core; [exact Hcore|]; by apply shrinks_remove_core ]
  end.
Qed.

Lemma At_update_reference_count_GInv D pend s d p a s' :
  GInv D pend s → At_update p (add_reference_count d) s = Ok (a, s') →
  GInv D pend s' ∧ shrinks s s'.
Proof.
  intros HG H. inv_M H.
  match goal with |- GInv _ _ ?t ∧ _ =>
    assert (Hcore : same_core (set_rt_info (alter (add_reference_count d) p) s) t)
      by solve_same_core
  end.
  split.
  - eapply GInv_same_core; [exact Hcore|]. by apply GInv_add_reference_count.
  - eapply shrinks_same_core; [exact Hcore|]. apply shrinks_add_reference_count.
Qed.

Lemma release_predecessor_GInv D pend s p del s' :
  GInv D pend s →
  (∀ st, state_at s p = Some st → st = kCompleted) →
  release_predecessor p s = Ok (del, s') →
  GInv (D ∪ list_to_set del) pend s' ∧ shrinks s s'.
Proof.
  intros HG Hst H. unfold release_predecessor in H.
  apply bind_Ok in H as (ri & sa & Ha & H). inv_M Ha.
  apply bind_Ok in H as (d & sb & Hb & H). inv_M Hb.
  apply bind_Ok in H as ([] & sc & Hc & H). inv_M Hc.
  apply bind_Ok in H as ([] & s1 & H1 & H).
  destruct (At_update_reference_count_GInv _ _ _ _ _ _ _ HG H1) as [HG1 Hsh1].
  assert (Hst1 : state_at s1 p = Some kCompleted).
  { unfold At_update in H1. inv_M H1.
    unfold state_at in *. simpl. rewrite lookup_alter_eq.
    destruct (rt_info_ s !! p) as [ri'|]; [|done]. simpl in *.
    f_equal. by apply Hst. }
  destruct (decide _) as [_|_].
  - apply bind_Ok in H as (n & s2 & H2 & H). inv_M H.
    destruct (reclaim_data_node_GInv _ _ _ _ _ _ HG1 Hst1 H2) as (-> & HG2 & Hsh2).
    split; [|by eapply shrinks_trans].
    eapply GInv_sets; [| |exact HG2]; set_solver.
  - inv_M H. split; [|done].
    eapply GInv_sets; [| |exact HG1]; set_solver.
Qed.

Lemma Collect_release_GInv l : ∀ D pend s del s',
  GInv D pend s →
  (∀ p, p ∈ l → ∀ st, state_at s p = Some st → st = kCompleted) →
  Collect release_predecessor l s = Ok (del, s') →
  GInv (D ∪ list_to_set del) pend s' ∧ shrinks s s'.
Proof.
  induction l as [|p l IH]; intros D pend s del s' HG Hst H; simpl in H.
  - inv_M H. split; [|apply shrinks_refl].
    eapply GInv_sets; [| |exact HG]; set_solver.
  - apply bind_Ok in H as (del1 & s1 & H1 & H).
    apply bind_Ok in H as (del2 & s2 & H2 & H). inv_M H.
    destruct (release_predecessor_GInv _ _ _ _ _ _ HG (Hst p ltac:(by left)) H1)
      as [HG1 Hsh1].
    assert (Hst1 : ∀ q, q ∈ l → ∀ st, state_at s1 q = Some st → st = kCompleted).
    { intros q Hq st Hqst. apply (Hst q); [by right|]. by apply (sh_state _ _ Hsh1). }
    destruct (IH _ _ _ _ _ HG1 Hst1 H2) as [HG2 Hsh2].
    split; [|by eapply shrinks_trans].
    eapply GInv_sets; [| |exact HG2]; [|done].
    rewrite list_to_set_app. set_solver.
Qed.

Lemma trigger_successor_GInv D pend s x s' :
  GInv D pend s → x ∈ pend →
  trigger_successor x s = Ok (tt, s') →
  GInv D (pend ∖ {[x]}) s' ∧ index_to_node_ s' = index_to_node_ s ∧ heap s' = heap s.
Proof.
  intros HG Hx H. unfold trigger_successor in H.
  apply bind_Ok in H as (ri & sa & Ha & H). inv_M Ha.
  apply bind_Ok in H as ([] & s1 & H1 & H). inv_M H1.
  set (s0 := set_rt_info (alter (add_num_triggers_needed (-1)) x) s) in *.
  assert (HG0 : GInv D (pend ∖ {[x]}) s0) by (by apply GInv_decr_trigger).
  inv_M H.
  - match goal with |- GInv _ _ ?t ∧ _ =>
      assert (Hcore : same_core (set_queue (λ q, q ++ [(kToRun, x)]) s0) t)
        by solve_same_core
    end.
    split; [|done].
    eapply GInv_same_core; [exact Hcore|].
    match goal with Hr : _ ∧ _ |- _ => destruct Hr as [Hready Hzero] end.
    apply GInv_enqueue_ToRun; try done.
    + set_solver.
    + change (x ∈ index_to_node_ s). rewrite <- (g_rt_dom _ _ _ HG).
      apply elem_of_dom. eauto.
    + unfold state_at, s0. simpl. rewrite lookup_alter_eq, Ha. simpl. by rewrite Hready.
    + unfold triggers_at, s0. simpl. rewrite lookup_alter_eq, Ha. simpl. lia.
    + by apply (g_pend _ _ _ HG).
  - split; [|done]. eapply GInv_same_core; [|exact HG0]. solve_same_core.
Qed.

Lemma Iter_trigger_GInv l : ∀ D pend s s',
  NoDup l → (∀ x, x ∈ l → x ∈ pend) →
  GInv D pend s →
  Iter trigger_successor l s = Ok (tt, s') →
  GInv D (pend ∖ list_to_set l) s' ∧ index_to_node_ s' = index_to_node_ s ∧
  heap s' = heap s.
Proof.
  induction l as [|x l IH]; intros D pend s s' Hnd Hin HG H; simpl in H.
  - inv_M H. split; [|done]. eapply GInv_sets; [| |exact HG]; set_solver.
  - apply NoDup_cons in Hnd as [Hx Hnd].
    apply bind_Ok in H as ([] & s1 & H1 & H).
    destruct (trigger_successor_GInv _ _ _ _ _ HG (Hin x ltac:(by left)) H1)
      as (HG1 & Hi1 & Hh1).
    assert (Hin1 : ∀ y, y ∈ l → y ∈ pend ∖ {[x]}).
    { intros y Hy. apply elem_of_difference. split; [apply Hin; by right|].
      intros ->%elem_of_singleton. done. }
    destruct (IH _ _ _ _ Hnd Hin1 HG1 H) as (HG2 & Hi2 & Hh2).
    split; [|split; congruence].
    eapply GInv_sets; [| |exact HG2]; [done|]. set_solver.
Qed.

Lemma GInv_pend_gone D pend s :
  GInv D pend s → (∀ x, x ∈ pend → x ∉ index_to_node_ s) → GInv D ∅ s.
Proof.
  intros HG Hgone. open_GInv HG. constructor; try assumption.
  - intros k Hk Hst. specialize (Gtr k Hk Hst).
    rewrite decide_False in Gtr by (intros ?; by apply (Hgone k)).
    by rewrite decide_False by set_solver.
  - set_solver.
Qed.

Lemma Iter_Delete_GInv l : ∀ D pend s s',
  (∀ x, x ∈ l → x ∉ index_to_node_ s) →
  GInv D pend s →
  Iter Delete l s = Ok (tt, s') →
  GInv (D ∖ list_to_set l) pend s'.
Proof.
  induction l as [|x l IH]; intros D pend s s' Hin HG H; simpl in H.
  - inv_M H. eapply GInv_sets; [| |exact HG]; set_solver.
  - apply bind_Ok in H as ([] & s1 & H1 & H). inv_M H1.
    set (s0 := set_heap (delete x) s) in *.
    assert (HG0 : GInv (D ∖ {[x]}) pend s0)
      by (apply GInv_delete; [done | apply Hin; by left]).
    match type of H with Iter Delete l ?t = _ =>
      assert (HG1 : GInv (D ∖ {[x]}) pend t)
        by (eapply GInv_same_core; [|exact HG0]; solve_same_core);
      assert (Hin1 : ∀ y, y ∈ l → y ∉ index_to_node_ t)
        by (intros y Hy; apply Hin; by right)
    end.
    eapply GInv_sets; [| |exact (IH _ _ _ _ Hin1 HG1 H)]; set_solver.
Qed.

Lemma deref_views n s now s' :
  deref n s = Ok (now, s') →
  s' = s ∧ heap s !! n = Some now ∧
  predecessors_ now = preds_at s n ∧ successors_ now = succs_at s n.
Proof.
  intros H. inv_M H. unfold preds_at, succs_at.
  match goal with Hn : heap _ !! n = Some _ |- _ => rewrite Hn end. done.
Qed.

Lemma tail_of_complete_node (n : N) (del : list N) s r s' :
  (decr_yet_to_finish ;;
   emit AFinishLock ;;
   k ← gets num_nodes_yet_to_finish_;
   t ← gets target_;
   (if decide (k = 0 ∨ Z.of_N n = t) then emit ANotifyAll else mret tt) ;;
   emit AFinishUnlock ;;
   mret del) s = Ok (r, s') →
  r = del ∧ ∃ s0, same_core s0 s' ∧ s0 = s.
Proof.
  intros H. inv_M H; (split; [done|]); eexists; (split; [|reflexivity]); solve_same_core.
Qed.

(** The completion arm, for a node whose event was just popped. *)
Lemma complete_node_GInv n node s del s' :
  GInv ∅ ∅ s →
  n ∈ index_to_node_ s →
  state_at s n ≠ Some kCompleted →
  n ∉ torun_ids (dispatcher_queue_ s) →
  n ∉ tocomplete_ids (dispatcher_queue_ s) →
  (n ∈ pushed_ids (trace s) → n ∈ reported_ids (trace s)) →
  (∀ p, p ∈ preds_at s n → state_at s p = Some kCompleted) →
  complete_node n node s = Ok (del, s') →
  GInv (list_to_set del) ∅ s' ∧
  pushed_ids (trace s') = pushed_ids (trace s).
Proof.
  intros HG Hn Hst Hrun Hcomp Hpush Hpreds H. unfold complete_node in H.
  (* the state becomes kCompleted *)
  apply bind_Ok in H as ([] & s1 & H1 & H). inv_M H1.
  match type of H with (_ ≫= _) ?t = _ => set (s1 := t) in * end.
  assert (HG1 : GInv ∅ (succs_at s n) s1).
  { eapply GInv_same_core; [|by apply (GInv_set_completed ∅ s n)]. solve_same_core. }
  assert (Hdone1 : state_at s1 n = Some kCompleted).
  { unfold state_at, s1. simpl. rewrite lookup_alter_eq.
    by destruct (rt_info_ s !! n). }
  assert (Hpreds1 : ∀ p, p ∈ preds_at s1 n → state_at s1 p = Some kCompleted).
  { intros p Hp. destruct (decide (p = n)) as [->|Hne]; [done|].
    unfold state_at, s1. simpl. rewrite lookup_alter_ne by done. by apply Hpreds. }
  assert (Hpushed1 : pushed_ids (trace s1) = pushed_ids (trace s)).
  { unfold s1. simpl. by rewrite pushed_ids_app, app_nil_r. }
  assert (Hsuccs1 : succs_at s1 n = succs_at s n) by done.
  rewrite <- Hsuccs1 in HG1.
  clearbody s1. clear Hsuccs1.
  (* the predecessors are released *)
  apply bind_Ok in H as (del' & s2 & H2 & H).
  assert (GInv (list_to_set del') (succs_at s1 n) s2 ∧ shrinks s1 s2) as [HG2 Hsh2].
  { destruct (decide (Type_ node = kOpNode)) as [_|_].
    - apply bind_Ok in H2 as (ri & sa & Ha & H2). inv_M Ha.
      apply bind_Ok in H2 as ([] & sb & Hb & H2). inv_M Hb.
      apply bind_Ok in H2 as (now & sc & Hc & H2).
      apply deref_views in Hc as (-> & _ & Hnow & _).
      assert (Hall : ∀ p, p ∈ elements (predecessors_ now) →
                ∀ st, state_at s1 p = Some st → st = kCompleted).
      { intros p Hp st Hpst. apply elem_of_elements in Hp. rewrite Hnow in Hp.
        rewrite (Hpreds1 p Hp) in Hpst. congruence. }
      apply Collect_release_live_Ok in H2.
      destruct (Collect_release_GInv _ _ _ _ _ _ HG1 Hall H2) as [HG2 Hsh2].
      split; [|done]. eapply GInv_sets; [| |exact HG2]; set_solver.
    - apply bind_Ok in H2 as (d & sa & Ha & H2). inv_M Ha.
      apply bind_Ok in H2 as (ri & sb & Hb & H2). inv_M Hb.
      apply bind_Ok in H2 as (del1 & s2a & H2a & H2).
      assert (GInv (list_to_set del1) (succs_at s1 n) s2a ∧ shrinks s1 s2a) as [HG2a Hsh2a].
      { match type of H2a with (if decide ?P then _ else _) _ = _ =>
          destruct (decide P) as [_|_] end.
        - apply bind_Ok in H2a as (r & sc & Hc & H2a). inv_M H2a.
          destruct (reclaim_data_node_GInv _ _ _ _ _ _ HG1 Hdone1 Hc) as (-> & HGc & Hshc).
          split; [|done]. eapply GInv_sets; [| |exact HGc]; set_solver.
        - inv_M H2a. split; [|apply shrinks_refl].
          eapply GInv_sets; [| |exact HG1]; set_solver. }
      apply bind_Ok in H2 as (now & sc & Hc & H2).
      apply deref_views in Hc as (-> & _ & Hnow & _).
      apply bind_Ok in H2 as ([] & sd & Hd & H2). inv_M Hd.
      destruct (elements (predecessors_ now)) as [|pred rest] eqn:Hel; [inv_M H2|].
      assert (Hpred : pred ∈ preds_at s1 n).
      { apply (sh_preds _ _ Hsh2a). rewrite <- Hnow. apply elem_of_elements.
        rewrite Hel. by left. }
      apply bind_Ok in H2 as (pred_ri & se & He & H2). inv_M He.
      apply bind_Ok in H2 as ([] & sf & Hf & H2). inv_M Hf.
      apply bind_Ok in H2 as ([] & s2b & H2b & H2).
      destruct (At_update_reference_count_GInv _ _ _ _ _ _ _ HG2a H2b) as [HG2b Hsh2b].
      assert (Hpdone : state_at s2b pred = Some kCompleted).
      { assert (is_Some (state_at s2b pred)) as [st Hpst].
        { unfold At_update in H2b. inv_M H2b. unfold state_at. simpl.
          rewrite lookup_alter_eq.
          match goal with Hp : rt_info_ s2a !! pred = Some _ |- _ => rewrite Hp end.
          by eexists. }
        rewrite Hpst. f_equal.
        apply (sh_state _ _ Hsh2b), (sh_state _ _ Hsh2a) in Hpst.
        rewrite (Hpreds1 pred Hpred) in Hpst. congruence. }
      apply bind_Ok in H2 as (del2 & s2c & H2c & H2). inv_M H2.
      match type of H2c with (if decide ?P then _ else _) _ = _ =>
        destruct (decide P) as [_|_] end.
      + destruct (remove_op_node_GInv _ _ _ _ _ _ HG2b Hpdone H2c) as (-> & HGc & Hshc).
        split; [|exact (shrinks_trans _ _ _ Hsh2a (shrinks_trans _ _ _ Hsh2b Hshc))].
        eapply GInv_sets; [| |exact HGc]; [|done]. rewrite list_to_set_app. set_solver.
      + inv_M H2c. split; [|exact (shrinks_trans _ _ _ Hsh2a Hsh2b)].
        eapply GInv_sets; [| |exact HG2b]; [|done]. rewrite list_to_set_app. set_solver. }
  (* the successors are triggered *)
  apply bind_Ok in H as (now & sa & Ha & H).
  apply deref_views in Ha as (-> & _ & _ & Hnow).
  apply bind_Ok in H as ([] & s3 & H3 & H).
  assert (Hin : ∀ y, y ∈ elements (successors_ now) → y ∈ succs_at s1 n).
  { intros y Hy. apply elem_of_elements in Hy. rewrite Hnow in Hy.
    by apply (sh_succs _ _ Hsh2). }
  destruct (Iter_trigger_GInv _ _ _ _ _ (NoDup_elements _) Hin HG2 H3) as (HG3 & Hi3 & Hh3).
  assert (HG3' : GInv (list_to_set del') ∅ s3).
  { apply (GInv_pend_gone _ _ _ HG3). intros y [Hy Hny]%elem_of_difference.
    rewrite Hi3. destruct (sh_succs_gone _ _ Hsh2 n y Hy) as [Hy'|]; [|done].
    destruct Hny. apply elem_of_list_to_set, elem_of_elements. by rewrite Hnow. }
  assert (Hpushed3 : pushed_ids (trace s3) = pushed_ids (trace s)).
  { rewrite <- Hpushed1, <- (sh_pushed _ _ Hsh2).
    assert (appends quiet (Iter trigger_successor (elements (successors_ now)))) as Hq.
    { solve_appends quiet_nil quiet_app ltac:(done). }
    destruct (Hq _ _ _ H3) as (t & -> & [Hqt _]).
    by rewrite pushed_ids_app, Hqt, app_nil_r. }
  apply tail_of_complete_node in H as (-> & s0 & Hcore & ->).
  split.
  - by eapply GInv_same_core.
  - destruct Hcore as (_ & _ & _ & _ & _ & <- & _). done.
Qed.

Lemma Map_task_data_state l : ∀ s r s',
  Map (λ n, d ← as_data_node n; mret (d, n)) l s = Ok (r, s') → s' = s.
Proof.
  induction l as [|n l IH]; intros s r s' H; simpl in H.
  - by inv_M H.
  - apply bind_Ok in H as (y & s1 & H1 & H). inv_M H1.
    apply bind_Ok in H as (ys & s2 & H2 & H). inv_M H. by apply IH in H2.
Qed.

Lemma DispatcherBody_appends task : appends (λ _, True) (DispatcherBody task).
Proof. solve_appends I (λ (_ _ : list Action) (_ _ : True), I) ltac:(done). Qed.

(** What the invariant says about the event at the head of the queue. *)
Lemma head_event_facts s ev q :
  Inv s → dispatcher_queue_ s = ev :: q →
  let s1 := set_queue (λ _, q) s in
  GInv ∅ ∅ s1 ∧
  ev.2 ∈ index_to_node_ s1 ∧
  state_at s1 ev.2 = Some kReady ∧
  (ev.2 ∉ torun_ids (dispatcher_queue_ s1)) ∧
  (ev.2 ∉ tocomplete_ids (dispatcher_queue_ s1)) ∧
  (ev.2 ∈ pushed_ids (trace s1) → ev.2 ∈ reported_ids (trace s1)) ∧
  (∀ p, p ∈ preds_at s1 ev.2 → state_at s1 p = Some kCompleted) ∧
  (ev.1 = kToRun → ¬ activated s1 ev.2).
Proof.
  intros HG Hq s1. pose proof (GInv_pop _ _ _ _ _ HG Hq) as HG1.
  open_GInv HG. rewrite Hq in *.
  destruct (Gq ev ltac:(by left)) as [Hidx Hready].
  rewrite torun_ids_cons in Gnd. rewrite tocomplete_ids_cons in Gndc, Grep.
  assert (Hact : activated s ev.2).
  { unfold activated. rewrite Hq, torun_ids_cons. destruct (ev.1).
    - right. by left.
    - left. apply Grp, Grep. by left. }
  destruct ev as [kind n]. cbn [fst snd] in *.
  split_and!; try done.
  - destruct kind.
    + apply NoDup_app in Gnd as (_ & _ & [? _]%NoDup_cons). done.
    + intros Hin. apply NoDup_app in Gnd as (_ & Hdisj & _).
      apply (Hdisj n); [|done]. apply Grp, Grep. by left.
  - destruct kind.
    + intros Hin. apply NoDup_app in Gnd as (_ & Hdisj & _).
      apply (Hdisj n); [|by left]. by apply Grp, Grep.
    + by apply NoDup_cons in Gndc as [? _].
  - destruct kind.
    + intros Hin. apply NoDup_app in Gnd as (_ & Hdisj & _).
      destruct (Hdisj n Hin). by left.
    + intros _. apply Grep. by left.
  - intros p Hp. by apply (Gact n p).
  - intros -> [Hin|Hin].
    + apply NoDup_app in Gnd as (_ & Hdisj & _). destruct (Hdisj n Hin). by left.
    + apply NoDup_app in Gnd as (_ & _ & [? _]%NoDup_cons). done.
Qed.

Lemma elem_of_pushed_ids device task t :
  APushTask device task ∈ t → task_id task ∈ pushed_ids t.
Proof.
  intros Hin. unfold pushed_ids. apply list_elem_of_omap.
  exists (APushTask device task). done.
Qed.

(** One iteration of the dispatcher loop preserves the invariant, and a
    task is pushed only from a [kToRun] event for an op node all of whose
    predecessors are [kCompleted]. *)
Lemma DispatcherBody_Inv s ev q s' :
  Inv s → dispatcher_queue_ s = ev :: q →
  DispatcherBody ev (set_queue (λ _, q) s) = Ok (tt, s') →
  Inv s' ∧
  (∀ device task, APushTask device task ∈ new_trace (set_queue (λ _, q) s) s' →
     ev = (kToRun, task_id task) ∧ type_at s (task_id task) = Some kOpNode ∧
     ∀ p, p ∈ preds_at s (task_id task) → state_at s p = Some kCompleted) ∧
  (ev.1 = kToRun → type_at s ev.2 = Some kOpNode →
     ∃ device task, task_id task = ev.2 ∧
       APushTask device task ∈ new_trace (set_queue (λ _, q) s) s').
Proof.
  intros HG Hq H.
  destruct (head_event_facts _ _ _ HG Hq)
    as (HG1 & Hidx & Hready & Hrun & Hcomp & Hpush & Hpreds & Hnew).
  set (s1 := set_queue (λ _, q) s) in *.
  destruct (DispatcherBody_appends ev _ _ _ H) as (t & Htrace & _).
  rewrite (new_trace_app _ _ _ Htrace).
  unfold DispatcherBody in H. destruct ev as [kind n]. cbn [fst snd] in *.
  apply bind_Ok in H as (node0 & sa & Ha & H). inv_M Ha.
  match goal with Hn : heap _ !! n = Some ?nd |- _ =>
    rename nd into node; rename Hn into Hnode end.
  apply bind_Ok in H as (to_delete & s3 & H3 & H).
  apply bind_Ok in H3 as ([] & sL & HL & H3). inv_M HL.
  apply bind_Ok in H3 as (ri & sb & Hb & H3). inv_M Hb.
  apply bind_Ok in H3 as (del & sB & HB & H3). inv_M H3.
  match type of HB with _ ?t = _ => set (sL := t) in * end.
  assert (HGL : GInv ∅ ∅ sL) by (eapply GInv_same_core; [|exact HG1]; solve_same_core).
  match type of HB with (if decide ?P then _ else _) _ = _ =>
    destruct (decide P) as [[-> Htype]|Hnot] end.
  - (* a new task is dispatched *)
    apply bind_Ok in HB as ([] & sc & Hc & HB). inv_M HB.
    unfold dispatch_op_node in Hc.
    destruct (body _) as [|o ins outs] eqn:Hbody; [inv_M Hc|].
    apply bind_Ok in Hc as (tin & sd & Hd & Hc). apply Map_task_data_state in Hd as ->.
    apply bind_Ok in Hc as (tout & se & He & Hc). apply Map_task_data_state in He as ->.
    inv_M Hc. inv_M H.
    set (task := mkTask tin tout o n) in *.
    assert (t = [ALock ({[n]} ∪ predecessors_ node ∪ successors_ node);
                 APushTask (op_device_id o) task; AUnlock]) as ->.
    { simpl in Htrace. rewrite <- !app_assoc in Htrace. simpl in Htrace.
      by apply app_inv_head in Htrace. }
    split_and!.
    + eapply GInv_same_core;
        [|apply (GInv_push_task ∅ ∅ s1 n (op_device_id o) task HG1)]; try done.
      * solve_same_core.
      * by apply Hnew.
    + intros device task' Hin.
      assert (task' = task) as ->.
      { apply elem_of_cons in Hin as [?|Hin]; [done|].
        apply elem_of_cons in Hin as [[= _ ->]|Hin]; [done|].
        apply list_elem_of_singleton in Hin. done. }
      simpl. split_and!; [done | | by apply Hpreds].
      unfold type_at. simpl in Hnode. rewrite Hnode. simpl. by rewrite Htype.
    + intros _ _. exists (op_device_id o), task. split; [done|]. set_solver.
  - (* a node has completed *)
    match type of HB with (if decide ?P then _ else _) _ = _ =>
      destruct (decide P) as [_|Hnot'] end.
    2:{ exfalso. destruct kind; [|apply Hnot'; by left].
        destruct (Type_ node) eqn:Htype; [apply Hnot | apply Hnot']; auto. }
    assert (HpL : pushed_ids (trace sL) = pushed_ids (trace s1))
      by (unfold sL; simpl; by rewrite pushed_ids_app, app_nil_r).
    assert (HrL : reported_ids (trace sL) = reported_ids (trace s1))
      by (unfold sL; simpl; by rewrite reported_ids_app, app_nil_r).
    assert (HstL : state_at sL n ≠ Some kCompleted).
    { change (state_at sL n) with (state_at s1 n). rewrite Hready. discriminate. }
    assert (HpushL : n ∈ pushed_ids (trace sL) → n ∈ reported_ids (trace sL))
      by (by rewrite HpL, HrL).
    destruct (complete_node_GInv n node sL del sB HGL Hidx HstL Hrun Hcomp HpushL Hpreds HB)
      as [HGB HpB].
    match type of H with _ ?t = _ => set (sU := t) in * end.
    assert (HGU : GInv (list_to_set del) ∅ sU)
      by (eapply GInv_same_core; [|exact HGB]; solve_same_core).
    assert (Hgone : ∀ y, y ∈ del → y ∉ index_to_node_ sU).
    { intros y Hy. pose proof (g_removed _ _ _ HGU). set_solver. }
    pose proof (Iter_Delete_GInv _ _ _ _ _ Hgone HGU H) as HG'.
    split_and!.
    3:{ intros -> Hty. exfalso. apply Hnot. split; [done|].
        unfold type_at in Hty. simpl in Hnode. rewrite Hnode in Hty. simpl in Hty.
        by injection Hty. }
    + eapply GInv_sets; [| |exact HG']; set_solver.
    + intros device task Hin. exfalso.
      apply elem_of_pushed_ids in Hin.
      assert (pushed_ids (trace s') = pushed_ids (trace s1)) as Hsame.
      { assert (appends quiet (Iter Delete del)) as HqD
          by solve_appends quiet_nil quiet_app ltac:(done).
        destruct (HqD _ _ _ H) as (tD & -> & [HtD _]).
        rewrite pushed_ids_app, HtD, app_nil_r.
        unfold sU. simpl. by rewrite pushed_ids_app, app_nil_r, HpB. }
      rewrite Htrace, pushed_ids_app in Hsame.
      assert (pushed_ids t = []) as Hnil.
      { apply (app_inv_head (pushed_ids (trace s1))). by rewrite app_nil_r. }
      rewrite Hnil in Hin. by apply elem_of_nil in Hin.
Qed.


(** * [Create] preserves the invariant *)

Lemma quiet_step_refl s : quiet_step s s.
Proof. done. Qed.

Lemma quiet_step_trans s1 s2 s3 : quiet_step s1 s2 → quiet_step s2 s3 → quiet_step s1 s3.
Proof. intros (? & ? & ?) (? & ? & ?). repeat split; congruence. Qed.

Ltac solve_quiet_step :=
  unfold quiet_step; simpl;
  rewrite ?pushed_ids_app, ?reported_ids_app; simpl; rewrite ?app_nil_r;
  repeat split; reflexivity.

(** ** Phase 1: the result data nodes *)

Lemma NewDataNode_views d s n s' :
  (∀ k, k ∈ dom (heap s) → (k < next_node_id s)%N) →
  NewDataNode d s = Ok (n, s') →
  n = next_node_id s ∧ next_node_id s' = N.succ (next_node_id s) ∧
  dom (heap s') = dom (heap s) ∪ {[n]} ∧
  index_to_node_ s' = index_to_node_ s ∪ {[n]} ∧
  (∀ j, preds_at s' j = preds_at s j ∧ succs_at s' j = succs_at s j) ∧
  same_rt s s'.
Proof.
  intros Hfresh H. unfold NewDataNode in H. inv_M H.
  assert (heap s !! next_node_id s = None) as Hnone.
  { apply not_elem_of_dom. intros Hin. apply Hfresh in Hin. lia. }
  split_and!; try done.
  - rewrite dom_insert_L. set_solver.
  - set_solver.
  - intros j. unfold preds_at, succs_at. simpl.
    destruct (decide (j = next_node_id s)) as [->|Hne].
    + by rewrite lookup_insert_eq, Hnone.
    + by rewrite lookup_insert_ne.
  - split; [done|]. solve_quiet_step.
Qed.

Lemma new_data_nodes_views dev sizes : ∀ s ids sa,
  (∀ k, k ∈ dom (heap s) → (k < next_node_id s)%N) →
  Map (λ sz, d ← GenerateDataId; NewDataNode (mkPhysicalData sz dev d 0)) sizes s
    = Ok (ids, sa) →
  (next_node_id s ≤ next_node_id sa)%N ∧
  (∀ d, d ∈ ids → (next_node_id s ≤ d < next_node_id sa)%N) ∧
  (∀ k, k ∈ dom (heap sa) → (k < next_node_id sa)%N) ∧
  dom (heap sa) = dom (heap s) ∪ list_to_set ids ∧
  index_to_node_ sa = index_to_node_ s ∪ list_to_set ids ∧
  (∀ j, preds_at sa j = preds_at s j ∧ succs_at sa j = succs_at s j) ∧
  same_rt s sa.
Proof.
  induction sizes as [|sz sizes IH]; intros s ids sa Hfresh H; simpl in H.
  - inv_M H. split_and!; try done; try set_solver; try lia.
  - apply bind_Ok in H as (n & s1 & H1 & H).
    apply bind_Ok in H1 as (d & s0 & H0 & H1).
    unfold GenerateDataId in H0. inv_M H0.
    apply NewDataNode_views in H1 as (-> & Hnext' & Hdom' & Hidx' & Hviews' & Hrt' & Hq');
      [|done].
    assert (Hnext : next_node_id s1 = N.succ (next_node_id s)) by exact Hnext'.
    assert (Hdom : dom (heap s1) = dom (heap s) ∪ {[next_node_id s]}) by exact Hdom'.
    assert (Hidx : index_to_node_ s1 = index_to_node_ s ∪ {[next_node_id s]}) by exact Hidx'.
    assert (Hviews : ∀ j, preds_at s1 j = preds_at s j ∧ succs_at s1 j = succs_at s j)
      by exact Hviews'.
    assert (Hrt : rt_info_ s1 = rt_info_ s) by exact Hrt'.
    assert (Hq : quiet_step s s1) by exact Hq'.
    clear Hnext' Hdom' Hidx' Hviews' Hrt' Hq'.
    apply bind_Ok in H as (ids' & s2 & H2 & H). inv_M H.
    assert (Hfresh1 : ∀ k, k ∈ dom (heap s1) → (k < next_node_id s1)%N).
    { intros k. rewrite Hdom, Hnext. intros [Hk| ->%elem_of_singleton]%elem_of_union.
      - apply Hfresh in Hk. lia.
      - lia. }
    destruct (IH _ _ _ Hfresh1 H2) as (Hn2 & Hids & Hf2 & Hdom2 & Hidx2 & Hviews2 & Hrt2 & Hq2).
    split_and!.
    + lia.
    + intros k [->|Hk]%elem_of_cons; [lia|]. apply Hids in Hk. lia.
    + done.
    + rewrite Hdom2, Hdom. set_solver.
    + rewrite Hidx2, Hidx. set_solver.
    + intros j. destruct (Hviews j), (Hviews2 j). split; congruence.
    + split; [congruence | by eapply quiet_step_trans].
Qed.

(** ** Phase 2: their runtime info *)

Lemma OnCreateNode_views n s s' :
  OnCreateNode n s = Ok (tt, s') →
  same_dag s s' ∧ rt_info_ s' = <[n := mkRuntimeInfo kReady 0 0]> (rt_info_ s).
Proof.
  intros H. inv_M H. split; [|done]. split_and!; try done. solve_quiet_step.
Qed.

Lemma same_dag_trans s1 s2 s3 : same_dag s1 s2 → same_dag s2 s3 → same_dag s1 s3.
Proof.
  intros (? & ? & ? & ?) (? & ? & ? & ?).
  split_and!; try congruence. by eapply quiet_step_trans.
Qed.

Lemma same_dag_refl s : same_dag s s.
Proof. done. Qed.

Lemma register_nodes_views ids : ∀ s s',
  Iter OnCreateNode ids s = Ok (tt, s') →
  same_dag s s' ∧
  dom (rt_info_ s') = dom (rt_info_ s) ∪ list_to_set ids ∧
  (∀ j, j ∉ ids → rt_info_ s' !! j = rt_info_ s !! j) ∧
  (∀ j, j ∈ ids → rt_info_ s' !! j = Some (mkRuntimeInfo kReady 0 0)).
Proof.
  induction ids as [|n ids IH]; intros s s' H; simpl in H.
  - inv_M H. split_and!; try done; set_solver.
  - apply bind_Ok in H as ([] & s1 & H1 & H).
    apply OnCreateNode_views in H1 as [Hdag1 Hrt1].
    destruct (IH _ _ H) as (Hdag & Hdom & Hout & Hin).
    split_and!.
    + by eapply same_dag_trans.
    + rewrite Hdom, Hrt1, dom_insert_L. set_solver.
    + intros j Hj. rewrite Hout by set_solver.
      rewrite Hrt1, lookup_insert_ne; [done | set_solver].
    + intros j Hj. destruct (decide (j ∈ ids)) as [|Hnot]; [auto|].
      rewrite Hout, Hrt1 by done. apply elem_of_cons in Hj as [->|?]; [|done].
      by rewrite lookup_insert_eq.
Qed.

(** ** Phase 3: their handles *)

Lemma new_DagChunk_views n s c s' :
  new_DagChunk n s = Ok (c, s') →
  c = DagChunk n ∧ n ∈ dom (heap s) ∧ dom (heap s') = dom (heap s) ∧
  index_to_node_ s' = index_to_node_ s ∧ next_node_id s' = next_node_id s ∧
  (∀ j, preds_at s' j = preds_at s j ∧ succs_at s' j = succs_at s j) ∧
  same_rt s s'.
Proof.
  intros H. unfold new_DagChunk in H. inv_M H. split_and!; try done.
  - apply elem_of_dom. eauto.
  - by rewrite dom_alter_L.
  - intros j. unfold preds_at, succs_at. simpl.
    destruct (decide (n = j)) as [->|Hne].
    + rewrite lookup_alter_eq. by destruct (heap s !! j).
    + by rewrite lookup_alter_ne.
  - split; [done|]. solve_quiet_step.
Qed.

Lemma same_rt_trans s1 s2 s3 : same_rt s1 s2 → same_rt s2 s3 → same_rt s1 s3.
Proof. intros [? ?] [? ?]. split; [congruence | by eapply quiet_step_trans]. Qed.

Lemma new_handles_views ids : ∀ s ret s',
  Map new_DagChunk ids s = Ok (ret, s') →
  ret = map DagChunk ids ∧ dom (heap s') = dom (heap s) ∧
  index_to_node_ s' = index_to_node_ s ∧ next_node_id s' = next_node_id s ∧
  (∀ j, preds_at s' j = preds_at s j ∧ succs_at s' j = succs_at s j) ∧
  same_rt s s'.
Proof.
  induction ids as [|n ids IH]; intros s ret s' H; simpl in H.
  - inv_M H. done.
  - apply bind_Ok in H as (c & s1 & H1 & H).
    apply bind_Ok in H as (cs & s2 & H2 & H). inv_M H.
    apply new_DagChunk_views in H1 as (-> & _ & Hd1 & Hi1 & Hn1 & Hv1 & Hr1).
    destruct (IH _ _ _ H2) as (-> & Hd2 & Hi2 & Hn2 & Hv2 & Hr2).
    split_and!; try congruence.
    + intros j. destruct (Hv1 j), (Hv2 j). split; congruence.
    + by eapply same_rt_trans.
Qed.

(** ** Phase 4: the lock, the op node and its edges *)

Lemma MultiNodeLock_vec_views ps s s' :
  MultiNodeLock_vec ps s = Ok (tt, s') →
  (∀ p, p ∈ ps → p ∈ dom (heap s)) ∧
  ∃ cover, s' = set_trace (λ t, t ++ [ALock cover]) s.
Proof.
  unfold MultiNodeLock_vec. intros H.
  apply bind_Ok in H as (covers & s1 & H1 & H). inv_M H.
  assert (s1 = s ∧ ∀ p, p ∈ ps → p ∈ dom (heap s)) as [-> Hps].
  { clear -H1. revert covers s1 H1.
    induction ps as [|p ps IH]; intros covers s1 H; simpl in H.
    - inv_M H. split; [done|]. intros p Hp. by apply elem_of_nil in Hp.
    - apply bind_Ok in H as (c & s2 & H2 & H). inv_M H2.
      apply bind_Ok in H as (cs & s3 & H3 & H). inv_M H.
      destruct (IH _ _ H3) as [-> Hps]. split; [done|].
      intros q [->|Hq]%elem_of_cons; [|auto]. apply elem_of_dom. eauto. }
  split; [done|]. eauto.
Qed.

Lemma AddEdge_views u v s s' :
  AddEdge u v s = Ok (tt, s') →
  u ∈ dom (heap s) ∧ v ∈ dom (heap s) ∧
  dom (heap s') = dom (heap s) ∧
  index_to_node_ s' = index_to_node_ s ∧ next_node_id s' = next_node_id s ∧
  trace s' = trace s ∧ dispatcher_queue_ s' = dispatcher_queue_ s ∧
  rt_info_ s' = rt_info_ s ∧
  (∀ j p, p ∈ preds_at s' j ↔ p ∈ preds_at s j ∨ (p = u ∧ j = v)) ∧
  (∀ j x, x ∈ succs_at s' j ↔ x ∈ succs_at s j ∨ (j = u ∧ x = v)).
Proof.
  intros H. unfold AddEdge in H. inv_M H.
  match goal with Hu : heap s !! u = Some _, Hv : heap s !! v = Some _ |- _ =>
    rename Hu into Hnu; rename Hv into Hnv end.
  split_and!; try done.
  - apply elem_of_dom. eauto.
  - apply elem_of_dom. eauto.
  - by rewrite !dom_alter_L.
  - intros j p. unfold preds_at. simpl.
    destruct (decide (v = j)) as [->|Hvj].
    + rewrite lookup_alter_eq.
      destruct (decide (u = j)) as [->|Huj].
      * rewrite lookup_alter_eq, Hnu. simpl. set_solver.
      * rewrite lookup_alter_ne, Hnv by done. simpl. set_solver.
    + rewrite lookup_alter_ne by done.
      destruct (decide (u = j)) as [->|Huj].
      * rewrite lookup_alter_eq, Hnu. simpl. set_solver.
      * rewrite lookup_alter_ne by done. set_solver.
  - intros j y. unfold succs_at. simpl.
    destruct (decide (v = j)) as [->|Hvj].
    + rewrite lookup_alter_eq.
      destruct (decide (u = j)) as [->|Huj].
      * rewrite lookup_alter_eq, Hnu. simpl. set_solver.
      * rewrite lookup_alter_ne, Hnv by done. simpl. set_solver.
    + rewrite lookup_alter_ne by done.
      destruct (decide (u = j)) as [->|Huj].
      * rewrite lookup_alter_eq, Hnu. simpl. set_solver.
      * rewrite lookup_alter_ne by done. set_solver.
Qed.

Lemma add_edges_views es : ∀ s s',
  Iter (λ e : N * N, AddEdge e.1 e.2) es s = Ok (tt, s') →
  (∀ e, e ∈ es → e.1 ∈ dom (heap s) ∧ e.2 ∈ dom (heap s)) ∧
  dom (heap s') = dom (heap s) ∧
  index_to_node_ s' = index_to_node_ s ∧ next_node_id s' = next_node_id s ∧
  trace s' = trace s ∧ dispatcher_queue_ s' = dispatcher_queue_ s ∧
  rt_info_ s' = rt_info_ s ∧
  (∀ j p, p ∈ preds_at s' j ↔ p ∈ preds_at s j ∨ (p, j) ∈ es) ∧
  (∀ j x, x ∈ succs_at s' j ↔ x ∈ succs_at s j ∨ (j, x) ∈ es).
Proof.
  induction es as [|[u v] es IH]; intros s s' H; simpl in H.
  - inv_M H. split_and!; try done.
    + intros e He. by apply elem_of_nil in He.
    + intros j p. rewrite elem_of_nil. tauto.
    + intros j x. rewrite elem_of_nil. tauto.
  - apply bind_Ok in H as ([] & s1 & H1 & H).
    apply AddEdge_views in H1 as (Hu & Hv & Hd1 & Hi1 & Hn1 & Ht1 & Hq1 & Hr1 & Hp1 & Hs1).
    destruct (IH _ _ H) as (Hes & Hd & Hi & Hn & Ht & Hq & Hr & Hp & Hs).
    split_and!; try congruence.
    + intros e [->|He]%elem_of_cons; [done|]. rewrite <- Hd1. auto.
    + intros j p. rewrite Hp, Hp1, elem_of_cons. split.
      * intros [[?|[-> ->]]|?]; auto.
      * intros [?|[[= -> ->]|?]]; auto.
    + intros j x. rewrite Hs, Hs1, elem_of_cons. split.
      * intros [[?|[-> ->]]|?]; auto.
      * intros [?|[[= -> ->]|?]]; auto.
Qed.

Lemma Iter_map {A B} (f : B → M unit) (g : A → B) l :
  Iter f (map g l) = Iter (λ x, f (g x)) l.
Proof. induction l as [|x l IH]; simpl; [done|]. by rewrite IH. Qed.

Lemma NewOpNode_views ins outs o s n s' :
  (∀ k, k ∈ dom (heap s) → (k < next_node_id s)%N) →
  NewOpNode ins outs o s = Ok (n, s') →
  n = next_node_id s ∧ next_node_id s' = N.succ (next_node_id s) ∧
  (∀ x, x ∈ ins ++ outs → x ∈ dom (heap s) ∨ x = n) ∧
  dom (heap s') = dom (heap s) ∪ {[n]} ∧
  index_to_node_ s' = index_to_node_ s ∪ {[n]} ∧
  same_rt s s' ∧
  (∀ j p, p ∈ preds_at s' j ↔
     p ∈ preds_at s j ∨ (p ∈ ins ∧ j = n) ∨ (p = n ∧ j ∈ outs)) ∧
  (∀ j x, x ∈ succs_at s' j ↔
     x ∈ succs_at s j ∨ (j ∈ ins ∧ x = n) ∨ (j = n ∧ x ∈ outs)).
Proof.
  intros Hfresh H. unfold NewOpNode in H.
  apply bind_Ok in H as (n0 & s0 & H0 & H). inv_M H0.
  apply bind_Ok in H as ([] & s0 & H0 & H). inv_M H0.
  apply bind_Ok in H as ([] & s0 & H0 & H). inv_M H0.
  apply bind_Ok in H as ([] & s0 & H0 & H). inv_M H0.
  match type of H with _ ?t = _ => set (s0 := t) in * end.
  set (m := next_node_id s) in *.
  assert (heap s !! m = None) as Hnone.
  { apply not_elem_of_dom. intros Hin. apply Hfresh in Hin. lia. }
  assert (Hp0 : ∀ j, preds_at s0 j = preds_at s j).
  { intros j. unfold preds_at, s0. simpl. destruct (decide (j = m)) as [->|Hne].
    - by rewrite lookup_insert_eq, Hnone.
    - by rewrite lookup_insert_ne. }
  assert (Hs0 : ∀ j, succs_at s0 j = succs_at s j).
  { intros j. unfold succs_at, s0. simpl. destruct (decide (j = m)) as [->|Hne].
    - by rewrite lookup_insert_eq, Hnone.
    - by rewrite lookup_insert_ne. }
  assert (Hd0 : dom (heap s0) = dom (heap s) ∪ {[m]}).
  { unfold s0. simpl. rewrite dom_insert_L. set_solver. }
  assert (Hi0 : index_to_node_ s0 = index_to_node_ s ∪ {[m]}).
  { unfold s0. simpl. set_solver. }
  assert (Hn0 : next_node_id s0 = N.succ m) by done.
  assert (Hr0 : rt_info_ s0 = rt_info_ s) by done.
  assert (Hq0 : dispatcher_queue_ s0 = dispatcher_queue_ s) by done.
  assert (Ht0 : trace s0 = trace s) by done.
  clearbody s0.
  apply bind_Ok in H as ([] & s1 & H1 & H).
  apply bind_Ok in H as ([] & s2 & H2 & H). inv_M H.
  change (Iter (λ d, AddEdge d m) ins s0 = Ok (tt, s1)) in H1.
  change (Iter (λ d, AddEdge m d) outs s1 = Ok (tt, s2)) in H2.
  rewrite <- (Iter_map (λ e : N * N, AddEdge e.1 e.2) (λ d, (d, m))) in H1.
  rewrite <- (Iter_map (λ e : N * N, AddEdge e.1 e.2) (λ d, (m, d))) in H2.
  apply add_edges_views in H1 as (He1 & Hd1 & Hi1 & Hn1 & Ht1 & Hq1 & Hr1 & Hp1 & Hs1).
  apply add_edges_views in H2 as (He2 & Hd2 & Hi2 & Hn2 & Ht2 & Hq2 & Hr2 & Hp2 & Hs2).
  assert (Hpt : ∀ f j, preds_at (set_trace f s2) j = preds_at s2 j) by done.
  assert (Hst : ∀ f j, succs_at (set_trace f s2) j = succs_at s2 j) by done.
  split_and!; try done.
  - simpl. congruence.
  - intros y [Hx|Hx]%elem_of_app.
    + destruct (He1 (y, m)) as [Hx1 _]; [apply list_elem_of_fmap; eauto|].
      simpl in Hx1. rewrite Hd0 in Hx1. set_solver.
    + destruct (He2 (m, y)) as [_ Hx2]; [apply list_elem_of_fmap; eauto|].
      simpl in Hx2. rewrite Hd1, Hd0 in Hx2. set_solver.
  - simpl. congruence.
  - simpl. congruence.
  - split; [simpl; congruence|]. unfold quiet_step. simpl.
    rewrite pushed_ids_app, reported_ids_app, app_nil_r, app_nil_r.
    rewrite Ht2, Ht1, Ht0, Hq2, Hq1, Hq0. done.
  - intros j p. rewrite Hpt, Hp2, Hp1, Hp0, !list_elem_of_fmap. split.
    + intros [[?|(d & [= -> ->] & ?)]|(d & [= -> ->] & ?)]; auto.
    + intros [?|[[? ->]|[-> ?]]]; eauto 6.
  - intros j y. rewrite Hst, Hs2, Hs1, Hs0, !list_elem_of_fmap. split.
    + intros [[?|(d & [= -> ->] & ?)]|(d & [= -> ->] & ?)]; auto.
    + intros [?|[[? ->]|[-> ?]]]; eauto 6.
Qed.

(** ** Phase 5: the counters of the new edges *)

Lemma OnCreateEdge_views u v s s' :
  OnCreateEdge u v s = Ok (tt, s') →
  same_dag s s' ∧ dom (rt_info_ s') = dom (rt_info_ s) ∧
  state_at s v = Some kReady ∧ u ∈ dom (rt_info_ s) ∧
  (∀ j, state_at s' j = state_at s j) ∧
  (∀ j, triggers_at s' j = triggers_at s j +
          (if decide (j = v ∧ state_at s u ≠ Some kCompleted) then 1 else 0)).
Proof.
  intros H. unfold OnCreateEdge in H.
  apply bind_Ok in H as (st & sa & Hrv & H). inv_M Hrv.
  apply bind_Ok in H as ([] & sb & Hready & H). inv_M Hready. clean_checks.
  apply bind_Ok in H as ([] & sc & Hru & H). inv_M Hru.
  apply bind_Ok in H as (st' & sd & Hru' & H). inv_M Hru'.
  match goal with
  | Hv : rt_info_ s !! v = Some _, Hu : rt_info_ s !! u = Some _,
    Hu' : alter _ u (rt_info_ s) !! u = Some _ |- _ =>
      rename Hv into Hrv; rename Hu into Hru;
      rewrite lookup_alter_eq, Hru in Hu'; simpl in Hu'; injection Hu' as <-
  end.
  simpl in H.
  assert (Hsv : state_at s v = Some kReady) by (unfold state_at; by rewrite Hrv, <- Hready).
  assert (Hud : u ∈ dom (rt_info_ s)) by (apply elem_of_dom; eauto).
  assert (Hsu : ∀ r, rt_info_ s !! u = Some r →
            (state r ≠ kCompleted ↔ state_at s u ≠ Some kCompleted)).
  { intros r Hr. unfold state_at. rewrite Hr. simpl. split; congruence. }
  inv_M H.
  - split_and!; try done.
    + split_and!; try done. solve_quiet_step.
    + by rewrite !dom_alter_L.
    + intros j. etrans; [apply state_at_alter; done|]. by apply state_at_alter.
    + intros j. unfold triggers_at. simpl.
      destruct (decide (j = v ∧ state_at s u ≠ Some kCompleted)) as [[-> _]|Hn].
      * rewrite lookup_alter_eq.
        destruct (decide (u = v)) as [->|Huv].
        -- rewrite lookup_alter_eq, Hrv. simpl. lia.
        -- rewrite lookup_alter_ne, Hrv by done. simpl. lia.
      * assert (j ≠ v) as Hjv. { intros ->. apply Hn. split; [done|]. by apply (Hsu _ Hru). }
        rewrite lookup_alter_ne by done.
        destruct (decide (u = j)) as [->|Huj].
        -- rewrite lookup_alter_eq. destruct (rt_info_ s !! j); simpl; lia.
        -- rewrite lookup_alter_ne by done. lia.
  - split_and!; try done.
    + split_and!; try done. solve_quiet_step.
    + by rewrite !dom_alter_L.
    + intros j. by apply state_at_alter.
    + intros j. rewrite decide_False.
      2:{ intros [_ Hn]. apply (Hsu _ Hru) in Hn. tauto. }
      rewrite Z.add_0_r. by apply triggers_at_alter.
Qed.

Lemma create_edges_views es : ∀ s s',
  Iter (λ e : N * N, OnCreateEdge e.1 e.2) es s = Ok (tt, s') →
  same_dag s s' ∧ dom (rt_info_ s') = dom (rt_info_ s) ∧
  (∀ e, e ∈ es → e.1 ∈ dom (rt_info_ s) ∧ state_at s e.2 = Some kReady) ∧
  (∀ j, state_at s' j = state_at s j) ∧
  (∀ j, triggers_at s' j = triggers_at s j +
          Z.of_nat (length (filter (λ e, e.2 = j ∧ state_at s e.1 ≠ Some kCompleted) es))).
Proof.
  induction es as [|[u v] es IH]; intros s s' H; simpl in H.
  - inv_M H. split_and!; try done.
    + intros e He. by apply elem_of_nil in He.
    + intros j. simpl. lia.
  - apply bind_Ok in H as ([] & s1 & H1 & H).
    apply OnCreateEdge_views in H1 as (Hdag1 & Hdom1 & Hv & Hu & Hst1 & Htr1).
    destruct (IH _ _ H) as (Hdag & Hdom & Hes & Hst & Htr).
    split_and!.
    + by eapply same_dag_trans.
    + congruence.
    + intros e [->|He]%elem_of_cons; [done|].
      destruct (Hes e He) as [? ?]. rewrite <- Hdom1, <- Hst1. done.
    + intros j. by rewrite Hst, Hst1.
    + intros j. rewrite Htr, Htr1, filter_cons. simpl.
      assert (Hf : filter (λ e : N * N, e.2 = j ∧ state_at s1 e.1 ≠ Some kCompleted) es
                   = filter (λ e : N * N, e.2 = j ∧ state_at s e.1 ≠ Some kCompleted) es).
      { apply list_filter_iff. intros e. by rewrite Hst1. }
      rewrite Hf.
      destruct (decide (j = v ∧ state_at s u ≠ Some kCompleted)) as [[-> ?]|Hn].
      * rewrite decide_True by done. simpl. lia.
      * rewrite decide_False by (intros [<- ?]; tauto). lia.
Qed.

(** ** New nodes and the invariant *)

Lemma Inv_grow s s' (New : gset N) :
  Inv s →
  grows (index_to_node_ s) s s' →
  dom (heap s') = dom (heap s) ∪ New →
  index_to_node_ s' = index_to_node_ s ∪ New →
  dom (rt_info_ s') = dom (rt_info_ s) ∪ New →
  (∀ k, k ∈ New → (next_node_id s ≤ k < next_node_id s')%N) →
  (∀ k p, k ∈ New → p ∈ preds_at s' k → p ∈ index_to_node_ s' ∧ k ∈ succs_at s' p) →
  (∀ k x, k ∈ index_to_node_ s' → x ∈ succs_at s' k →
     (k ∈ index_to_node_ s ∧ x ∈ succs_at s k) ∨ (x ∈ New ∧ k ∈ preds_at s' x)) →
  (∀ k, k ∈ New → state_at s' k = Some kReady ∧
                   Z.of_nat (size (open_preds s' k)) ≤ triggers_at s' k) →
  Inv s'.
Proof.
  intros HG Hgr Hhd Hid Hrd Hnew Hnp Hsu Hnt. open_GInv HG.
  destruct Hgr as [Hnext Hq Hpu Hre _ _ _ Hpr Hsc Hst Htr].
  assert (Hold : ∀ k, k ∈ index_to_node_ s → k ∉ New).
  { intros k Hk Hk'. apply Hnew in Hk'. assert (k ∈ dom (heap s)) as Hd by set_solver.
    apply Gfr in Hd. lia. }
  assert (Hact : ∀ k, activated s' k ↔ activated s k).
  { intros k. unfold activated. by rewrite Hq, Hpu. }
  assert (Hactold : ∀ k, activated s k → k ∉ New).
  { intros k [Hk|Hk] Hk'; apply Hnew in Hk'.
    - apply Gpf in Hk. lia.
    - apply elem_of_torun_ids, Gq in Hk as [Hk _]. simpl in Hk.
      assert (k ∈ dom (heap s)) as Hd by set_solver. apply Gfr in Hd. lia. }
  constructor.
  - rewrite Hhd, Hid, Ghd. set_solver.
  - set_solver.
  - rewrite Hrd, Hid, Grt. done.
  - intros k. rewrite Hhd. intros [Hk|Hk]%elem_of_union.
    + apply Gfr in Hk. lia.
    + apply Hnew in Hk. lia.
  - rewrite Hpu. intros k Hk. apply Gpf in Hk. lia.
  - rewrite Hid. intros k p [Hk|Hk]%elem_of_union Hp.
    + rewrite Hpr in Hp by done. destruct (Gpr k p Hk Hp) as [Hpi Hkp].
      split; [set_solver|]. by apply (Hsc p Hpi).
    + destruct (Hnp k p Hk Hp) as [Hpi Hkp]. rewrite Hid in Hpi. done.
  - intros k x Hk Hx. destruct (Hsu k x Hk Hx) as [[Hko Hxo]|[Hxn Hkx]].
    + destruct (Gsu k x Hko Hxo) as [Hxi Hkx]. rewrite Hid. split; [set_solver|].
      by rewrite Hpr.
    + rewrite Hid. split; [set_solver | done].
  - rewrite Hq, Hid. intros ev Hev. destruct (Gq ev Hev) as [Hi Hr].
    split; [set_solver|]. by rewrite Hst.
  - by rewrite Hq, Hre.
  - by rewrite Hre, Hpu.
  - rewrite Hpu, Hre, Hid. intros k Hk Hnk. destruct (Grun k Hk Hnk) as [Hi Hr].
    split; [set_solver|]. by rewrite Hst.
  - by rewrite Hpu, Hq.
  - by rewrite Hq.
  - rewrite Hid. intros k p Hk%Hact Hki Hp.
    assert (k ∈ index_to_node_ s) as Hko.
    { apply elem_of_union in Hki as [?|Hkn]; [done|]. by apply Hactold in Hk. }
    rewrite Hpr in Hp by done. destruct (Gpr k p Hko Hp) as [Hpi _].
    rewrite Hst by done. by apply (Gact k p).
  - rewrite Hid. intros k [Hk|Hk]%elem_of_union Hstk.
    + rewrite Hst in Hstk by done. rewrite Htr by done.
      replace (open_preds s' k) with (open_preds s k); [by apply Gtr|].
      symmetry. apply open_preds_ext; [by apply Hpr|].
      intros p Hp. destruct (Gpr k p Hk Hp) as [Hpi _]. by apply Hst.
    + destruct (Hnt k Hk) as [_ Hle]. rewrite decide_False by set_solver. lia.
  - set_solver.
Qed.

(** ** [Create], phase by phase *)

Lemma param_nodes_state params : ∀ s ps s',
  param_nodes params s = Ok (ps, s') → s' = s ∧ params = map DagChunk ps.
Proof.
  unfold param_nodes.
  induction params as [|c params IH]; intros s ps s' H; simpl in H.
  - by inv_M H.
  - apply bind_Ok in H as (n & s1 & H1 & H).
    apply bind_Ok in H as (ns & s2 & H2 & H). inv_M H.
    destruct c; inv_M H1. destruct (IH _ _ _ H2) as [-> ->]. done.
Qed.

Lemma Create_phases params result_sizes fn s ret s' :
  Create params result_sizes fn s = Ok (ret, s') →
  ∃ ids ps sa sb sc cover op se sf sg sh si,
    new_result_nodes (current_device_id_ s) result_sizes s = Ok (ids, sa) ∧
    Iter OnCreateNode ids sa = Ok (tt, sb) ∧
    params = map DagChunk ps ∧
    Map new_DagChunk ids sb = Ok (ret, sc) ∧
    MultiNodeLock_vec ps sc = Ok (tt, set_trace (λ t, t ++ [ALock cover]) sc) ∧
    NewOpNode ps ids (mkPhysicalOp fn 0) (set_trace (λ t, t ++ [ALock cover]) sc)
      = Ok (op, se) ∧
    OnCreateNode op
      (set_trace (λ t, t ++ [ASetDevice op])
         (set_heap (alter (set_op_device_id (current_device_id_ s)) op) se))
      = Ok (tt, sf) ∧
    Iter (λ n, OnCreateEdge n op) ps sf = Ok (tt, sg) ∧
    Iter (λ n, OnCreateEdge op n) ids sg = Ok (tt, sh) ∧
    ProcessIfReady op sh = Ok (tt, si) ∧
    s' = set_trace (λ t, t ++ [AUnlock]) si.
Proof.
  intros H. unfold Create in H.
  apply bind_Ok in H as (dev & s0 & H0 & H). inv_M H0.
  apply bind_Ok in H as (ids & sa & Ha & H).
  apply bind_Ok in H as ([] & sb & Hb & H).
  apply bind_Ok in H as (ps & sb' & Hps & H).
  apply param_nodes_state in Hps as [-> Hps].
  apply bind_Ok in H as (ret' & sc & Hc & H).
  apply bind_Ok in H as ([] & sd & Hd & H).
  pose proof Hd as Hd'. apply MultiNodeLock_vec_views in Hd' as [_ [cover ->]].
  apply bind_Ok in H as (op & se & He & H).
  apply bind_Ok in H as ([] & se1 & He1 & H). inv_M He1.
  apply bind_Ok in H as ([] & se2 & He2 & H). inv_M He2.
  apply bind_Ok in H as ([] & sf & Hf & H).
  apply bind_Ok in H as ([] & sg & Hg & H).
  apply bind_Ok in H as ([] & sh & Hh & H).
  apply bind_Ok in H as ([] & si & Hi & H).
  apply bind_Ok in H as ([] & sj & Hj & H). inv_M Hj. inv_M H.
  exists ids, ps, sa, sb, sc, cover, op, se, sf, sg, sh, si.
  split_and!; done.
Qed.

Lemma size_list_to_set_le (l : list N) : (size (list_to_set l : gset N) ≤ length l)%nat.
Proof.
  induction l as [|x l IH]; simpl.
  - done.
  - rewrite size_union_alt, size_singleton.
    assert (size ((list_to_set l : gset N) ∖ {[x]}) ≤ size (list_to_set l : gset N))%nat
      by (apply subseteq_size; set_solver).
    lia.
Qed.

Lemma size_filter_list_to_set (P : N → Prop) `{!∀ x, Decision (P x)} (l : list N) :
  (size (filter P (list_to_set l : gset N)) ≤ length (filter P l))%nat.
Proof.
  replace (filter P (list_to_set l : gset N)) with (list_to_set (filter P l) : gset N).
  - apply size_list_to_set_le.
  - apply set_eq. intros x.
    rewrite elem_of_filter, !elem_of_list_to_set, list_elem_of_filter. done.
Qed.

Lemma count_edges_into (Q : N → Prop) `{!∀ x, Decision (Q x)} (op j : N) (ps : list N) :
  length (filter (λ e : N * N, e.2 = j ∧ Q e.1) (map (λ p, (p, op)) ps))
  = if decide (j = op) then length (filter Q ps) else 0%nat.
Proof.
  induction ps as [|p ps IH]; [by case_decide|].
  cbn [map]. rewrite !filter_cons.
  destruct (decide (j = op)) as [->|Hne].
  - destruct (decide (Q p)) as [HQ|HQ].
    + rewrite decide_True by done. cbn [length]. by rewrite IH.
    + rewrite decide_False by (cbn [fst snd]; tauto). done.
  - rewrite decide_False by (cbn [fst snd]; intros [? _]; congruence). done.
Qed.

Lemma count_edges_from (Q : N → Prop) `{!∀ x, Decision (Q x)} (op j : N) (ids : list N) :
  length (filter (λ e : N * N, e.2 = j ∧ Q e.1) (map (λ d, (op, d)) ids))
  = if decide (Q op) then length (filter (λ d, d = j) ids) else 0%nat.
Proof.
  induction ids as [|d ids IH]; [by case_decide|].
  cbn [map]. rewrite !filter_cons.
  destruct (decide (Q op)) as [HQ|HQ].
  - destruct (decide (d = j)) as [Hd|Hd].
    + rewrite decide_True by done. cbn [length]. by rewrite IH.
    + rewrite decide_False by (cbn [fst snd]; tauto). done.
  - rewrite decide_False by (cbn [fst snd]; tauto). done.
Qed.

Lemma filter_eq_length_pos (j : N) (ids : list N) :
  j ∈ ids → (1 ≤ length (filter (λ d, d = j) ids))%nat.
Proof.
  intros Hj. assert (j ∈ filter (λ d, d = j) ids) as Hin by (by apply list_elem_of_filter).
  destruct (filter (λ d, d = j) ids); [by apply elem_of_nil in Hin | simpl; lia].
Qed.

Lemma filter_eq_length_zero (j : N) (ids : list N) :
  j ∉ ids → length (filter (λ d, d = j) ids) = 0%nat.
Proof.
  intros Hj. destruct (filter (λ d, d = j) ids) as [|x l] eqn:Hf; [done|].
  assert (x ∈ filter (λ d, d = j) ids) as Hin by (rewrite Hf; by left).
  apply list_elem_of_filter in Hin as [-> ?]. done.
Qed.

Lemma state_at_lookup s j ri : rt_info_ s !! j = Some ri → state_at s j = Some (state ri).
Proof. intros H. unfold state_at. by rewrite H. Qed.

Lemma triggers_at_lookup s j ri :
  rt_info_ s !! j = Some ri → triggers_at s j = num_triggers_needed ri.
Proof. intros H. unfold triggers_at. by rewrite H. Qed.

Lemma views_of_rt s s' :
  rt_info_ s' = rt_info_ s →
  (∀ j, state_at s' j = state_at s j) ∧ (∀ j, triggers_at s' j = triggers_at s j).
Proof. intros H. unfold state_at, triggers_at. rewrite H. done. Qed.

Lemma views_of_heap s s' :
  heap s' = heap s →
  (∀ j, preds_at s' j = preds_at s j) ∧ (∀ j, succs_at s' j = succs_at s j).
Proof. intros H. unfold preds_at, succs_at. rewrite H. done. Qed.

Lemma preds_at_outside s j : j ∉ dom (heap s) → preds_at s j = ∅.
Proof. intros H%not_elem_of_dom. unfold preds_at. by rewrite H. Qed.

Lemma succs_at_outside s j : j ∉ dom (heap s) → succs_at s j = ∅.
Proof. intros H%not_elem_of_dom. unfold succs_at. by rewrite H. Qed.

(** The state in which [Create] calls [ProcessIfReady] satisfies the
    invariant, the new op node is [kReady] there and was not activated. *)
Lemma Create_before_ProcessIfReady s dev result_sizes ids sa sb ps ret sc cover op se sf sg sh fn :
  Inv s →
  new_result_nodes dev result_sizes s = Ok (ids, sa) →
  Iter OnCreateNode ids sa = Ok (tt, sb) →
  Map new_DagChunk ids sb = Ok (ret, sc) →
  MultiNodeLock_vec ps sc = Ok (tt, set_trace (λ t, t ++ [ALock cover]) sc) →
  NewOpNode ps ids (mkPhysicalOp fn 0) (set_trace (λ t, t ++ [ALock cover]) sc)
    = Ok (op, se) →
  OnCreateNode op
    (set_trace (λ t, t ++ [ASetDevice op]) (set_heap (alter (set_op_device_id dev) op) se))
    = Ok (tt, sf) →
  Iter (λ n, OnCreateEdge n op) ps sf = Ok (tt, sg) →
  Iter (λ n, OnCreateEdge op n) ids sg = Ok (tt, sh) →
  Inv sh ∧ op ∈ index_to_node_ sh ∧ state_at sh op = Some kReady ∧ ¬ activated sh op.
Proof.
  intros HG Ha Hb Hc Hd He Hf Hg Hh. open_GInv HG.
  assert (Hdi : dom (heap s) = index_to_node_ s) by (rewrite Ghd; set_solver).
  (* phase by phase *)
  apply new_data_nodes_views in Ha as (Hn_a & Hids & Hf_a & Hd_a & Hi_a & Hv_a & Hr_a & Hq_a);
    [|done].
  apply register_nodes_views in Hb as ((Hh_b & Hi_b & Hn_b & Hq_b) & Hd_b & Hout_b & Hin_b).
  apply new_handles_views in Hc as (_ & Hd_c & Hi_c & Hn_c & Hv_c & Hr_c & Hq_c).
  apply MultiNodeLock_vec_views in Hd as [Hps _].
  set (sd := set_trace (λ t, t ++ [ALock cover]) sc) in *.
  assert (Hq_d : quiet_step sc sd) by solve_quiet_step.
  apply NewOpNode_views in He as (Hop & Hn_e & Hinout & Hd_e & Hi_e & [Hr_e Hq_e] & Hp_e & Hs_e);
    [|exact Hf_c || (intros k Hk; change (dom (heap sd)) with (dom (heap sc)) in Hk;
                     change (next_node_id sd) with (next_node_id sc);
                     rewrite Hd_c, Hh_b in Hk; rewrite Hn_c, Hn_b; by apply Hf_a)].
  change (next_node_id sd) with (next_node_id sc) in *.
  change (dom (heap sd)) with (dom (heap sc)) in *.
  change (index_to_node_ sd) with (index_to_node_ sc) in *.
  change (rt_info_ sd) with (rt_info_ sc) in *.
  set (se' := set_trace (λ t, t ++ [ASetDevice op])
                (set_heap (alter (set_op_device_id dev) op) se)) in *.
  assert (Hq_e' : quiet_step se se') by solve_quiet_step.
  assert (Hd_e' : dom (heap se') = dom (heap se)) by (unfold se'; simpl; by rewrite dom_alter_L).
  assert (Hv_e' : ∀ j, preds_at se' j = preds_at se j ∧ succs_at se' j = succs_at se j).
  { intros j. unfold preds_at, succs_at, se'. simpl.
    destruct (decide (op = j)) as [->|Hne].
    - rewrite lookup_alter_eq. by destruct (heap se !! j).
    - by rewrite lookup_alter_ne. }
  apply OnCreateNode_views in Hf as ((Hh_f & Hi_f & Hn_f & Hq_f) & Hr_f).
  change (rt_info_ se') with (rt_info_ se) in Hr_f.
  change (index_to_node_ se') with (index_to_node_ se) in Hi_f.
  change (next_node_id se') with (next_node_id se) in Hn_f.
  rewrite <- (Iter_map (λ e : N * N, OnCreateEdge e.1 e.2) (λ n, (n, op))) in Hg.
  rewrite <- (Iter_map (λ e : N * N, OnCreateEdge e.1 e.2) (λ n, (op, n))) in Hh.
  apply create_edges_views in Hg as ((Hh_g & Hi_g & Hn_g & Hq_g) & Hd_g & Hes_g & Hst_g & Htr_g).
  apply create_edges_views in Hh as ((Hh_h & Hi_h & Hn_h & Hq_h) & Hd_h & Hes_h & Hst_h & Htr_h).
  (* the new nodes are new *)
  assert (Hopn : op = next_node_id sa) by congruence.
  assert (Hold : ∀ j, j ∈ dom (heap s) → (j ∉ ids) ∧ j ≠ op).
  { intros j Hj. apply Gfr in Hj. split.
    - intros Hd. apply Hids in Hd. lia.
    - lia. }
  assert (Hop_ids : op ∉ ids) by (intros Hd; apply Hids in Hd; lia).
  assert (Hids_new : ∀ d, d ∈ ids → d ∉ dom (heap s)).
  { intros d Hd Hin. by destruct (Hold d Hin). }
  assert (Hop_new : op ∉ dom (heap s)).
  { intros Hin. by destruct (Hold op Hin). }
  (* the views of [sh] in terms of those of [s] *)
  assert (Vheap : dom (heap sh) = dom (heap s) ∪ (list_to_set ids ∪ {[op]})).
  { rewrite Hh_h, Hh_g, Hh_f, Hd_e', Hd_e, Hd_c, Hh_b, Hd_a. set_solver. }
  assert (Vidx : index_to_node_ sh = index_to_node_ s ∪ (list_to_set ids ∪ {[op]})).
  { rewrite Hi_h, Hi_g, Hi_f, Hi_e, Hi_c, Hi_b, Hi_a. set_solver. }
  assert (Vrt : dom (rt_info_ sh) = dom (rt_info_ s) ∪ (list_to_set ids ∪ {[op]})).
  { rewrite Hd_h, Hd_g, Hr_f, dom_insert_L, Hr_e, Hr_c, Hd_b, Hr_a. set_solver. }
  assert (Vnext : next_node_id sh = N.succ op) by congruence.
  assert (Vpreds : ∀ j p, p ∈ preds_at sh j ↔
            p ∈ preds_at s j ∨ (p ∈ ps ∧ j = op) ∨ (p = op ∧ j ∈ ids)).
  { intros j p.
    destruct (views_of_heap _ _ Hh_h) as [-> _], (views_of_heap _ _ Hh_g) as [-> _],
      (views_of_heap _ _ Hh_f) as [-> _], (Hv_e' j) as [-> _].
    rewrite Hp_e. change (preds_at sd j) with (preds_at sc j).
    destruct (Hv_c j) as [-> _], (views_of_heap _ _ Hh_b) as [-> _], (Hv_a j) as [-> _].
    done. }
  assert (Vsuccs : ∀ j x, x ∈ succs_at sh j ↔
            x ∈ succs_at s j ∨ (j ∈ ps ∧ x = op) ∨ (j = op ∧ x ∈ ids)).
  { intros j x.
    destruct (views_of_heap _ _ Hh_h) as [_ ->], (views_of_heap _ _ Hh_g) as [_ ->],
      (views_of_heap _ _ Hh_f) as [_ ->], (Hv_e' j) as [_ ->].
    rewrite Hs_e. change (succs_at sd j) with (succs_at sc j).
    destruct (Hv_c j) as [_ ->], (views_of_heap _ _ Hh_b) as [_ ->], (Hv_a j) as [_ ->].
    done. }
  assert (Hrt_b : ∀ j, rt_info_ sb !! j =
            if decide (j ∈ ids) then Some (mkRuntimeInfo kReady 0 0) else rt_info_ s !! j).
  { intros j. case_decide; [by apply Hin_b|]. rewrite Hout_b by done. by rewrite Hr_a. }
  assert (Hrt_f : ∀ j, rt_info_ sf !! j =
            if decide (j = op) then Some (mkRuntimeInfo kReady 0 0) else rt_info_ sb !! j).
  { intros j. rewrite Hr_f, Hr_e, Hr_c. case_decide as Hj.
    - subst j. by rewrite lookup_insert_eq.
    - by rewrite lookup_insert_ne. }
  assert (Vstate_f : ∀ j, state_at sf j =
            if decide (j = op ∨ j ∈ ids) then Some kReady else state_at s j).
  { intros j. unfold state_at. rewrite Hrt_f, Hrt_b.
    destruct (decide (j = op)), (decide (j ∈ ids)); simpl;
      (rewrite decide_True by tauto) || (rewrite decide_False by tauto); done. }
  assert (Vstate : ∀ j, state_at sh j =
            if decide (j = op ∨ j ∈ ids) then Some kReady else state_at s j).
  { intros j. by rewrite Hst_h, Hst_g. }
  assert (Vtrig_f : ∀ j, triggers_at sf j =
            if decide (j = op ∨ j ∈ ids) then 0 else triggers_at s j).
  { intros j. unfold triggers_at. rewrite Hrt_f, Hrt_b.
    destruct (decide (j = op)), (decide (j ∈ ids)); simpl;
      (rewrite decide_True by tauto) || (rewrite decide_False by tauto); done. }
  assert (Vquiet : quiet_step s sh).
  { repeat (eapply quiet_step_trans; [eassumption|]). apply quiet_step_refl. }
  destruct Vquiet as (Vq & Vpu & Vre).
  assert (Hc1 : ∀ j, Z.of_nat (length (filter
              (λ e : N * N, e.2 = j ∧ state_at sf e.1 ≠ Some kCompleted)
              (map (λ n, (n, op)) ps)))
            = if decide (j = op)
              then Z.of_nat (length (filter (λ p, state_at sf p ≠ Some kCompleted) ps))
              else 0).
  { intros j.
    pose proof (count_edges_into (λ p, state_at sf p ≠ Some kCompleted) op j ps) as Hc.
    cbv beta in Hc. rewrite Hc. by case_decide. }
  assert (Hc2 : ∀ j, Z.of_nat (length (filter
              (λ e : N * N, e.2 = j ∧ state_at sg e.1 ≠ Some kCompleted)
              (map (λ n, (op, n)) ids)))
            = Z.of_nat (length (filter (λ d, d = j) ids))).
  { intros j.
    pose proof (count_edges_from (λ p, state_at sg p ≠ Some kCompleted) op j ids) as Hc.
    cbv beta in Hc. rewrite Hc.
    rewrite decide_True; [done|]. rewrite Hst_g, Vstate_f, decide_True by tauto. done. }
  assert (Hnot_act : ¬ activated s op).
  { intros [Hin|Hin].
    - apply Gpf in Hin. lia.
    - apply elem_of_torun_ids, Gq in Hin as [Hin _]. simpl in Hin.
      apply Hop_new. by rewrite Hdi. }
  split_and!.
  - apply (Inv_grow s sh (list_to_set ids ∪ {[op]})); try done.
    + constructor; try done.
      * lia.
      * rewrite Vheap. set_solver.
      * rewrite Vidx. set_solver.
      * rewrite Vrt. set_solver.
      * intros j Hj. rewrite <- Hdi in Hj. destruct (Hold j Hj) as [Hj1 Hj2].
        apply set_eq. intros p. rewrite Vpreds. split; [|auto].
        intros [?|[[_ ?]|[_ ?]]]; done.
      * intros j Hj x Hx. apply Vsuccs. auto.
      * intros j Hj. rewrite <- Hdi in Hj. destruct (Hold j Hj) as [Hj1 Hj2].
        rewrite Vstate, decide_False by tauto. done.
      * intros j Hj. rewrite <- Hdi in Hj. destruct (Hold j Hj) as [Hj1 Hj2].
        rewrite Htr_h, Htr_g, Hc1, Hc2, decide_False, Vtrig_f, decide_False by tauto.
        rewrite filter_eq_length_zero by done. lia.
    + intros k [Hk%elem_of_list_to_set| ->%elem_of_singleton]%elem_of_union.
      * apply Hids in Hk. lia.
      * lia.
    + intros k p Hk [Hp|[[Hp ->]|[-> Hk']]]%Vpreds.
      * exfalso. rewrite preds_at_outside in Hp; [set_solver|].
        apply elem_of_union in Hk as [Hk%elem_of_list_to_set| ->%elem_of_singleton]; auto.
      * split; [|apply Vsuccs; auto].
        apply Hps in Hp. rewrite Hd_c, Hh_b, Hd_a, Hdi in Hp. rewrite Vidx. set_solver.
      * split; [rewrite Vidx; set_solver | apply Vsuccs; auto].
    + intros k x Hk [Hx|[[Hp ->]|[-> Hk']]]%Vsuccs.
      * left. split; [|done]. rewrite <- Hdi.
        destruct (decide (k ∈ dom (heap s))) as [|Hout]; [done|].
        rewrite succs_at_outside in Hx by done. set_solver.
      * right. split; [set_solver | apply Vpreds; auto].
      * right. split; [set_solver | apply Vpreds; auto].
    + intros k Hk. split; [rewrite Vstate, decide_True; [done | set_solver]|].
      apply elem_of_union in Hk as [Hk%elem_of_list_to_set| ->%elem_of_singleton].
      * (* a result node: its only predecessor is the op *)
        assert (k ≠ op) as Hkop by (intros ->; done).
        assert (open_preds sh k ⊆ {[op]}) as Hsub.
        { intros p [_ Hp]%elem_of_filter. apply Vpreds in Hp as [Hp|[[_ ?]|[-> _]]].
          - rewrite preds_at_outside in Hp by auto. set_solver.
          - done.
          - set_solver. }
        apply subseteq_size in Hsub. rewrite size_singleton in Hsub.
        rewrite Htr_h, Htr_g, Hc1, Hc2, decide_False, Vtrig_f, decide_True by tauto.
        pose proof (filter_eq_length_pos k ids Hk). lia.
      * (* the op: its predecessors are the parameters *)
        assert (open_preds sh op
                = filter (λ p, state_at sf p ≠ Some kCompleted) (list_to_set ps)) as ->.
        { apply set_eq. intros p. unfold open_preds. rewrite !elem_of_filter, Vpreds.
          rewrite Hst_h, Hst_g, elem_of_list_to_set. split.
          - intros [? [Hp|[[? _]|[_ ?]]]]; [|done..].
            rewrite preds_at_outside in Hp by done. set_solver.
          - intros [? ?]. auto. }
        pose proof (size_filter_list_to_set (λ p, state_at sf p ≠ Some kCompleted) ps).
        rewrite Htr_h, Htr_g, Hc1, Hc2, decide_True, Vtrig_f, decide_True by tauto.
        lia.
  - rewrite Vidx. set_solver.
  - rewrite Vstate, decide_True by tauto. done.
  - unfold activated. rewrite Vq, Vpu. exact Hnot_act.
Qed.


(** * Every step of the system preserves the invariant *)

Lemma Create_Inv params result_sizes fn s ret s' :
  Inv s → Create params result_sizes fn s = Ok (ret, s') → Inv s'.
Proof.
  intros HG H.
  apply Create_phases in H
    as (ids & ps & sa & sb & sc & cover & op & se & sf & sg & sh & si &
        Ha & Hb & _ & Hc & Hd & He & Hf & Hg & Hh & Hi & ->).
  destruct (Create_before_ProcessIfReady _ _ _ _ _ _ _ _ _ _ _ _ _ _ _ _
              HG Ha Hb Hc Hd He Hf Hg Hh) as (HGh & Hop & Hready & Hnew).
  assert (Inv si) as HGi.
  { unfold ProcessIfReady in Hi. inv_M Hi.
    - match goal with |- Inv ?t =>
        assert (Hcore : same_core (set_queue (λ q, q ++ [(kToRun, op)]) sh) t)
          by solve_same_core
      end.
      eapply GInv_same_core; [exact Hcore|].
      apply GInv_enqueue_ToRun; try done.
      erewrite triggers_at_lookup; eauto.
    - done. }
  eapply GInv_same_core; [|exact HGi]. solve_same_core.
Qed.

Lemma OnOperationComplete_Inv device task s s' :
  Inv s →
  APushTask device task ∈ trace s →
  task_id task ∉ reported_ids (trace s) →
  OnOperationComplete task s = Ok (tt, s') →
  Inv s'.
Proof.
  intros HG Hpushed Hnew H. unfold OnOperationComplete in H. inv_M H.
  apply GInv_report; [done | by eapply elem_of_pushed_ids | done].
Qed.

Lemma handle_Inv n x s : Inv s → Inv (set_heap (alter (set_extern_rc x) n) s).
Proof. intros HG. by apply GInv_alter_body. Qed.

Lemma wait_Inv t acts s :
  Forall (λ a, is_wait_action a = true) acts →
  Inv s → Inv (set_trace (λ tr, tr ++ acts) (set_target t s)).
Proof.
  intros Hacts. apply GInv_same_core.
  assert (quiet acts) as [Hp Hr].
  { induction Hacts as [|a acts Ha _ IH]; [done|].
    change (a :: acts) with ([a] ++ acts). apply quiet_app; [|done].
    by destruct a. }
  unfold same_core. simpl. rewrite pushed_ids_app, reported_ids_app, Hp, Hr, !app_nil_r.
  done.
Qed.

Lemma OnExternRCUpdate_Inv n s s' :
  Inv s → OnExternRCUpdate n s = Ok (tt, s') → Inv s'.
Proof.
  intros HG H. unfold OnExternRCUpdate in H.
  apply bind_Ok in H as (to_delete & s1 & H1 & H).
  apply bind_Ok in H1 as ([] & sL & HL & H1). inv_M HL.
  match type of H1 with _ ?t = _ => set (sL := t) in * end.
  assert (HGL : Inv sL) by (eapply GInv_same_core; [|exact HG]; solve_same_core).
  apply bind_Ok in H1 as (st & sa & Ha & H1). inv_M Ha.
  match goal with Hr : rt_info_ _ !! n = Some ?ri |- _ =>
    rename Hr into Hri; rename ri into ri0 end.
  change (rt_info_ sL !! n = Some ri0) in Hri.
  apply bind_Ok in H1 as (td & s2 & H2 & H1).
  apply bind_Ok in H1 as ([] & s3 & H3 & H1). unfold Unlock in H3. inv_M H3.
  apply mret_Ok in H1. injection H1 as Htd Hs1. subst to_delete s1.
  assert (∃ D, GInv D ∅ s2 ∧
               (∀ y, td = Some y → (y ∉ index_to_node_ s2) ∧ D = {[y]}) ∧
               (td = None → D = ∅)) as (D & HG2 & Hsome & Hnone).
  { destruct (state ri0) eqn:Hst.
    - inv_M H2. exists ∅. split_and!; [done | intros ? [=] | done].
    - apply bind_Ok in H2 as (ri & sb & Hb & H2). inv_M Hb.
      apply bind_Ok in H2 as (d & sc & Hc & H2). inv_M Hc.
      match type of H2 with (if decide ?P then _ else _) _ = _ =>
        destruct (decide P) as [_|_] end.
      + apply bind_Ok in H2 as (r & sd & Hd & H2).
        apply mret_Ok in H2. injection H2 as Htd Hs2. subst td s2.
        destruct (reclaim_data_node_GInv ∅ ∅ sL n r sd HGL) as (-> & HGr & _); [|done|].
        { by rewrite (state_at_lookup sL n ri0 Hri), Hst. }
        exists (∅ ∪ {[n]}). split_and!; [done | | intros [=]].
        intros ? [= <-]. pose proof (g_removed _ _ _ HGr). split; set_solver.
      + inv_M H2. exists ∅. split_and!; [done | intros ? [=] | done].
    - inv_M H2. }
  match type of H with _ ?t = _ => set (sU := t) in * end.
  assert (HGU : GInv D ∅ sU) by (eapply GInv_same_core; [|exact HG2]; solve_same_core).
  destruct td as [y|].
  - destruct (Hsome y eq_refl) as [Hy ->]. inv_M H.
    match goal with |- Inv ?t =>
      assert (Hcore : same_core (set_heap (delete y) sU) t) by solve_same_core end.
    eapply GInv_same_core; [exact Hcore|].
    eapply GInv_sets; [| |apply (GInv_delete _ _ _ y HGU Hy)]; set_solver.
  - rewrite (Hnone eq_refl) in HGU. by inv_M H.
Qed.

Lemma DispatcherRoutine_once s s' :
  DispatcherRoutine 1 s = Ok (tt, s') →
  (dispatcher_queue_ s = [] ∧ s' = s) ∨
  ∃ ev q, dispatcher_queue_ s = ev :: q ∧
          DispatcherBody ev (set_queue (λ _, q) s) = Ok (tt, s').
Proof.
  simpl. unfold Pop. destruct (dispatcher_queue_ s) as [|ev q] eqn:Hq.
  - intros [= <-]. by left.
  - intros H. right. exists ev, q. split; [done|].
    apply bind_Ok in H as ([] & s1 & H1 & H). by injection H as <-.
Qed.

Lemma initial_Inv s : initial s → Inv s.
Proof.
  intros (Hh & Hi & Hr & Hq & Ht).
  constructor; unfold activated, preds_at, succs_at;
    rewrite ?Hh, ?Hi, ?Hr, ?Hq, ?Ht; simpl;
    try (intros; set_solver); try apply NoDup_nil_2.
Qed.

Lemma step_Inv s s' : step s s' → Inv s → Inv s'.
Proof.
  intros Hstep HG. destruct Hstep.
  - by eapply Create_Inv.
  - match goal with H : DispatcherRoutine 1 _ = _ |- _ =>
      apply DispatcherRoutine_once in H as [[_ ->]|(ev & q & Hq & H)] end; [done|].
    by destruct (DispatcherBody_Inv _ _ _ _ HG Hq H).
  - by eapply OnOperationComplete_Inv.
  - by apply handle_Inv.
  - by eapply OnExternRCUpdate_Inv.
  - by apply wait_Inv.
Qed.

Lemma reachable_Inv s : reachable s → Inv s.
Proof.
  intros (s0 & Hinit & Hsteps). apply initial_Inv in Hinit.
  induction Hsteps as [|s1 s2 s3 Hstep _ IH]; [done|].
  apply IH. by eapply step_Inv.
Qed.


(** * Dispatch of op nodes *)

Ltac run_step := vm_compute; reflexivity.

Lemma chain_a_completed_reachable : reachable chain_a_completed.
Proof.
  exists empty_scheduler. split; [by repeat split|].
  eapply rtc_l; [apply (step_Create [] [[4]] 7%N _ [DagChunk 0%N] one_op_created); run_step|].
  eapply rtc_l;
    [apply (step_Create [DagChunk 0%N] [[4]] 8%N _ [DagChunk 2%N] chain_created); run_step|].
  eapply rtc_l; [apply (step_Dispatcher _ chain_op0_pushed); run_step|].
  eapply rtc_l.
  { apply (step_OnOperationComplete 0%N task_of_node_1 _ chain_op0_reported);
      [ apply list_elem_of_In; vm_compute; tauto
      | intros Hin%list_elem_of_In; vm_compute in Hin; tauto
      | run_step ]. }
  eapply rtc_l; [apply (step_Dispatcher _ chain_op0_completed); run_step|].
  eapply rtc_l; [apply (step_Dispatcher _ chain_a_completed); run_step|].
  apply rtc_refl.
Qed.

Lemma twice_a_completed_reachable : reachable twice_a_completed.
Proof.
  exists empty_scheduler. split; [by repeat split|].
  eapply rtc_l; [apply (step_Create [] [[4]] 7%N _ [DagChunk 0%N] one_op_created); run_step|].
  eapply rtc_l.
  { apply (step_Create [DagChunk 0%N; DagChunk 0%N] [[4]] 8%N _ [DagChunk 2%N] twice_created).
    run_step. }
  eapply rtc_l; [apply (step_Dispatcher _ twice_op0_pushed); run_step|].
  eapply rtc_l.
  { apply (step_OnOperationComplete 0%N task_of_node_1 _ twice_op0_reported);
      [ apply list_elem_of_In; vm_compute; tauto
      | intros Hin%list_elem_of_In; vm_compute in Hin; tauto
      | run_step ]. }
  eapply rtc_l; [apply (step_Dispatcher _ twice_op0_completed); run_step|].
  eapply rtc_l; [apply (step_Dispatcher _ twice_a_completed); run_step|].
  apply rtc_refl.
Qed.

(** C9, as stated, does not hold: after [a = op0 (); b = op1 (a, a)] and
    the completion of [a], the op node 3 of [op1] is in the DAG in state
    [kReady] and its only predecessor, data node 0, is [kCompleted]; but
    [Create] counted the edge twice in [num_triggers_needed] and the
    completion of [a] took one off, so no [kToRun] event for node 3 was
    enqueued and no task was pushed.  The queue is empty and no task is
    running: the dispatcher has nothing left to do. *)
Theorem op_with_completed_inputs_not_dispatched :
  reachable twice_a_completed ∧
  ¬ dispatched_iff_inputs_completed twice_a_completed ∧
  type_at twice_a_completed 3 = Some kOpNode ∧
  state_at twice_a_completed 3 = Some kReady ∧
  triggers_at twice_a_completed 3 = 1 ∧
  elements (preds_at twice_a_completed 3) = [0%N] ∧
  state_at twice_a_completed 0 = Some kCompleted ∧
  dispatcher_queue_ twice_a_completed = [] ∧
  pushed_ids (trace twice_a_completed) = [1%N] ∧
  reported_ids (trace twice_a_completed) = [1%N] ∧
  ∀ fuel, DispatcherRoutine fuel twice_a_completed = Ok (tt, twice_a_completed).
Proof.
  split; [exact twice_a_completed_reachable|].
  assert (Hel : elements (preds_at twice_a_completed 3) = [0%N])
    by (vm_compute; reflexivity).
  assert (Hpreds : ∀ p, p ∈ preds_at twice_a_completed 3 →
            state_at twice_a_completed p = Some kCompleted).
  { intros p Hp%elem_of_elements. rewrite Hel in Hp.
    apply list_elem_of_singleton in Hp as ->. vm_compute; reflexivity. }
  split_and!; try (match goal with |- _ = _ => vm_compute; reflexivity end).
  - intros Hclaim.
    destruct (Hclaim 3%N) as [_ Hact].
    + apply (bool_decide_unpack _). vm_compute. exact I.
    + vm_compute; reflexivity.
    + vm_compute; reflexivity.
    + destruct (Hact Hpreds) as [Hin|Hin];
        apply list_elem_of_In in Hin; vm_compute in Hin; intuition discriminate.
  - by intros [|fuel].
Qed.

(** What holds of the dispatch of tasks in every reachable state: no task
    was pushed twice, and every node whose [kToRun] event is queued or whose
    task was pushed has all its predecessors [kCompleted] as long as it is
    in the DAG.  When the dispatcher handles the event at the head of the queue,
    it pushes a task exactly when this is the [kToRun] event of an op node:
    the task is that of the node, all predecessors of the node are
    [kCompleted] at this moment, and no task for the node was pushed
    before. *)
Theorem task_pushed_once_with_inputs_completed (s : DagScheduler)
    (Hreach : reachable s) :
  NoDup (pushed_ids (trace s)) ∧
  (∀ k p, activated s k → k ∈ index_to_node_ s → p ∈ preds_at s k →
     state_at s p = Some kCompleted) ∧
  ∀ ev q s',
    dispatcher_queue_ s = ev :: q →
    DispatcherBody ev (set_queue (λ _, q) s) = Ok (tt, s') →
    (∀ device task, APushTask device task ∈ new_trace (set_queue (λ _, q) s) s' →
       ev = (kToRun, task_id task) ∧ type_at s (task_id task) = Some kOpNode ∧
       (∀ p, p ∈ preds_at s (task_id task) → state_at s p = Some kCompleted) ∧
       task_id task ∉ pushed_ids (trace s)) ∧
    (ev.1 = kToRun → type_at s ev.2 = Some kOpNode →
       ∃ device task, task_id task = ev.2 ∧
         APushTask device task ∈ new_trace (set_queue (λ _, q) s) s').
Proof.
  apply reachable_Inv in Hreach as HG.
  pose proof (g_nodup _ _ _ HG) as Hnd.
  split_and!.
  - by apply NoDup_app in Hnd as [? _].
  - apply (g_activated _ _ _ HG).
  - intros ev q s' Hq H.
    destruct (DispatcherBody_Inv _ _ _ _ HG Hq H) as (_ & Honly & Hif).
    split; [|exact Hif].
    intros device task Hin. destruct (Honly device task Hin) as (-> & Hty & Hpreds).
    split_and!; try done.
    rewrite Hq in Hnd. apply NoDup_app in Hnd as (_ & Hdisj & _).
    intros Hpushed. apply (Hdisj _ Hpushed). simpl. left.
Qed.

Lemma task_pushed_once_with_inputs_completed_witness :
  ∃ s', DispatcherBody (kToRun, 3%N) (set_queue (λ _, []) chain_a_completed) = Ok (tt, s') ∧
    ∃ device task, task_id task = 3%N ∧
      APushTask device task ∈ new_trace (set_queue (λ _, []) chain_a_completed) s'.
Proof.
  eexists. split; [vm_compute; reflexivity|].
  refine (proj2 (proj2 (proj2
    (task_pushed_once_with_inputs_completed chain_a_completed chain_a_completed_reachable))
    (kToRun, 3%N) [] _ eq_refl _) eq_refl eq_refl).
  vm_compute; reflexivity.
Defined.

(** * The lock of [Create] *)

Lemma new_result_nodes_trace dev sizes : ∀ s ids sa,
  new_result_nodes dev sizes s = Ok (ids, sa) →
  trace sa = trace s ++ map ANewDataNode ids ∧ length ids = length sizes.
Proof.
  unfold new_result_nodes.
  induction sizes as [|sz sizes IH]; intros s ids sa H; simpl in H.
  - inv_M H. by rewrite app_nil_r.
  - apply bind_Ok in H as (n & s1 & H1 & H).
    apply bind_Ok in H as (ns & s2 & H2 & H).
    apply mret_Ok in H. injection H as -> ->.
    destruct (IH _ _ _ H2) as [-> Hlen].
    unfold GenerateDataId, NewDataNode in H1. inv_M H1.
    simpl. rewrite Hlen. by rewrite <- app_assoc.
Qed.

Lemma register_nodes_trace ids : ∀ s s',
  Iter OnCreateNode ids s = Ok (tt, s') → trace s' = trace s ++ map AAddNode ids.
Proof.
  induction ids as [|n ids IH]; intros s s' H; simpl in H.
  - inv_M H. by rewrite app_nil_r.
  - apply bind_Ok in H as ([] & s1 & H1 & H).
    rewrite (IH _ _ H). inv_M H1. simpl. by rewrite <- app_assoc.
Qed.

Lemma new_handles_trace ids : ∀ s ret s',
  Map new_DagChunk ids s = Ok (ret, s') →
  trace s' = trace s ++ map ANewChunk ids ∧ ret = map DagChunk ids.
Proof.
  induction ids as [|n ids IH]; intros s ret s' H; simpl in H.
  - inv_M H. by rewrite app_nil_r.
  - apply bind_Ok in H as (c & s1 & H1 & H).
    apply bind_Ok in H as (cs & s2 & H2 & H).
    apply mret_Ok in H. injection H as -> ->.
    destruct (IH _ _ _ H2) as [-> ->].
    unfold new_DagChunk in H1. inv_M H1.
    simpl. by rewrite <- app_assoc.
Qed.

Lemma MultiNodeLock_vec_cover ps s cover :
  MultiNodeLock_vec ps s = Ok (tt, set_trace (λ t, t ++ [ALock cover]) s) →
  ∀ p, p ∈ ps → p ∈ cover.
Proof.
  unfold MultiNodeLock_vec. intros H.
  apply bind_Ok in H as (covers & s1 & H1 & H).
  assert (s1 = s ∧ ∀ p, p ∈ ps → p ∈ ⋃ covers) as [-> Hps].
  { clear -H1. revert covers s1 H1.
    induction ps as [|p ps IH]; intros covers s1 H; simpl in H.
    - inv_M H. split; [done|]. intros p Hp. by apply elem_of_nil in Hp.
    - apply bind_Ok in H as (c & s2 & H2 & H). inv_M H2.
      apply bind_Ok in H as (cs & s3 & H3 & H).
      apply mret_Ok in H. injection H as -> ->.
      destruct (IH _ _ H3) as [-> Hps]. split; [done|].
      intros q [->|Hq]%elem_of_cons; simpl; [set_solver|].
      apply elem_of_union_r. auto. }
  unfold emit, modify in H. injection H as H.
  apply app_inv_head in H. by injection H as <-.
Qed.

Lemma outside_lock_held_free t1 t2 :
  lock_free t1 → outside_lock true (t1 ++ t2) = outside_lock true t2.
Proof.
  induction 1 as [|a t Ha _ IH]; simpl; [done|].
  destruct a; try discriminate; simpl; by rewrite IH.
Qed.

Lemma Create_body_lock_free ps ids o dev s op se sf sg sh si :
  NewOpNode ps ids o s = Ok (op, se) →
  OnCreateNode op
    (set_trace (λ t, t ++ [ASetDevice op]) (set_heap (alter (set_op_device_id dev) op) se))
    = Ok (tt, sf) →
  Iter (λ n, OnCreateEdge n op) ps sf = Ok (tt, sg) →
  Iter (λ n, OnCreateEdge op n) ids sg = Ok (tt, sh) →
  ProcessIfReady op sh = Ok (tt, si) →
  ∃ body, trace si = trace s ++ body ∧ lock_free body ∧ ANewOpNode op ∈ body.
Proof.
  intros He Hf Hg Hh Hi.
  assert (∃ t, trace se = trace s ++ t ++ [ANewOpNode op] ∧ lock_free t)
    as (t1 & Ht1 & Hl1).
  { unfold NewOpNode in He.
    apply bind_Ok in He as (n & s0 & H0 & He). inv_M H0.
    apply bind_Ok in He as ([] & s0 & H0 & He). inv_M H0.
    apply bind_Ok in He as ([] & s0 & H0 & He). inv_M H0.
    apply bind_Ok in He as ([] & s0 & H0 & He). inv_M H0.
    apply bind_Ok in He as ([] & s1 & H1 & He).
    apply bind_Ok in He as ([] & s2 & H2 & He). inv_M He.
    assert (∀ u v, appends lock_free (AddEdge u v)) as Hadd
      by (intros; solve_appends lock_free_nil lock_free_app ltac:(lock_free_one)).
    destruct (appends_Iter _ lock_free_nil lock_free_app _ ps
                (λ d, Hadd d _) _ _ _ H1) as (ta & Hta & Hla).
    destruct (appends_Iter _ lock_free_nil lock_free_app _ ids
                (λ d, Hadd _ d) _ _ _ H2) as (tb & Htb & Hlb).
    exists (ta ++ tb). split; [|by apply lock_free_app].
    simpl. rewrite Htb, Hta. simpl. by rewrite <- !app_assoc. }
  assert (appends lock_free (OnCreateNode op)) as HA
    by solve_appends lock_free_nil lock_free_app ltac:(lock_free_one).
  destruct (HA _ _ _ Hf) as (t2 & Ht2 & Hl2).
  assert (∀ u v, appends lock_free (OnCreateEdge u v)) as Hedge
    by (intros; solve_appends lock_free_nil lock_free_app ltac:(lock_free_one)).
  destruct (appends_Iter _ lock_free_nil lock_free_app _ ps
              (λ d, Hedge d op) _ _ _ Hg) as (t3 & Ht3 & Hl3).
  destruct (appends_Iter _ lock_free_nil lock_free_app _ ids
              (λ d, Hedge op d) _ _ _ Hh) as (t4 & Ht4 & Hl4).
  assert (appends lock_free (ProcessIfReady op)) as HP
    by solve_appends lock_free_nil lock_free_app ltac:(lock_free_one).
  destruct (HP _ _ _ Hi) as (t5 & Ht5 & Hl5).
  exists (t1 ++ [ANewOpNode op] ++ [ASetDevice op] ++ t2 ++ t3 ++ t4 ++ t5).
  split_and!.
  - rewrite Ht5, Ht4, Ht3, Ht2. simpl. rewrite Ht1. by rewrite <- !app_assoc.
  - repeat apply lock_free_app; try done; lock_free_one.
  - set_solver.
Qed.

(** C1, as stated, does not hold: [Create] with one result, on the empty
    scheduler, allocates the result data node, registers it in the
    runtime-info map and makes its handle before it takes the lock. *)
Theorem Create_mutates_before_lock :
  ¬ Create_all_under_lock [] [[4]] 7%N empty_scheduler ∧
  ∃ ret s', Create [] [[4]] 7%N empty_scheduler = Ok (ret, s') ∧
    outside_lock false (new_trace empty_scheduler s')
      = [ANewDataNode 0; AAddNode 0; ANewChunk 0].
Proof.
  assert (Create [] [[4]] 7%N empty_scheduler = Ok ([DagChunk 0%N], one_op_created)) as Hrun
    by (vm_compute; reflexivity).
  split.
  - intros Hclaim. specialize (Hclaim _ _ Hrun). vm_compute in Hclaim. discriminate.
  - exists [DagChunk 0%N], one_op_created. split; [done|]. by vm_compute.
Qed.


(** * Completion of a node *)

Lemma reclaim_free_nil : reclaim_free [].
Proof. constructor. Qed.

Lemma reclaim_free_app t1 t2 : reclaim_free t1 → reclaim_free t2 → reclaim_free (t1 ++ t2).
Proof. apply Forall_app_2. Qed.

Ltac reclaim_free_one := by repeat constructor.

Lemma reclaim_free_not_elem a t : reclaim_free t → is_reclaim_action a = true → a ∉ t.
Proof.
  intros Hfree Ha Hin. eapply Forall_forall in Hfree; [|exact Hin]. congruence.
Qed.

Lemma body_detach n node h k : body <$> detach n node h !! k = body <$> h !! k.
Proof. rewrite lookup_detach. by destruct (h !! k). Qed.

Lemma data_at_ext s s' k :
  body <$> heap s' !! k = body <$> heap s !! k → data_at s' k = data_at s k.
Proof. unfold data_at. by intros ->. Qed.

Lemma keeps_counts_refl s : keeps_counts s s.
Proof. done. Qed.

Lemma keeps_counts_trans s1 s2 s3 :
  keeps_counts s1 s2 → keeps_counts s2 s3 → keeps_counts s1 s3.
Proof.
  intros (Hi1 & Hb1 & Hr1) (Hi2 & Hb2 & Hr2). split_and!.
  - congruence.
  - intros k. by rewrite Hb2.
  - intros k. by rewrite Hr2.
Qed.

Lemma keeps_counts_triggers s k d :
  keeps_counts s (set_rt_info (alter (add_num_triggers_needed d) k) s).
Proof.
  split_and!; try done. intros j. simpl.
  destruct (decide (j = k)) as [->|Hne].
  - rewrite lookup_alter_eq. by destruct (rt_info_ s !! k).
  - by rewrite lookup_alter_ne.
Qed.

(** The state a computation leaves differs from [s0] in the trace, the
    queue and [num_nodes_yet_to_finish_] at most. *)
Lemma trigger_successor_keeps x s s' :
  trigger_successor x s = Ok (tt, s') → keeps_counts s s'.
Proof.
  intros H. unfold trigger_successor in H. inv_M H;
    (eapply keeps_counts_trans; [apply (keeps_counts_triggers _ x (-1))|]); done.
Qed.

Lemma Iter_trigger_keeps l : ∀ s s',
  Iter trigger_successor l s = Ok (tt, s') → keeps_counts s s'.
Proof.
  induction l as [|x l IH]; intros s s' H; simpl in H.
  - by inv_M H.
  - apply bind_Ok in H as ([] & s1 & H1 & H).
    eapply keeps_counts_trans; [by eapply trigger_successor_keeps | by eapply IH].
Qed.

Lemma Iter_trigger_reclaim_free l : appends reclaim_free (Iter trigger_successor l).
Proof. solve_appends reclaim_free_nil reclaim_free_app ltac:(reclaim_free_one). Qed.

(** What one round of the loop over the predecessors of a completed op
    node does. *)
Lemma release_predecessor_effect p s r s' :
  release_predecessor p s = Ok (r, s') →
  ∃ ri d, rt_info_ s !! p = Some ri ∧ data_at s p = Some d ∧
    num_triggers_needed ri = 0 ∧
    (∀ q, body <$> heap s' !! q = body <$> heap s !! q) ∧
    (∀ q, q ≠ p → rt_info_ s' !! q = rt_info_ s !! q ∧
                  (q ∈ index_to_node_ s' ↔ q ∈ index_to_node_ s)) ∧
    if decide (reference_count ri - 1 = 0 ∧ extern_rc d = 0)
    then r = [p] ∧
         trace s' = trace s ++ [ARtWrite p; AFreeData (data_id d);
                                ARemoveNodeFromDag p; ARemoveNode p] ∧
         (p ∉ index_to_node_ s') ∧ rt_info_ s' !! p = None
    else r = [] ∧ trace s' = trace s ++ [ARtWrite p] ∧
         index_to_node_ s' = index_to_node_ s ∧
         rt_info_ s' !! p = Some (add_reference_count (-1) ri).
Proof.
  intros H. unfold release_predecessor in H.
  apply bind_Ok in H as (ri & s0 & H0 & H). inv_M H0.
  match goal with Hr : rt_info_ s !! p = Some ?x |- _ =>
    rename x into pri; rename Hr into Hri end.
  apply bind_Ok in H as (d & s0 & H0 & H). inv_M H0.
  match goal with Hn : heap s !! p = Some ?x, Hb : body ?x = DataBody ?y |- _ =>
    rename x into pnode; rename y into pd; rename Hn into Hpn; rename Hb into Hpb end.
  apply bind_Ok in H as ([] & s0 & H0 & H). inv_M H0. clean_checks.
  apply bind_Ok in H as ([] & s1 & H1 & H). inv_M H1.
  exists pri, pd.
  assert (data_at s p = Some pd) as Hdata
    by (unfold data_at; by rewrite Hpn; simpl; rewrite Hpb).
  match type of H with (if decide ?P then _ else _) _ = _ =>
    destruct (decide P) as [Hc|Hc] end.
  - apply bind_Ok in H as (y & s2 & H2 & H).
    apply mret_Ok in H. injection H as Hr Hs. subst r s2.
    unfold reclaim_data_node in H2. inv_M H2.
    split_and!; try done.
    + intros q. simpl. apply body_detach.
    + intros q Hq. simpl. split.
      * by rewrite lookup_delete_ne, lookup_alter_ne.
      * set_solver.
    + simpl. by rewrite <- !app_assoc.
    + simpl. set_solver.
    + simpl. by rewrite lookup_delete_eq.
  - apply mret_Ok in H. injection H as Hr Hs. subst r s'.
    split_and!; try done.
    + intros q Hq. simpl. by rewrite lookup_alter_ne.
    + simpl. by rewrite lookup_alter_eq, Hri.
Qed.

Lemma Collect_release_effect l : NoDup l → ∀ s del s',
  Collect release_predecessor l s = Ok (del, s') →
  (∀ q, body <$> heap s' !! q = body <$> heap s !! q) ∧
  (∀ q, q ∉ l → rt_info_ s' !! q = rt_info_ s !! q ∧
                 (q ∈ index_to_node_ s' ↔ q ∈ index_to_node_ s)) ∧
  (∀ q, q ∈ del → q ∈ l) ∧
  ∃ tr, trace s' = trace s ++ tr ∧
    (∀ q, ARemoveNodeFromDag q ∈ tr → q ∈ del) ∧
    frees_only_released s tr (.∈ l) ∧
    ∀ p, p ∈ l → input_released s s' tr (.∈ del) p.
Proof.
  induction 1 as [|p l Hp Hnd IH]; intros s del s' H; simpl in H.
  - apply mret_Ok in H. injection H as Hr Hs. subst del s'.
    split_and!; try done.
    exists []. rewrite app_nil_r.
    split_and!; try done; intros q Hq; by apply elem_of_nil in Hq.
  - apply bind_Ok in H as (r1 & s1 & H1 & H).
    apply bind_Ok in H as (r2 & s2 & H2 & H).
    apply mret_Ok in H. injection H as Hr Hs. subst del s2.
    destruct (release_predecessor_effect _ _ _ _ H1)
      as (ri & d & Hri & Hd & Htr & Hbody1 & Hframe1 & Hcase).
    destruct (IH _ _ _ H2) as (Hbody2 & Hframe2 & Hsub2 & tr2 & Htr2 & Hrm2 & Hfree2 & Hall2).
    destruct (Hframe2 p Hp) as [Hrt2p Hidx2p].
    assert (∀ q, data_at s1 q = data_at s q) as Hdata1
      by (intros q; apply data_at_ext, Hbody1).
    assert (∃ tr1, trace s1 = trace s ++ tr1 ∧
              (∀ q, ARemoveNodeFromDag q ∈ tr1 → q ∈ r1) ∧
              (∀ q, q ∈ r1 → q = p) ∧
              frees_only_released s tr1 (.∈ p :: l) ∧
              input_released s s' (tr1 ++ tr2) (.∈ r1 ++ r2) p)
      as (tr1 & Htr1 & Hrm1 & Hsub1 & Hfree1 & Hrel1).
    { destruct (decide (reference_count ri - 1 = 0 ∧ extern_rc d = 0)) as [Hc|Hc] eqn:Hdec.
      - destruct Hcase as (-> & Ht & Hni & Hnone).
        eexists. split; [exact Ht|]. split_and!.
        + intros q Hq. apply list_elem_of_In in Hq. simpl in Hq.
          destruct Hq as [Hq|[Hq|[Hq|[Hq|[]]]]]; try discriminate.
          injection Hq as ->. by left.
        + intros q Hq. by apply list_elem_of_singleton in Hq.
        + intros x Hx. exists p, ri, d.
          assert (x = data_id d) as ->.
          { apply list_elem_of_In in Hx. simpl in Hx.
            destruct Hx as [Hx|[Hx|[Hx|[Hx|[]]]]]; try discriminate. by injection Hx. }
          split_and!; try done; try (by destruct Hc). by left.
        + exists ri, d. split_and!; try done. rewrite Hdec.
          split_and!.
          * apply elem_of_app. left. right. left.
          * apply elem_of_app. left. right. right. left.
          * by rewrite Hidx2p.
          * by rewrite Hrt2p.
          * apply elem_of_app. left. left.
      - destruct Hcase as (-> & Ht & Hsame & Hsome).
        eexists. split; [exact Ht|]. split_and!.
        + intros q Hq. apply list_elem_of_singleton in Hq. discriminate.
        + intros q Hq. by apply elem_of_nil in Hq.
        + intros x Hx. apply list_elem_of_singleton in Hx. discriminate.
        + exists ri, d. split_and!; try done. rewrite Hdec.
          split_and!.
          * intros [Hin|Hin]%elem_of_app.
            -- apply list_elem_of_singleton in Hin. discriminate.
            -- apply Hrm2, Hsub2 in Hin. done.
          * rewrite Hidx2p. by rewrite Hsame.
          * unfold rc_at. rewrite Hrt2p, Hsome. simpl. f_equal; lia.
          * simpl. intros Hin. apply Hsub2 in Hin. done. }
    split_and!.
    + intros q. by rewrite Hbody2.
    + intros q Hq. apply not_elem_of_cons in Hq as [Hne Hq].
      destruct (Hframe2 q Hq) as [-> ->]. by apply Hframe1.
    + intros q [Hq|Hq]%elem_of_app.
      * apply Hsub1 in Hq. subst q. left.
      * right. auto.
    + exists (tr1 ++ tr2). split_and!.
      * rewrite Htr2, Htr1. by rewrite app_assoc.
      * intros q [Hq|Hq]%elem_of_app; apply elem_of_app; auto.
      * intros x [Hx|Hx]%elem_of_app; [by apply Hfree1|].
        destruct (Hfree2 x Hx) as (q & qri & qd & Hq & Hqri & Hqd & Hrest).
        assert (q ≠ p) as Hne by (intros ->; done).
        exists q, qri, qd. split_and!; try tauto.
        -- by right.
        -- destruct (Hframe1 q Hne) as [<- _]. done.
        -- by rewrite <- Hdata1.
      * intros q [->|Hq]%elem_of_cons; [exact Hrel1|].
        assert (q ≠ p) as Hne by (intros ->; done).
        destruct (Hall2 q Hq) as (qri & qd & Hqri & Hqd & Hqtr & Hqcase).
        exists qri, qd. split_and!; try done.
        -- destruct (Hframe1 q Hne) as [<- _]. done.
        -- by rewrite <- Hdata1.
        -- destruct (decide (reference_count qri - 1 = 0 ∧ extern_rc qd = 0)) as [Hc|Hc].
           ++ destruct Hqcase as (Hn1 & Hn2 & Hn3 & Hn4 & Hn5).
              split_and!; try done; apply elem_of_app; by right.
           ++ destruct Hqcase as (Hn1 & Hn2 & Hn3 & Hn4).
              split_and!; try done.
              ** intros [Hin|Hin]%elem_of_app; [|done].
                 apply Hrm1, Hsub1 in Hin. done.
              ** rewrite Hn2. by apply Hframe1.
              ** intros [Hin|Hin]%elem_of_app; [|done].
                 apply Hsub1 in Hin. done.
Qed.

Lemma complete_tail_effect (n : N) (del : list N) s r s' :
  (decr_yet_to_finish ;;
   emit AFinishLock ;;
   k ← gets num_nodes_yet_to_finish_;
   t ← gets target_;
   (if decide (k = 0 ∨ Z.of_N n = t) then emit ANotifyAll else mret tt) ;;
   emit AFinishUnlock ;;
   mret del) s = Ok (r, s') →
  r = del ∧ keeps_counts s s' ∧ ∃ t, trace s' = trace s ++ t ∧ reclaim_free t.
Proof.
  intros H.
  match type of H with ?m s = _ =>
    assert (appends reclaim_free m) as Happ
      by solve_appends reclaim_free_nil reclaim_free_app ltac:(reclaim_free_one) end.
  destruct (Happ _ _ _ H) as (t & Ht & Hfree).
  split_and!; [|split_and!|by exists t]; by inv_M H.
Qed.

Lemma successors_phase_effect n (del : list N) s r s' :
  (now ← deref n;
   Iter trigger_successor (elements (successors_ now)) ;;
   decr_yet_to_finish ;;
   emit AFinishLock ;;
   k ← gets num_nodes_yet_to_finish_;
   t ← gets target_;
   (if decide (k = 0 ∨ Z.of_N n = t) then emit ANotifyAll else mret tt) ;;
   emit AFinishUnlock ;;
   mret del) s = Ok (r, s') →
  r = del ∧ keeps_counts s s' ∧ ∃ t, trace s' = trace s ++ t ∧ reclaim_free t.
Proof.
  intros H.
  apply bind_Ok in H as (now & s0 & H0 & H). inv_M H0.
  apply bind_Ok in H as ([] & s1 & H1 & H).
  apply complete_tail_effect in H as (-> & Hk & t2 & Ht2 & Hf2).
  destruct (Iter_trigger_reclaim_free _ _ _ _ H1) as (t1 & Ht1 & Hf1).
  apply Iter_trigger_keeps in H1.
  split_and!; [done | by eapply keeps_counts_trans |].
  exists (t1 ++ t2). split; [|by apply reclaim_free_app].
  rewrite Ht2, Ht1. by rewrite app_assoc.
Qed.

Lemma keeps_counts_rc s s' k : keeps_counts s s' → rc_at s' k = rc_at s k.
Proof.
  intros (_ & _ & Hrt). specialize (Hrt k). unfold rc_at.
  destruct (rt_info_ s' !! k), (rt_info_ s !! k); simpl in *; congruence.
Qed.

Lemma keeps_counts_state s s' k : keeps_counts s s' → state_at s' k = state_at s k.
Proof.
  intros (_ & _ & Hrt). specialize (Hrt k). unfold state_at.
  destruct (rt_info_ s' !! k), (rt_info_ s !! k); simpl in *; congruence.
Qed.

Lemma keeps_counts_None s s' k :
  keeps_counts s s' → rt_info_ s !! k = None → rt_info_ s' !! k = None.
Proof.
  intros (_ & _ & Hrt) Hnone. specialize (Hrt k). rewrite Hnone in Hrt.
  by destruct (rt_info_ s' !! k).
Qed.

Lemma Iter_Delete_effect del : ∀ s s',
  Iter Delete del s = Ok (tt, s') →
  trace s' = trace s ++ map ADelete del ∧ index_to_node_ s' = index_to_node_ s ∧
  rt_info_ s' = rt_info_ s.
Proof.
  induction del as [|x del IH]; intros s s' H; simpl in H.
  - inv_M H. by rewrite app_nil_r.
  - apply bind_Ok in H as ([] & s1 & H1 & H). inv_M H1.
    destruct (IH _ _ H) as (-> & -> & ->). simpl. by rewrite <- app_assoc.
Qed.

(** The completion arm of the dispatcher on an op node. *)
Lemma complete_op_node_effect n node s del s' :
  heap s !! n = Some node → Type_ node = kOpNode →
  complete_node n node s = Ok (del, s') →
  state_at s' n = Some kCompleted ∧
  ∃ tr, trace s' = trace s ++ tr ∧
    (∀ p, p ∈ predecessors_ node → input_released s s' tr (.∈ del) p) ∧
    frees_only_released s tr (.∈ predecessors_ node) ∧
    (∀ q, ARemoveNodeFromDag q ∈ tr → q ∈ predecessors_ node).
Proof.
  intros Hnode Htype H. unfold complete_node in H.
  apply bind_Ok in H as ([] & s1 & H1 & H). inv_M H1.
  match goal with Hr : rt_info_ s !! n = Some ?x |- _ =>
    rename x into nri; rename Hr into Hnri end.
  match type of H with _ ?t = _ => set (s1 := t) in * end.
  apply bind_Ok in H as (del0 & s2 & H2 & H).
  rewrite decide_True in H2 by done.
  apply bind_Ok in H2 as (ri1 & sa & Ha & H2). inv_M Ha.
  apply bind_Ok in H2 as ([] & sb & Hb & H2). inv_M Hb.
  apply bind_Ok in H2 as (now & sc & Hc & H2). inv_M Hc.
  apply successors_phase_effect in H as (-> & Hkeep & t3 & Ht3 & Hf3).
  pose proof H2 as Hlive. apply Collect_release_live_Ok in H2.
  destruct (Collect_release_effect _ (NoDup_elements _) _ _ _ H2)
    as (Hbody & Hframe & Hsub & tr & Htr & Hrm & Hfree & Hall).
  assert (∀ q, data_at s1 q = data_at s q) as Hdata by done.
  assert (Hnp : n ∉ predecessors_ node).
  { intros Hin%elem_of_elements. destruct (Hall _ Hin) as (? & d & _ & Hd & _).
    rewrite Hdata in Hd. unfold data_at in Hd. rewrite Hnode in Hd. simpl in Hd.
    unfold Type_ in Htype. by destruct (body node). }
  assert (∀ p, p ∈ predecessors_ node → rt_info_ s1 !! p = rt_info_ s !! p) as Hrt1.
  { intros p Hp. simpl. rewrite lookup_alter_ne; [done|]. by intros ->. }
  split.
  - rewrite (keeps_counts_state _ _ _ Hkeep).
    destruct (Hframe n) as [Hrt _]; [by rewrite elem_of_elements|].
    unfold state_at. rewrite Hrt. simpl. by rewrite lookup_alter_eq, Hnri.
  - exists ([ARtWrite n] ++ tr ++ t3). split_and!.
    + rewrite Ht3, Htr. simpl. by rewrite <- !app_assoc.
    + intros p Hp. pose proof Hp as Hp'. apply elem_of_elements in Hp'.
      destruct (Hall _ Hp') as (ri & d & Hri & Hd & Htrig & Hcase).
      exists ri, d. rewrite <- Hrt1, <- Hdata by done.
      split_and!; try done.
      pose proof Hkeep as (Hidx & _ & _).
      destruct (decide (reference_count ri - 1 = 0 ∧ extern_rc d = 0)) as [Hc|Hc].
      * destruct Hcase as (Hfr & Hrn & Hni & Hnone & Hdel).
        split_and!; try done.
        -- right. apply elem_of_app. by left.
        -- right. apply elem_of_app. by left.
        -- by rewrite Hidx.
        -- eapply keeps_counts_None; [exact Hkeep|exact Hnone].
      * destruct Hcase as (Hrn & Hix & Hrc & Hdel).
        split_and!; try done.
        -- intros [Hin|Hin]%elem_of_cons; [done|].
           apply elem_of_app in Hin as [Hin|Hin]; [done|].
           by apply (reclaim_free_not_elem _ _ Hf3) in Hin.
        -- by rewrite Hidx.
        -- erewrite keeps_counts_rc; [exact Hrc|done].
    + intros y [Hx|Hx]%elem_of_cons; [done|].
      apply elem_of_app in Hx as [Hx|Hx];
        [|by apply (reclaim_free_not_elem _ _ Hf3) in Hx].
      destruct (Hfree y Hx) as (p & ri & d & Hp & Hri & Hd & Hrest).
      apply elem_of_elements in Hp.
      exists p, ri, d. rewrite <- Hrt1, <- Hdata by done. done.
    + intros q [Hq|Hq]%elem_of_cons; [done|].
      apply elem_of_app in Hq as [Hq|Hq];
        [|by apply (reclaim_free_not_elem _ _ Hf3) in Hq].
      apply elem_of_elements. auto.
Qed.

(** One iteration of the dispatcher that does not dispatch a task: the node
    is locked with its neighbours, [complete_node] runs under the lock, and
    the node objects it returned are deleted after the lock is released. *)
Lemma DispatcherBody_completion ev s s' node :
  heap s !! ev.2 = Some node →
  ¬ (ev.1 = kToRun ∧ Type_ node = kOpNode) →
  DispatcherBody ev s = Ok (tt, s') →
  ev.2 ∈ index_to_node_ s ∧
  ∃ del sB,
    complete_node ev.2 node
      (set_trace (λ t, t ++ [ALock ({[ev.2]} ∪ predecessors_ node ∪ successors_ node)]) s)
      = Ok (del, sB) ∧
    Iter Delete del (set_trace (λ t, t ++ [AUnlock]) sB) = Ok (tt, s').
Proof.
  intros Hnode Hnot H. unfold DispatcherBody in H.
  destruct ev as [kind n]. cbn [fst snd] in *.
  apply bind_Ok in H as (node0 & sa & Ha & H). inv_M Ha.
  apply bind_Ok in H as (to_delete & s3 & H3 & H).
  apply bind_Ok in H3 as ([] & sL & HL & H3). inv_M HL.
  apply bind_Ok in H3 as (ri & sb & Hb & H3). inv_M Hb.
  apply bind_Ok in H3 as (del & sB & HB & H3). inv_M H3.
  rewrite decide_False in HB by done.
  split; [done|]. exists del, sB. split; [|done].
  match type of HB with (if decide ?P then _ else _) _ = _ =>
    destruct (decide P) as [_|Hnot'] end; [done|].
  exfalso. destruct kind; [|apply Hnot'; by left].
  unfold Type_ in *. destruct (body node); [apply Hnot' | apply Hnot]; auto.
Qed.

(** What the completion of an op node [n] has done when the iteration of
    the dispatcher returns: the node ends in state [kCompleted], and every
    predecessor [p] of [n] had [num_triggers_needed] 0; as far as
    [release_predecessor] goes, [p] has its device storage freed and leaves
    the DAG and the runtime-info map exactly when its [reference_count] was
    1 and its [extern_rc] is 0, and otherwise it stays with its
    [reference_count] one less. *)
Lemma op_completion_effect (n : N) (node : DagNode) (s s' : DagScheduler) :
  heap s !! n = Some node → Type_ node = kOpNode →
  DispatcherBody (kToComplete, n) s = Ok (tt, s') →
  state_at s' n = Some kCompleted ∧
  ∃ tr to_delete,
    new_trace s s' = [ALock ({[n]} ∪ predecessors_ node ∪ successors_ node)] ++ tr
                       ++ [AUnlock] ++ map ADelete to_delete ∧
    (∀ p, p ∈ predecessors_ node → input_released s s' tr (.∈ to_delete) p) ∧
    frees_only_released s tr (.∈ predecessors_ node) ∧
    (∀ q, ARemoveNodeFromDag q ∈ tr → q ∈ predecessors_ node).
Proof.
  intros Hnode Htype Hrun.
  destruct (DispatcherBody_completion (kToComplete, n) s s' node Hnode)
    as (_ & del & sB & HB & HD); [by intros [[=] _] | done |]. cbn [fst snd] in *.
  apply Iter_Delete_effect in HD as (Htr' & Hidx' & Hrt').
  match type of HB with _ ?t = _ => set (sL := t) in * end.
  destruct (complete_op_node_effect n node sL del sB Hnode Htype HB)
    as (Hst & tr & Htr & Hall & Hfree & Hrm).
  split.
  - unfold state_at in *. by rewrite Hrt'.
  - exists tr, del. split_and!; try done.
    + apply new_trace_app. rewrite Htr'. simpl. rewrite Htr. simpl.
      by rewrite <- !app_assoc.
    + intros p Hp. destruct (Hall p Hp) as (ri & d & Hri & Hd & Htrig & Hcase).
      exists ri, d. split_and!; try done.
      unfold rc_at in *. rewrite Hidx', Hrt'. done.
Qed.

Lemma chain_a_dropped_reachable : reachable chain_a_dropped.
Proof.
  destruct chain_a_completed_reachable as (s0 & H0 & Hrun).
  exists s0. split; [done|]. etrans; [exact Hrun|].
  eapply rtc_l; [apply (step_Dispatcher _ chain_op1_pushed); run_step|].
  eapply rtc_l.
  { apply (step_OnOperationComplete 0%N task_of_node_3 _ chain_op1_reported);
      [ apply list_elem_of_In; vm_compute; tauto
      | apply (bool_decide_unpack _); vm_compute; exact I
      | run_step ]. }
  eapply rtc_l; [apply (step_handle 0%N 0 chain_op1_reported)|].
  apply rtc_refl.
Qed.

(** C4 at the run [a = op0 (); b = op1 (a)] in which the frontend drops its
    handle of [a] before [op1] is reported complete.  The report of [op1],
    op node 3, is at the head of the dispatcher queue; its one predecessor,
    data node 0, is [kCompleted] with [reference_count] 1,
    [num_triggers_needed] 0 and [extern_rc] 0.  The body of the loop over
    the predecessors does what the claim says: it decrements the count to
    0, frees the storage of node 0 and removes the node from the DAG; with
    that, node 0 is erased from the predecessors of node 3, the set the
    loop is walking, and the next step of the loop is undefined. *)
Theorem op_completion_reclaim_is_undefined :
  reachable chain_a_dropped ∧
  dispatcher_queue_ chain_a_dropped = [(kToComplete, 3%N)] ∧
  type_at chain_a_dropped 3 = Some kOpNode ∧
  elements (preds_at chain_a_dropped 3) = [0%N] ∧
  rt_info_ chain_a_dropped !! 0%N = Some (mkRuntimeInfo kCompleted 1 0) ∧
  data_at chain_a_dropped 0 = Some (mkPhysicalData [4] 0%N 0%N 0) ∧
  (∃ s2, release_predecessor 0%N chain_op1_completing = Ok ([0%N], s2) ∧
     new_trace chain_op1_completing s2
       = [ARtWrite 0; AFreeData 0; ARemoveNodeFromDag 0; ARemoveNode 0] ∧
     elements (preds_at s2 3) = []) ∧
  DispatcherRoutine 1 chain_a_dropped
    = Abort (Undefined "iterator into predecessors_ advanced after erase").
Proof.
  split; [exact chain_a_dropped_reachable|].
  split_and!; try (match goal with |- _ = _ => vm_compute; reflexivity end).
  exists (after (release_predecessor 0%N) chain_op1_completing).
  split_and!; vm_compute; reflexivity.
Qed.

(** * An op node that nothing consumes *)

Lemma At_eq n s ri : rt_info_ s !! n = Some ri → At n s = Ok (ri, s).
Proof. unfold At. by intros ->. Qed.

Lemma deref_eq n s node : heap s !! n = Some node → deref n s = Ok (node, s).
Proof. unfold deref. by intros ->. Qed.

Lemma At_update_eq n f s ri :
  rt_info_ s !! n = Some ri →
  At_update n f s
  = Ok (tt, set_trace (λ t, t ++ [ARtWrite n]) (set_rt_info (alter f n) s)).
Proof. intros Hri. unfold At_update. by rewrite (bind_eq _ _ _ _ _ (At_eq _ _ _ Hri)). Qed.

Lemma GetNode_eq n s node :
  n ∈ index_to_node_ s → heap s !! n = Some node → GetNode n s = Ok (node, s).
Proof.
  intros Hidx Hnode. unfold GetNode. erewrite bind_eq by reflexivity.
  rewrite decide_True by done. by apply deref_eq.
Qed.

Lemma MultiNodeLock_eq n s node :
  heap s !! n = Some node →
  MultiNodeLock n s
  = Ok (tt, set_trace (λ t, t ++ [ALock ({[n]} ∪ predecessors_ node ∪ successors_ node)]) s).
Proof.
  intros Hnode. unfold MultiNodeLock. by rewrite (bind_eq _ _ _ _ _ (deref_eq _ _ _ Hnode)).
Qed.

Lemma completion_without_consumer n node ri s :
  n ∈ index_to_node_ s → heap s !! n = Some node → Type_ node = kOpNode →
  rt_info_ s !! n = Some ri → reference_count ri = 0 →
  DispatcherBody (kToComplete, n) s
  = Abort (CheckFailed "op node generated but not needed").
Proof.
  intros Hidx Hnode Htype Hrt Hrc.
  unfold DispatcherBody. cbn [fst snd].
  rewrite (bind_eq _ _ _ _ _ (GetNode_eq _ _ _ Hidx Hnode)).
  apply bind_Abort. left.
  rewrite (bind_eq _ _ _ _ _ (MultiNodeLock_eq _ _ _ Hnode)).
  erewrite bind_eq; [|apply At_eq; simpl; exact Hrt].
  apply bind_Abort. left.
  rewrite decide_False by (by intros [[=] _]).
  rewrite decide_True by (by left).
  unfold complete_node.
  erewrite bind_eq; [|eapply At_update_eq; simpl; exact Hrt].
  apply bind_Abort. left.
  rewrite decide_True by done.
  erewrite bind_eq; [|apply At_eq; simpl; rewrite lookup_alter_eq, Hrt; reflexivity].
  apply bind_Abort. left. simpl. rewrite Hrc. reflexivity.
Qed.

Lemma type_at_alter f n s k :
  (∀ x, Type_ (f x) = Type_ x) → type_at (set_heap (alter f n) s) k = type_at s k.
Proof.
  intros Hf. unfold type_at. simpl. destruct (decide (k = n)) as [->|Hne].
  - rewrite lookup_alter_eq. destruct (heap s !! n); simpl; [|done]. by rewrite Hf.
  - by rewrite lookup_alter_ne.
Qed.

Lemma AddEdge_type u v s s' k :
  AddEdge u v s = Ok (tt, s') → type_at s' k = type_at s k.
Proof.
  intros H. unfold AddEdge in H. inv_M H.
  rewrite !type_at_alter; done.
Qed.

Lemma Iter_AddEdge_type (f : N → N * N) l k : ∀ s s',
  Iter (λ d, AddEdge (f d).1 (f d).2) l s = Ok (tt, s') → type_at s' k = type_at s k.
Proof.
  induction l as [|x l IH]; intros s s' H; simpl in H.
  - by inv_M H.
  - apply bind_Ok in H as ([] & s1 & H1 & H).
    rewrite (IH _ _ H). by eapply AddEdge_type.
Qed.

Lemma rc_at_alter_ne f u s j : j ≠ u → rc_at (set_rt_info (alter f u) s) j = rc_at s j.
Proof. intros Hne. unfold rc_at. simpl. by rewrite lookup_alter_ne. Qed.

Lemma rc_at_alter_triggers d v s j :
  rc_at (set_rt_info (alter (add_num_triggers_needed d) v) s) j = rc_at s j.
Proof.
  unfold rc_at. simpl. destruct (decide (j = v)) as [->|Hne].
  - rewrite lookup_alter_eq. by destruct (rt_info_ s !! v).
  - by rewrite lookup_alter_ne.
Qed.

Lemma OnCreateEdge_rc u v s s' j :
  OnCreateEdge u v s = Ok (tt, s') → j ≠ u → rc_at s' j = rc_at s j.
Proof.
  intros H Hne. unfold OnCreateEdge in H.
  apply bind_Ok in H as (st & sa & Ha & H). inv_M Ha.
  apply bind_Ok in H as ([] & sb & Hb & H). inv_M Hb.
  apply bind_Ok in H as ([] & sc & Hc & H). inv_M Hc.
  apply bind_Ok in H as (st' & sd & Hd & H). inv_M Hd.
  match type of H with (if decide ?P then _ else _) _ = _ =>
    destruct (decide P) end; inv_M H.
  - change (rc_at (set_rt_info (alter (add_num_triggers_needed 1) v)
                     (set_rt_info (alter (add_reference_count 1) u) s)) j = rc_at s j).
    by rewrite rc_at_alter_triggers, rc_at_alter_ne.
  - change (rc_at (set_rt_info (alter (add_reference_count 1) u) s) j = rc_at s j).
    by rewrite rc_at_alter_ne.
Qed.

Lemma Iter_OnCreateEdge_rc op ps j : ∀ s s',
  Iter (λ n, OnCreateEdge n op) ps s = Ok (tt, s') → j ∉ ps → rc_at s' j = rc_at s j.
Proof.
  induction ps as [|p ps IH]; intros s s' H Hj; simpl in H.
  - by inv_M H.
  - apply bind_Ok in H as ([] & s1 & H1 & H).
    apply not_elem_of_cons in Hj as [Hne Hj].
    rewrite (IH _ _ H Hj). by eapply OnCreateEdge_rc.
Qed.

Lemma NewOpNode_type ins outs o s n s' :
  NewOpNode ins outs o s = Ok (n, s') → type_at s' n = Some kOpNode.
Proof.
  intros He. unfold NewOpNode in He.
  apply bind_Ok in He as (m & s0 & H0 & He). apply gets_Ok in H0. injection H0 as -> ->.
  apply bind_Ok in He as ([] & s0 & H0 & He). apply modify_Ok in H0. injection H0 as ->.
  apply bind_Ok in He as ([] & s0 & H0 & He). apply modify_Ok in H0. injection H0 as ->.
  apply bind_Ok in He as ([] & s0 & H0 & He). apply modify_Ok in H0. injection H0 as ->.
  apply bind_Ok in He as ([] & s1 & H1 & He).
  apply bind_Ok in He as ([] & s2 & H2 & He).
  apply bind_Ok in He as ([] & s3 & H3 & He). apply emit_Ok in H3. injection H3 as ->.
  apply mret_Ok in He. injection He as -> ->.
  set (m := next_node_id s) in *.
  change (type_at s2 m = Some kOpNode).
  rewrite (Iter_AddEdge_type (λ d, (m, d)) outs m _ _ H2).
  rewrite (Iter_AddEdge_type (λ d, (d, m)) ins m _ _ H1).
  unfold type_at. simpl. by rewrite lookup_insert_eq.
Qed.

Lemma ProcessIfReady_keeps n s s' :
  ProcessIfReady n s = Ok (tt, s') →
  heap s' = heap s ∧ index_to_node_ s' = index_to_node_ s ∧ rt_info_ s' = rt_info_ s.
Proof. intros H. unfold ProcessIfReady in H. by inv_M H. Qed.

Lemma Create_without_results params fn s ret s' :
  Inv s → Create params [] fn s = Ok (ret, s') →
  next_node_id s ∈ index_to_node_ s' ∧
  type_at s' (next_node_id s) = Some kOpNode ∧
  rc_at s' (next_node_id s) = Some 0.
Proof.
  intros HG H.
  apply Create_phases in H
    as (ids & ps & sa & sb & sc & cover & op & se & sf & sg & sh & si &
        Ha & Hb & _ & Hc & Hd & He & Hf & Hg & Hh & Hi & ->).
  unfold new_result_nodes in Ha. simpl in Ha. apply mret_Ok in Ha. injection Ha as -> ->.
  simpl in Hb. apply mret_Ok in Hb. injection Hb as ->.
  simpl in Hc. apply mret_Ok in Hc. injection Hc as -> ->.
  simpl in Hh. apply mret_Ok in Hh. injection Hh as ->.
  pose proof (g_fresh _ _ _ HG) as Hfresh.
  apply MultiNodeLock_vec_views in Hd as [Hps _].
  pose proof (NewOpNode_type _ _ _ _ _ _ He) as Hty.
  apply NewOpNode_views in He as (-> & _ & _ & _ & Hidx & _); [|exact Hfresh].
  simpl in Hidx. set (o := next_node_id s) in *.
  assert (o ∉ ps) as Hnps.
  { intros Hin. apply Hps, Hfresh in Hin. unfold o in Hin. lia. }
  pose proof (Iter_OnCreateEdge_rc o ps o _ _ Hg Hnps) as Hrc.
  rewrite <- (Iter_map (λ e : N * N, OnCreateEdge e.1 e.2) (λ n, (n, o))) in Hg.
  apply create_edges_views in Hg as ((Hh_g & Hi_g & _) & _).
  apply ProcessIfReady_keeps in Hi as (Hh_i & Hi_i & Hr_i).
  inv_M Hf.
  split_and!.
  - simpl. rewrite Hi_i, Hi_g. simpl. rewrite Hidx. set_solver.
  - unfold type_at in *. simpl. rewrite Hh_i, Hh_g. simpl. unfold o.
    rewrite lookup_alter_eq. destruct (heap se !! next_node_id s) as [x|]; [|done].
    simpl in *. injection Hty as Hty. f_equal.
    unfold Type_ in *. simpl. by destruct (body x).
  - unfold rc_at in *. simpl. rewrite Hr_i, Hrc. simpl. by rewrite lookup_insert_eq.
Qed.

(** C10: a completion event for an op node whose [reference_count] is 0
    makes the dispatcher abort with [op node generated but not needed]; and
    an op that [Create] is given without result shapes is such a node: it
    comes out of [Create] as an op node of the DAG with [reference_count]
    0, so that its completion event aborts. *)
Theorem completion_of_unneeded_op_aborts :
  (∀ (n : N) (node : DagNode) (ri : RuntimeInfo) (s : DagScheduler),
     n ∈ index_to_node_ s → heap s !! n = Some node → Type_ node = kOpNode →
     rt_info_ s !! n = Some ri → reference_count ri = 0 →
     DispatcherBody (kToComplete, n) s
     = Abort (CheckFailed "op node generated but not needed")) ∧
  (∀ (params : list BackendChunk) (fn : ComputeFn) (s : DagScheduler)
     (ret : list BackendChunk) (s' : DagScheduler),
     reachable s → Create params [] fn s = Ok (ret, s') →
     next_node_id s ∈ index_to_node_ s' ∧
     type_at s' (next_node_id s) = Some kOpNode ∧
     rc_at s' (next_node_id s) = Some 0 ∧
     DispatcherBody (kToComplete, next_node_id s) s'
     = Abort (CheckFailed "op node generated but not needed")).
Proof.
  split; [apply completion_without_consumer|].
  intros params fn s ret s' Hreach Hrun.
  apply reachable_Inv in Hreach.
  destruct (Create_without_results _ _ _ _ _ Hreach Hrun) as (Hidx & Hty & Hrc).
  split_and!; try done.
  unfold type_at in Hty. unfold rc_at in Hrc.
  destruct (heap s' !! next_node_id s) as [node|] eqn:Hnode; [|done].
  destruct (rt_info_ s' !! next_node_id s) as [ri|] eqn:Hri; [|done].
  simpl in *. injection Hty as Hty. injection Hrc as Hrc.
  by eapply completion_without_consumer.
Qed.

Lemma completion_of_unneeded_op_aborts_witness :
  DispatcherBody (kToComplete, 0%N) lone_op_reported
  = Abort (CheckFailed "op node generated but not needed") ∧
  ∃ ret s', Create [] [] 7%N empty_scheduler = Ok (ret, s') ∧
    DispatcherBody (kToComplete, 0%N) s'
    = Abort (CheckFailed "op node generated but not needed").
Proof.
  split.
  - apply (proj1 completion_of_unneeded_op_aborts 0%N
             (mkDagNode ∅ ∅ (OpBody (mkPhysicalOp 7%N 0%N) [] []))
             (mkRuntimeInfo kReady 0 0) lone_op_reported);
      reflexivity.
  - eexists _, _. split; [vm_compute; reflexivity|].
    refine (proj2 (proj2 (proj2
      (proj2 completion_of_unneeded_op_aborts [] 7%N empty_scheduler _ _ _ _)))).
    + exists empty_scheduler. split; [by repeat split | apply rtc_refl].
    + vm_compute; reflexivity.
Defined.

(** * Completion of a data node *)

Lemma release_producer_effect (P : gset N) (del1 : list N) t del t' :
  (CHECK (bool_decide (size P = 1%nat))
     "data node should have no more than one predecessor" ;;
   match elements P with
   | [] => abort (CheckFailed "data node should have no more than one predecessor")
   | pred_node :: _ =>
       pred_ri ← At pred_node;
       CHECK (bool_decide (num_triggers_needed pred_ri = 0))
         "#triggers incorrect for a completed op node" ;;
       At_update pred_node (add_reference_count (-1)) ;;
       del2 ← (if decide (reference_count pred_ri - 1 = 0)
               then n ← RemoveNodeFromDag pred_node; OnDeleteNode pred_node ;; mret [n]
               else mret []);
       mret (del1 ++ del2)
   end) t = Ok (del, t') →
  ∃ p pri, P = {[p]} ∧ rt_info_ t !! p = Some pri ∧ num_triggers_needed pri = 0 ∧
    del = del1 ++ (if decide (reference_count pri - 1 = 0) then [p] else []) ∧
    trace t' = trace t ++ [ARtWrite p]
      ++ (if decide (reference_count pri - 1 = 0)
          then [ARemoveNodeFromDag p; ARemoveNode p] else []) ∧
    (∀ q, q ≠ p → rt_info_ t' !! q = rt_info_ t !! q ∧
                  (q ∈ index_to_node_ t' ↔ q ∈ index_to_node_ t)) ∧
    (if decide (reference_count pri - 1 = 0)
     then (p ∉ index_to_node_ t') ∧ rt_info_ t' !! p = None
     else index_to_node_ t' = index_to_node_ t ∧
          rt_info_ t' !! p = Some (add_reference_count (-1) pri)).
Proof.
  intros H.
  apply bind_Ok in H as ([] & ta & Ha & H). apply CHECK_Ok in Ha as [Hsize [= <-]].
  apply bool_decide_eq_true in Hsize.
  apply size_1_elem_of in Hsize as [p Hp]. apply leibniz_equiv in Hp. subst P.
  rewrite elements_singleton in H.
  apply bind_Ok in H as (pri & tb & Hb & H). apply At_Ok in Hb as (? & Hpri & [= <- <-]).
  apply bind_Ok in H as ([] & tc & Hc & H). apply CHECK_Ok in Hc as [Htrig [= <-]].
  apply bool_decide_eq_true in Htrig.
  apply bind_Ok in H as ([] & td & Hd & H).
  rewrite (At_update_eq _ _ _ _ Hpri) in Hd. injection Hd as <-.
  apply bind_Ok in H as (del2 & te & He & H).
  apply mret_Ok in H. injection H as -> ->.
  exists p, pri. split_and!; try done.
  all: destruct (decide (reference_count pri - 1 = 0)) as [Hlast|Hlast].
  all: try (apply bind_Ok in He as (y & tf & Hf & He);
            apply bind_Ok in He as ([] & tg & Hg & He);
            apply mret_Ok in He; injection He as -> ->;
            unfold RemoveNodeFromDag in Hf; inv_M Hf; inv_M Hg).
  all: try (apply mret_Ok in He; injection He as -> ->).
  - done.
  - done.
  - simpl. by rewrite <- !app_assoc.
  - done.
  - intros q Hq. simpl. rewrite lookup_delete_ne, lookup_alter_ne by done.
    split; [done|]. set_solver.
  - intros q Hq. simpl. by rewrite lookup_alter_ne.
  - simpl. rewrite lookup_delete_eq. split; [set_solver|done].
  - simpl. by rewrite lookup_alter_eq, Hpri.
Qed.

Lemma detached_own_preds (n : N) (c : Prop) `{Decision c} (P : gset N) :
  n ∉ P → (if decide c then P ∖ {[n]} else P) = P.
Proof. intros Hn. destruct (decide c); [set_solver|done]. Qed.

Lemma complete_data_node_effect n node d s del s' :
  heap s !! n = Some node → body node = DataBody d → n ∉ predecessors_ node →
  complete_node n node s = Ok (del, s') →
  ∃ ri p pri rest,
    rt_info_ s !! n = Some ri ∧ predecessors_ node = {[p]} ∧
    rt_info_ s !! p = Some pri ∧ num_triggers_needed pri = 0 ∧
    del = (if decide (reference_count ri = 0 ∧ extern_rc d = 0) then [n] else [])
          ++ (if decide (reference_count pri - 1 = 0) then [p] else []) ∧
    trace s' = trace s ++ [ARtWrite n]
      ++ (if decide (reference_count ri = 0 ∧ extern_rc d = 0)
          then [AFreeData (data_id d); ARemoveNodeFromDag n; ARemoveNode n] else [])
      ++ [ARtWrite p]
      ++ (if decide (reference_count pri - 1 = 0)
          then [ARemoveNodeFromDag p; ARemoveNode p] else [])
      ++ rest ∧
    reclaim_free rest ∧
    (if decide (reference_count ri = 0 ∧ extern_rc d = 0)
     then (n ∉ index_to_node_ s') ∧ rt_info_ s' !! n = None
     else (n ∈ index_to_node_ s' ↔ n ∈ index_to_node_ s) ∧
          state_at s' n = Some kCompleted) ∧
    (if decide (reference_count pri - 1 = 0)
     then (p ∉ index_to_node_ s') ∧ rt_info_ s' !! p = None
     else (p ∈ index_to_node_ s' ↔ p ∈ index_to_node_ s) ∧
          rc_at s' p = Some (reference_count pri - 1)).
Proof.
  intros Hnode Hbody Hloop H. unfold complete_node in H.
  assert (Type_ node ≠ kOpNode) as Htype by (unfold Type_; by rewrite Hbody).
  apply bind_Ok in H as ([] & s1 & H1 & H). inv_M H1.
  match goal with Hr : rt_info_ s !! n = Some ?x |- _ =>
    rename x into nri; rename Hr into Hnri end.
  match type of H with _ ?t = _ => set (s1 := t) in * end.
  apply bind_Ok in H as (del0 & s2 & H2 & H).
  apply successors_phase_effect in H as (-> & Hkeep & rest & Hrest & Hfree).
  rewrite decide_False in H2 by done.
  apply bind_Ok in H2 as (d0 & sa & Ha & H2). inv_M Ha.
  apply bind_Ok in H2 as (ri1 & sb & Hb & H2).
  apply At_Ok in Hb as (? & Hri1 & [= -> ->]).
  simpl in Hri1. rewrite lookup_alter_eq, Hnri in Hri1. simpl in Hri1.
  injection Hri1 as <-. cbn [set_state reference_count] in H2.
  apply bind_Ok in H2 as (del1 & sA & HA & H2).
  apply bind_Ok in H2 as (now & sB & HB & H2).
  apply deref_Ok in HB as (? & Hnow & [= -> ->]).
  exists nri.
  destruct (decide (reference_count nri = 0 ∧ extern_rc d = 0)) as [Hown|Hown].
  - apply bind_Ok in HA as (y & sC & HC & HA).
    apply mret_Ok in HA. injection HA as -> ->.
    unfold reclaim_data_node in HC. inv_M HC.
    simpl in Hnow. rewrite lookup_detach, Hnode in Hnow. simpl in Hnow.
    injection Hnow as <-. cbn [predecessors_] in H2.
    rewrite (detached_own_preds _ _ _ Hloop) in H2.
    apply (release_producer_effect _ [n]) in H2
      as (p & pri & HP & Hpri & Htrig & -> & Htr & Hframe & Hcase).
    assert (p ≠ n) as Hpn by (intros ->; set_solver).
    simpl in Hpri. rewrite lookup_delete_ne, lookup_alter_ne in Hpri by done.
    destruct (Hframe n) as [Hrtn Hidxn]; [done|].
    pose proof Hkeep as (Hidx & _ & _).
    exists p, pri, rest. split_and!; try done.
    + rewrite Hrest, Htr. simpl. by rewrite <- !app_assoc.
    + rewrite Hidx, Hidxn. simpl. set_solver.
    + apply (keeps_counts_None _ _ _ Hkeep). rewrite Hrtn. simpl.
      by rewrite lookup_delete_eq.
    + destruct (decide (reference_count pri - 1 = 0)) as [Hlast|Hlast].
      * destruct Hcase as [Hni Hnone]. split; [by rewrite Hidx|].
        by apply (keeps_counts_None _ _ _ Hkeep).
      * destruct Hcase as [Hsame Hsome]. split.
        -- rewrite Hidx, Hsame. simpl. set_solver.
        -- rewrite (keeps_counts_rc _ _ _ Hkeep). unfold rc_at. rewrite Hsome.
           simpl. f_equal; lia.
  - apply mret_Ok in HA. injection HA as -> ->.
    simpl in Hnow. rewrite Hnode in Hnow. injection Hnow as <-.
    apply (release_producer_effect _ []) in H2
      as (p & pri & HP & Hpri & Htrig & -> & Htr & Hframe & Hcase).
    assert (p ≠ n) as Hpn by (intros ->; set_solver).
    simpl in Hpri. rewrite lookup_alter_ne in Hpri by done.
    destruct (Hframe n) as [Hrtn Hidxn]; [done|].
    pose proof Hkeep as (Hidx & _ & _).
    exists p, pri, rest. split_and!; try done.
    + rewrite Hrest, Htr. simpl. by rewrite <- !app_assoc.
    + by rewrite Hidx, Hidxn.
    + rewrite (keeps_counts_state _ _ _ Hkeep). unfold state_at. rewrite Hrtn.
      simpl. by rewrite lookup_alter_eq, Hnri.
    + destruct (decide (reference_count pri - 1 = 0)) as [Hlast|Hlast].
      * destruct Hcase as [Hni Hnone]. split; [by rewrite Hidx|].
        by apply (keeps_counts_None _ _ _ Hkeep).
      * destruct Hcase as [Hsame Hsome]. split.
        -- by rewrite Hidx, Hsame.
        -- rewrite (keeps_counts_rc _ _ _ Hkeep). unfold rc_at. rewrite Hsome.
           simpl. f_equal; lia.
Qed.

(** C5: when the dispatcher handles an event of a data node [n] (its
    [kToRun] event, or a completion event), the node has exactly one
    predecessor [p] (the dispatcher aborts otherwise).  First [n] becomes
    [kCompleted]; then, if its own [reference_count] is 0 and its
    [extern_rc] is 0, its device storage is freed and it leaves the DAG and
    the runtime-info map; only after that [p] is touched: its
    [num_triggers_needed] is 0 (the dispatcher aborts otherwise), its
    [reference_count] goes down by one, and it leaves the DAG and the
    runtime-info map exactly when that makes it 0, whatever its
    [extern_rc].  The objects of the nodes taken out are deleted after the
    lock is released. *)
Theorem data_completion_releases_producer (kind : TaskType) (n : N) (node : DagNode)
    (d : PhysicalData) (s s' : DagScheduler)
    (Hnode : heap s !! n = Some node) (Hbody : body node = DataBody d)
    (Hloop : n ∉ predecessors_ node)
    (Hrun : DispatcherBody (kind, n) s = Ok (tt, s')) :
  ∃ ri p pri rest,
    rt_info_ s !! n = Some ri ∧ predecessors_ node = {[p]} ∧
    rt_info_ s !! p = Some pri ∧ num_triggers_needed pri = 0 ∧
    new_trace s s' =
      [ALock ({[n]} ∪ predecessors_ node ∪ successors_ node); ARtWrite n]
      ++ (if decide (reference_count ri = 0 ∧ extern_rc d = 0)
          then [AFreeData (data_id d); ARemoveNodeFromDag n; ARemoveNode n] else [])
      ++ [ARtWrite p]
      ++ (if decide (reference_count pri - 1 = 0)
          then [ARemoveNodeFromDag p; ARemoveNode p] else [])
      ++ rest ++ [AUnlock]
      ++ map ADelete
           ((if decide (reference_count ri = 0 ∧ extern_rc d = 0) then [n] else [])
            ++ (if decide (reference_count pri - 1 = 0) then [p] else [])) ∧
    reclaim_free rest ∧
    (if decide (reference_count ri = 0 ∧ extern_rc d = 0)
     then (n ∉ index_to_node_ s') ∧ rt_info_ s' !! n = None
     else n ∈ index_to_node_ s' ∧ state_at s' n = Some kCompleted) ∧
    (if decide (reference_count pri - 1 = 0)
     then (p ∉ index_to_node_ s') ∧ rt_info_ s' !! p = None
     else (p ∈ index_to_node_ s' ↔ p ∈ index_to_node_ s) ∧
          rc_at s' p = Some (reference_count pri - 1)).
Proof.
  destruct (DispatcherBody_completion (kind, n) s s' node Hnode)
    as (Hidx & del & sB & HB & HD); [|done|]; cbn [fst snd] in *.
  { intros [_ Hty]. unfold Type_ in Hty. by rewrite Hbody in Hty. }
  apply Iter_Delete_effect in HD as (Htr' & Hidx' & Hrt').
  match type of HB with _ ?t = _ => set (sL := t) in * end.
  destruct (complete_data_node_effect n node d sL del sB Hnode Hbody Hloop HB)
    as (ri & p & pri & rest & Hri & HP & Hpri & Htrig & -> & Htr & Hfree & Hown & Hlast).
  exists ri, p, pri, rest. split_and!; try done.
  - apply new_trace_app. rewrite Htr'. simpl. rewrite Htr. simpl.
    destruct (decide (reference_count ri = 0 ∧ extern_rc d = 0)),
      (decide (reference_count pri - 1 = 0)); simpl;
      rewrite <- !app_assoc; simpl; rewrite <- ?app_assoc; reflexivity.
  - destruct (decide (reference_count ri = 0 ∧ extern_rc d = 0)).
    + by rewrite Hidx', Hrt'.
    + unfold state_at. rewrite Hidx', Hrt'. destruct Hown as [Hiff Hst].
      split; [by apply Hiff|done].
  - destruct (decide (reference_count pri - 1 = 0)).
    + by rewrite Hidx', Hrt'.
    + unfold rc_at. by rewrite Hidx', Hrt'.
Qed.

Lemma data_completion_releases_producer_witness :
  ∃ s' rest,
    DispatcherBody (kToRun, 0%N) chain_a_completing = Ok (tt, s') ∧
    new_trace chain_a_completing s' =
      [ALock {[0%N; 1%N; 3%N]}; ARtWrite 0; ARtWrite 1; ARemoveNodeFromDag 1; ARemoveNode 1]
      ++ rest ++ [AUnlock; ADelete 1] ∧
    state_at s' 0 = Some kCompleted ∧ rt_info_ s' !! 1%N = None.
Proof.
  exists (after (DispatcherBody (kToRun, 0%N)) chain_a_completing).
  assert (DispatcherBody (kToRun, 0%N) chain_a_completing
          = Ok (tt, after (DispatcherBody (kToRun, 0%N)) chain_a_completing)) as Hrun
    by (vm_compute; reflexivity).
  destruct (data_completion_releases_producer kToRun 0%N
              (mkDagNode {[1%N]} {[3%N]} (DataBody (mkPhysicalData [4] 0%N 0%N 1)))
              (mkPhysicalData [4] 0%N 0%N 1) chain_a_completing
              (after (DispatcherBody (kToRun, 0%N)) chain_a_completing)
              eq_refl eq_refl)
    as (ri & p & pri & rest & Hri & HP & Hpri & _ & Htr & _ & Hown & Hlast);
    [simpl; set_solver | exact Hrun |].
  exists rest. split; [exact Hrun|].
  assert (p = 1%N) as ->.
  { simpl in HP. assert (1%N ∈ ({[p]} : gset N)) as Hin by (rewrite <- HP; set_solver).
    apply elem_of_singleton in Hin. done. }
  vm_compute in Hri. injection Hri as <-.
  vm_compute in Hpri. injection Hpri as <-.
  simpl in Hown, Hlast, Htr. destruct Hown as [_ Hst]. destruct Hlast as [_ Hnone].
  split_and!; done.
Defined.


(** * The count of unfinished work *)

Lemma surplus_trace_quiet s t :
  quiet t → surplus (set_trace (λ tr, tr ++ t) s) = surplus s.
Proof.
  intros [Hp Hr]. unfold surplus, running. simpl.
  by rewrite pushed_ids_app, reported_ids_app, Hp, Hr, !app_nil_r.
Qed.

Lemma shifts_ret {A} (a : A) : shifts 0 (mret a).
Proof. intros s a' s' H. inv_M H. lia. Qed.

Lemma shifts_abort {A} d e : shifts d (abort e : M A).
Proof. intros s a' s' H. inv_M H. Qed.

Lemma shifts_bind {A B} d1 d2 (m : M A) (f : A → M B) :
  shifts d1 m → (∀ a, shifts d2 (f a)) → shifts (d1 + d2) (m ≫= f).
Proof.
  intros Hm Hf s b s' H. apply bind_Ok in H as (a & s1 & H1 & H2).
  rewrite (Hf _ _ _ _ H2), (Hm _ _ _ H1). lia.
Qed.

Lemma shifts_bind_0 {A B} (m : M A) (f : A → M B) :
  shifts 0 m → (∀ a, shifts 0 (f a)) → shifts 0 (m ≫= f).
Proof. apply (shifts_bind 0 0). Qed.

Lemma shifts_gets {A} (f : DagScheduler → A) : shifts 0 (gets f).
Proof. intros s a' s' H. inv_M H. lia. Qed.

Lemma shifts_modify d f : (∀ s, surplus (f s) = surplus s + d) → shifts d (modify f).
Proof. intros Hf s a' s' H. inv_M H. apply Hf. Qed.

Lemma shifts_emit_quiet a : quiet [a] → shifts 0 (emit a).
Proof.
  intros Ha s a' s' H. inv_M H. rewrite (surplus_trace_quiet _ _ Ha). lia.
Qed.

Lemma shifts_CHECK b msg : shifts 0 (CHECK b msg).
Proof. intros s a' s' H. inv_M H. lia. Qed.

Lemma shifts_At n : shifts 0 (At n).
Proof. intros s a' s' H. inv_M H. lia. Qed.

Lemma shifts_deref n : shifts 0 (deref n).
Proof. intros s a' s' H. inv_M H. lia. Qed.

Lemma shifts_Iter {A} (f : A → M unit) v : (∀ x, shifts 0 (f x)) → shifts 0 (Iter f v).
Proof.
  intros Hf. induction v as [|x v IH]; simpl.
  - apply shifts_ret.
  - apply shifts_bind_0; auto.
Qed.

Lemma shifts_Map {A B} (f : A → M B) v : (∀ x, shifts 0 (f x)) → shifts 0 (Map f v).
Proof.
  intros Hf. induction v as [|x v IH]; simpl.
  - apply shifts_ret.
  - apply shifts_bind_0; [auto|]. intros y.
    apply shifts_bind_0; [auto|]. intros ys. apply shifts_ret.
Qed.

Lemma shifts_Collect {A B} (f : A → M (list B)) v :
  (∀ x, shifts 0 (f x)) → shifts 0 (Collect f v).
Proof.
  intros Hf. induction v as [|x v IH]; simpl.
  - apply shifts_ret.
  - apply shifts_bind_0; [auto|]. intros y.
    apply shifts_bind_0; [auto|]. intros ys. apply shifts_ret.
Qed.

(** The two places that announce new work do it in step with the counter:
    the increment and the push of the [kToRun] event cancel. *)
Lemma shifts_announce ev : ev.1 = kToRun → shifts 0 (incr_yet_to_finish ;; Push ev).
Proof.
  intros Hev s a s' H. destruct ev as [kind k]. simpl in Hev. subst kind.
  unfold incr_yet_to_finish, Push in H. inv_M H.
  unfold surplus, running. simpl.
  rewrite !pushed_ids_app, !reported_ids_app, !length_app. simpl. lia.
Qed.

(** A report of the device adds an event and takes a task off the device. *)
Lemma shifts_OnOperationComplete task : shifts 0 (OnOperationComplete task).
Proof.
  intros s a s' H. unfold OnOperationComplete, Push in H. inv_M H.
  unfold surplus, running. simpl.
  rewrite !pushed_ids_app, !reported_ids_app, !length_app. simpl. lia.
Qed.

Lemma shifts_decr : shifts (-1) decr_yet_to_finish.
Proof.
  intros s a s' H. unfold decr_yet_to_finish in H. inv_M H.
  unfold surplus, running. simpl.
  rewrite !pushed_ids_app, !reported_ids_app, !length_app. simpl. lia.
Qed.

Lemma shifts_push_task device task : shifts (-1) (emit (APushTask device task)).
Proof.
  intros s a s' H. inv_M H.
  unfold surplus, running. simpl.
  rewrite !pushed_ids_app, !reported_ids_app, !length_app. simpl. lia.
Qed.

(** [solve_shifts] proves [shifts 0 m] for code that neither queues, pushes,
    reports nor counts, and for the two places that announce new work. *)
Ltac solve_shifts :=
  repeat first
    [ apply shifts_announce; reflexivity
    | apply shifts_bind_0; [|intros ?]
    | apply shifts_ret
    | apply shifts_abort
    | apply shifts_gets
    | apply (shifts_modify 0); intros ?; unfold surplus, running; simpl; lia
    | apply shifts_emit_quiet; split; reflexivity
    | apply shifts_CHECK
    | apply shifts_At
    | apply shifts_deref
    | apply shifts_Iter; intros ?
    | apply shifts_Map; intros ?
    | apply shifts_Collect; intros ?
    | match goal with
      | |- shifts _ (if ?c then _ else _) => destruct c
      | |- shifts _ (match ?c with _ => _ end) => destruct c
      | |- shifts _ (?f _ _ _ _) => unfold f
      | |- shifts _ (?f _ _ _) => unfold f
      | |- shifts _ (?f _ _) => unfold f
      | |- shifts _ (?f _) => unfold f
      | |- shifts _ ?f => unfold f
      end ].

Lemma shifts_Create params result_sizes fn : shifts 0 (Create params result_sizes fn).
Proof. solve_shifts. Qed.

Lemma shifts_OnExternRCUpdate n : shifts 0 (OnExternRCUpdate n).
Proof. solve_shifts. Qed.

Lemma shifts_release_predecessor p : shifts 0 (release_predecessor p).
Proof. solve_shifts. Qed.

Lemma shifts_trigger_successor x : shifts 0 (trigger_successor x).
Proof. solve_shifts. Qed.

Lemma shifts_complete_node n node : shifts (-1) (complete_node n node).
Proof.
  unfold complete_node.
  change (-1) with (0 + (0 + (0 + (0 + (-1 + 0))))).
  apply shifts_bind; [solve_shifts|intros []].
  apply shifts_bind; [solve_shifts|intros del].
  apply shifts_bind; [solve_shifts|intros now].
  apply shifts_bind; [solve_shifts|intros []].
  apply shifts_bind; [apply shifts_decr|intros []].
  solve_shifts.
Qed.

Lemma shifts_dispatch_op_node n node : shifts (-1) (dispatch_op_node n node).
Proof.
  unfold dispatch_op_node. destruct (body node) as [|o ins outs]; [apply shifts_abort|].
  change (-1) with (0 + (0 + -1)).
  apply shifts_bind; [solve_shifts|intros tin].
  apply shifts_bind; [solve_shifts|intros tout].
  apply shifts_push_task.
Qed.

(** Handling one event moves the counter by as much as the event that was
    taken off the queue. *)
Lemma shifts_DispatcherBody ev : shifts (-1) (DispatcherBody ev).
Proof.
  unfold DispatcherBody.
  change (-1) with (0 + (-1 + 0)).
  apply shifts_bind; [solve_shifts|intros node].
  apply shifts_bind; [|intros del; solve_shifts].
  change (-1) with (0 + (0 + (-1 + 0))).
  apply shifts_bind; [solve_shifts|intros []].
  apply shifts_bind; [solve_shifts|intros ri].
  apply shifts_bind; [|intros del; solve_shifts].
  destruct (decide (ev.1 = kToRun ∧ Type_ node = kOpNode)) as [_|Hnot].
  - change (-1) with (-1 + 0).
    apply shifts_bind; [apply shifts_dispatch_op_node|intros []; apply shifts_ret].
  - destruct (decide (ev.1 = kToComplete ∨ ev.1 = kToRun ∧ Type_ node = kDataNode))
      as [_|Hnot']; [apply shifts_complete_node|].
    exfalso. destruct ev as [[] k]; simpl in *; [|apply Hnot'; by left].
    unfold Type_ in *. destruct (body node); [apply Hnot'|apply Hnot]; auto.
Qed.

Lemma surplus_Pop s ev s1 : Pop s = Some (ev, s1) → surplus s1 = surplus s + 1.
Proof.
  unfold Pop. destruct (dispatcher_queue_ s) as [|ev' q] eqn:Hq; [done|].
  intros [= <- <-]. unfold surplus, running. simpl. rewrite Hq. simpl. lia.
Qed.

Lemma shifts_DispatcherRoutine fuel : shifts 0 (DispatcherRoutine fuel).
Proof.
  induction fuel as [|fuel IH]; intros s a s' H; simpl in H.
  - injection H as _ <-. lia.
  - destruct (Pop s) as [[ev s1]|] eqn:HPop; [|injection H as _ <-; lia].
    apply bind_Ok in H as ([] & s2 & H2 & H).
    rewrite (IH _ _ _ H), (shifts_DispatcherBody _ _ _ _ H2), (surplus_Pop _ _ _ HPop). lia.
Qed.

Lemma step_surplus s s' : step s s' → surplus s' = surplus s.
Proof.
  intros Hstep. destruct Hstep.
  - match goal with H : Create _ _ _ _ = _ |- _ => rewrite (shifts_Create _ _ _ _ _ _ H) end.
    lia.
  - match goal with H : DispatcherRoutine _ _ = _ |- _ =>
      rewrite (shifts_DispatcherRoutine _ _ _ _ H) end. lia.
  - match goal with H : OnOperationComplete _ _ = _ |- _ =>
      rewrite (shifts_OnOperationComplete _ _ _ _ H) end. lia.
  - done.
  - match goal with H : OnExternRCUpdate _ _ = _ |- _ =>
      rewrite (shifts_OnExternRCUpdate _ _ _ _ H) end. lia.
  - unfold surplus, running. simpl. rewrite pushed_ids_app, reported_ids_app.
    assert (pushed_ids acts = [] ∧ reported_ids acts = []) as [-> ->].
    { match goal with H : Forall _ acts |- _ => induction H as [|a acts Ha _ [IH1 IH2]] end;
        [done|]. destruct a; try discriminate; simpl; by rewrite ?IH1, ?IH2. }
    by rewrite !app_nil_r.
Qed.

Lemma run_surplus s : run_from_constructor s → surplus s = 0.
Proof.
  intros (s0 & [(Hh & Hi & Hr & Hq & Ht) Hnum] & Hsteps).
  assert (surplus s0 = 0) as H0 by (unfold surplus, running; rewrite Hq, Ht, Hnum; done).
  clear -Hsteps H0. induction Hsteps as [|s1 s2 s3 Hstep _ IH]; [done|].
  apply IH. by rewrite (step_surplus _ _ Hstep).
Qed.

Lemma run_from_constructor_reachable s : run_from_constructor s → reachable s.
Proof. intros (s0 & [Hinit _] & Hsteps). by exists s0. Qed.

(** Only the device listener records a report. *)
Lemma unreported_nil : reported_ids [] = [].
Proof. done. Qed.

Lemma unreported_app t1 t2 :
  reported_ids t1 = [] → reported_ids t2 = [] → reported_ids (t1 ++ t2) = [].
Proof. intros H1 H2. by rewrite reported_ids_app, H1, H2. Qed.

Lemma Create_reports_nothing params result_sizes fn :
  appends (λ t, reported_ids t = []) (Create params result_sizes fn).
Proof. solve_appends unreported_nil unreported_app ltac:(reflexivity). Qed.

Lemma OnExternRCUpdate_reports_nothing n :
  appends (λ t, reported_ids t = []) (OnExternRCUpdate n).
Proof. solve_appends unreported_nil unreported_app ltac:(reflexivity). Qed.

Lemma DispatcherBody_reports_nothing ev :
  appends (λ t, reported_ids t = []) (DispatcherBody ev).
Proof. solve_appends unreported_nil unreported_app ltac:(reflexivity). Qed.

Lemma step_reported_NoDup s s' :
  step s s' → NoDup (reported_ids (trace s)) → NoDup (reported_ids (trace s')).
Proof.
  intros Hstep Hnd. destruct Hstep.
  - match goal with H : Create _ _ _ _ = _ |- _ =>
      destruct (Create_reports_nothing _ _ _ _ _ _ H) as (t & -> & Ht) end.
    by rewrite reported_ids_app, Ht, app_nil_r.
  - match goal with H : DispatcherRoutine _ _ = _ |- _ =>
      apply DispatcherRoutine_once in H as [[_ ->]|(ev & q & Hq & H)] end; [done|].
    destruct (DispatcherBody_reports_nothing _ _ _ _ H) as (t & -> & Ht).
    simpl. by rewrite reported_ids_app, Ht, app_nil_r.
  - match goal with H : OnOperationComplete _ _ = _ |- _ =>
      unfold OnOperationComplete, Push in H; inv_M H end.
    simpl. rewrite reported_ids_app. simpl.
    apply NoDup_app. split_and!; [done | | apply NoDup_singleton].
    intros k Hk ->%list_elem_of_singleton. done.
  - done.
  - match goal with H : OnExternRCUpdate _ _ = _ |- _ =>
      destruct (OnExternRCUpdate_reports_nothing _ _ _ _ H) as (t & -> & Ht) end.
    by rewrite reported_ids_app, Ht, app_nil_r.
  - simpl. rewrite reported_ids_app.
    assert (reported_ids acts = []) as ->.
    { match goal with H : Forall _ acts |- _ => induction H as [|a acts Ha _ IH] end;
        [done|]. destruct a; try discriminate; simpl; by rewrite ?IH. }
    by rewrite app_nil_r.
Qed.

Lemma reachable_reported_NoDup s : reachable s → NoDup (reported_ids (trace s)).
Proof.
  intros (s0 & (_ & _ & _ & _ & Ht) & Hsteps).
  assert (NoDup (reported_ids (trace s0))) as H0 by (rewrite Ht; apply NoDup_nil_2).
  clear -Hsteps H0. induction Hsteps as [|s1 s2 s3 Hstep _ IH]; [done|].
  apply IH. by eapply step_reported_NoDup.
Qed.

Lemma running_nonneg s : reachable s → 0 ≤ running s.
Proof.
  intros Hreach. pose proof (reachable_Inv _ Hreach) as HG.
  assert (length (reported_ids (trace s)) ≤ length (pushed_ids (trace s)))%nat.
  { apply submseteq_length, NoDup_submseteq; [by apply reachable_reported_NoDup|].
    intros k. apply (g_reported_pushed _ _ _ HG). }
  unfold running. lia.
Qed.

Lemma empty_to_chain_a_completed : rtc step empty_scheduler chain_a_completed.
Proof.
  eapply rtc_l; [apply (step_Create [] [[4]] 7%N _ [DagChunk 0%N] one_op_created); run_step|].
  eapply rtc_l;
    [apply (step_Create [DagChunk 0%N] [[4]] 8%N _ [DagChunk 2%N] chain_created); run_step|].
  eapply rtc_l; [apply (step_Dispatcher _ chain_op0_pushed); run_step|].
  eapply rtc_l.
  { apply (step_OnOperationComplete 0%N task_of_node_1 _ chain_op0_reported);
      [ apply list_elem_of_In; vm_compute; tauto
      | intros Hin%list_elem_of_In; vm_compute in Hin; tauto
      | run_step ]. }
  eapply rtc_l; [apply (step_Dispatcher _ chain_op0_completed); run_step|].
  eapply rtc_l; [apply (step_Dispatcher _ chain_a_completed); run_step|].
  apply rtc_refl.
Qed.

Lemma chain_a_completed_run : run_from_constructor chain_a_completed.
Proof.
  exists empty_scheduler. split; [by repeat split | apply empty_to_chain_a_completed].
Qed.


(** In every state that a run from the constructor reaches,
    [num_nodes_yet_to_finish_] is the number of events that wait in the
    dispatcher queue plus the number of tasks that are on a device; so it is
    0 exactly when nothing is queued and nothing is running. *)
Theorem unfinished_count_is_queue_plus_running (s : DagScheduler)
    (Hrun : run_from_constructor s) :
  num_nodes_yet_to_finish_ s = Z.of_nat (length (dispatcher_queue_ s)) + running s ∧
  0 ≤ running s ∧
  (num_nodes_yet_to_finish_ s = 0 ↔ dispatcher_queue_ s = [] ∧ running s = 0).
Proof.
  pose proof (run_surplus _ Hrun) as Hs.
  pose proof (running_nonneg _ (run_from_constructor_reachable _ Hrun)) as Hr.
  unfold surplus in Hs. split_and!; [lia | done |].
  split.
  - intros H0. assert (length (dispatcher_queue_ s) = 0%nat) as Hq by lia.
    apply length_zero_iff_nil in Hq. split; [done|]. rewrite Hq in Hs. simpl in Hs. lia.
  - intros [Hq H0]. rewrite Hq in Hs. simpl in Hs. lia.
Qed.

Lemma unfinished_count_is_queue_plus_running_witness :
  num_nodes_yet_to_finish_ chain_a_completed = 1 ∧
  dispatcher_queue_ chain_a_completed = [(kToRun, 3%N)] ∧ running chain_a_completed = 0.
Proof.
  destruct (unfinished_count_is_queue_plus_running chain_a_completed chain_a_completed_run)
    as (Hnum & _ & _).
  assert (dispatcher_queue_ chain_a_completed = [(kToRun, 3%N)]) as Hq by reflexivity.
  assert (running chain_a_completed = 0) as Hr by reflexivity.
  rewrite Hq, Hr in Hnum. done.
Defined.

(** * The blocking calls *)



Lemma chain_a_completed_locked_run :
  run_from_constructor (set_trace (λ t, t ++ [AFinishLock]) chain_a_completed).
Proof.
  destruct chain_a_completed_run as (s0 & Hc & Hsteps).
  exists s0. split; [done|]. eapply rtc_r; [exact Hsteps|].
  apply (step_wait (-1) [AFinishLock] chain_a_completed). by repeat constructor.
Qed.


Lemma wait_while_not_completed_inv n wakeups : ∀ s left s',
  wait_while (st ← GetState n; mret (negb (bool_decide (st = kCompleted))))
    wakeups s = Ok (left, s') →
  s' ∈ seen_by_waiter s wakeups ∧
  if left : bool then state_at s' n = Some kCompleted
  else ∀ si, si ∈ seen_by_waiter s wakeups →
         ∃ st, state_at si n = Some st ∧ st ≠ kCompleted.
Proof.
  induction wakeups as [|w wakeups IH]; intros s left s' H; simpl in H;
    apply bind_Ok in H as (c & s0 & H0 & H);
    apply bind_Ok in H0 as (st & s1 & H1 & H0);
    unfold GetState in H1;
    apply bind_Ok in H1 as (ri0 & s2 & H2 & H1);
    apply At_Ok in H2 as (ri & Hri & [= -> ->]);
    apply mret_Ok in H1; injection H1 as -> ->;
    apply mret_Ok in H0; injection H0 as -> ->;
    (assert (state_at s n = Some (state ri)) as Hst by (unfold state_at; by rewrite Hri));
    destruct (bool_decide_reflect (state ri = kCompleted)) as [Hk|Hk];
    simpl in H.
  - apply mret_Ok in H. injection H as -> ->. split; [left|]. by rewrite Hst, Hk.
  - apply mret_Ok in H. injection H as -> ->. split; [left|].
    intros si ->%list_elem_of_singleton. eauto.
  - apply mret_Ok in H. injection H as -> ->. split; [left|]. by rewrite Hst, Hk.
  - apply bind_Ok in H as ([] & s2 & H2 & H). apply emit_Ok in H2. injection H2 as ->.
    apply bind_Ok in H as ([] & s3 & H3 & H). apply modify_Ok in H3. injection H3 as ->.
    destruct (IH _ _ _ H) as [Hin Hleft]. split; [by right|].
    destruct left; [done|].
    intros si [->|Hsi]%elem_of_cons; [eauto | auto].
Qed.

(** [Wait] is fatal for a handle that is not a [DagChunk].  For a handle on
    node [n] it takes [finish_mutex_], sets [target_] to [n] and sleeps for
    as long as the states it tests have [n] in a state other than
    [kCompleted]; it returns only from a state in which [n] is
    [kCompleted], and then with [target_] back at -1 and the mutex
    released. *)
Theorem Wait_returns_when_completed (data : BackendChunk)
    (wakeups : list (DagScheduler → DagScheduler)) (s : DagScheduler)
    (left : bool) (s' : DagScheduler)
    (Hrun : Wait data wakeups s = Ok (left, s')) :
  Wait ForeignChunk wakeups s = Abort CheckNotNull ∧
  ∃ n, data = DagChunk n ∧
    let seen := seen_by_waiter
                  (set_target (Z.of_N n) (set_trace (λ t, t ++ [AFinishLock]) s)) wakeups in
    if left
    then ∃ si, si ∈ seen ∧ state_at si n = Some kCompleted ∧
               s' = set_trace (λ t, t ++ [AFinishUnlock]) (set_target (-1) si) ∧
               target_ s' = -1
    else s' ∈ seen ∧
         ∀ si, si ∈ seen → ∃ st, state_at si n = Some st ∧ st ≠ kCompleted.
Proof.
  split; [reflexivity|].
  unfold Wait in Hrun.
  apply bind_Ok in Hrun as ([] & s1 & H1 & H). apply emit_Ok in H1. injection H1 as ->.
  apply bind_Ok in H as (n & s2 & H2 & H).
  destruct data as [m|]; [|by apply abort_Ok in H2].
  apply bind_Ok in H2 as (node & s3 & H3 & H2).
  apply deref_Ok in H3 as (? & Hnode & [= -> ->]).
  apply mret_Ok in H2. injection H2 as Hn Hs. subst n s2.
  exists m. split; [done|]. intros seen.
  apply bind_Ok in H as ([] & s4 & H4 & H). apply modify_Ok in H4. injection H4 as ->.
  apply bind_Ok in H as (l & s5 & H5 & H).
  apply wait_while_not_completed_inv in H5 as [Hin Hleft].
  destruct l.
  - apply bind_Ok in H as ([] & s6 & H6 & H). apply modify_Ok in H6. injection H6 as ->.
    apply bind_Ok in H as ([] & s7 & H7 & H). apply emit_Ok in H7. injection H7 as ->.
    apply mret_Ok in H. injection H as -> ->.
    exists s5. split_and!; done.
  - apply mret_Ok in H. injection H as -> ->. split; done.
Qed.

Lemma Wait_returns_when_completed_witness :
  ∃ s', Wait (DagChunk 0%N) [] chain_a_completed = Ok (true, s') ∧ target_ s' = -1.
Proof.
  eexists. split; [vm_compute; reflexivity|].
  refine (let H := Wait_returns_when_completed (DagChunk 0%N) [] chain_a_completed true _ _ in _).
  destruct H as (_ & n & Hn & si & _ & _ & _ & Ht). exact Ht.
  Unshelve. vm_compute; reflexivity.
Defined.

Lemma seen_by_waiter_target wakeups : ∀ s si,
  (∀ w t, w ∈ wakeups → target_ (w t) = target_ t) →
  si ∈ seen_by_waiter s wakeups → target_ si = target_ s.
Proof.
  induction wakeups as [|w wakeups IH]; intros s si Hw Hin; simpl in Hin.
  - by apply list_elem_of_singleton in Hin as ->.
  - apply elem_of_cons in Hin as [->|Hin]; [done|].
    rewrite (IH _ _ (λ w' t Hw', Hw w' t (list_elem_of_further _ _ _ Hw')) Hin).
    rewrite Hw by left. done.
Qed.

(** While a [Wait] is blocked, [WaitForAll] is fatal: a [Wait] that has not
    returned leaves [target_] at the id of its node, provided the other
    threads leave [target_] alone, and [WaitForAll] checks that [target_]
    is -1. *)
Theorem WaitForAll_fatal_during_Wait (data : BackendChunk)
    (wakeups others : list (DagScheduler → DagScheduler)) (s s' : DagScheduler)
    (Htarget : ∀ w t, w ∈ wakeups → target_ (w t) = target_ t)
    (Hblocked : Wait data wakeups s = Ok (false, s')) :
  (∃ n, data = DagChunk n ∧ target_ s' = Z.of_N n) ∧
  WaitForAll others s' = Abort (CheckFailed "CHECK_EQ(target_, -1)").
Proof.
  assert (∃ n, data = DagChunk n ∧ target_ s' = Z.of_N n) as (n & -> & Ht).
  { unfold Wait in Hblocked.
    apply bind_Ok in Hblocked as ([] & s1 & H1 & H). apply emit_Ok in H1. injection H1 as ->.
    apply bind_Ok in H as (n & s2 & H2 & H).
    destruct data as [m|]; [|by apply abort_Ok in H2].
    apply bind_Ok in H2 as (node & s3 & H3 & H2).
    apply deref_Ok in H3 as (? & Hnode & [= -> ->]).
    apply mret_Ok in H2. injection H2 as Hn Hs. subst n s2.
    apply bind_Ok in H as ([] & s4 & H4 & H). apply modify_Ok in H4. injection H4 as ->.
    apply bind_Ok in H as (l & s5 & H5 & H).
    apply wait_while_not_completed_inv in H5 as [Hin _].
    destruct l.
    - apply bind_Ok in H as ([] & s6 & H6 & H).
      apply bind_Ok in H as ([] & s7 & H7 & H). apply mret_Ok in H. discriminate.
    - apply mret_Ok in H. injection H as ->.
      exists m. split; [done|]. by rewrite (seen_by_waiter_target _ _ _ Htarget Hin). }
  split; [eauto|].
  unfold WaitForAll. erewrite bind_eq by reflexivity. erewrite bind_eq by reflexivity.
  simpl. rewrite Ht. rewrite bool_decide_eq_false_2 by lia. reflexivity.
Qed.

Lemma WaitForAll_fatal_during_Wait_witness :
  ∃ s', Wait (DagChunk 2%N) [] chain_a_completed = Ok (false, s') ∧
        WaitForAll [] s' = Abort (CheckFailed "CHECK_EQ(target_, -1)").
Proof.
  eexists. split; [vm_compute; reflexivity|].
  refine (proj2 (WaitForAll_fatal_during_Wait (DagChunk 2%N) [] [] chain_a_completed _ _ _)).
  - intros w t Hw. by apply elem_of_nil in Hw.
  - vm_compute; reflexivity.
Defined.

(** * What a function leaves alone *)

Section Keeps.
Context {X : Type} (f : DagScheduler → X).
Hypothesis f_trace : ∀ s a, f (set_trace (λ t, t ++ [a]) s) = f s.

Lemma keeps_ret {A} (a : A) : keeps f (mret a).
Proof. intros s a' s' H. by inv_M H. Qed.

Lemma keeps_abort {A} e : keeps f (abort e : M A).
Proof. intros s a' s' H. inv_M H. Qed.

Lemma keeps_bind {A B} (m : M A) (g : A → M B) :
  keeps f m → (∀ a, keeps f (g a)) → keeps f (m ≫= g).
Proof.
  intros Hm Hg s b s' H. apply bind_Ok in H as (a & s1 & H1 & H2).
  by rewrite (Hg _ _ _ _ H2), (Hm _ _ _ H1).
Qed.

Lemma keeps_gets {A} (g : DagScheduler → A) : keeps f (gets g).
Proof. intros s a' s' H. by inv_M H. Qed.

Lemma keeps_modify g : (∀ s, f (g s) = f s) → keeps f (modify g).
Proof. intros Hg s a' s' H. inv_M H. apply Hg. Qed.

Lemma keeps_emit a : keeps f (emit a).
Proof. intros s a' s' H. inv_M H. apply f_trace. Qed.

Lemma keeps_CHECK b msg : keeps f (CHECK b msg).
Proof. intros s a' s' H. by inv_M H. Qed.

Lemma keeps_At n : keeps f (At n).
Proof. intros s a' s' H. by inv_M H. Qed.

Lemma keeps_deref n : keeps f (deref n).
Proof. intros s a' s' H. by inv_M H. Qed.

Lemma keeps_Iter {A} (g : A → M unit) v : (∀ x, keeps f (g x)) → keeps f (Iter g v).
Proof.
  intros Hg. induction v as [|x v IH]; simpl.
  - apply keeps_ret.
  - apply keeps_bind; auto.
Qed.

Lemma keeps_Map {A B} (g : A → M B) v : (∀ x, keeps f (g x)) → keeps f (Map g v).
Proof.
  intros Hg. induction v as [|x v IH]; simpl.
  - apply keeps_ret.
  - apply keeps_bind; [auto|]. intros y.
    apply keeps_bind; [auto|]. intros ys. apply keeps_ret.
Qed.

Lemma keeps_Collect {A B} (g : A → M (list B)) v :
  (∀ x, keeps f (g x)) → keeps f (Collect g v).
Proof.
  intros Hg. induction v as [|x v IH]; simpl.
  - apply keeps_ret.
  - apply keeps_bind; [auto|]. intros y.
    apply keeps_bind; [auto|]. intros ys. apply keeps_ret.
Qed.
End Keeps.

(** [solve_keeps Htrace] proves [keeps f m] by following the structure of
    [m], given that [f] does not read the trace. *)
Ltac solve_keeps Htrace :=
  repeat first
    [ apply keeps_bind; [|intros ?]
    | apply keeps_ret
    | apply keeps_abort
    | apply keeps_gets
    | apply keeps_modify; intros ?; reflexivity
    | apply (keeps_emit _ Htrace)
    | apply keeps_CHECK
    | apply keeps_At
    | apply keeps_deref
    | apply keeps_Iter; intros ?
    | apply keeps_Map; intros ?
    | apply keeps_Collect; intros ?
    | match goal with
      | |- keeps _ (if ?c then _ else _) => destruct c
      | |- keeps _ (match ?c with _ => _ end) => destruct c
      | |- keeps _ (?g _ _ _ _) => unfold g
      | |- keeps _ (?g _ _ _) => unfold g
      | |- keeps _ (?g _ _) => unfold g
      | |- keeps _ (?g _) => unfold g
      | |- keeps _ ?g => unfold g
      end ].

Lemma target_trace s a : target_ (set_trace (λ t, t ++ [a]) s) = target_ s.
Proof. done. Qed.

Lemma DispatcherBody_keeps_target ev : keeps target_ (DispatcherBody ev).
Proof. solve_keeps target_trace. Qed.

(** * Notifying the waiting threads *)

Lemma finish_free_nil : finish_free [].
Proof. constructor. Qed.

Lemma finish_free_app t1 t2 : finish_free t1 → finish_free t2 → finish_free (t1 ++ t2).
Proof. apply Forall_app_2. Qed.

Ltac finish_free_one := by repeat constructor.

Lemma complete_node_notifies n node s del s' :
  complete_node n node s = Ok (del, s') →
  ∃ pre, finish_free pre ∧
    trace s' = trace s ++ pre ++ [ADecYetToFinish; AFinishLock]
      ++ (if decide (num_nodes_yet_to_finish_ s' = 0 ∨ Z.of_N n = target_ s)
          then [ANotifyAll] else [])
      ++ [AFinishUnlock].
Proof.
  intros H.
  assert (target_ s' = target_ s) as Htarget.
  { assert (keeps target_ (complete_node n node)) as Hk by solve_keeps target_trace.
    by eapply Hk. }
  unfold complete_node in H.
  apply bind_Ok in H as ([] & s1 & H1 & H).
  apply bind_Ok in H as (del0 & s2 & H2 & H).
  apply bind_Ok in H as (now & s3 & H3 & H).
  apply bind_Ok in H as ([] & s4 & H4 & H).
  assert (appends finish_free (At_update n (set_state kCompleted))) as A1
    by solve_appends finish_free_nil finish_free_app ltac:(finish_free_one).
  destruct (A1 _ _ _ H1) as (t1 & E1 & F1).
  match type of H2 with ?m s1 = _ =>
    assert (appends finish_free m) as A2
      by solve_appends finish_free_nil finish_free_app ltac:(finish_free_one) end.
  destruct (A2 _ _ _ H2) as (t2 & E2 & F2).
  apply deref_Ok in H3 as (now' & _ & [= -> ->]).
  assert (appends finish_free (Iter trigger_successor (elements (successors_ now')))) as A4
    by solve_appends finish_free_nil finish_free_app ltac:(finish_free_one).
  destruct (A4 _ _ _ H4) as (t4 & E4 & F4).
  exists (t1 ++ t2 ++ t4). split; [by repeat apply finish_free_app|].
  apply bind_Ok in H as ([] & s5 & H5 & H).
  unfold decr_yet_to_finish in H5.
  apply bind_Ok in H5 as ([] & s6 & H6 & H5). apply modify_Ok in H6. injection H6 as ->.
  apply emit_Ok in H5. injection H5 as ->.
  apply bind_Ok in H as ([] & s6 & H6 & H). apply emit_Ok in H6. injection H6 as ->.
  apply bind_Ok in H as (k & s7 & H7 & H). apply gets_Ok in H7. injection H7 as -> ->.
  apply bind_Ok in H as (t & s8 & H8 & H). apply gets_Ok in H8. injection H8 as -> ->.
  apply bind_Ok in H as ([] & s9 & H9 & H).
  apply bind_Ok in H as ([] & s10 & H10 & H). apply emit_Ok in H10. injection H10 as ->.
  apply mret_Ok in H. injection H as -> ->.
  simpl in Htarget, H9. rewrite <- Htarget.
  match type of H9 with (if decide ?P then _ else _) _ = _ =>
    destruct (decide P) as [Hn|Hn] end.
  - apply emit_Ok in H9. injection H9 as ->. simpl.
    rewrite decide_True by done.
    rewrite E4, E2, E1. by rewrite <- !app_assoc.
  - apply mret_Ok in H9. injection H9 as ->. simpl.
    rewrite decide_False by done.
    rewrite E4, E2, E1. by rewrite <- !app_assoc.
Qed.

(** When the dispatcher has handled the event of a completed node, it
    notifies the waiting threads exactly when [num_nodes_yet_to_finish_]
    has come down to 0 or the node is the one a [Wait] is after.  It does so
    holding [finish_mutex_], which it takes after the decrement and while
    it still holds the lock on the node; no other action on the mutex or
    the condition variable happens in the iteration. *)
Theorem completion_notifies_at_zero_or_target (ev : TaskType * N) (node : DagNode)
    (s s' : DagScheduler)
    (Hnode : heap s !! ev.2 = Some node)
    (Harm : ¬ (ev.1 = kToRun ∧ Type_ node = kOpNode))
    (Hrun : DispatcherBody ev s = Ok (tt, s')) :
  ∃ pre to_delete, finish_free pre ∧
    new_trace s s' =
      pre ++ [ADecYetToFinish; AFinishLock]
      ++ (if decide (num_nodes_yet_to_finish_ s' = 0 ∨ Z.of_N ev.2 = target_ s)
          then [ANotifyAll] else [])
      ++ [AFinishUnlock; AUnlock] ++ map ADelete to_delete.
Proof.
  destruct (DispatcherBody_completion ev s s' node Hnode Harm Hrun)
    as (_ & del & sB & HB & HD).
  assert (keeps num_nodes_yet_to_finish_ (Iter Delete del)) as Hk
    by (solve_keeps (λ (s : DagScheduler) (a : Action), eq_refl (num_nodes_yet_to_finish_ s))).
  apply Hk in HD as Hnum. simpl in Hnum.
  apply Iter_Delete_effect in HD as (Htr & _ & _).
  apply complete_node_notifies in HB as (pre & Hfree & Etr).
  exists ([ALock ({[ev.2]} ∪ predecessors_ node ∪ successors_ node)] ++ pre), del.
  split; [apply finish_free_app; [finish_free_one | done]|].
  apply new_trace_app. rewrite Htr. simpl. rewrite Etr. simpl.
  rewrite Hnum.
  destruct (decide (num_nodes_yet_to_finish_ sB = 0 ∨ Z.of_N ev.2 = target_ s));
    simpl; rewrite <- !app_assoc; simpl; rewrite <- ?app_assoc; reflexivity.
Qed.

Lemma completion_notifies_at_zero_or_target_witness :
  ∃ s', DispatcherBody (kToRun, 0%N) chain_a_completing = Ok (tt, s') ∧
        ANotifyAll ∉ new_trace chain_a_completing s'.
Proof.
  exists (after (DispatcherBody (kToRun, 0%N)) chain_a_completing).
  assert (DispatcherBody (kToRun, 0%N) chain_a_completing
          = Ok (tt, after (DispatcherBody (kToRun, 0%N)) chain_a_completing)) as Hrun
    by (vm_compute; reflexivity).
  split; [exact Hrun|].
  destruct (completion_notifies_at_zero_or_target (kToRun, 0%N)
              (mkDagNode {[1%N]} {[3%N]} (DataBody (mkPhysicalData [4] 0%N 0%N 1)))
              chain_a_completing (after (DispatcherBody (kToRun, 0%N)) chain_a_completing)
              eq_refl) as (pre & del & Hfree & Htr);
    [by intros [_ [=]] | exact Hrun |].
  rewrite Htr. rewrite decide_False by (vm_compute; intros [|]; discriminate).
  intros Hin. rewrite !elem_of_app in Hin.
  destruct Hin as [Hin|[Hin|[Hin|[Hin|Hin]]]].
  - eapply Forall_forall in Hfree; [|exact Hin]. discriminate.
  - apply list_elem_of_In in Hin. simpl in Hin. intuition discriminate.
  - by apply elem_of_nil in Hin.
  - apply list_elem_of_In in Hin. simpl in Hin. intuition discriminate.
  - apply list_elem_of_fmap in Hin as (? & [=] & _).
Defined.

(** * Dispatching a task *)

Lemma Map_task_data l : ∀ s r s',
  Map (λ n, d ← as_data_node n; mret (d, n)) l s = Ok (r, s') →
  s' = s ∧ map snd r = l ∧ ∀ d k, (d, k) ∈ r → data_at s k = Some d.
Proof.
  induction l as [|n l IH]; intros s r s' H; simpl in H.
  - apply mret_Ok in H. injection H as -> ->. split_and!; try done.
    intros d k Hin. by apply elem_of_nil in Hin.
  - apply bind_Ok in H as (y & s1 & H1 & H).
    apply bind_Ok in H1 as (d & s2 & H2 & H1).
    apply mret_Ok in H1. injection H1 as -> ->.
    unfold as_data_node in H2.
    apply bind_Ok in H2 as (x0 & s3 & H3 & H2).
    apply deref_Ok in H3 as (x & Hx & [= -> ->]).
    destruct (body x) as [d'|] eqn:Hbody; [|by apply abort_Ok in H2].
    apply mret_Ok in H2. injection H2 as -> ->.
    apply bind_Ok in H as (ys & s2 & H2 & H).
    apply mret_Ok in H. injection H as -> ->.
    destruct (IH _ _ _ H2) as (-> & Hmap & Hall).
    split_and!; [done | simpl; by rewrite Hmap |].
    intros d k [[= -> ->]|Hin]%elem_of_cons; [|auto].
    unfold data_at. by rewrite Hx; simpl; rewrite Hbody.
Qed.

(** When the dispatcher takes the [kToRun] event of an op node, it pushes
    to the device of the op one task that carries the op, the id of the
    node and, in the order the op node lists them, the inputs and the
    outputs, each with the data descriptor of its node.  It does this under
    the lock on the node and its neighbours, and changes nothing in the
    scheduler. *)
Theorem dispatch_hands_task_to_device (n : N) (node : DagNode) (o : PhysicalOp)
    (ins outs : list N) (s s' : DagScheduler)
    (Hnode : heap s !! n = Some node) (Hbody : body node = OpBody o ins outs)
    (Hrun : DispatcherBody (kToRun, n) s = Ok (tt, s')) :
  ∃ tin tout,
    new_trace s s' = [ALock ({[n]} ∪ predecessors_ node ∪ successors_ node);
                      APushTask (op_device_id o) (mkTask tin tout o n); AUnlock] ∧
    forget_trace s' = forget_trace s ∧
    map snd tin = ins ∧ map snd tout = outs ∧
    ∀ d k, (d, k) ∈ tin ++ tout → data_at s k = Some d.
Proof.
  unfold DispatcherBody in Hrun. cbn [fst snd] in Hrun.
  apply bind_Ok in Hrun as (node0 & sa & Ha & H).
  unfold GetNode in Ha. apply bind_Ok in Ha as (idx & sb & Hb & Ha).
  apply gets_Ok in Hb. injection Hb as -> ->.
  destruct (decide (n ∈ index_to_node_ s)) as [Hidx|]; [|by apply abort_Ok in Ha].
  apply deref_Ok in Ha as (? & Hnode' & [= -> ->]).
  rewrite Hnode in Hnode'. injection Hnode' as <-.
  apply bind_Ok in H as (del & s3 & H3 & H).
  apply bind_Ok in H3 as ([] & sL & HL & H3).
  rewrite (MultiNodeLock_eq _ _ _ Hnode) in HL. injection HL as <-.
  apply bind_Ok in H3 as (ri & sc & Hc & H3).
  apply At_Ok in Hc as (? & Hri & [= -> ->]).
  apply bind_Ok in H3 as (del' & sB & HB & H3).
  rewrite decide_True in HB by (split; [done | unfold Type_; by rewrite Hbody]).
  apply bind_Ok in HB as ([] & sd & Hd & HB). apply mret_Ok in HB. injection HB as -> ->.
  unfold dispatch_op_node in Hd. rewrite Hbody in Hd.
  apply bind_Ok in Hd as (tin & se & He & Hd). apply Map_task_data in He as (-> & Hin & Hdin).
  apply bind_Ok in Hd as (tout & sf & Hf & Hd). apply Map_task_data in Hf as (-> & Hout & Hdout).
  apply emit_Ok in Hd. injection Hd as ->.
  apply bind_Ok in H3 as ([] & sg & Hg & H3). apply emit_Ok in Hg. injection Hg as ->.
  apply mret_Ok in H3. injection H3 as -> ->.
  simpl in H. apply mret_Ok in H. injection H as ->.
  exists tin, tout. split_and!; try done.
  - apply new_trace_app. simpl. by rewrite <- !app_assoc.
  - intros d k [Hk|Hk]%elem_of_app; [by apply Hdin | by apply Hdout].
Qed.

Lemma dispatch_hands_task_to_device_witness :
  ∃ s' tin tout,
    DispatcherBody (kToRun, 3%N) (set_queue (λ _, []) chain_a_completed) = Ok (tt, s') ∧
    new_trace (set_queue (λ _, []) chain_a_completed) s'
      = [ALock {[3%N; 0%N; 2%N]}; APushTask 0%N (mkTask tin tout (mkPhysicalOp 8%N 0%N) 3%N);
         AUnlock] ∧
    map snd tin = [0%N] ∧ map snd tout = [2%N].
Proof.
  set (s := set_queue (λ _, []) chain_a_completed).
  exists (after (DispatcherBody (kToRun, 3%N)) s).
  assert (DispatcherBody (kToRun, 3%N) s = Ok (tt, after (DispatcherBody (kToRun, 3%N)) s))
    as Hrun by (vm_compute; reflexivity).
  destruct (dispatch_hands_task_to_device 3%N
              (mkDagNode {[0%N]} {[2%N]} (OpBody (mkPhysicalOp 8%N 0%N) [0%N] [2%N]))
              (mkPhysicalOp 8%N 0%N) [0%N] [2%N] s _ eq_refl eq_refl Hrun)
    as (tin & tout & Htr & _ & Hin & Hout & _).
  exists tin, tout. split_and!; done.
Defined.

(** * What holds between the calls *)

(** Between the calls of the scheduler, the runtime-info map has an entry
    for exactly the nodes of the DAG, the node objects that are allocated
    are exactly those of the DAG (a node taken out of the DAG is deleted
    before the call returns), and every edge of a DAG node leads to a DAG
    node that records the edge from its own end. *)
Theorem runtime_info_tracks_dag (s : DagScheduler) (Hreach : reachable s) :
  dom (rt_info_ s) = index_to_node_ s ∧ dom (heap s) = index_to_node_ s ∧
  (∀ k p, k ∈ index_to_node_ s → p ∈ preds_at s k →
     p ∈ index_to_node_ s ∧ k ∈ succs_at s p) ∧
  (∀ k x, k ∈ index_to_node_ s → x ∈ succs_at s k →
     x ∈ index_to_node_ s ∧ k ∈ preds_at s x).
Proof.
  apply reachable_Inv in Hreach as HG. split_and!.
  - apply (g_rt_dom _ _ _ HG).
  - rewrite (g_heap_dom _ _ _ HG). set_solver.
  - apply (g_preds _ _ _ HG).
  - apply (g_succs _ _ _ HG).
Qed.

Lemma runtime_info_tracks_dag_witness :
  dom (rt_info_ chain_a_completed) = index_to_node_ chain_a_completed ∧
  dom (heap chain_a_completed) = index_to_node_ chain_a_completed.
Proof.
  destruct (runtime_info_tracks_dag chain_a_completed chain_a_completed_reachable)
    as (H1 & H2 & _). by split.
Defined.

(** Every event that waits in the dispatcher queue names a node of the DAG
    whose node object and runtime-info entry exist, in state [kReady]: the
    look-ups at the top of the dispatcher loop succeed.  No node has two
    events of the same kind in the queue. *)
Theorem queued_events_name_live_nodes (s : DagScheduler) (Hreach : reachable s) :
  NoDup (torun_ids (dispatcher_queue_ s)) ∧
  NoDup (tocomplete_ids (dispatcher_queue_ s)) ∧
  ∀ ev, ev ∈ dispatcher_queue_ s →
    ∃ node ri, GetNode ev.2 s = Ok (node, s) ∧ At ev.2 s = Ok (ri, s) ∧
               state ri = kReady.
Proof.
  apply reachable_Inv in Hreach as HG. split_and!.
  - pose proof (g_nodup _ _ _ HG) as Hnd. by apply NoDup_app in Hnd as (_ & _ & ?).
  - apply (g_nodup_complete _ _ _ HG).
  - intros ev Hev. destruct (g_queue _ _ _ HG ev Hev) as [Hidx Hst].
    destruct (in_index_has_node _ _ _ _ HG Hidx) as [node Hnode].
    unfold state_at in Hst.
    destruct (rt_info_ s !! ev.2) as [ri|] eqn:Hri; [|done].
    exists node, ri. split_and!.
    + by apply GetNode_eq.
    + by apply At_eq.
    + simpl in Hst. by injection Hst.
Qed.

Lemma queued_events_name_live_nodes_witness :
  ∃ node ri, GetNode 3%N chain_a_completed = Ok (node, chain_a_completed) ∧
             At 3%N chain_a_completed = Ok (ri, chain_a_completed) ∧ state ri = kReady.
Proof.
  destruct (queued_events_name_live_nodes chain_a_completed chain_a_completed_reachable)
    as (_ & _ & Hq).
  apply (Hq (kToRun, 3%N)). left.
Defined.

(** A node whose task is on a device (pushed, and not yet reported
    complete) stays in the DAG, in state [kReady], and so do its
    predecessors and successors: nothing the task reads or writes is
    reclaimed while it runs. *)
Theorem running_task_keeps_its_nodes (s : DagScheduler) (Hreach : reachable s) :
  ∀ k, k ∈ pushed_ids (trace s) → k ∉ reported_ids (trace s) →
    k ∈ index_to_node_ s ∧ state_at s k = Some kReady ∧
    (∀ p, p ∈ preds_at s k → p ∈ index_to_node_ s ∧ state_at s p = Some kCompleted) ∧
    (∀ x, x ∈ succs_at s k → x ∈ index_to_node_ s).
Proof.
  apply reachable_Inv in Hreach as HG. intros k Hpushed Hrep.
  destruct (g_running _ _ _ HG k Hpushed Hrep) as [Hidx Hst].
  split_and!; try done.
  - intros p Hp. split; [by apply (g_preds _ _ _ HG k p)|].
    apply (g_activated _ _ _ HG k p); [by left | done | done].
  - intros x Hx. by apply (g_succs _ _ _ HG k x).
Qed.

Lemma chain_op0_pushed_reachable : reachable chain_op0_pushed.
Proof.
  exists empty_scheduler. split; [by repeat split|].
  eapply rtc_l; [apply (step_Create [] [[4]] 7%N _ [DagChunk 0%N] one_op_created); run_step|].
  eapply rtc_l;
    [apply (step_Create [DagChunk 0%N] [[4]] 8%N _ [DagChunk 2%N] chain_created); run_step|].
  eapply rtc_l; [apply (step_Dispatcher _ chain_op0_pushed); run_step|].
  apply rtc_refl.
Qed.

Lemma running_task_keeps_its_nodes_witness :
  1%N ∈ index_to_node_ chain_op0_pushed ∧ state_at chain_op0_pushed 1 = Some kReady.
Proof.
  destruct (running_task_keeps_its_nodes chain_op0_pushed chain_op0_pushed_reachable 1%N)
    as (H1 & H2 & _).
  - apply list_elem_of_In. vm_compute. tauto.
  - intros Hin%list_elem_of_In. vm_compute in Hin. tauto.
  - by split.
Defined.

(** The [num_triggers_needed] of a DAG node that is not [kCompleted] is at
    least the number of its predecessors that are not [kCompleted]: the
    count cannot reach 0 while an input is outstanding. *)
Theorem triggers_cover_outstanding_inputs (s : DagScheduler) (Hreach : reachable s) :
  ∀ k, k ∈ index_to_node_ s → state_at s k ≠ Some kCompleted →
    Z.of_nat (size (open_preds s k)) ≤ triggers_at s k.
Proof.
  apply reachable_Inv in Hreach as HG. intros k Hk Hst.
  pose proof (g_triggers _ _ _ HG k Hk Hst) as H.
  rewrite decide_False in H by set_solver. lia.
Qed.

Lemma triggers_cover_outstanding_inputs_witness :
  Z.of_nat (size (open_preds chain_op0_pushed 3)) ≤ triggers_at chain_op0_pushed 3.
Proof.
  apply (triggers_cover_outstanding_inputs chain_op0_pushed chain_op0_pushed_reachable 3%N).
  - apply (bool_decide_unpack _). vm_compute. exact I.
  - vm_compute. discriminate.
Defined.

(** * The counters of an edge *)

Lemma GetState_eq n s ri : rt_info_ s !! n = Some ri → GetState n s = Ok (state ri, s).
Proof. intros Hri. unfold GetState. by rewrite (bind_eq _ _ _ _ _ (At_eq _ _ _ Hri)). Qed.

Lemma OnCreateEdge_effect (from to : N) (rf rt : RuntimeInfo) (s : DagScheduler)
    (Hfrom : rt_info_ s !! from = Some rf) (Hto : rt_info_ s !! to = Some rt) :
  if decide (state rt = kReady) then
    ∃ s', OnCreateEdge from to s = Ok (tt, s') ∧
      rc_at s' from = Some (reference_count rf + 1) ∧
      triggers_at s' to
        = num_triggers_needed rt + (if decide (state rf = kCompleted) then 0 else 1) ∧
      (∀ k, state_at s' k = state_at s k) ∧
      (∀ k, k ≠ from → rc_at s' k = rc_at s k) ∧
      (∀ k, k ≠ to → triggers_at s' k = triggers_at s k) ∧
      heap s' = heap s ∧ index_to_node_ s' = index_to_node_ s ∧
      dispatcher_queue_ s' = dispatcher_queue_ s ∧
      num_nodes_yet_to_finish_ s' = num_nodes_yet_to_finish_ s
  else OnCreateEdge from to s = Abort (CheckFailed "invalid state of node").
Proof.
  unfold OnCreateEdge. rewrite (bind_eq _ _ _ _ _ (GetState_eq _ _ _ Hto)).
  destruct (decide (state rt = kReady)) as [Hready|Hready].
  2:{ rewrite bool_decide_eq_false_2 by done. reflexivity. }
  rewrite bool_decide_eq_true_2 by done.
  erewrite bind_eq by reflexivity.
  rewrite (bind_eq _ _ _ _ _ (At_update_eq _ _ _ _ Hfrom)).
  set (s1 := set_trace (λ t, t ++ [ARtWrite from])
               (set_rt_info (alter (add_reference_count 1) from) s)).
  assert (rt_info_ s1 !! from = Some (add_reference_count 1 rf)) as Hfrom1
    by (simpl; by rewrite lookup_alter_eq, Hfrom).
  rewrite (bind_eq _ _ _ _ _ (GetState_eq _ _ _ Hfrom1)).
  change (state (add_reference_count 1 rf)) with (state rf).
  assert (∀ k, state_at s1 k = state_at s k) as Hst1.
  { intros k. unfold state_at. simpl. destruct (decide (k = from)) as [->|Hne].
    - rewrite lookup_alter_eq, Hfrom. done.
    - by rewrite lookup_alter_ne. }
  assert (∀ k, triggers_at s1 k = triggers_at s k) as Htr1.
  { intros k. unfold triggers_at. simpl. destruct (decide (k = from)) as [->|Hne].
    - rewrite lookup_alter_eq, Hfrom. done.
    - by rewrite lookup_alter_ne. }
  assert (rc_at s1 from = Some (reference_count rf + 1)) as Hrc1
    by (unfold rc_at; by rewrite Hfrom1).
  assert (triggers_at s to = num_triggers_needed rt) as Htto
    by (unfold triggers_at; by rewrite Hto).
  destruct (decide (state rf ≠ kCompleted)) as [Hc|Hc].
  - assert (∃ rt1, rt_info_ s1 !! to = Some rt1 ∧
                   num_triggers_needed rt1 = num_triggers_needed rt) as (rt1 & Hto1 & Hn1).
    { destruct (decide (to = from)) as [->|Hne].
      - exists (add_reference_count 1 rf). split; [done|].
        rewrite Hfrom in Hto. by injection Hto as ->.
      - exists rt. split; [|done]. unfold s1. simpl. by rewrite lookup_alter_ne. }
    rewrite (At_update_eq _ _ _ _ Hto1).
    eexists. split; [reflexivity|].
    rewrite decide_False by done.
    repeat match goal with |- context [rc_at (set_trace ?f ?x)] =>
      change (rc_at (set_trace f x)) with (rc_at x) end.
    split_and!; try done.
    + by rewrite rc_at_alter_triggers.
    + unfold triggers_at.
      change (from_option num_triggers_needed 0
                (alter (add_num_triggers_needed 1) to (rt_info_ s1) !! to)
              = num_triggers_needed rt + 1).
      rewrite lookup_alter_eq, Hto1. simpl. lia.
    + intros k. rewrite <- Hst1. unfold state_at.
      change (state <$> alter (add_num_triggers_needed 1) to (rt_info_ s1) !! k
              = state <$> rt_info_ s1 !! k).
      destruct (decide (k = to)) as [->|Hne].
      * rewrite lookup_alter_eq. by destruct (rt_info_ s1 !! to).
      * by rewrite lookup_alter_ne.
    + intros k Hk. rewrite rc_at_alter_triggers. by apply rc_at_alter_ne.
    + intros k Hk. rewrite <- Htr1. unfold triggers_at.
      change (from_option num_triggers_needed 0
                (alter (add_num_triggers_needed 1) to (rt_info_ s1) !! k)
              = from_option num_triggers_needed 0 (rt_info_ s1 !! k)).
      by rewrite lookup_alter_ne.
  - eexists. split; [reflexivity|].
    assert (state rf = kCompleted) as Hcomp
      by (destruct (decide (state rf = kCompleted)); [done|by destruct Hc]).
    rewrite decide_True by done.
    split_and!; try done.
    + rewrite Htr1, Htto. lia.
    + intros k Hk. unfold s1.
      change (rc_at (set_rt_info (alter (add_reference_count 1) from) s) k = rc_at s k).
      by apply rc_at_alter_ne.
Qed.

(** [OnCreateEdge (from, to)] is fatal unless [to] is [kReady].  Otherwise
    it adds 1 to the [reference_count] of [from], and adds 1 to the
    [num_triggers_needed] of [to] unless [from] is already [kCompleted];
    no state and no other counter changes. *)
Theorem OnCreateEdge_counts (from to : N) (rf rt : RuntimeInfo) (s : DagScheduler)
    (Hfrom : rt_info_ s !! from = Some rf) (Hto : rt_info_ s !! to = Some rt) :
  if decide (state rt = kReady) then
    ∃ s', OnCreateEdge from to s = Ok (tt, s') ∧
      rc_at s' from = Some (reference_count rf + 1) ∧
      triggers_at s' to
        = num_triggers_needed rt + (if decide (state rf = kCompleted) then 0 else 1) ∧
      (∀ k, state_at s' k = state_at s k) ∧
      (∀ k, k ≠ from → rc_at s' k = rc_at s k) ∧
      (∀ k, k ≠ to → triggers_at s' k = triggers_at s k) ∧
      heap s' = heap s ∧ index_to_node_ s' = index_to_node_ s ∧
      dispatcher_queue_ s' = dispatcher_queue_ s ∧
      num_nodes_yet_to_finish_ s' = num_nodes_yet_to_finish_ s
  else OnCreateEdge from to s = Abort (CheckFailed "invalid state of node").
Proof. exact (OnCreateEdge_effect from to rf rt s Hfrom Hto). Qed.

Lemma OnCreateEdge_counts_witness :
  ∃ s', OnCreateEdge 0%N 3%N chain_a_completed = Ok (tt, s') ∧
        rc_at s' 0 = Some 2 ∧ triggers_at s' 3 = 0.
Proof.
  destruct (OnCreateEdge_counts 0%N 3%N (mkRuntimeInfo kCompleted 1 0)
              (mkRuntimeInfo kReady 1 0) chain_a_completed eq_refl eq_refl)
    as (s' & Hrun & Hrc & Htr & _).
  exists s'. split_and!; done.
Defined.

(** * [Create] *)

Lemma new_result_nodes_total dev sizes : ∀ s,
  ∃ ids sa, new_result_nodes dev sizes s = Ok (ids, sa).
Proof.
  unfold new_result_nodes. induction sizes as [|sz sizes IH]; intros s; simpl.
  - by eexists _, _.
  - erewrite bind_eq by reflexivity.
    edestruct IH as (ids & sa & Hrun).
    erewrite bind_eq by exact Hrun. by eexists _, _.
Qed.

Lemma register_nodes_total ids : ∀ s, ∃ sb, Iter OnCreateNode ids s = Ok (tt, sb).
Proof.
  induction ids as [|n ids IH]; intros s; simpl.
  - by eexists.
  - erewrite bind_eq by reflexivity. apply IH.
Qed.

Lemma param_nodes_foreign params : ∀ s,
  ForeignChunk ∈ params → param_nodes params s = Abort CheckNotNull.
Proof.
  unfold param_nodes. induction params as [|c params IH]; intros s Hin; simpl.
  - by apply elem_of_nil in Hin.
  - destruct c as [n|]; [|done].
    apply elem_of_cons in Hin as [?|Hin]; [done|].
    erewrite bind_eq by reflexivity.
    apply bind_Abort. left. by apply IH.
Qed.

(** [Create] is fatal as soon as one of the input handles is not a
    [DagChunk], whatever the state of the scheduler and whatever the other
    arguments. *)
Theorem Create_aborts_on_foreign_handle (params : list BackendChunk)
    (result_sizes : list Scale) (fn : ComputeFn) (s : DagScheduler)
    (Hforeign : ForeignChunk ∈ params) :
  Create params result_sizes fn s = Abort CheckNotNull.
Proof.
  unfold Create. erewrite bind_eq by reflexivity.
  destruct (new_result_nodes_total (current_device_id_ s) result_sizes s) as (ids & sa & Ha).
  unfold new_result_nodes in Ha. rewrite (bind_eq _ _ _ _ _ Ha).
  destruct (register_nodes_total ids sa) as (sb & Hb).
  rewrite (bind_eq _ _ _ _ _ Hb).
  apply bind_Abort. left. by apply (param_nodes_foreign params sb).
Qed.

Lemma Create_aborts_on_foreign_handle_witness :
  Create [DagChunk 0%N; ForeignChunk] [[4]] 8%N one_op_created = Abort CheckNotNull.
Proof.
  apply Create_aborts_on_foreign_handle. right. left.
Defined.

Lemma result_ids_S s k :
  result_ids s (S k)
  = next_node_id s :: map (λ i, (N.succ (next_node_id s) + N.of_nat i)%N) (seq 0 k).
Proof.
  unfold result_ids. cbn [seq map]. f_equal; [lia|].
  rewrite <- seq_shift, map_map. apply map_ext. intros i. lia.
Qed.

Lemma new_result_nodes_ids dev sizes : ∀ s ids sa,
  new_result_nodes dev sizes s = Ok (ids, sa) →
  ids = result_ids s (length sizes) ∧
  next_node_id sa = (next_node_id s + N.of_nat (length sizes))%N.
Proof.
  unfold new_result_nodes.
  induction sizes as [|sz sizes IH]; intros s ids sa H; simpl in H.
  - apply mret_Ok in H. injection H as -> ->. split; [done|]. simpl. lia.
  - apply bind_Ok in H as (n & s1 & H1 & H).
    apply bind_Ok in H as (ns & s2 & H2 & H).
    apply mret_Ok in H. injection H as -> ->.
    destruct (IH _ _ _ H2) as [-> Hnext].
    unfold GenerateDataId, NewDataNode in H1. inv_M H1.
    simpl in Hnext. split.
    + rewrite result_ids_S. done.
    + rewrite Hnext. cbn [length]. lia.
Qed.

Lemma result_ids_NoDup s k : NoDup (result_ids s k).
Proof.
  unfold result_ids. apply NoDup_fmap_2; [|apply NoDup_seq].
  intros i j Hij. lia.
Qed.

Lemma elem_of_result_ids s k r :
  r ∈ result_ids s k ↔ (next_node_id s ≤ r < next_node_id s + N.of_nat k)%N.
Proof.
  unfold result_ids. rewrite list_elem_of_fmap. split.
  - intros (i & -> & Hi). apply elem_of_seq in Hi. lia.
  - intros Hr. exists (N.to_nat (r - next_node_id s)). split; [lia|].
    apply elem_of_seq. lia.
Qed.

Lemma filter_eq_length_one (j : N) (ids : list N) :
  NoDup ids → j ∈ ids → length (filter (λ d, d = j) ids) = 1%nat.
Proof.
  induction 1 as [|x l Hx Hnd IH]; intros Hj; [by apply elem_of_nil in Hj|].
  rewrite filter_cons. destruct (decide (x = j)) as [->|Hne].
  - cbn [length]. by rewrite filter_eq_length_zero.
  - apply elem_of_cons in Hj as [->|Hj]; [done|]. by apply IH.
Qed.

Lemma filter_ext_in {A} (P Q : A → Prop) `{!∀ x, Decision (P x)} `{!∀ x, Decision (Q x)}
    (l : list A) :
  (∀ x, x ∈ l → P x ↔ Q x) → filter P l = filter Q l.
Proof.
  induction l as [|x l IH]; intros Hext; [done|].
  rewrite !filter_cons.
  assert (filter P l = filter Q l) as -> by (apply IH; intros y Hy; apply Hext; by right).
  destruct (decide (P x)) as [HP|HP], (decide (Q x)) as [HQ|HQ]; try done.
  - exfalso. apply HQ, Hext; [left|done].
  - exfalso. apply HP, Hext; [left|done].
Qed.

Lemma count_sources_into (op j : N) (ps : list N) :
  length (filter (λ e : N * N, e.1 = j) (map (λ p, (p, op)) ps))
  = length (filter (λ q, q = j) ps).
Proof.
  induction ps as [|p ps IH]; [done|].
  cbn [map]. rewrite !filter_cons. simpl.
  destruct (decide (p = j)); cbn [length]; by rewrite IH.
Qed.

Lemma count_sources_from (op j : N) (ids : list N) :
  length (filter (λ e : N * N, e.1 = j) (map (λ d, (op, d)) ids))
  = if decide (op = j) then length ids else 0%nat.
Proof.
  induction ids as [|d ids IH]; [by case_decide|].
  cbn [map]. rewrite !filter_cons. simpl.
  destruct (decide (op = j)); cbn [length]; by rewrite IH.
Qed.

Lemma OnCreateEdge_rc_from u v s s' j :
  OnCreateEdge u v s = Ok (tt, s') →
  rc_at s' j = (λ x, x + (if decide (u = j) then 1 else 0)) <$> rc_at s j.
Proof.
  intros H. destruct (decide (u = j)) as [->|Hne].
  2:{ rewrite (OnCreateEdge_rc _ _ _ _ _ H) by done.
      unfold rc_at. destruct (rt_info_ s !! j); simpl; [f_equal; lia|done]. }
  unfold OnCreateEdge in H.
  apply bind_Ok in H as (st & sa & Ha & H). inv_M Ha.
  apply bind_Ok in H as ([] & sb & Hb & H). inv_M Hb.
  apply bind_Ok in H as ([] & sc & Hc & H). inv_M Hc.
  apply bind_Ok in H as (st' & sd & Hd & H). inv_M Hd.
  match goal with Hr : rt_info_ s !! j = Some ?x |- _ => rename Hr into Hj end.
  assert (rc_at (set_rt_info (alter (add_reference_count 1) j) s) j
          = (λ x, x + 1) <$> rc_at s j) as Hrc.
  { unfold rc_at. simpl. rewrite lookup_alter_eq. by destruct (rt_info_ s !! j). }
  match type of H with (if decide ?P then _ else _) _ = _ =>
    destruct (decide P) end; inv_M H.
  - change (rc_at (set_rt_info (alter (add_num_triggers_needed 1) v)
                     (set_rt_info (alter (add_reference_count 1) j) s)) j
            = (λ x, x + 1) <$> rc_at s j).
    by rewrite rc_at_alter_triggers.
  - exact Hrc.
Qed.

Lemma create_edges_rc es : ∀ s s' j,
  Iter (λ e : N * N, OnCreateEdge e.1 e.2) es s = Ok (tt, s') →
  rc_at s' j = (λ x, x + Z.of_nat (length (filter (λ e : N * N, e.1 = j) es))) <$> rc_at s j.
Proof.
  induction es as [|[u v] es IH]; intros s s' j H; simpl in H.
  - apply mret_Ok in H. injection H as ->. simpl.
    unfold rc_at. destruct (rt_info_ s !! j); simpl; [f_equal; lia|done].
  - apply bind_Ok in H as ([] & s1 & H1 & H).
    rewrite (IH _ _ j H), (OnCreateEdge_rc_from _ _ _ _ j H1).
    rewrite filter_cons. simpl.
    destruct (rc_at s j); simpl; [|done]. f_equal.
    destruct (decide (u = j)); cbn [length]; lia.
Qed.

Lemma num_trace s a :
  num_nodes_yet_to_finish_ (set_trace (λ t, t ++ [a]) s) = num_nodes_yet_to_finish_ s.
Proof. done. Qed.

Lemma Create_effect params sizes fn s ret s' :
  Inv s → (∀ p, DagChunk p ∈ params → p ∈ index_to_node_ s) →
  Create params sizes fn s = Ok (ret, s') →
  ∃ ps, params = map DagChunk ps ∧ (∀ p, p ∈ ps → p ∈ index_to_node_ s) ∧
    let ids := result_ids s (length sizes) in
    let op := (next_node_id s + N.of_nat (length sizes))%N in
    ret = map DagChunk ids ∧
    index_to_node_ s' = index_to_node_ s ∪ (list_to_set ids ∪ {[op]}) ∧
    (state_at s' op = Some kReady ∧ rc_at s' op = Some (Z.of_nat (length sizes)) ∧
     triggers_at s' op = Z.of_nat (length (pending_inputs s ps))) ∧
    (∀ r, r ∈ ids →
       state_at s' r = Some kReady ∧ rc_at s' r = Some 0 ∧ triggers_at s' r = 1) ∧
    (∀ k, k ∈ index_to_node_ s →
       state_at s' k = state_at s k ∧ triggers_at s' k = triggers_at s k ∧
       rc_at s' k = (λ x, x + occurrences k ps) <$> rc_at s k) ∧
    (if decide (pending_inputs s ps = [])
     then dispatcher_queue_ s' = dispatcher_queue_ s ++ [(kToRun, op)] ∧
          num_nodes_yet_to_finish_ s' = num_nodes_yet_to_finish_ s + 1
     else dispatcher_queue_ s' = dispatcher_queue_ s ∧
          num_nodes_yet_to_finish_ s' = num_nodes_yet_to_finish_ s).
Proof.
  intros HG Hlive H.
  apply Create_phases in H
    as (ids & ps & sa & sb & sc & cover & op & se & sf & sg & sh & si &
        Ha & Hb & Hparams & Hc & Hd & He & Hf & Hg & Hh & Hi & ->).
  exists ps. split; [done|].
  (* the counter of unfinished work up to [ProcessIfReady] *)
  assert (num_nodes_yet_to_finish_ sh = num_nodes_yet_to_finish_ s) as Hnum.
  { assert (keeps num_nodes_yet_to_finish_ (new_result_nodes (current_device_id_ s) sizes))
      as Ka by solve_keeps num_trace.
    assert (keeps num_nodes_yet_to_finish_ (Iter OnCreateNode ids))
      as Kb by solve_keeps num_trace.
    assert (keeps num_nodes_yet_to_finish_ (Map new_DagChunk ids))
      as Kc by solve_keeps num_trace.
    assert (keeps num_nodes_yet_to_finish_ (NewOpNode ps ids (mkPhysicalOp fn 0)))
      as Ke by solve_keeps num_trace.
    assert (keeps num_nodes_yet_to_finish_ (OnCreateNode op))
      as Kf by solve_keeps num_trace.
    assert (keeps num_nodes_yet_to_finish_ (Iter (λ n, OnCreateEdge n op) ps))
      as Kg by solve_keeps num_trace.
    assert (keeps num_nodes_yet_to_finish_ (Iter (λ n, OnCreateEdge op n) ids))
      as Kh by solve_keeps num_trace.
    rewrite (Kh _ _ _ Hh), (Kg _ _ _ Hg), (Kf _ _ _ Hf). simpl.
    rewrite (Ke _ _ _ He). simpl.
    by rewrite (Kc _ _ _ Hc), (Kb _ _ _ Hb), (Ka _ _ _ Ha). }
  pose proof (new_result_nodes_ids _ _ _ _ _ Ha) as [Hids_eq Hnext_a].
  open_GInv HG.
  assert (Hdi : dom (heap s) = index_to_node_ s) by (rewrite Ghd; set_solver).
  apply new_data_nodes_views in Ha as (Hn_a & Hids & Hf_a & Hd_a & Hi_a & Hv_a & Hr_a & Hq_a);
    [|done].
  apply register_nodes_views in Hb as ((Hh_b & Hi_b & Hn_b & Hq_b) & Hd_b & Hout_b & Hin_b).
  apply new_handles_views in Hc as (Hret & Hd_c & Hi_c & Hn_c & Hv_c & Hr_c & Hq_c).
  apply MultiNodeLock_vec_views in Hd as [Hps _].
  set (sd := set_trace (λ t, t ++ [ALock cover]) sc) in *.
  assert (Hq_d : quiet_step sc sd) by solve_quiet_step.
  apply NewOpNode_views in He as (Hop & Hn_e & Hinout & Hd_e & Hi_e & [Hr_e Hq_e] & Hp_e & Hs_e);
    [|(intros k Hk; change (dom (heap sd)) with (dom (heap sc)) in Hk;
       change (next_node_id sd) with (next_node_id sc);
       rewrite Hd_c, Hh_b in Hk; rewrite Hn_c, Hn_b; by apply Hf_a)].
  change (next_node_id sd) with (next_node_id sc) in *.
  change (dom (heap sd)) with (dom (heap sc)) in *.
  change (index_to_node_ sd) with (index_to_node_ sc) in *.
  change (rt_info_ sd) with (rt_info_ sc) in *.
  set (se' := set_trace (λ t, t ++ [ASetDevice op])
                (set_heap (alter (set_op_device_id (current_device_id_ s)) op) se)) in *.
  assert (Hq_e' : quiet_step se se') by solve_quiet_step.
  apply OnCreateNode_views in Hf as ((Hh_f & Hi_f & Hn_f & Hq_f) & Hr_f).
  change (rt_info_ se') with (rt_info_ se) in Hr_f.
  change (index_to_node_ se') with (index_to_node_ se) in Hi_f.
  rewrite <- (Iter_map (λ e : N * N, OnCreateEdge e.1 e.2) (λ n, (n, op))) in Hg.
  rewrite <- (Iter_map (λ e : N * N, OnCreateEdge e.1 e.2) (λ n, (op, n))) in Hh.
  pose proof (λ j, create_edges_rc _ _ _ j Hg) as Hrc_g.
  pose proof (λ j, create_edges_rc _ _ _ j Hh) as Hrc_h.
  apply create_edges_views in Hg as ((Hh_g & Hi_g & Hn_g & Hq_g) & Hd_g & Hes_g & Hst_g & Htr_g).
  apply create_edges_views in Hh as ((Hh_h & Hi_h & Hn_h & Hq_h) & Hd_h & Hes_h & Hst_h & Htr_h).
  assert (Hopn : op = (next_node_id s + N.of_nat (length sizes))%N) by congruence.
  assert (Hold : ∀ j, j ∈ dom (heap s) → (j ∉ ids) ∧ j ≠ op).
  { intros j Hj. apply Gfr in Hj. split.
    - intros Hd. apply Hids in Hd. lia.
    - lia. }
  assert (Hop_ids : op ∉ ids) by (intros Hd; apply Hids in Hd; lia).
  assert (Vidx : index_to_node_ sh = index_to_node_ s ∪ (list_to_set ids ∪ {[op]})).
  { rewrite Hi_h, Hi_g, Hi_f, Hi_e, Hi_c, Hi_b, Hi_a. set_solver. }
  assert (Hrt_b : ∀ j, rt_info_ sb !! j =
            if decide (j ∈ ids) then Some (mkRuntimeInfo kReady 0 0) else rt_info_ s !! j).
  { intros j. case_decide; [by apply Hin_b|]. rewrite Hout_b by done. by rewrite Hr_a. }
  assert (Hrt_f : ∀ j, rt_info_ sf !! j =
            if decide (j = op) then Some (mkRuntimeInfo kReady 0 0) else rt_info_ sb !! j).
  { intros j. rewrite Hr_f, Hr_e, Hr_c. case_decide as Hj.
    - subst j. by rewrite lookup_insert_eq.
    - by rewrite lookup_insert_ne. }
  assert (Vstate_f : ∀ j, state_at sf j =
            if decide (j = op ∨ j ∈ ids) then Some kReady else state_at s j).
  { intros j. unfold state_at. rewrite Hrt_f, Hrt_b.
    destruct (decide (j = op)), (decide (j ∈ ids)); simpl;
      (rewrite decide_True by tauto) || (rewrite decide_False by tauto); done. }
  assert (Vstate : ∀ j, state_at sh j =
            if decide (j = op ∨ j ∈ ids) then Some kReady else state_at s j).
  { intros j. by rewrite Hst_h, Hst_g. }
  assert (Vtrig_f : ∀ j, triggers_at sf j =
            if decide (j = op ∨ j ∈ ids) then 0 else triggers_at s j).
  { intros j. unfold triggers_at. rewrite Hrt_f, Hrt_b.
    destruct (decide (j = op)), (decide (j ∈ ids)); simpl;
      (rewrite decide_True by tauto) || (rewrite decide_False by tauto); done. }
  assert (Vrc_f : ∀ j, rc_at sf j =
            if decide (j = op ∨ j ∈ ids) then Some 0 else rc_at s j).
  { intros j. unfold rc_at. rewrite Hrt_f, Hrt_b.
    destruct (decide (j = op)), (decide (j ∈ ids)); simpl;
      (rewrite decide_True by tauto) || (rewrite decide_False by tauto); done. }
  assert (Hc1 : ∀ j, Z.of_nat (length (filter
              (λ e : N * N, e.2 = j ∧ state_at sf e.1 ≠ Some kCompleted)
              (map (λ n, (n, op)) ps)))
            = if decide (j = op)
              then Z.of_nat (length (filter (λ p, state_at sf p ≠ Some kCompleted) ps))
              else 0).
  { intros j.
    pose proof (count_edges_into (λ p, state_at sf p ≠ Some kCompleted) op j ps) as Hc.
    cbv beta in Hc. rewrite Hc. by case_decide. }
  assert (Hc2 : ∀ j, Z.of_nat (length (filter
              (λ e : N * N, e.2 = j ∧ state_at sg e.1 ≠ Some kCompleted)
              (map (λ n, (op, n)) ids)))
            = Z.of_nat (length (filter (λ d, d = j) ids))).
  { intros j.
    pose proof (count_edges_from (λ p, state_at sg p ≠ Some kCompleted) op j ids) as Hc.
    cbv beta in Hc. rewrite Hc.
    rewrite decide_True; [done|]. rewrite Hst_g, Vstate_f, decide_True by tauto. done. }
  assert (Hps_old : ∀ p, p ∈ ps → p ∈ index_to_node_ s).
  { intros p Hp. apply Hlive. rewrite Hparams. apply list_elem_of_fmap. eauto. }
  assert (Hpending : filter (λ p, state_at sf p ≠ Some kCompleted) ps = pending_inputs s ps).
  { unfold pending_inputs. apply filter_ext_in. intros p Hp.
    apply Hps_old in Hp. rewrite <- Hdi in Hp. destruct (Hold p Hp).
    rewrite Vstate_f, decide_False by tauto. done. }
  assert (Vtrig : ∀ j, triggers_at sh j =
            (if decide (j = op ∨ j ∈ ids) then 0 else triggers_at s j)
            + (if decide (j = op) then Z.of_nat (length (pending_inputs s ps)) else 0)
            + Z.of_nat (length (filter (λ d, d = j) ids))).
  { intros j. rewrite Htr_h, Htr_g, Hc1, Hc2, Vtrig_f, Hpending. done. }
  assert (Vrc : ∀ j, rc_at sh j =
            (λ x, x + occurrences j ps + (if decide (op = j) then Z.of_nat (length ids) else 0))
              <$> (if decide (j = op ∨ j ∈ ids) then Some 0 else rc_at s j)).
  { intros j. rewrite Hrc_h, Hrc_g, Vrc_f, count_sources_into, count_sources_from.
    unfold occurrences.
    destruct (if decide (j = op ∨ j ∈ ids) then Some 0 else rc_at s j); simpl; [|done].
    f_equal. destruct (decide (op = j)); lia. }
  assert (Hlen : length ids = length sizes).
  { rewrite Hids_eq. unfold result_ids. by rewrite length_map, length_seq. }
  assert (Hps_occ : occurrences op ps = 0).
  { unfold occurrences. rewrite filter_eq_length_zero; [done|].
    intros Hin. apply Hps_old in Hin. rewrite <- Hdi in Hin. by destruct (Hold op Hin). }
  assert (Hids_occ : ∀ r, r ∈ ids → occurrences r ps = 0).
  { intros r Hr. unfold occurrences. rewrite filter_eq_length_zero; [done|].
    intros Hin. apply Hps_old in Hin. rewrite <- Hdi in Hin. by destruct (Hold r Hin). }
  (* [ProcessIfReady] *)
  assert (Hfinal : rt_info_ si = rt_info_ sh ∧ index_to_node_ si = index_to_node_ sh ∧
            if decide (pending_inputs s ps = [])
            then dispatcher_queue_ si = dispatcher_queue_ s ++ [(kToRun, op)] ∧
                 num_nodes_yet_to_finish_ si = num_nodes_yet_to_finish_ s + 1
            else dispatcher_queue_ si = dispatcher_queue_ s ∧
                 num_nodes_yet_to_finish_ si = num_nodes_yet_to_finish_ s).
  { assert (dispatcher_queue_ sh = dispatcher_queue_ s) as Hq.
    { assert (quiet_step s sh) as (Vq & _).
      { repeat (eapply quiet_step_trans; [eassumption|]). apply quiet_step_refl. }
      done. }
    assert (triggers_at sh op = Z.of_nat (length (pending_inputs s ps))) as Htop.
    { rewrite Vtrig, !decide_True by tauto.
      rewrite filter_eq_length_zero by done. simpl. lia. }
    unfold ProcessIfReady in Hi.
    apply bind_Ok in Hi as (st & s1 & Hx & Hi). inv_M Hx.
    apply bind_Ok in Hi as ([] & s2 & Hy & Hi). inv_M Hy.
    apply bind_Ok in Hi as (ri & s3 & Hz & Hi). apply At_Ok in Hz as (ri' & Hri & [= -> ->]).
    rewrite (triggers_at_lookup _ _ _ Hri) in Htop.
    destruct (decide (num_triggers_needed ri' = 0)) as [H0|H0].
    - unfold incr_yet_to_finish, Push in Hi. inv_M Hi.
      rewrite decide_True by (apply length_zero_iff_nil; lia).
      split_and!; try done; simpl; by rewrite ?Hq, ?Hnum.
    - apply mret_Ok in Hi. injection Hi as <-.
      rewrite decide_False; [done|]. intros Hnil. rewrite Hnil in Htop. simpl in Htop. lia. }
  destruct Hfinal as (Hrt_i & Hidx_i & Hqueue).
  assert (∀ j, state_at (set_trace (λ t, t ++ [AUnlock]) si) j = state_at sh j) as Fst
    by (intros j; unfold state_at; simpl; by rewrite Hrt_i).
  assert (∀ j, triggers_at (set_trace (λ t, t ++ [AUnlock]) si) j = triggers_at sh j) as Ftr
    by (intros j; unfold triggers_at; simpl; by rewrite Hrt_i).
  assert (∀ j, rc_at (set_trace (λ t, t ++ [AUnlock]) si) j = rc_at sh j) as Frc
    by (intros j; unfold rc_at; simpl; by rewrite Hrt_i).
  rewrite <- Hids_eq, <- Hopn. cbv zeta.
  split_and!.
  - exact Hps_old.
  - exact Hret.
  - simpl. by rewrite Hidx_i.
  - rewrite Fst, Vstate, decide_True by tauto. done.
  - rewrite Frc, Vrc, !decide_True by tauto. simpl. rewrite Hps_occ, Hlen. f_equal; lia.
  - rewrite Ftr, Vtrig, !decide_True by tauto.
    rewrite filter_eq_length_zero by done. simpl. lia.
  - intros r Hr. assert (r ≠ op) as Hne by (intros ->; done).
    split_and!.
    + rewrite Fst, Vstate, decide_True by tauto. done.
    + rewrite Frc, Vrc.
      rewrite (decide_False (P := op = r)) by (intros ->; done).
      rewrite decide_True by tauto.
      simpl. rewrite (Hids_occ r Hr). done.
    + rewrite Ftr, Vtrig, decide_True by tauto. rewrite decide_False by done.
      rewrite filter_eq_length_one; [done | | done].
      rewrite Hids_eq. apply result_ids_NoDup.
  - intros k Hk. rewrite <- Hdi in Hk. destruct (Hold k Hk) as [Hk1 Hk2].
    split_and!.
    + rewrite Fst, Vstate, decide_False by tauto. done.
    + rewrite Ftr, Vtrig, !decide_False by tauto.
      rewrite filter_eq_length_zero by done. simpl. lia.
    + rewrite Frc, Vrc.
      rewrite (decide_False (P := op = k)) by (intros ->; done).
      rewrite decide_False by tauto.
      destruct (rc_at s k); simpl; [f_equal; lia|done].
  - exact Hqueue.
Qed.

Lemma pending_inputs_nil s ps :
  pending_inputs s ps = [] ↔ ∀ p, p ∈ ps → state_at s p = Some kCompleted.
Proof.
  unfold pending_inputs. split.
  - intros Hnil p Hp. destruct (decide (state_at s p = Some kCompleted)) as [|Hne]; [done|].
    assert (p ∈ filter (λ p, state_at s p ≠ Some kCompleted) ps) as Hin
      by (by apply list_elem_of_filter).
    rewrite Hnil in Hin. by apply elem_of_nil in Hin.
  - intros Hall. destruct (filter _ ps) as [|x l] eqn:Hf; [done|].
    assert (x ∈ filter (λ p, state_at s p ≠ Some kCompleted) ps) as Hin
      by (rewrite Hf; left).
    apply list_elem_of_filter in Hin as [Hne Hin]. by destruct (Hne (Hall _ Hin)).
Qed.

(** [Create] on handles of DAG nodes enqueues the [kToRun] event of the new
    op node, and counts it in [num_nodes_yet_to_finish_], exactly when all
    the inputs are [kCompleted] already; when an input is outstanding it
    leaves the queue and the counter as they are.  The new op node gets the
    id after those of the results. *)
Theorem Create_enqueues_iff_inputs_completed (params : list BackendChunk)
    (result_sizes : list Scale) (fn : ComputeFn) (s : DagScheduler)
    (ret : list BackendChunk) (s' : DagScheduler)
    (Hreach : reachable s)
    (Hlive : ∀ p, DagChunk p ∈ params → p ∈ index_to_node_ s)
    (Hrun : Create params result_sizes fn s = Ok (ret, s')) :
  let op := (next_node_id s + N.of_nat (length result_sizes))%N in
  ((∀ p, DagChunk p ∈ params → state_at s p = Some kCompleted) ∧
   dispatcher_queue_ s' = dispatcher_queue_ s ++ [(kToRun, op)] ∧
   num_nodes_yet_to_finish_ s' = num_nodes_yet_to_finish_ s + 1) ∨
  ((∃ p, DagChunk p ∈ params ∧ state_at s p ≠ Some kCompleted) ∧
   dispatcher_queue_ s' = dispatcher_queue_ s ∧
   num_nodes_yet_to_finish_ s' = num_nodes_yet_to_finish_ s).
Proof.
  intros op. apply reachable_Inv in Hreach as HG.
  destruct (Create_effect _ _ _ _ _ _ HG Hlive Hrun)
    as (ps & -> & _ & _ & _ & _ & _ & _ & Hqueue).
  destruct (decide (pending_inputs s ps = [])) as [Hnil|Hnil].
  - left. split; [|exact Hqueue].
    intros p (q & [= ->] & Hq)%list_elem_of_fmap. by apply (pending_inputs_nil s ps).
  - right. split; [|exact Hqueue].
    destruct (pending_inputs s ps) as [|x l] eqn:Hf; [done|].
    assert (x ∈ pending_inputs s ps) as Hin by (rewrite Hf; left).
    apply list_elem_of_filter in Hin as [Hne Hin].
    exists x. split; [|done]. apply list_elem_of_fmap. eauto.
Qed.

Lemma one_op_created_reachable : reachable one_op_created.
Proof.
  exists empty_scheduler. split; [by repeat split|].
  eapply rtc_l; [apply (step_Create [] [[4]] 7%N _ [DagChunk 0%N] one_op_created); run_step|].
  apply rtc_refl.
Qed.

Lemma Create_enqueues_iff_inputs_completed_witness :
  dispatcher_queue_ chain_created = dispatcher_queue_ one_op_created ∧
  num_nodes_yet_to_finish_ chain_created = num_nodes_yet_to_finish_ one_op_created.
Proof.
  destruct (Create_enqueues_iff_inputs_completed [DagChunk 0%N] [[4]] 8%N one_op_created
              [DagChunk 2%N] chain_created one_op_created_reachable)
    as [(Hall & _)|(_ & Hq & Hn)].
  - intros p Hp%list_elem_of_singleton. injection Hp as ->.
    apply (bool_decide_unpack _). vm_compute. exact I.
  - vm_compute; reflexivity.
  - exfalso. specialize (Hall 0%N). vm_compute in Hall.
    assert (Some kReady = Some kCompleted) as Habs by (apply Hall; left).
    discriminate.
  - by split.
Defined.

(** The bookkeeping of [Create] on handles of DAG nodes.  The results get
    consecutive new ids and the op node the next one; their handles are
    returned in the order of the shapes.  The op node is [kReady], its
    [reference_count] is the number of results and its
    [num_triggers_needed] the number of input handles, repeated ones
    counted each time, whose node is not [kCompleted].  Each result is
    [kReady] with [reference_count] 0 and [num_triggers_needed] 1.  A node
    that was in the DAG keeps its state and its [num_triggers_needed], and
    its [reference_count] grows by the number of times it occurs among the
    inputs. *)
Theorem Create_counts_references (params : list BackendChunk)
    (result_sizes : list Scale) (fn : ComputeFn) (s : DagScheduler)
    (ret : list BackendChunk) (s' : DagScheduler)
    (Hreach : reachable s)
    (Hlive : ∀ p, DagChunk p ∈ params → p ∈ index_to_node_ s)
    (Hrun : Create params result_sizes fn s = Ok (ret, s')) :
  ∃ ps, params = map DagChunk ps ∧
    let ids := result_ids s (length result_sizes) in
    let op := (next_node_id s + N.of_nat (length result_sizes))%N in
    ret = map DagChunk ids ∧
    index_to_node_ s' = index_to_node_ s ∪ (list_to_set ids ∪ {[op]}) ∧
    (state_at s' op = Some kReady ∧
     rc_at s' op = Some (Z.of_nat (length result_sizes)) ∧
     triggers_at s' op = Z.of_nat (length (pending_inputs s ps))) ∧
    (∀ r, r ∈ ids →
       state_at s' r = Some kReady ∧ rc_at s' r = Some 0 ∧ triggers_at s' r = 1) ∧
    (∀ k, k ∈ index_to_node_ s →
       state_at s' k = state_at s k ∧ triggers_at s' k = triggers_at s k ∧
       rc_at s' k = (λ x, x + occurrences k ps) <$> rc_at s k).
Proof.
  apply reachable_Inv in Hreach as HG.
  destruct (Create_effect _ _ _ _ _ _ HG Hlive Hrun)
    as (ps & Hps & _ & Hret & Hidx & Hop & Hres & Hold & _).
  exists ps. split_and!; done.
Qed.

Lemma Create_counts_references_witness :
  rc_at twice_created 0 = Some 2 ∧ triggers_at twice_created 3 = 2 ∧
  rc_at twice_created 3 = Some 1.
Proof.
  destruct (Create_counts_references [DagChunk 0%N; DagChunk 0%N] [[4]] 8%N one_op_created
              [DagChunk 2%N] twice_created one_op_created_reachable)
    as (ps & Hps & _ & _ & (_ & Hrc & Htr) & _ & Hold).
  - intros p Hp. apply elem_of_cons in Hp as [[= ->]|Hp];
      [|apply list_elem_of_singleton in Hp; injection Hp as ->];
      apply (bool_decide_unpack _); vm_compute; exact I.
  - vm_compute; reflexivity.
  - assert (ps = [0%N; 0%N]) as ->.
    { destruct ps as [|a [|b [|c ps]]]; try discriminate. by injection Hps as <- <-. }
    destruct (Hold 0%N) as (_ & _ & Hrc0).
    { apply (bool_decide_unpack _). vm_compute. exact I. }
    split_and!; [exact Hrc0 | exact Htr | exact Hrc].
Defined.

Lemma new_handles_total ids : ∀ s,
  (∀ n, n ∈ ids → n ∈ dom (heap s)) → ∃ ret sc, Map new_DagChunk ids s = Ok (ret, sc).
Proof.
  induction ids as [|n ids IH]; intros s Hin; simpl.
  - by eexists _, _.
  - assert (n ∈ dom (heap s)) as [x Hx]%elem_of_dom by (apply Hin; left).
    assert (new_DagChunk n s
            = Ok (DagChunk n, set_trace (λ t, t ++ [ANewChunk n]) (set_heap (alter pin n) s)))
      as Hn.
    { unfold new_DagChunk. rewrite (bind_eq _ _ _ _ _ (deref_eq _ _ _ Hx)). reflexivity. }
    rewrite (bind_eq _ _ _ _ _ Hn).
    edestruct (IH (set_trace (λ t, t ++ [ANewChunk n]) (set_heap (alter pin n) s)))
      as (ret & sc & Hrun).
    { intros m Hm. simpl. rewrite dom_alter_L. apply Hin. by right. }
    rewrite (bind_eq _ _ _ _ _ Hrun). by eexists _, _.
Qed.

Lemma MultiNodeLock_vec_total ps s :
  (∀ p, p ∈ ps → p ∈ dom (heap s)) →
  ∃ cover, MultiNodeLock_vec ps s = Ok (tt, set_trace (λ t, t ++ [ALock cover]) s).
Proof.
  intros Hin. unfold MultiNodeLock_vec.
  assert (∃ covers,
            Map (λ n, node ← deref n; mret ({[n]} ∪ successors_ node)) ps s
            = Ok (covers, s)) as (covers & Hc).
  { induction ps as [|p ps IH]; simpl; [by eexists|].
    assert (p ∈ dom (heap s)) as [x Hx]%elem_of_dom by (apply Hin; left).
    assert ((node ← deref p; mret ({[p]} ∪ successors_ node) : M (gset N)) s
            = Ok ({[p]} ∪ successors_ x, s)) as Hp
      by (by rewrite (bind_eq _ _ _ _ _ (deref_eq _ _ _ Hx))).
    rewrite (bind_eq _ _ _ _ _ Hp).
    destruct IH as (covers & Hc); [intros q Hq; apply Hin; by right|].
    rewrite (bind_eq _ _ _ _ _ Hc). by eexists. }
  rewrite (bind_eq _ _ _ _ _ Hc). by eexists.
Qed.

Lemma add_edges_total (es : list (N * N)) : ∀ s,
  (∀ e, e ∈ es → e.1 ∈ dom (heap s) ∧ e.2 ∈ dom (heap s)) →
  ∃ s', Iter (λ e, AddEdge e.1 e.2) es s = Ok (tt, s') ∧ dom (heap s') = dom (heap s).
Proof.
  induction es as [|[u v] es IH]; intros s Hin; simpl.
  - by eexists.
  - destruct (Hin (u, v)) as [[x Hx]%elem_of_dom [y Hy]%elem_of_dom]; [left|].
    simpl in Hx, Hy.
    assert (AddEdge u v s
            = Ok (tt, set_heap (alter (add_predecessor u) v)
                        (set_heap (alter (add_successor v) u) s))) as Hadd.
    { unfold AddEdge. rewrite (bind_eq _ _ _ _ _ (deref_eq _ _ _ Hx)).
      rewrite (bind_eq _ _ _ _ _ (deref_eq _ _ _ Hy)). reflexivity. }
    rewrite (bind_eq _ _ _ _ _ Hadd).
    edestruct (IH (set_heap (alter (add_predecessor u) v)
                     (set_heap (alter (add_successor v) u) s))) as (s' & Hrun & Hdom).
    { intros e He. simpl. rewrite !dom_alter_L. apply Hin. by right. }
    exists s'. split; [done|]. rewrite Hdom. simpl. by rewrite !dom_alter_L.
Qed.

Lemma NewOpNode_total ins outs o s :
  (∀ x, x ∈ ins ++ outs → x ∈ dom (heap s)) →
  ∃ se, NewOpNode ins outs o s = Ok (next_node_id s, se).
Proof.
  intros Hin. unfold NewOpNode.
  erewrite bind_eq by reflexivity. erewrite bind_eq by reflexivity.
  erewrite bind_eq by reflexivity. erewrite bind_eq by reflexivity.
  set (n := next_node_id s).
  set (s0 := set_index (union {[n]})
               (set_heap (insert n (mkDagNode ∅ ∅ (OpBody o ins outs)))
                  (set_next_node_id N.succ s))).
  assert (dom (heap s0) = {[n]} ∪ dom (heap s)) as Hd0 by (simpl; by rewrite dom_insert_L).
  destruct (add_edges_total (map (λ d, (d, n)) ins) s0) as (s1 & H1 & Hd1).
  { intros e (d & -> & Hd)%list_elem_of_fmap. cbn [fst snd]. rewrite Hd0.
    split; [|set_solver]. apply elem_of_union_r, Hin, elem_of_app. by left. }
  rewrite Iter_map in H1. simpl in H1. rewrite (bind_eq _ _ _ _ _ H1).
  destruct (add_edges_total (map (λ d, (n, d)) outs) s1) as (s2 & H2 & Hd2).
  { intros e (d & -> & Hd)%list_elem_of_fmap. cbn [fst snd]. rewrite Hd1, Hd0.
    split; [set_solver|]. apply elem_of_union_r, Hin, elem_of_app. by right. }
  rewrite Iter_map in H2. simpl in H2. rewrite (bind_eq _ _ _ _ _ H2).
  by eexists.
Qed.

Lemma create_edges_total (es : list (N * N)) : ∀ s,
  (∀ e, e ∈ es → is_Some (rt_info_ s !! e.1) ∧ state_at s e.2 = Some kReady) →
  ∃ s', Iter (λ e, OnCreateEdge e.1 e.2) es s = Ok (tt, s').
Proof.
  induction es as [|[u v] es IH]; intros s Hin; simpl.
  - by eexists.
  - destruct (Hin (u, v)) as [[rf Hu] Hv]; [left|]. simpl in Hu, Hv.
    unfold state_at in Hv. destruct (rt_info_ s !! v) as [rt|] eqn:Hrt; [|done].
    simpl in Hv. injection Hv as Hv.
    pose proof (OnCreateEdge_effect u v rf rt s Hu Hrt) as Heff.
    rewrite decide_True in Heff by done.
    destruct Heff as (s1 & Hrun & _ & _ & Hst & _).
    rewrite (bind_eq _ _ _ _ _ Hrun).
    apply IH. intros e He. destruct (Hin e) as [[x Hx] Hy]; [by right|].
    split; [|by rewrite Hst].
    specialize (Hst e.1). unfold state_at in Hst. rewrite Hx in Hst.
    destruct (rt_info_ s1 !! e.1); [eauto|done].
Qed.

Lemma ProcessIfReady_total n s :
  state_at s n = Some kReady → ∃ s', ProcessIfReady n s = Ok (tt, s').
Proof.
  intros Hst. unfold state_at in Hst.
  destruct (rt_info_ s !! n) as [ri|] eqn:Hri; [|done]. simpl in Hst. injection Hst as Hst.
  unfold ProcessIfReady. rewrite (bind_eq _ _ _ _ _ (GetState_eq _ _ _ Hri)).
  rewrite bool_decide_eq_true_2 by done. erewrite bind_eq by reflexivity.
  rewrite (bind_eq _ _ _ _ _ (At_eq _ _ _ Hri)).
  destruct (decide (num_triggers_needed ri = 0)); by eexists.
Qed.

Lemma param_nodes_of_handles ps s : param_nodes (map DagChunk ps) s = Ok (ps, s).
Proof.
  unfold param_nodes. induction ps as [|p ps IH]; simpl; [done|].
  erewrite bind_eq by reflexivity. rewrite (bind_eq _ _ _ _ _ IH). done.
Qed.

(** In a state between calls, [Create] on handles of DAG nodes does not
    fail: it returns one handle per result shape. *)
Theorem Create_succeeds_on_live_handles (ps : list N) (result_sizes : list Scale)
    (fn : ComputeFn) (s : DagScheduler)
    (Hreach : reachable s) (Hlive : ∀ p, p ∈ ps → p ∈ index_to_node_ s) :
  ∃ ret s', Create (map DagChunk ps) result_sizes fn s = Ok (ret, s') ∧
            length ret = length result_sizes.
Proof.
  apply reachable_Inv in Hreach as HG. open_GInv HG.
  assert (Hdi : dom (heap s) = index_to_node_ s) by (rewrite Ghd; set_solver).
  unfold Create. erewrite bind_eq by reflexivity.
  destruct (new_result_nodes_total (current_device_id_ s) result_sizes s) as (ids & sa & Ha).
  pose proof Ha as Ha'. unfold new_result_nodes in Ha'. rewrite (bind_eq _ _ _ _ _ Ha').
  clear Ha'.
  destruct (register_nodes_total ids sa) as (sb & Hb). rewrite (bind_eq _ _ _ _ _ Hb).
  pose proof (param_nodes_of_handles ps sb) as Hp. unfold param_nodes in Hp.
  rewrite (bind_eq _ _ _ _ _ Hp). clear Hp.
  pose proof (new_result_nodes_ids _ _ _ _ _ Ha) as [Hids_eq _].
  apply new_data_nodes_views in Ha as (Hn_a & Hids & Hf_a & Hd_a & Hi_a & Hv_a & Hr_a & Hq_a);
    [|done].
  apply register_nodes_views in Hb as ((Hh_b & Hi_b & Hn_b & Hq_b) & Hd_b & Hout_b & Hin_b).
  destruct (new_handles_total ids sb) as (ret & sc & Hc).
  { intros n Hn. rewrite Hh_b, Hd_a. set_solver. }
  rewrite (bind_eq _ _ _ _ _ Hc).
  apply new_handles_views in Hc as (Hret & Hd_c & Hi_c & Hn_c & Hv_c & Hr_c & Hq_c).
  assert (∀ p, p ∈ ps → p ∈ dom (heap sc)) as Hps.
  { intros p Hp. rewrite Hd_c, Hh_b, Hd_a, Hdi. apply elem_of_union_l. auto. }
  destruct (MultiNodeLock_vec_total ps sc Hps) as (cover & Hd).
  rewrite (bind_eq _ _ _ _ _ Hd).
  set (sd := set_trace (λ t, t ++ [ALock cover]) sc) in *.
  destruct (NewOpNode_total ps ids (mkPhysicalOp fn 0) sd) as (se & He).
  { intros x [Hx|Hx]%elem_of_app; [by apply Hps|].
    change (dom (heap sd)) with (dom (heap sc)). rewrite Hd_c, Hh_b, Hd_a. set_solver. }
  rewrite (bind_eq _ _ _ _ _ He).
  set (op := next_node_id sd) in *.
  apply NewOpNode_views in He as (_ & Hn_e & Hinout & Hd_e & Hi_e & [Hr_e Hq_e] & Hp_e & Hs_e);
    [|(intros k Hk; change (dom (heap sd)) with (dom (heap sc)) in Hk;
       change (next_node_id sd) with (next_node_id sc);
       rewrite Hd_c, Hh_b in Hk; rewrite Hn_c, Hn_b; by apply Hf_a)].
  change (rt_info_ sd) with (rt_info_ sc) in *.
  erewrite bind_eq by reflexivity. erewrite bind_eq by reflexivity.
  erewrite bind_eq by reflexivity.
  match goal with |- ∃ _ _, (_ ≫= _) ?t = _ ∧ _ => set (sf := t) end.
  assert (Hrt_f : ∀ j, rt_info_ sf !! j =
            if decide (j = op) then Some (mkRuntimeInfo kReady 0 0) else rt_info_ sb !! j).
  { intros j. unfold sf. simpl. rewrite Hr_e, Hr_c. case_decide as Hj.
    - subst j. by rewrite lookup_insert_eq.
    - by rewrite lookup_insert_ne. }
  assert (Hrt_b : ∀ j, rt_info_ sb !! j =
            if decide (j ∈ ids) then Some (mkRuntimeInfo kReady 0 0) else rt_info_ s !! j).
  { intros j. case_decide; [by apply Hin_b|]. rewrite Hout_b by done. by rewrite Hr_a. }
  assert (Hop_ready : state_at sf op = Some kReady).
  { unfold state_at. by rewrite Hrt_f, decide_True. }
  assert (Hentry : ∀ p, p ∈ ps → is_Some (rt_info_ sf !! p)).
  { intros p Hp. rewrite Hrt_f. case_decide; [by eexists|].
    rewrite Hrt_b. case_decide; [by eexists|].
    apply elem_of_dom. rewrite Grt. auto. }
  destruct (create_edges_total (map (λ n, (n, op)) ps) sf) as (sg & Hg).
  { intros e (p & -> & Hp)%list_elem_of_fmap. cbn [fst snd]. auto. }
  pose proof Hg as Hg'. rewrite Iter_map in Hg'. cbn [fst snd] in Hg'.
  rewrite (bind_eq _ _ _ _ _ Hg'). clear Hg'.
  apply create_edges_views in Hg as (_ & _ & _ & Hst_g & _).
  destruct (create_edges_total (map (λ n, (op, n)) ids) sg) as (sh & Hh).
  { intros e (r & -> & Hr)%list_elem_of_fmap. cbn [fst snd]. split.
    - specialize (Hst_g op). rewrite Hop_ready in Hst_g. unfold state_at in Hst_g.
      destruct (rt_info_ sg !! op); [eauto|done].
    - rewrite Hst_g. unfold state_at. rewrite Hrt_f. case_decide; [done|].
      by rewrite Hrt_b, decide_True. }
  pose proof Hh as Hh'. rewrite Iter_map in Hh'. cbn [fst snd] in Hh'.
  rewrite (bind_eq _ _ _ _ _ Hh'). clear Hh'.
  apply create_edges_views in Hh as (_ & _ & _ & Hst_h & _).
  destruct (ProcessIfReady_total op sh) as (si & Hi).
  { by rewrite Hst_h, Hst_g. }
  rewrite (bind_eq _ _ _ _ _ Hi).
  eexists _, _. split; [reflexivity|].
  rewrite Hret, Hids_eq. unfold result_ids. by rewrite !length_map, length_seq.
Qed.

Lemma Create_succeeds_on_live_handles_witness :
  ∃ ret s', Create [DagChunk 0%N; DagChunk 2%N] [[4]; [2; 2]] 9%N chain_a_completed
            = Ok (ret, s') ∧ length ret = 2%nat.
Proof.
  apply (Create_succeeds_on_live_handles [0%N; 2%N] [[4]; [2; 2]] 9%N chain_a_completed
           chain_a_completed_reachable).
  intros p Hp. apply elem_of_cons in Hp as [->|Hp];
    [|apply list_elem_of_singleton in Hp as ->];
    apply (bool_decide_unpack _); vm_compute; exact I.
Defined.


(** * Reclamation: nothing is freed or removed twice *)

Section Maintains.
Context (I : DagScheduler → Prop).

Lemma maintains_ret {A} (a : A) : maintains I (mret a).
Proof. intros s a' s' Hs H. by inv_M H. Qed.

Lemma maintains_abort {A} e : maintains I (abort e : M A).
Proof. intros s a' s' Hs H. inv_M H. Qed.

Lemma maintains_bind {A B} (m : M A) (g : A → M B) :
  maintains I m → (∀ a, maintains I (g a)) → maintains I (m ≫= g).
Proof.
  intros Hm Hg s b s' Hs H. apply bind_Ok in H as (a & s1 & H1 & H2).
  eapply Hg; [|exact H2]. eapply Hm; [exact Hs|exact H1].
Qed.

Lemma maintains_gets {A} (g : DagScheduler → A) : maintains I (gets g).
Proof. intros s a' s' Hs H. by inv_M H. Qed.

Lemma maintains_modify g : (∀ s, I s → I (g s)) → maintains I (modify g).
Proof. intros Hg s a' s' Hs H. inv_M H. by apply Hg. Qed.

Lemma maintains_CHECK b msg : maintains I (CHECK b msg).
Proof. intros s a' s' Hs H. by inv_M H. Qed.

Lemma maintains_At n : maintains I (At n).
Proof. intros s a' s' Hs H. by inv_M H. Qed.

Lemma maintains_deref n : maintains I (deref n).
Proof. intros s a' s' Hs H. by inv_M H. Qed.

Lemma maintains_Iter {A} (g : A → M unit) v :
  (∀ x, maintains I (g x)) → maintains I (Iter g v).
Proof.
  intros Hg. induction v as [|x v IH]; simpl.
  - apply maintains_ret.
  - apply maintains_bind; auto.
Qed.

Lemma maintains_Map {A B} (g : A → M B) v :
  (∀ x, maintains I (g x)) → maintains I (Map g v).
Proof.
  intros Hg. induction v as [|x v IH]; simpl.
  - apply maintains_ret.
  - apply maintains_bind; [auto|]. intros y.
    apply maintains_bind; [auto|]. intros ys. apply maintains_ret.
Qed.

Lemma maintains_Collect {A B} (g : A → M (list B)) v :
  (∀ x, maintains I (g x)) → maintains I (Collect g v).
Proof.
  intros Hg. induction v as [|x v IH]; simpl.
  - apply maintains_ret.
  - apply maintains_bind; [auto|]. intros y.
    apply maintains_bind; [auto|]. intros ys. apply maintains_ret.
Qed.
End Maintains.

Lemma removed_ids_app t1 t2 : removed_ids (t1 ++ t2) = removed_ids t1 ++ removed_ids t2.
Proof. apply omap_app. Qed.

Lemma freed_ids_app t1 t2 : freed_ids (t1 ++ t2) = freed_ids t1 ++ freed_ids t2.
Proof. apply omap_app. Qed.

Lemma deleted_ids_app t1 t2 : deleted_ids (t1 ++ t2) = deleted_ids t1 ++ deleted_ids t2.
Proof. apply omap_app. Qed.

Lemma data_at_data_id s k d : data_at s k = Some d → data_id_at s k = Some (data_id d).
Proof.
  unfold data_at, data_id_at. destruct (heap s !! k) as [x|]; simpl; [|done].
  destruct (body x); [|done]. by intros [= ->].
Qed.

(** From [s] to [s'] nodes only left the DAG: [r] are the nodes removed and
    [f] the data ids freed on the way, each of a node that left. *)
Lemma Reclaim_shrink (r f : list N) s s' :
  index_to_node_ s' ⊆ index_to_node_ s →
  (∀ k d, k ∈ index_to_node_ s' → data_id_at s' k = Some d → data_id_at s k = Some d) →
  (next_node_id s ≤ next_node_id s')%N →
  (next_data_id s ≤ next_data_id s')%N →
  removed_ids (trace s') = removed_ids (trace s) ++ r →
  NoDup r →
  (∀ k, k ∈ r → k ∈ index_to_node_ s ∧ (k ∉ index_to_node_ s')) →
  freed_ids (trace s') = freed_ids (trace s) ++ f →
  NoDup f →
  (∀ d, d ∈ f → ∃ k, k ∈ index_to_node_ s ∧ (k ∉ index_to_node_ s') ∧
                     data_id_at s k = Some d) →
  Reclaim s → Reclaim s'.
Proof.
  intros Hidx Hdid Hnn Hnd Hr Hrdup Hrin Hf Hfdup Hfin
    (R1 & R2 & R3 & R4 & R5 & R6 & R7).
  unfold Reclaim. rewrite Hr, Hf. split_and!.
  - apply NoDup_app. split_and!; [done| |done].
    intros k Hk Hk'. apply R2 in Hk as [Hk _]. apply Hrin in Hk' as [Hk' _]. done.
  - intros k [Hk|Hk]%elem_of_app.
    + apply R2 in Hk as [Hk Hlt]. split; [set_solver|lia].
    + apply Hrin in Hk as [Hk Hk']. split; [done|]. apply R3 in Hk. lia.
  - intros k Hk. apply Hidx, R3 in Hk. lia.
  - apply NoDup_app. split_and!; [done| |done].
    intros d Hd Hd'. apply R5 in Hd as [_ Hd].
    apply Hfin in Hd' as (k & Hk & _ & Hkd). by apply (Hd k).
  - intros d [Hd|Hd]%elem_of_app.
    + apply R5 in Hd as [Hlt Hd]. split; [lia|].
      intros k Hk Hkd. apply (Hd k); [by apply Hidx|by apply Hdid].
    + apply Hfin in Hd as (k0 & Hk0 & Hk0' & Hkd0). split.
      * apply R6 in Hkd0; [lia|done].
      * intros k Hk Hkd. apply Hdid in Hkd; [|done].
        assert (k = k0) as -> by (apply (R7 k k0 d); auto). done.
  - intros k d Hk Hkd. apply Hdid in Hkd; [|done]. apply R6 in Hkd; [lia|by apply Hidx].
  - intros k k' d Hk Hk' Hkd Hkd'. apply (R7 k k' d); auto.
Qed.

(** From [s] to [s'] nothing left or joined the DAG. *)
Lemma Reclaim_quiet s s' :
  index_to_node_ s' = index_to_node_ s →
  (∀ k d, data_id_at s' k = Some d → data_id_at s k = Some d) →
  next_node_id s' = next_node_id s →
  next_data_id s' = next_data_id s →
  removed_ids (trace s') = removed_ids (trace s) →
  freed_ids (trace s') = freed_ids (trace s) →
  Reclaim s → Reclaim s'.
Proof.
  intros Hidx Hdid Hnn Hnd Hr Hf. apply (Reclaim_shrink [] []).
  - by rewrite Hidx.
  - auto.
  - lia.
  - lia.
  - by rewrite app_nil_r.
  - constructor.
  - intros k Hk. inversion Hk.
  - by rewrite app_nil_r.
  - constructor.
  - intros k Hk. inversion Hk.
Qed.

(** From [s] to [s'] the node [n], with the next node id, joined the DAG;
    if it is a data node, its data id was handed out on the way. *)
Lemma Reclaim_grow (n : N) s s' :
  n = next_node_id s →
  index_to_node_ s' = {[n]} ∪ index_to_node_ s →
  next_node_id s' = N.succ n →
  (next_data_id s ≤ next_data_id s')%N →
  (∀ k, k ≠ n → data_id_at s' k = data_id_at s k) →
  (∀ d, data_id_at s' n = Some d → (next_data_id s ≤ d < next_data_id s')%N) →
  removed_ids (trace s') = removed_ids (trace s) →
  freed_ids (trace s') = freed_ids (trace s) →
  Reclaim s → Reclaim s'.
Proof.
  intros Hn Hidx Hnn Hnd Hdid Hnew Hr Hf (R1 & R2 & R3 & R4 & R5 & R6 & R7).
  assert (Hfresh : n ∉ index_to_node_ s) by (intros Hk%R3; lia).
  unfold Reclaim. rewrite Hr, Hf, Hidx, Hnn. split_and!.
  - done.
  - intros k Hk. apply R2 in Hk as [Hk Hlt]. split; [|lia].
    intros [->%elem_of_singleton|?]%elem_of_union; [lia|done].
  - intros k [->%elem_of_singleton|Hk%R3]%elem_of_union; lia.
  - done.
  - intros d Hd. apply R5 in Hd as [Hlt Hd]. split; [lia|].
    intros k [->%elem_of_singleton|Hk]%elem_of_union Hkd.
    + apply Hnew in Hkd. lia.
    + rewrite Hdid in Hkd by (intros ->; done). by apply (Hd k).
  - intros k d [->%elem_of_singleton|Hk]%elem_of_union Hkd.
    + apply Hnew in Hkd. lia.
    + rewrite Hdid in Hkd by (intros ->; done). apply R6 in Hkd; [lia|done].
  - intros k k' d [->%elem_of_singleton|Hk]%elem_of_union
      [->%elem_of_singleton|Hk']%elem_of_union Hkd Hkd'; [done| | |].
    + apply Hnew in Hkd. rewrite Hdid in Hkd' by (intros ->; done).
      apply R6 in Hkd'; [lia|done].
    + apply Hnew in Hkd'. rewrite Hdid in Hkd by (intros ->; done).
      apply R6 in Hkd; [lia|done].
    + rewrite Hdid in Hkd by (intros ->; done). rewrite Hdid in Hkd' by (intros ->; done).
      by apply (R7 k k' d).
Qed.

Lemma data_id_at_alter f n s k :
  (∀ x, body_data_id (body (f x)) = body_data_id (body x)) →
  data_id_at (set_heap (alter f n) s) k = data_id_at s k.
Proof.
  intros Hf. unfold data_id_at. simpl. destruct (decide (k = n)) as [->|Hk].
  - rewrite lookup_alter_eq. destruct (heap s !! n); simpl; [apply Hf|done].
  - by rewrite lookup_alter_ne.
Qed.

Lemma data_id_at_detach n node s k :
  data_id_at (set_heap (detach n node) s) k = data_id_at s k.
Proof.
  unfold data_id_at. simpl. pose proof (body_detach n node (heap s) k) as H.
  destruct (detach n node (heap s) !! k), (heap s !! k); simpl in *; congruence.
Qed.

Lemma data_id_at_trace g s k : data_id_at (set_trace g s) k = data_id_at s k.
Proof. done. Qed.

Lemma data_id_at_index g s k : data_id_at (set_index g s) k = data_id_at s k.
Proof. done. Qed.

Lemma data_id_at_rt g s k : data_id_at (set_rt_info g s) k = data_id_at s k.
Proof. done. Qed.

Lemma maintains_alter f n :
  (∀ x, body_data_id (body (f x)) = body_data_id (body x)) →
  maintains Reclaim (modify (set_heap (alter f n))).
Proof.
  intros Hf. apply maintains_modify. intros s. apply Reclaim_quiet; try done.
  intros k d. by rewrite data_id_at_alter.
Qed.

Lemma maintains_Delete n : maintains Reclaim (Delete n).
Proof.
  intros s [] s' Hs H. unfold Delete in H. inv_M H. revert Hs.
  apply Reclaim_quiet; try done.
  - intros k d. unfold data_id_at. simpl. destruct (decide (k = n)) as [->|Hk].
    + by rewrite lookup_delete_eq.
    + by rewrite lookup_delete_ne.
  - simpl. by rewrite removed_ids_app, app_nil_r.
  - simpl. by rewrite freed_ids_app, app_nil_r.
Qed.

Lemma maintains_emit a :
  removed_ids [a] = [] → freed_ids [a] = [] → maintains Reclaim (emit a).
Proof.
  intros Hr Hf. apply maintains_modify. intros s. apply Reclaim_quiet; try done.
  - cbn [trace set_trace]. by rewrite removed_ids_app, Hr, app_nil_r.
  - cbn [trace set_trace]. by rewrite freed_ids_app, Hf, app_nil_r.
Qed.

(** [RemoveNodeFromDag] alone: the node was in the DAG. *)
Lemma maintains_RemoveNodeFromDag n : maintains Reclaim (RemoveNodeFromDag n).
Proof.
  intros s r s' Hs H. unfold RemoveNodeFromDag, GetNode in H.
  apply bind_Ok in H as (node & s0 & H0 & H).
  apply bind_Ok in H0 as (idx & s1 & H1 & H0). inv_M H1.
  destruct (decide (n ∈ index_to_node_ s)) as [Hin|]; [|inv_M H0].
  inv_M H0. inv_M H. revert Hs. apply (Reclaim_shrink [n] []); simpl.
  - set_solver.
  - intros k d _. by rewrite data_id_at_trace, data_id_at_index, data_id_at_detach.
  - lia.
  - lia.
  - by rewrite removed_ids_app.
  - apply NoDup_singleton.
  - intros k ->%list_elem_of_singleton. set_solver.
  - by rewrite freed_ids_app.
  - constructor.
  - intros k Hk. inversion Hk.
Qed.

(** [FreeDataNodeRes], [RemoveNodeFromDag], [OnDeleteNode]: the data freed
    is that of the node that leaves the DAG. *)
Lemma maintains_reclaim_data_node n : maintains Reclaim (reclaim_data_node n).
Proof.
  intros s r s' Hs H. unfold reclaim_data_node, FreeDataNodeRes, as_data_node in H.
  apply bind_Ok in H as ([] & sa & Ha & H).
  apply bind_Ok in Ha as (d & sb & Hb & Ha).
  apply bind_Ok in Hb as (x & sc & Hc & Hb). inv_M Hc.
  match goal with Hx : heap _ !! n = Some ?y |- _ => rename Hx into Hn; rename y into x end.
  destruct (body x) as [d0|] eqn:Hbody; [|inv_M Hb]. inv_M Hb. inv_M Ha.
  apply bind_Ok in H as (n' & sd & Hd & H).
  unfold RemoveNodeFromDag, GetNode in Hd.
  apply bind_Ok in Hd as (node & s0 & H0 & Hd).
  apply bind_Ok in H0 as (idx & s1 & H1 & H0). inv_M H1. simpl in H0.
  destruct (decide (n ∈ index_to_node_ s)) as [Hin|]; [|inv_M H0].
  inv_M H0. inv_M Hd. unfold OnDeleteNode, RemoveNode in H. inv_M H.
  revert Hs. apply (Reclaim_shrink [n] [data_id d0]); simpl.
  - set_solver.
  - intros k d' _. by rewrite !data_id_at_trace, data_id_at_rt, data_id_at_trace,
      data_id_at_index, data_id_at_detach, data_id_at_trace.
  - lia.
  - lia.
  - by rewrite !removed_ids_app, !app_nil_r.
  - apply NoDup_singleton.
  - intros k ->%list_elem_of_singleton. set_solver.
  - rewrite !freed_ids_app. simpl. by rewrite !app_nil_r.
  - apply NoDup_singleton.
  - intros k ->%list_elem_of_singleton. exists n. split_and!; [done|set_solver|].
    unfold data_id_at. rewrite Hn. simpl. by rewrite Hbody.
Qed.

(** A data node made by [Create]: its data id is the one just handed out. *)
Lemma maintains_fresh_data_node sz dev :
  maintains Reclaim (d ← GenerateDataId; NewDataNode (mkPhysicalData sz dev d 0)).
Proof.
  intros s r s' Hs H. unfold GenerateDataId, NewDataNode in H. inv_M H.
  revert Hs. apply (Reclaim_grow (next_node_id s)); simpl; try done.
  - lia.
  - intros k Hk. unfold data_id_at. simpl. by rewrite lookup_insert_ne.
  - intros d. unfold data_id_at. simpl. rewrite lookup_insert_eq. simpl.
    intros [= <-]. lia.
  - by rewrite removed_ids_app, app_nil_r.
  - by rewrite freed_ids_app, app_nil_r.
Qed.

Lemma maintains_AddEdge u v : maintains Reclaim (AddEdge u v).
Proof.
  unfold AddEdge.
  repeat first [ apply maintains_bind; [|intros ?] | apply maintains_deref
               | apply maintains_alter; intros ?; reflexivity ].
Qed.

Lemma maintains_NewOpNode ins outs o : maintains Reclaim (NewOpNode ins outs o).
Proof.
  intros s r s' Hs H. unfold NewOpNode in H.
  apply bind_Ok in H as (n & s0 & H0 & H). inv_M H0.
  apply bind_Ok in H as ([] & s0 & H0 & H). inv_M H0.
  apply bind_Ok in H as ([] & s0 & H0 & H). inv_M H0.
  apply bind_Ok in H as ([] & s0 & H0 & H). inv_M H0.
  revert H.
  match goal with |- ?m ?s1 = _ → _ => set (sn := s1); set (rest := m) end.
  intros H. assert (Hrest : maintains Reclaim rest).
  { unfold rest.
    repeat first [ apply maintains_AddEdge | apply maintains_Iter; intros ?
                 | apply maintains_bind; [|intros ?] | apply maintains_ret
                 | apply maintains_emit; reflexivity ]. }
  apply (Hrest _ _ _) in H; [done|]. revert Hs.
  apply (Reclaim_grow (next_node_id s)); unfold sn; simpl; try done.
  - intros k Hk. unfold data_id_at. simpl. by rewrite lookup_insert_ne.
  - intros d. unfold data_id_at. simpl. by rewrite lookup_insert_eq.
Qed.

(** [solve_Reclaim] proves [maintains Reclaim m] by following the structure
    of [m]. *)
Ltac solve_Reclaim :=
  repeat first
    [ apply maintains_reclaim_data_node
    | apply maintains_RemoveNodeFromDag
    | apply maintains_NewOpNode
    | apply maintains_fresh_data_node
    | apply maintains_Delete
    | apply maintains_bind; [|intros ?]
    | apply maintains_ret
    | apply maintains_abort
    | apply maintains_gets
    | apply maintains_emit; reflexivity
    | apply maintains_alter; intros ?; simpl; by destruct (body _)
    | apply maintains_modify; intros ? HR; exact HR
    | apply maintains_CHECK
    | apply maintains_At
    | apply maintains_deref
    | apply maintains_Iter; intros ?
    | apply maintains_Map; intros ?
    | apply maintains_Collect; intros ?
    | match goal with
      | |- maintains _ (if ?c then _ else _) => destruct c
      | |- maintains _ (match ?c with _ => _ end) => destruct c
      | |- maintains _ (?g _ _ _ _) => unfold g
      | |- maintains _ (?g _ _ _) => unfold g
      | |- maintains _ (?g _ _) => unfold g
      | |- maintains _ (?g _) => unfold g
      | |- maintains _ ?g => unfold g
      end ].

Lemma maintains_Create params result_sizes fn :
  maintains Reclaim (Create params result_sizes fn).
Proof. solve_Reclaim. Qed.

Lemma maintains_DispatcherBody ev : maintains Reclaim (DispatcherBody ev).
Proof. solve_Reclaim. Qed.

Lemma maintains_OnExternRCUpdate n : maintains Reclaim (OnExternRCUpdate n).
Proof. solve_Reclaim. Qed.

Lemma maintains_OnOperationComplete task : maintains Reclaim (OnOperationComplete task).
Proof. solve_Reclaim. Qed.

Lemma wait_actions_quiet acts :
  Forall (λ a, is_wait_action a = true) acts →
  removed_ids acts = [] ∧ freed_ids acts = [] ∧ deleted_ids acts = [].
Proof.
  induction 1 as [|a acts Ha _ IH]; [done|].
  destruct IH as (Hr & Hf & Hd). by destruct a.
Qed.

Lemma step_Reclaim s s' : step s s' → Reclaim s → Reclaim s'.
Proof.
  intros Hstep Hs. destruct Hstep as
    [params sizes fn s ret s' H | s s' H | device task s s' _ _ H | n x s
    | n s s' H | t acts s Hacts].
  - by apply (maintains_Create _ _ _ _ _ _ Hs H).
  - simpl in H. unfold Pop in H. destruct (dispatcher_queue_ s) as [|ev q]; [by simplify_eq|].
    apply bind_Ok in H as ([] & s1 & H1 & H). simplify_eq.
    apply (maintains_DispatcherBody ev _ _ _) in H1; [done|exact Hs].
  - by apply (maintains_OnOperationComplete _ _ _ _ Hs H).
  - revert Hs. apply Reclaim_quiet; try done.
    intros k d. rewrite data_id_at_alter; [done|]. intros y. simpl. by destruct (body y).
  - by apply (maintains_OnExternRCUpdate _ _ _ _ Hs H).
  - apply wait_actions_quiet in Hacts as (Hr & Hf & _).
    revert Hs. apply Reclaim_quiet; try done.
    + cbn [trace set_trace set_target]. by rewrite removed_ids_app, Hr, app_nil_r.
    + cbn [trace set_trace set_target]. by rewrite freed_ids_app, Hf, app_nil_r.
Qed.

Lemma reachable_Reclaim s : reachable s → Reclaim s.
Proof.
  intros (s0 & (_ & Hi & _ & _ & Ht) & Hrun).
  assert (Reclaim s0) as H0.
  { unfold Reclaim. rewrite Ht, Hi. split_and!; try done; try constructor; set_solver. }
  clear Hi Ht. induction Hrun as [|x y z Hstep _ IH]; [done|].
  apply IH. by apply (step_Reclaim x y).
Qed.

Lemma chain_a_reclaimed_reachable : reachable chain_a_reclaimed.
Proof.
  destruct chain_a_completed_reachable as (s0 & H0 & Hrun).
  exists s0. split; [done|]. etrans; [exact Hrun|].
  eapply rtc_l; [apply (step_Dispatcher _ chain_op1_pushed); run_step|].
  eapply rtc_l.
  { apply (step_OnOperationComplete 0%N task_of_node_3 _ chain_op1_reported);
      [ apply list_elem_of_In; vm_compute; tauto
      | apply (bool_decide_unpack _); vm_compute; exact I
      | run_step ]. }
  eapply rtc_l; [apply (step_Dispatcher _ chain_op1_completed); run_step|].
  eapply rtc_l; [apply (step_handle 0%N 0 chain_op1_completed)|].
  eapply rtc_l; [apply (step_OnExternRCUpdate 0%N _ chain_a_reclaimed); run_step|].
  apply rtc_refl.
Qed.

(** In a state between calls no data id has been handed to [FreeData]
    twice, no node of the DAG holds a data id that was freed, and two data
    nodes of the DAG never hold the same data id. *)
Theorem data_freed_at_most_once (s : DagScheduler) (Hreach : reachable s) :
  NoDup (freed_ids (trace s)) ∧
  (∀ k d, k ∈ index_to_node_ s → data_at s k = Some d →
          data_id d ∉ freed_ids (trace s)) ∧
  (∀ k k' d d', k ∈ index_to_node_ s → k' ∈ index_to_node_ s →
     data_at s k = Some d → data_at s k' = Some d' → data_id d = data_id d' → k = k').
Proof.
  apply reachable_Reclaim in Hreach as (_ & _ & _ & R4 & R5 & _ & R7). split_and!.
  - done.
  - intros k d Hk Hd Hin. apply R5 in Hin as [_ Hin].
    apply (Hin k Hk). by apply data_at_data_id.
  - intros k k' d d' Hk Hk' Hd Hd' Heq. apply (R7 k k' (data_id d)); try done.
    + by apply data_at_data_id.
    + rewrite Heq. by apply data_at_data_id.
Qed.

Lemma data_freed_at_most_once_witness :
  freed_ids (trace chain_a_reclaimed) = [0%N] ∧
  NoDup (freed_ids (trace chain_a_reclaimed)) ∧
  (∀ k d, k ∈ index_to_node_ chain_a_reclaimed → data_at chain_a_reclaimed k = Some d →
          data_id d ∉ freed_ids (trace chain_a_reclaimed)) ∧
  (∀ k k' d d', k ∈ index_to_node_ chain_a_reclaimed → k' ∈ index_to_node_ chain_a_reclaimed →
     data_at chain_a_reclaimed k = Some d → data_at chain_a_reclaimed k' = Some d' →
     data_id d = data_id d' → k = k').
Proof.
  split; [vm_compute; reflexivity|].
  exact (data_freed_at_most_once chain_a_reclaimed chain_a_reclaimed_reachable).
Defined.

(** In a state between calls no node has been taken out of the DAG twice,
    and a node that was taken out is neither in the DAG nor in the
    runtime-info map, and its id is not handed out again. *)
Theorem node_removed_at_most_once (s : DagScheduler) (Hreach : reachable s) :
  NoDup (removed_ids (trace s)) ∧
  ∀ k, k ∈ removed_ids (trace s) →
    (k ∉ index_to_node_ s) ∧ rt_info_ s !! k = None ∧ heap s !! k = None ∧
    (k < next_node_id s)%N.
Proof.
  apply reachable_Inv in Hreach as HG. open_GInv HG.
  apply reachable_Reclaim in Hreach as (R1 & R2 & _). split; [done|].
  intros k Hk. apply R2 in Hk as [Hk Hlt]. split_and!; try done.
  - apply not_elem_of_dom. by rewrite Grt.
  - apply not_elem_of_dom. rewrite Ghd. set_solver.
Qed.

Lemma node_removed_at_most_once_witness :
  removed_ids (trace chain_a_reclaimed) = [1%N; 0%N] ∧
  NoDup (removed_ids (trace chain_a_reclaimed)) ∧
  ∀ k, k ∈ removed_ids (trace chain_a_reclaimed) →
    (k ∉ index_to_node_ chain_a_reclaimed) ∧ rt_info_ chain_a_reclaimed !! k = None ∧
    heap chain_a_reclaimed !! k = None ∧ (k < next_node_id chain_a_reclaimed)%N.
Proof.
  split; [vm_compute; reflexivity|].
  exact (node_removed_at_most_once chain_a_reclaimed chain_a_reclaimed_reachable).
Defined.


(** * Every node taken out of the DAG is deleted, once *)

Lemma undeleting_nil : undeleting [].
Proof. done. Qed.

Lemma undeleting_app t1 t2 : undeleting t1 → undeleting t2 → undeleting (t1 ++ t2).
Proof.
  intros [Hr1 Hd1] [Hr2 Hd2]. unfold undeleting.
  by rewrite removed_ids_app, deleted_ids_app, Hr1, Hr2, Hd1, Hd2.
Qed.

Ltac undeleting_one := by split.

Ltac solve_undeleting := by solve_appends undeleting_nil undeleting_app undeleting_one.

Lemma hands_over_weaken {A} (R R' : A → list N → Prop) (m : M A) :
  hands_over R m → (∀ a l, R a l → R' a l) → hands_over R' m.
Proof.
  intros Hm HR s a s' H. destruct (Hm _ _ _ H) as (t & Ht & Hd & Hl).
  exists t. auto.
Qed.

Lemma hands_over_ret {A} (R : A → list N → Prop) (a : A) : R a [] → hands_over R (mret a).
Proof.
  intros HR s a' s' H. inv_M H. exists []. by rewrite app_nil_r.
Qed.

Lemma hands_over_abort {A} (R : A → list N → Prop) e : hands_over R (abort e : M A).
Proof. intros s a' s' H. inv_M H. Qed.

Lemma hands_over_bind {A B} (R1 : A → list N → Prop) (R : B → list N → Prop)
    (m : M A) (f : A → M B) :
  hands_over R1 m →
  (∀ a, hands_over (λ b l2, ∀ l1, R1 a l1 → R b (l1 ++ l2)) (f a)) →
  hands_over R (m ≫= f).
Proof.
  intros Hm Hf s b s' H. apply bind_Ok in H as (a & s1 & H1 & H2).
  destruct (Hm _ _ _ H1) as (t1 & Ht1 & Hd1 & Hl1).
  destruct (Hf a _ _ _ H2) as (t2 & Ht2 & Hd2 & Hl2).
  exists (t1 ++ t2). split_and!.
  - by rewrite Ht2, Ht1, app_assoc.
  - by rewrite deleted_ids_app, Hd1, Hd2.
  - rewrite removed_ids_app. by apply Hl2.
Qed.

Lemma hands_over_bind_quiet {A B} (R : B → list N → Prop) (m : M A) (f : A → M B) :
  appends undeleting m → (∀ a, hands_over R (f a)) → hands_over R (m ≫= f).
Proof.
  intros Hm Hf s b s' H. apply bind_Ok in H as (a & s1 & H1 & H2).
  destruct (Hm _ _ _ H1) as (t1 & Ht1 & Hr1 & Hd1).
  destruct (Hf a _ _ _ H2) as (t2 & Ht2 & Hd2 & Hl2).
  exists (t1 ++ t2). split_and!.
  - by rewrite Ht2, Ht1, app_assoc.
  - by rewrite deleted_ids_app, Hd1, Hd2.
  - by rewrite removed_ids_app, Hr1.
Qed.

(** The steps of [m] that take nothing out of the DAG. *)
Ltac skip_quiet :=
  repeat (apply hands_over_bind_quiet; [solve_undeleting|intros ?]).

Ltac close_hands := intros; simplify_eq/=; rewrite ?app_nil_r; done.

Lemma hands_over_RemoveNodeFromDag n :
  hands_over (λ r l, l = [r]) (RemoveNodeFromDag n).
Proof.
  intros s r s' H. unfold RemoveNodeFromDag, GetNode in H.
  apply bind_Ok in H as (node & s0 & H0 & H).
  apply bind_Ok in H0 as (idx & s1 & H1 & H0). inv_M H1.
  destruct (decide (n ∈ index_to_node_ s)); [|inv_M H0].
  inv_M H0. inv_M H. by exists [ARemoveNodeFromDag n].
Qed.

Lemma hands_over_reclaim_data_node n :
  hands_over (λ r l, l = [r]) (reclaim_data_node n).
Proof.
  unfold reclaim_data_node. skip_quiet.
  apply (hands_over_bind _ _ _ _ (hands_over_RemoveNodeFromDag n)). intros r.
  skip_quiet. apply hands_over_ret. close_hands.
Qed.

Lemma hands_over_release_predecessor p :
  hands_over (λ del l, l = del) (release_predecessor p).
Proof.
  unfold release_predecessor. skip_quiet. destruct (decide _).
  - apply (hands_over_bind _ _ _ _ (hands_over_reclaim_data_node p)). intros r.
    apply hands_over_ret. close_hands.
  - by apply hands_over_ret.
Qed.

Lemma hands_over_release_live n p :
  hands_over (λ del l, l = del) (release_live n p).
Proof.
  unfold release_live.
  apply (hands_over_bind _ _ _ _ (hands_over_release_predecessor p)). intros del.
  skip_quiet. destruct (decide _).
  - apply hands_over_ret. close_hands.
  - apply hands_over_abort.
Qed.

Lemma hands_over_Collect {A} (f : A → M (list N)) v :
  (∀ x, hands_over (λ del l, l = del) (f x)) →
  hands_over (λ del l, l = del) (Collect f v).
Proof.
  intros Hf. induction v as [|x v IH]; simpl.
  - by apply hands_over_ret.
  - apply (hands_over_bind _ _ _ _ (Hf x)). intros ys.
    apply (hands_over_bind _ _ _ _ IH). intros zs.
    apply hands_over_ret. close_hands.
Qed.

Lemma hands_over_complete_node n node :
  hands_over (λ del l, l = del) (complete_node n node).
Proof.
  unfold complete_node. skip_quiet.
  apply (hands_over_bind (λ del l, l = del)).
  - destruct (decide _).
    + skip_quiet. apply hands_over_Collect, hands_over_release_live.
    + skip_quiet. apply (hands_over_bind (λ del l, l = del)).
      * destruct (decide _).
        -- apply (hands_over_bind _ _ _ _ (hands_over_reclaim_data_node n)). intros r.
           apply hands_over_ret. close_hands.
        -- by apply hands_over_ret.
      * intros del1. skip_quiet. destruct (elements _) as [|pred_node rest].
        -- apply hands_over_abort.
        -- skip_quiet. apply (hands_over_bind (λ del l, l = del)).
           ++ destruct (decide _).
              ** apply (hands_over_bind _ _ _ _ (hands_over_RemoveNodeFromDag pred_node)).
                 intros r. skip_quiet. apply hands_over_ret. close_hands.
              ** by apply hands_over_ret.
           ++ intros del2. apply hands_over_ret. close_hands.
  - intros del. skip_quiet. apply hands_over_ret. close_hands.
Qed.

Lemma Iter_Delete_trace del : ∀ s s',
  Iter Delete del s = Ok (tt, s') →
  ∃ t, trace s' = trace s ++ t ∧ removed_ids t = [] ∧ deleted_ids t = del.
Proof.
  induction del as [|n del IH]; intros s s' H; simpl in H.
  - inv_M H. exists []. by rewrite app_nil_r.
  - apply bind_Ok in H as ([] & s1 & H1 & H). unfold Delete in H1. inv_M H1.
    apply IH in H as (t & Ht & Hr & Hd). exists (ADelete n :: t). split_and!.
    + rewrite Ht. simpl. by rewrite <- app_assoc.
    + done.
    + simpl. by rewrite Hd.
Qed.

Lemma balanced_quiet {A} (m : M A) : appends undeleting m → balanced m.
Proof.
  intros Hm s a s' H. destruct (Hm _ _ _ H) as (t & Ht & Hr & Hd).
  exists t. by rewrite Hr, Hd.
Qed.

Lemma balanced_Create params result_sizes fn : balanced (Create params result_sizes fn).
Proof. apply balanced_quiet. solve_undeleting. Qed.

Lemma balanced_OnOperationComplete task : balanced (OnOperationComplete task).
Proof. apply balanced_quiet. solve_undeleting. Qed.

Lemma balanced_DispatcherBody ev : balanced (DispatcherBody ev).
Proof.
  intros s [] s' H. unfold DispatcherBody in H.
  apply bind_Ok in H as (node & s0 & H0 & H).
  apply bind_Ok in H as (del & s1 & H1 & H).
  assert (appends undeleting (GetNode ev.2)) as Hget by solve_undeleting.
  destruct (Hget _ _ _ H0) as (t0 & Ht0 & Hr0 & Hd0).
  match type of H1 with ?m _ = _ =>
    assert (hands_over (λ del l, l = del) m) as Hblock end.
  { skip_quiet. apply (hands_over_bind (λ del l, l = del)).
    - destruct (decide _); [skip_quiet; by apply hands_over_ret|].
      destruct (decide _); [apply hands_over_complete_node|by apply hands_over_ret].
    - intros del'. skip_quiet. apply hands_over_ret. close_hands. }
  destruct (Hblock _ _ _ H1) as (t1 & Ht1 & Hd1 & Hr1).
  apply Iter_Delete_trace in H as (t2 & Ht2 & Hr2 & Hd2).
  exists (t0 ++ t1 ++ t2). split.
  - by rewrite Ht2, Ht1, Ht0, <- !app_assoc.
  - by rewrite !deleted_ids_app, !removed_ids_app, Hr0, Hd0, Hd1, Hr1, Hr2, Hd2, app_nil_r.
Qed.

Lemma balanced_OnExternRCUpdate n : balanced (OnExternRCUpdate n).
Proof.
  intros s [] s' H. unfold OnExternRCUpdate in H.
  apply bind_Ok in H as (del & s1 & H1 & H).
  match type of H1 with ?m _ = _ =>
    assert (hands_over (λ del l, l = option_list del) m) as Hblock end.
  { skip_quiet. apply (hands_over_bind (λ del l, l = option_list del)).
    - destruct a0.
      + by apply hands_over_ret.
      + skip_quiet. destruct (decide _).
        * apply (hands_over_bind _ _ _ _ (hands_over_reclaim_data_node n)). intros r.
          apply hands_over_ret. close_hands.
        * by apply hands_over_ret.
      + apply hands_over_abort.
    - intros del'. skip_quiet. apply hands_over_ret. close_hands. }
  destruct (Hblock _ _ _ H1) as (t1 & Ht1 & Hd1 & Hr1).
  destruct del as [k|].
  - unfold Delete in H. inv_M H. exists (t1 ++ [ADelete k]). split.
    + simpl. by rewrite Ht1, <- app_assoc.
    + by rewrite deleted_ids_app, removed_ids_app, Hd1, Hr1, app_nil_r.
  - inv_M H. exists t1. split; [done|]. by rewrite Hd1, Hr1.
Qed.

Lemma step_balanced s s' :
  step s s' → ∃ t, trace s' = trace s ++ t ∧ deleted_ids t = removed_ids t.
Proof.
  intros Hstep. destruct Hstep as
    [params sizes fn s ret s' H | s s' H | device task s s' _ _ H | n x s
    | n s s' H | t acts s Hacts].
  - by apply (balanced_Create _ _ _ _ _ _ H).
  - simpl in H. unfold Pop in H. destruct (dispatcher_queue_ s) as [|ev q].
    + simplify_eq. exists []. by rewrite app_nil_r.
    + apply bind_Ok in H as ([] & s1 & H1 & H). simplify_eq.
      by apply (balanced_DispatcherBody ev _ _ _) in H1.
  - by apply (balanced_OnOperationComplete _ _ _ _ H).
  - exists []. by rewrite app_nil_r.
  - by apply (balanced_OnExternRCUpdate _ _ _ _ H).
  - apply wait_actions_quiet in Hacts as (Hr & _ & Hd).
    exists acts. split; [done|]. by rewrite Hr, Hd.
Qed.

Lemma reachable_balanced s : reachable s → deleted_ids (trace s) = removed_ids (trace s).
Proof.
  intros (s0 & (_ & _ & _ & _ & Ht) & Hrun).
  assert (deleted_ids (trace s0) = removed_ids (trace s0)) as H0 by by rewrite Ht.
  clear Ht. induction Hrun as [|x y z Hstep _ IH]; [done|].
  apply IH. apply step_balanced in Hstep as (t & -> & Ht).
  by rewrite deleted_ids_app, removed_ids_app, H0, Ht.
Qed.

(** In a state between calls the node objects that were deleted are the
    nodes that were taken out of the DAG, in the same order, and none was
    deleted twice: every call deletes what it removed before it returns. *)
Theorem removed_nodes_are_deleted_once (s : DagScheduler) (Hreach : reachable s) :
  deleted_ids (trace s) = removed_ids (trace s) ∧ NoDup (deleted_ids (trace s)) ∧
  ∀ k, k ∈ deleted_ids (trace s) → heap s !! k = None ∧ (k ∉ index_to_node_ s).
Proof.
  pose proof (reachable_balanced s Hreach) as Hb.
  apply reachable_Inv in Hreach as HG. open_GInv HG.
  apply reachable_Reclaim in Hreach as (R1 & R2 & _). rewrite Hb. split_and!; try done.
  intros k Hk. apply R2 in Hk as [Hk _]. split; [|done].
  apply not_elem_of_dom. rewrite Ghd. set_solver.
Qed.

Lemma removed_nodes_are_deleted_once_witness :
  deleted_ids (trace chain_a_reclaimed) = [1%N; 0%N] ∧
  deleted_ids (trace chain_a_reclaimed) = removed_ids (trace chain_a_reclaimed) ∧
  NoDup (deleted_ids (trace chain_a_reclaimed)) ∧
  ∀ k, k ∈ deleted_ids (trace chain_a_reclaimed) →
    heap chain_a_reclaimed !! k = None ∧ (k ∉ index_to_node_ chain_a_reclaimed).
Proof.
  split; [vm_compute; reflexivity|].
  exact (removed_nodes_are_deleted_once chain_a_reclaimed chain_a_reclaimed_reachable).
Defined.


(** * How the completion of a node can end the process *)

Section AbortsWith.
Context (P : Fatal → Prop).

Lemma aborts_with_ret {A} (a : A) : aborts_with P (mret a).
Proof. intros s e H. discriminate. Qed.

Lemma aborts_with_abort {A} e : P e → aborts_with P (abort e : M A).
Proof. intros He s e' H. by injection H as <-. Qed.

Lemma aborts_with_bind {A B} (m : M A) (f : A → M B) :
  aborts_with P m → (∀ a, aborts_with P (f a)) → aborts_with P (m ≫= f).
Proof.
  intros Hm Hf s e H. apply bind_Abort in H as [H|(a & s1 & _ & H)].
  - by apply (Hm s).
  - by apply (Hf a s1).
Qed.

Lemma aborts_with_gets {A} (g : DagScheduler → A) : aborts_with P (gets g).
Proof. intros s e H. discriminate. Qed.

Lemma aborts_with_modify g : aborts_with P (modify g).
Proof. intros s e H. discriminate. Qed.

Lemma aborts_with_CHECK b msg : P (CheckFailed msg) → aborts_with P (CHECK b msg).
Proof. intros Hm s e H. destruct b; [discriminate|]. by injection H as <-. Qed.

Lemma aborts_with_At n : P (NoRuntimeInfo n) → aborts_with P (At n).
Proof.
  intros Hn s e H. unfold At in H. destruct (rt_info_ s !! n); [discriminate|].
  by injection H as <-.
Qed.

Lemma aborts_with_deref n : P (Dangling n) → aborts_with P (deref n).
Proof.
  intros Hn s e H. unfold deref in H. destruct (heap s !! n); [discriminate|].
  by injection H as <-.
Qed.

Lemma aborts_with_Iter {A} (g : A → M unit) v :
  (∀ x, aborts_with P (g x)) → aborts_with P (Iter g v).
Proof.
  intros Hg. induction v as [|x v IH]; simpl.
  - apply aborts_with_ret.
  - apply aborts_with_bind; auto.
Qed.

Lemma aborts_with_Map {A B} (g : A → M B) v :
  (∀ x, aborts_with P (g x)) → aborts_with P (Map g v).
Proof.
  intros Hg. induction v as [|x v IH]; simpl.
  - apply aborts_with_ret.
  - apply aborts_with_bind; [auto|]. intros y.
    apply aborts_with_bind; [auto|]. intros ys. apply aborts_with_ret.
Qed.

Lemma aborts_with_Collect {A B} (g : A → M (list B)) v :
  (∀ x, aborts_with P (g x)) → aborts_with P (Collect g v).
Proof.
  intros Hg. induction v as [|x v IH]; simpl.
  - apply aborts_with_ret.
  - apply aborts_with_bind; [auto|]. intros y.
    apply aborts_with_bind; [auto|]. intros ys. apply aborts_with_ret.
Qed.
End AbortsWith.

(** [fatal_ok] proves that one given way of ending the process is among
    those of the completion arm. *)
Ltac fatal_ok :=
  first [ exact I | reflexivity
        | (apply list_elem_of_In; simpl; tauto) ].

(** [solve_aborts] proves [aborts_with completion_fatal m] by following the
    structure of [m]. *)
Ltac solve_aborts :=
  repeat first
    [ apply aborts_with_bind; [|intros ?]
    | apply aborts_with_ret
    | apply aborts_with_abort; fatal_ok
    | apply aborts_with_gets
    | apply aborts_with_modify
    | apply aborts_with_CHECK; fatal_ok
    | apply aborts_with_At; fatal_ok
    | apply aborts_with_deref; fatal_ok
    | apply aborts_with_Iter; intros ?
    | apply aborts_with_Map; intros ?
    | apply aborts_with_Collect; intros ?
    | match goal with
      | |- aborts_with _ (if ?c then _ else _) => destruct c
      | |- aborts_with _ (match ?c with _ => _ end) => destruct c
      | |- aborts_with _ (?g _ _ _ _) => unfold g
      | |- aborts_with _ (?g _ _ _) => unfold g
      | |- aborts_with _ (?g _ _) => unfold g
      | |- aborts_with _ (?g _) => unfold g
      | |- aborts_with _ ?g => unfold g
      end ].

Lemma DispatcherBody_aborts ev : aborts_with completion_fatal (DispatcherBody ev).
Proof. solve_aborts. Qed.

Lemma anything_nil : (λ _ : list Action, True) [].
Proof. done. Qed.

Lemma anything_app (t1 t2 : list Action) :
  (λ _ : list Action, True) t1 → (λ _ : list Action, True) t2 →
  (λ _ : list Action, True) (t1 ++ t2).
Proof. done. Qed.

(** The completion arm begins with the write of the state. *)
Lemma complete_node_first_write n node s del s' :
  complete_node n node s = Ok (del, s') →
  ∃ tr, trace s' = trace s ++ ARtWrite n :: tr.
Proof.
  intros H. unfold complete_node in H.
  apply bind_Ok in H as ([] & s1 & H1 & H).
  unfold At_update in H1. inv_M H1.
  match type of H with ?m ?t = _ =>
    assert (appends (λ _, True) m) as Hrest
      by solve_appends anything_nil anything_app ltac:(done)
  end.
  destruct (Hrest _ _ _ H) as (tr & Htr & _).
  exists tr. rewrite Htr. simpl. by rewrite <- app_assoc.
Qed.

(** C3, amended: the dispatcher does not look at the state a node is in
    when it handles a [kToComplete] event for it.  Whatever state is on
    record for the node, [kCompleted] included, the outcome of the
    iteration is the same, so that a replayed completion is handled like a
    first one: when the iteration returns, it has locked the node and, as
    its first action under the lock, written the state of the node.  The
    iteration ends the process only through a look-up of a node that is
    gone from the DAG, the runtime-info map or memory, a node of the wrong
    kind, one of the checks of the completion arm on [reference_count],
    [num_triggers_needed] and the number of predecessors, or the loop over
    the predecessors of an op node run into an erased element; never
    through a test of the state. *)
Theorem completion_ignores_prior_state (n : N) (st : NodeState) (s : DagScheduler) :
  DispatcherBody (kToComplete, n) (set_rt_info (alter (set_state st) n) s)
  = DispatcherBody (kToComplete, n) s ∧
  (∀ s', DispatcherBody (kToComplete, n) s = Ok (tt, s') →
     ∃ node tr, heap s !! n = Some node ∧
       new_trace s s'
       = ALock ({[n]} ∪ predecessors_ node ∪ successors_ node) :: ARtWrite n :: tr) ∧
  (∀ e, DispatcherBody (kToComplete, n) s = Abort e → completion_fatal e).
Proof.
  split_and!.
  - apply DispatcherBody_absorbs_state.
  - intros s' H.
    assert (∃ node, heap s !! n = Some node) as [node Hnode].
    { unfold DispatcherBody in H. apply bind_Ok in H as (node & s1 & H1 & _).
      unfold GetNode in H1. apply bind_Ok in H1 as (idx & s2 & H2 & H1). inv_M H2.
      destruct (decide _); [|inv_M H1]. inv_M H1. eauto. }
    exists node.
    destruct (DispatcherBody_completion (kToComplete, n) s s' node Hnode)
      as (_ & del & sB & HB & HD); [by intros [[=] _] | done |]. cbn [fst snd] in *.
    apply complete_node_first_write in HB as (tr & Htr).
    apply Iter_Delete_effect in HD as (Htr' & _).
    eexists. split; [done|]. apply new_trace_app.
    rewrite Htr'. simpl. rewrite Htr. simpl. rewrite <- !app_assoc. simpl. reflexivity.
  - intros e H. by apply (DispatcherBody_aborts _ _ _ H).
Qed.

(** * What [Create] does, action by action *)

Lemma silent_nil : silent [].
Proof. done. Qed.

Lemma silent_app t1 t2 : silent t1 → silent t2 → silent (t1 ++ t2).
Proof. by intros -> ->. Qed.

Lemma AddEdge_silent u v : appends silent (AddEdge u v).
Proof. solve_appends silent_nil silent_app ltac:(fail). Qed.

Lemma NewOpNode_trace ins outs o s op se :
  NewOpNode ins outs o s = Ok (op, se) →
  op = next_node_id s ∧ trace se = trace s ++ [ANewOpNode op].
Proof.
  intros H. unfold NewOpNode in H.
  apply bind_Ok in H as (n & s0 & H0 & H). inv_M H0.
  apply bind_Ok in H as ([] & s0 & H0 & H). inv_M H0.
  apply bind_Ok in H as ([] & s0 & H0 & H). inv_M H0.
  apply bind_Ok in H as ([] & s0 & H0 & H). inv_M H0.
  apply bind_Ok in H as ([] & s1 & H1 & H).
  apply bind_Ok in H as ([] & s2 & H2 & H). inv_M H.
  destruct (appends_Iter _ silent_nil silent_app _ ins
              (λ d, AddEdge_silent d _) _ _ _ H1) as (ta & Hta & ->).
  destruct (appends_Iter _ silent_nil silent_app _ outs
              (λ d, AddEdge_silent _ d) _ _ _ H2) as (tb & Htb & ->).
  split; [done|]. simpl. rewrite Htb, Hta. simpl. by rewrite !app_nil_r.
Qed.

Lemma OnCreateEdge_trace u v s s' :
  OnCreateEdge u v s = Ok (tt, s') →
  trace s' = trace s ++ ARtWrite u ::
               (if decide (state_at s u = Some kCompleted) then [] else [ARtWrite v]).
Proof.
  intros H. unfold OnCreateEdge in H.
  apply bind_Ok in H as (st & sa & Hrv & H). inv_M Hrv.
  apply bind_Ok in H as ([] & sb & Hready & H). inv_M Hready. clean_checks.
  apply bind_Ok in H as ([] & sc & Hru & H). inv_M Hru.
  apply bind_Ok in H as (st' & sd & Hru' & H). inv_M Hru'.
  match goal with
  | Hv : rt_info_ s !! v = Some _, Hu : rt_info_ s !! u = Some _,
    Hu' : alter _ u (rt_info_ s) !! u = Some _ |- _ =>
      rename Hv into Hrv; rename Hu into Hru;
      rewrite lookup_alter_eq, Hru in Hu'; simpl in Hu'; injection Hu' as <-
  end.
  simpl in H. unfold state_at. rewrite Hru. simpl.
  destruct (decide (state x0 ≠ kCompleted)) as [Hne|He].
  - unfold At_update in H. inv_M H. rewrite decide_False by congruence.
    simpl. by rewrite <- app_assoc.
  - inv_M H. rewrite decide_True; [done|].
    destruct (decide (state x0 = kCompleted)) as [->|]; done.
Qed.

(** The trace of a loop of [OnCreateEdge] calls; the states on record stay
    as they are. *)
Lemma create_edges_trace (es : list (N * N)) : ∀ s s',
  Iter (λ e : N * N, OnCreateEdge e.1 e.2) es s = Ok (tt, s') →
  trace s' = trace s ++
    flat_map (λ e : N * N, ARtWrite e.1 ::
                if decide (state_at s e.1 = Some kCompleted) then [] else [ARtWrite e.2]) es.
Proof.
  induction es as [|[u v] es IH]; intros s s' H; simpl in H.
  - inv_M H. by rewrite app_nil_r.
  - apply bind_Ok in H as ([] & s1 & H1 & H).
    pose proof (OnCreateEdge_views _ _ _ _ H1) as (_ & _ & _ & _ & Hst & _).
    apply OnCreateEdge_trace in H1. rewrite (IH _ _ H), H1. cbn [flat_map fst snd].
    rewrite <- !app_assoc. f_equal. cbn [app]. f_equal.
    f_equal. apply flat_map_ext. intros [a b]. cbn [fst snd].
    by rewrite Hst.
Qed.

Lemma ProcessIfReady_trace n s s' :
  ProcessIfReady n s = Ok (tt, s') →
  state_at s n = Some kReady ∧ rt_info_ s' = rt_info_ s ∧
  trace s' = trace s ++
    if decide (triggers_at s n = 0)
    then [AIncYetToFinish; AQueuePush (kToRun, n)] else [].
Proof.
  intros H. unfold ProcessIfReady in H.
  apply bind_Ok in H as (st & sa & Ha & H). inv_M Ha.
  apply bind_Ok in H as ([] & sb & Hb & H). inv_M Hb. clean_checks.
  apply bind_Ok in H as (ri & sc & Hc & H). inv_M Hc.
  match goal with Hr : rt_info_ s !! n = Some ?x |- _ => rename Hr into Hri; rename x into ri end.
  unfold state_at, triggers_at. rewrite Hri. simpl.
  split; [by f_equal|].
  destruct (decide (num_triggers_needed ri = 0)).
  - unfold incr_yet_to_finish, Push in H. inv_M H. split; [done|].
    simpl. by rewrite <- app_assoc.
  - inv_M H. by rewrite app_nil_r.
Qed.

(** ** The data ids of the results *)

Lemma fresh_data_node_data_id sz dev s n s1 :
  (d ← GenerateDataId; NewDataNode (mkPhysicalData sz dev d 0)) s = Ok (n, s1) →
  n = next_node_id s ∧ next_node_id s1 = N.succ (next_node_id s) ∧
  next_data_id s1 = N.succ (next_data_id s) ∧
  data_id_at s1 n = Some (next_data_id s) ∧
  ∀ k, k ≠ n → data_id_at s1 k = data_id_at s k.
Proof.
  intros H. unfold GenerateDataId, NewDataNode in H. inv_M H.
  split_and!; try done.
  - unfold data_id_at. simpl. by rewrite lookup_insert_eq.
  - intros k Hk. unfold data_id_at. simpl. by rewrite lookup_insert_ne.
Qed.

Lemma new_result_nodes_data_ids dev sizes : ∀ s ids sa,
  new_result_nodes dev sizes s = Ok (ids, sa) →
  next_data_id sa = (next_data_id s + N.of_nat (length sizes))%N ∧
  next_node_id sa = (next_node_id s + N.of_nat (length sizes))%N ∧
  (∀ k, (k < next_node_id s)%N → data_id_at sa k = data_id_at s k) ∧
  ∀ i, (i < length sizes)%nat →
    data_id_at sa (next_node_id s + N.of_nat i) = Some (next_data_id s + N.of_nat i)%N.
Proof.
  unfold new_result_nodes.
  induction sizes as [|sz sizes IH]; intros s ids sa H; simpl in H.
  - apply mret_Ok in H. injection H as -> ->. split_and!; try done.
    + simpl. lia.
    + simpl. lia.
    + intros i Hi. simpl in Hi. lia.
  - apply bind_Ok in H as (n & s1 & H1 & H).
    apply bind_Ok in H as (ns & s2 & H2 & H).
    apply mret_Ok in H. injection H as -> ->.
    apply fresh_data_node_data_id in H1 as (-> & Hn1 & Hd1 & Hnew & Hold).
    destruct (IH _ _ _ H2) as (Hd & Hn & Hbelow & Hids).
    cbn [length]. split_and!.
    + rewrite Hd, Hd1. lia.
    + rewrite Hn, Hn1. lia.
    + intros k Hk. rewrite Hbelow by lia. apply Hold. lia.
    + intros [|i] Hi.
      * replace (next_node_id s + N.of_nat 0)%N with (next_node_id s) by lia.
        replace (next_data_id s + N.of_nat 0)%N with (next_data_id s) by lia.
        rewrite Hbelow by lia. done.
      * replace (next_node_id s + N.of_nat (S i))%N
          with (next_node_id s1 + N.of_nat i)%N by lia.
        replace (next_data_id s + N.of_nat (S i))%N
          with (next_data_id s1 + N.of_nat i)%N by lia.
        apply Hids. simpl in Hi. lia.
Qed.

Lemma next_node_id_emit s a : next_node_id (set_trace (λ t, t ++ [a]) s) = next_node_id s.
Proof. done. Qed.

Lemma next_data_id_emit s a : next_data_id (set_trace (λ t, t ++ [a]) s) = next_data_id s.
Proof. done. Qed.

Lemma NewOpNode_data_id ins outs o s op se r :
  NewOpNode ins outs o s = Ok (op, se) → r ≠ next_node_id s →
  data_id_at se r = data_id_at s r ∧ next_data_id se = next_data_id s.
Proof.
  intros H Hr. unfold NewOpNode in H.
  apply bind_Ok in H as (n & s0 & H0 & H). inv_M H0.
  apply bind_Ok in H as ([] & s0 & H0 & H). inv_M H0.
  apply bind_Ok in H as ([] & s0 & H0 & H). inv_M H0.
  apply bind_Ok in H as ([] & s0 & H0 & H). inv_M H0.
  match type of H with ?m ?t = _ =>
    assert (maintains (λ t', data_id_at t' r = data_id_at t r ∧
                             next_data_id t' = next_data_id t) m) as K
  end.
  { repeat first
      [ apply maintains_bind; [|intros ?] | apply maintains_ret
      | apply maintains_Iter; intros ? | apply maintains_deref
      | apply maintains_modify; intros ? [<- <-]; split; [|done];
          first [ reflexivity
                | apply data_id_at_alter; intros ?; reflexivity ]
      | match goal with |- maintains _ (AddEdge _ _) => unfold AddEdge end ]. }
  apply K in H as [-> ->]; [|done]. split; [|done].
  unfold data_id_at. simpl. by rewrite lookup_insert_ne.
Qed.

(** What the phases of [Create] after the allocation of the results leave
    as it is: every view [f] of the scheduler that reads neither the trace,
    the runtime info, the queue nor the count of unfinished work, that does
    not change when a handle pins its node or the device of an op is set,
    and that the allocation of the op node leaves alone. *)
Lemma Create_tail_keeps {X} (f : DagScheduler → X) fn ids ps sa sb sc cover op se sf sg sh si dev :
  (∀ s a, f (set_trace (λ t, t ++ [a]) s) = f s) →
  (∀ s g, f (set_rt_info g s) = f s) →
  (∀ s g, f (set_queue g s) = f s) →
  (∀ s g, f (set_yet_to_finish g s) = f s) →
  (∀ s n, f (set_heap (alter pin n) s) = f s) →
  (∀ s n d, f (set_heap (alter (set_op_device_id d) n) s) = f s) →
  (∀ s1 s2 x, NewOpNode ps ids (mkPhysicalOp fn 0) s1 = Ok (x, s2) →
              next_node_id s1 = next_node_id sa → f s2 = f s1) →
  Iter OnCreateNode ids sa = Ok (tt, sb) →
  Map new_DagChunk ids sb = Ok (map DagChunk ids, sc) →
  NewOpNode ps ids (mkPhysicalOp fn 0) (set_trace (λ t, t ++ [ALock cover]) sc)
    = Ok (op, se) →
  OnCreateNode op
    (set_trace (λ t, t ++ [ASetDevice op]) (set_heap (alter (set_op_device_id dev) op) se))
    = Ok (tt, sf) →
  Iter (λ n, OnCreateEdge n op) ps sf = Ok (tt, sg) →
  Iter (λ n, OnCreateEdge op n) ids sg = Ok (tt, sh) →
  ProcessIfReady op sh = Ok (tt, si) →
  f (set_trace (λ t, t ++ [AUnlock]) si) = f sa.
Proof.
  intros Ft Frt Fq Fy Fpin Fdev Fop Hb Hc He Hf Hg Hh Hi.
  assert (keeps next_node_id (Iter OnCreateNode ids)) as Nb
    by solve_keeps next_node_id_emit.
  assert (keeps next_node_id (Map new_DagChunk ids)) as Nc
    by solve_keeps next_node_id_emit.
  assert (keeps f (Iter OnCreateNode ids)) as Kb.
  { apply keeps_Iter. intros n. unfold OnCreateNode, AddNode.
    apply keeps_bind; [apply keeps_modify; intros; apply Frt|].
    intros _. by apply keeps_emit. }
  assert (keeps f (Map new_DagChunk ids)) as Kc.
  { apply keeps_Map. intros n. unfold new_DagChunk.
    apply keeps_bind; [apply keeps_deref|]. intros _.
    apply keeps_bind; [apply keeps_modify; intros; apply Fpin|]. intros _.
    apply keeps_bind; [by apply keeps_emit|]. intros _. apply keeps_ret. }
  assert (∀ u v, keeps f (OnCreateEdge u v)) as Kedge.
  { intros u v. unfold OnCreateEdge, GetState, At_update.
    repeat first [ apply keeps_bind; [|intros ?] | apply keeps_ret | apply keeps_At
                 | apply keeps_CHECK | apply keeps_modify; intros; apply Frt
                 | by apply keeps_emit
                 | match goal with |- keeps _ (if ?c then _ else _) => destruct c end ]. }
  assert (keeps f (ProcessIfReady op)) as Kp.
  { unfold ProcessIfReady, GetState, incr_yet_to_finish, Push.
    repeat first [ apply keeps_bind; [|intros ?] | apply keeps_ret | apply keeps_At
                 | apply keeps_CHECK | apply keeps_modify; intros; apply Fy
                 | apply keeps_modify; intros; apply Fq
                 | by apply keeps_emit
                 | match goal with |- keeps _ (if ?c then _ else _) => destruct c end ]. }
  rewrite Ft, (Kp _ _ _ Hi).
  rewrite (keeps_Iter f _ ids (λ n, Kedge op n) _ _ _ Hh).
  rewrite (keeps_Iter f _ ps (λ n, Kedge n op) _ _ _ Hg).
  unfold OnCreateNode, AddNode in Hf. inv_M Hf. rewrite Ft, Frt, Ft, Fdev.
  rewrite (Fop _ _ _ He) by (simpl; by rewrite (Nc _ _ _ Hc), (Nb _ _ _ Hb)).
  by rewrite Ft, (Kc _ _ _ Hc), (Kb _ _ _ Hb).
Qed.

(** The data ids that [Create] gives to its results are the next ones of
    the counter, in the order of the shapes. *)
Lemma Create_data_ids params sizes fn s ret s' :
  Create params sizes fn s = Ok (ret, s') →
  next_data_id s' = (next_data_id s + N.of_nat (length sizes))%N ∧
  ∀ i, (i < length sizes)%nat →
    data_id_at s' (next_node_id s + N.of_nat i) = Some (next_data_id s + N.of_nat i)%N.
Proof.
  intros H. apply Create_phases in H
    as (ids & ps & sa & sb & sc & cover & op & se & sf & sg & sh & si &
        Ha & Hb & Hparams & Hc & Hd & He & Hf & Hg & Hh & Hi & ->).
  apply new_result_nodes_data_ids in Ha as (Hda & Hna & _ & Hids).
  pose proof (new_handles_trace _ _ _ _ Hc) as [_ ->].
  split.
  - rewrite <- Hda.
    apply (Create_tail_keeps next_data_id fn ids ps sa sb sc cover op se sf sg sh si
             (current_device_id_ s)); try done.
    intros s1 s2 x Hop _.
    assert (keeps next_data_id (NewOpNode ps ids (mkPhysicalOp fn 0))) as K
      by solve_keeps next_data_id_emit.
    apply (K _ _ _ Hop).
  - intros i Hi'. rewrite <- (Hids i Hi').
    apply (Create_tail_keeps (λ t, data_id_at t (next_node_id s + N.of_nat i)%N)
             fn ids ps sa sb sc cover op se sf sg sh si (current_device_id_ s));
      try done.
    + intros t n. apply data_id_at_alter. intros y. simpl. by destruct (body y).
    + intros t n d. apply data_id_at_alter. intros y. simpl. by destruct (body y).
    + intros s1 s2 x Hop Hn.
      apply (NewOpNode_data_id _ _ _ _ _ _ (next_node_id s + N.of_nat i)%N) in Hop
        as [Hop _]; [done|]. rewrite Hn, Hna. lia.
Qed.

(** ** The edges of the new op node *)

Lemma heap_emit s a : heap (set_trace (λ t, t ++ [a]) s) = heap s.
Proof. done. Qed.

(** The edges that [Create] adds to the DAG are those between the new op
    node and its inputs and results. *)
Lemma Create_edges params sizes fn s ret s' :
  Inv s → Create params sizes fn s = Ok (ret, s') →
  ∃ ps, params = map DagChunk ps ∧
    let ids := result_ids s (length sizes) in
    let op := (next_node_id s + N.of_nat (length sizes))%N in
    (op ∉ index_to_node_ s) ∧ (∀ r, r ∈ ids → r ∉ index_to_node_ s) ∧
    (∀ j p, p ∈ preds_at s' j ↔
       p ∈ preds_at s j ∨ (p ∈ ps ∧ j = op) ∨ (p = op ∧ j ∈ ids)) ∧
    (∀ j x, x ∈ succs_at s' j ↔
       x ∈ succs_at s j ∨ (j ∈ ps ∧ x = op) ∨ (j = op ∧ x ∈ ids)).
Proof.
  intros HG H. apply Create_phases in H
    as (ids & ps & sa & sb & sc & cover & op & se & sf & sg & sh & si &
        Ha & Hb & Hparams & Hc & Hd & He & Hf & Hg & Hh & Hi & ->).
  exists ps. split; [done|]. open_GInv HG.
  assert (Hdi : dom (heap s) = index_to_node_ s) by (rewrite Ghd; set_solver).
  pose proof (new_result_nodes_ids _ _ _ _ _ Ha) as [Hids_eq Hnext_a].
  apply new_data_nodes_views in Ha as (Hn_a & Hids & Hf_a & Hd_a & Hi_a & Hv_a & Hr_a & Hq_a);
    [|done].
  apply register_nodes_views in Hb as ((Hh_b & Hi_b & Hn_b & Hq_b) & Hd_b & Hout_b & Hin_b).
  apply new_handles_views in Hc as (_ & Hd_c & Hi_c & Hn_c & Hv_c & Hr_c & Hq_c).
  set (sd := set_trace (λ t, t ++ [ALock cover]) sc) in *.
  apply NewOpNode_views in He as (Hop & Hn_e & Hinout & Hd_e & Hi_e & [Hr_e Hq_e] & Hp_e & Hs_e);
    [|(intros k Hk; change (dom (heap sd)) with (dom (heap sc)) in Hk;
       change (next_node_id sd) with (next_node_id sc);
       rewrite Hd_c, Hh_b in Hk; rewrite Hn_c, Hn_b; by apply Hf_a)].
  change (next_node_id sd) with (next_node_id sc) in *.
  set (se' := set_trace (λ t, t ++ [ASetDevice op])
                (set_heap (alter (set_op_device_id (current_device_id_ s)) op) se)) in *.
  assert (Hv_e' : ∀ j, preds_at se' j = preds_at se j ∧ succs_at se' j = succs_at se j).
  { intros j. unfold preds_at, succs_at, se'. simpl.
    destruct (decide (op = j)) as [->|Hne].
    - rewrite lookup_alter_eq. by destruct (heap se !! j).
    - by rewrite lookup_alter_ne. }
  apply OnCreateNode_views in Hf as ((Hh_f & _) & _).
  rewrite <- (Iter_map (λ e : N * N, OnCreateEdge e.1 e.2) (λ n, (n, op))) in Hg.
  rewrite <- (Iter_map (λ e : N * N, OnCreateEdge e.1 e.2) (λ n, (op, n))) in Hh.
  apply create_edges_views in Hg as ((Hh_g & _) & _).
  apply create_edges_views in Hh as ((Hh_h & _) & _).
  assert (keeps heap (ProcessIfReady op)) as Kp by solve_keeps heap_emit.
  assert (Hh_i : heap (set_trace (λ t, t ++ [AUnlock]) si) = heap sh)
    by (simpl; apply (Kp _ _ _ Hi)).
  assert (Hopn : op = (next_node_id s + N.of_nat (length sizes))%N) by congruence.
  subst ids. rewrite <- Hopn. cbn zeta. split_and!.
  - rewrite <- Hdi. intros Hin%Gfr. lia.
  - intros r Hr. rewrite <- Hdi. intros Hin%Gfr. apply Hids in Hr. lia.
  - intros j p.
    destruct (views_of_heap _ _ Hh_i) as [-> _], (views_of_heap _ _ Hh_h) as [-> _],
      (views_of_heap _ _ Hh_g) as [-> _], (views_of_heap _ _ Hh_f) as [-> _],
      (Hv_e' j) as [-> _].
    rewrite Hp_e. change (preds_at sd j) with (preds_at sc j).
    destruct (Hv_c j) as [-> _], (views_of_heap _ _ Hh_b) as [-> _], (Hv_a j) as [-> _].
    done.
  - intros j x.
    destruct (views_of_heap _ _ Hh_i) as [_ ->], (views_of_heap _ _ Hh_h) as [_ ->],
      (views_of_heap _ _ Hh_g) as [_ ->], (views_of_heap _ _ Hh_f) as [_ ->],
      (Hv_e' j) as [_ ->].
    rewrite Hs_e. change (succs_at sd j) with (succs_at sc j).
    destruct (Hv_c j) as [_ ->], (views_of_heap _ _ Hh_b) as [_ ->], (Hv_a j) as [_ ->].
    done.
Qed.

Lemma flat_map_fmap {A B C} (f : B → list C) (g : A → B) (l : list A) :
  flat_map f (map g l) = flat_map (λ x, f (g x)) l.
Proof. induction l as [|x l IH]; simpl; [done|]. by rewrite IH. Qed.

Lemma lock_free_flat_map {A} (f : A → list Action) (l : list A) :
  (∀ x, lock_free (f x)) → lock_free (flat_map f l).
Proof.
  intros Hf. induction l as [|x l IH]; simpl; [constructor|].
  apply lock_free_app; auto.
Qed.

Lemma lock_free_map {A} (f : A → Action) (l : list A) :
  (∀ x, lock_free [f x]) → lock_free (map f l).
Proof.
  intros Hf. induction l as [|x l IH]; simpl; [constructor|].
  constructor; [|done]. specialize (Hf x). by inversion Hf.
Qed.

(** C1, amended: [Create] first allocates one data node per result shape,
    each with the next data id of the counter, registers each in the
    runtime-info map and makes a handle for each, all without a lock; only
    then it takes one [MultiNodeLock], which covers the input data nodes.
    Under the lock, in this order, it allocates the op node with its edges,
    sets its device, registers it, counts each input (one write to the
    [reference_count] of the input and, unless the input is [kCompleted],
    one to the [num_triggers_needed] of the op node) and each result (one
    write to the [reference_count] of the op node and one to the
    [num_triggers_needed] of the result), and calls [ProcessIfReady], which
    counts and enqueues the op node if its [num_triggers_needed] is 0.  The
    release of the lock is its last action.  The data ids of the results
    are new: between calls every data id in the DAG is below the counter.
    The edges added are those of the op node; and, for handles of DAG
    nodes, the counters end as follows: the op node has [reference_count]
    the number of results and [num_triggers_needed] the number of inputs
    not [kCompleted], each result has 0 and 1, and an input has its
    [reference_count] raised by the number of times it was given. *)
Theorem Create_locks_after_result_nodes (params : list BackendChunk)
    (result_sizes : list Scale) (fn : ComputeFn) (s : DagScheduler)
    (ret : list BackendChunk) (s' : DagScheduler)
    (Hrun : Create params result_sizes fn s = Ok (ret, s')) :
  ∃ ps cover,
    let ids := result_ids s (length result_sizes) in
    let op := (next_node_id s + N.of_nat (length result_sizes))%N in
    let unlocked := map ANewDataNode ids ++ map AAddNode ids ++ map ANewChunk ids in
    let body :=
      [ANewOpNode op; ASetDevice op; AAddNode op]
      ++ flat_map (λ p, ARtWrite p ::
                     if decide (state_at s' p = Some kCompleted)
                     then [] else [ARtWrite op]) ps
      ++ flat_map (λ r, [ARtWrite op; ARtWrite r]) ids
      ++ (if decide (triggers_at s' op = 0)
          then [AIncYetToFinish; AQueuePush (kToRun, op)] else []) in
    params = map DagChunk ps ∧ ret = map DagChunk ids ∧
    (∀ p, p ∈ ps → p ∈ cover) ∧
    new_trace s s' = unlocked ++ [ALock cover] ++ body ++ [AUnlock] ∧
    outside_lock false (new_trace s s') = unlocked ∧
    lock_free unlocked ∧ lock_free body ∧
    next_data_id s' = (next_data_id s + N.of_nat (length result_sizes))%N ∧
    (∀ i, (i < length result_sizes)%nat →
       data_id_at s' (next_node_id s + N.of_nat i)
       = Some (next_data_id s + N.of_nat i)%N) ∧
    (reachable s →
       (∀ k d, k ∈ index_to_node_ s → data_id_at s k = Some d → (d < next_data_id s)%N) ∧
       (op ∉ index_to_node_ s) ∧ (∀ r, r ∈ ids → r ∉ index_to_node_ s) ∧
       (∀ j p, p ∈ preds_at s' j ↔
          p ∈ preds_at s j ∨ (p ∈ ps ∧ j = op) ∨ (p = op ∧ j ∈ ids)) ∧
       (∀ j x, x ∈ succs_at s' j ↔
          x ∈ succs_at s j ∨ (j ∈ ps ∧ x = op) ∨ (j = op ∧ x ∈ ids)) ∧
       ((∀ p, p ∈ ps → p ∈ index_to_node_ s) →
          state_at s' op = Some kReady ∧
          rc_at s' op = Some (Z.of_nat (length result_sizes)) ∧
          triggers_at s' op = Z.of_nat (length (pending_inputs s ps)) ∧
          (∀ r, r ∈ ids →
             state_at s' r = Some kReady ∧ rc_at s' r = Some 0 ∧ triggers_at s' r = 1) ∧
          (∀ k, k ∈ index_to_node_ s →
             state_at s' k = state_at s k ∧ triggers_at s' k = triggers_at s k ∧
             rc_at s' k = (λ x, x + occurrences k ps) <$> rc_at s k))).
Proof.
  pose proof (Create_data_ids _ _ _ _ _ _ Hrun) as [Hnd Hdid].
  pose proof (λ HI HL, Create_effect _ _ _ _ _ _ HI HL Hrun) as Heffect.
  pose proof (λ HI, Create_edges _ _ _ _ _ _ HI Hrun) as Hedges.
  destruct (Create_phases _ _ _ _ _ _ Hrun)
    as (ids & ps & sa & sb & sc & cover & op & se & sf & sg & sh & si &
        Ha & Hb & Hps & Hc & Hd & He & Hf & Hg & Hh & Hi & ->).
  pose proof (new_result_nodes_ids _ _ _ _ _ Ha) as [Hids Hna].
  apply new_result_nodes_trace in Ha as [Hta Hlen].
  assert (next_node_id sc = next_node_id sa) as Hnc.
  { assert (keeps next_node_id (Iter OnCreateNode ids)) as Kb
      by solve_keeps next_node_id_emit.
    assert (keeps next_node_id (Map new_DagChunk ids)) as Kc
      by solve_keeps next_node_id_emit.
    by rewrite (Kc _ _ _ Hc), (Kb _ _ _ Hb). }
  apply register_nodes_trace in Hb as Htb.
  apply new_handles_trace in Hc as [Htc ->].
  pose proof (MultiNodeLock_vec_cover _ _ _ Hd) as Hcover.
  apply NewOpNode_trace in He as [Hop Hte]. simpl in Hop, Hte.
  assert (op = (next_node_id s + N.of_nat (length result_sizes))%N) as Hop'
    by congruence.
  assert (trace sf = trace se ++ [ASetDevice op; AAddNode op]) as Htf.
  { clear -Hf. unfold OnCreateNode, AddNode in Hf. inv_M Hf.
    simpl. by rewrite <- app_assoc. }
  rewrite <- (Iter_map (λ e : N * N, OnCreateEdge e.1 e.2) (λ n, (n, op))) in Hg.
  rewrite <- (Iter_map (λ e : N * N, OnCreateEdge e.1 e.2) (λ n, (op, n))) in Hh.
  pose proof (create_edges_views _ _ _ Hg) as (_ & _ & _ & Hst_g & _).
  pose proof (create_edges_views _ _ _ Hh) as (_ & _ & _ & Hst_h & _).
  apply create_edges_trace in Hg as Htg. apply create_edges_trace in Hh as Hth.
  apply ProcessIfReady_trace in Hi as (Hready & Hrt_i & Hti).
  rewrite !flat_map_fmap in *. cbn [fst snd] in *.
  assert (∀ k, state_at (set_trace (λ t, t ++ [AUnlock]) si) k = state_at sf k) as Hst.
  { intros k. unfold state_at at 1. simpl. rewrite Hrt_i.
    change (state <$> rt_info_ sh !! k) with (state_at sh k). by rewrite Hst_h, Hst_g. }
  assert (triggers_at (set_trace (λ t, t ++ [AUnlock]) si) op = triggers_at sh op) as Htrig.
  { unfold triggers_at. simpl. by rewrite Hrt_i. }
  assert (state_at sg op ≠ Some kCompleted) as Hopst.
  { rewrite <- Hst_h, Hready. discriminate. }
  exists ps, cover. subst ids. rewrite <- Hop'. cbn zeta.
  set (ids := result_ids s (length result_sizes)) in *.
  assert (lock_free (map ANewDataNode ids ++ map AAddNode ids ++ map ANewChunk ids))
    as Hunl.
  { repeat apply lock_free_app; apply lock_free_map; intros; lock_free_one. }
  set (body := [ANewOpNode op; ASetDevice op; AAddNode op]
      ++ flat_map (λ p, ARtWrite p ::
                     if decide (state_at (set_trace (λ t, t ++ [AUnlock]) si) p
                                = Some kCompleted)
                     then [] else [ARtWrite op]) ps
      ++ flat_map (λ r, [ARtWrite op; ARtWrite r]) ids
      ++ (if decide (triggers_at (set_trace (λ t, t ++ [AUnlock]) si) op = 0)
          then [AIncYetToFinish; AQueuePush (kToRun, op)] else [])).
  assert (lock_free body) as Hbody.
  { unfold body. clear. repeat apply lock_free_app.
    - lock_free_one.
    - apply lock_free_flat_map. intros p.
      case_decide; lock_free_one.
    - apply lock_free_flat_map. intros r. lock_free_one.
    - case_decide; lock_free_one. }
  assert (new_trace s (set_trace (λ t, t ++ [AUnlock]) si)
          = (map ANewDataNode ids ++ map AAddNode ids ++ map ANewChunk ids)
              ++ [ALock cover] ++ body ++ [AUnlock]) as Htrace.
  { apply new_trace_app. simpl. rewrite Hti, Hth, Htg, Htf.
    rewrite Hte. simpl. rewrite Htc, Htb, Hta. unfold body.
    rewrite Htrig. rewrite <- !app_assoc. do 3 f_equal. simpl. do 4 f_equal.
    assert (flat_map (λ x, ARtWrite x ::
                        if decide (state_at sf x = Some kCompleted)
                        then [] else [ARtWrite op]) ps
            = flat_map (λ p, ARtWrite p ::
                          if decide (state_at (set_trace (λ t, t ++ [AUnlock]) si) p
                                     = Some kCompleted)
                          then [] else [ARtWrite op]) ps) as ->
      by (apply flat_map_ext; intros p; by rewrite Hst).
    assert (flat_map (λ x, ARtWrite op ::
                        if decide (state_at sg op = Some kCompleted)
                        then [] else [ARtWrite x]) ids
            = flat_map (λ r, [ARtWrite op; ARtWrite r]) ids) as ->
      by (apply flat_map_ext; intros r; by rewrite decide_False by exact Hopst).
    done. }
  split_and!; try done.
  - rewrite Htrace, (outside_lock_app_free _ _ Hunl).
    change (outside_lock false ([ALock cover] ++ body ++ [AUnlock]))
      with (outside_lock true (body ++ [AUnlock])).
    rewrite (outside_lock_held_free _ _ Hbody). cbn [outside_lock]. by rewrite app_nil_r.
  - intros Hreach. pose proof (reachable_Inv _ Hreach) as HI.
    destruct (Hedges HI) as (ps' & Hps' & Hnew & Hnews & Hpr & Hsu).
    assert (ps' = ps) as ->.
    { rewrite Hps in Hps'. clear -Hps'. revert ps' Hps'.
      induction ps as [|p ps IH]; intros [|p' ps'] H; simpl in H; try done.
      injection H as -> H. f_equal. auto. }
    apply reachable_Reclaim in Hreach as (_ & _ & _ & _ & _ & R6 & _).
    cbn zeta in *. rewrite <- Hop' in *. split_and!; try done.
    intros Hlive.
    destruct (Heffect HI) as (ps' & Hps'' & _ & _ & _ & Hopc & Hres & Hold & _).
    { intros p Hp. apply Hlive. rewrite Hps in Hp.
      apply list_elem_of_fmap in Hp as (p' & [= ->] & Hp'). done. }
    assert (ps' = ps) as ->.
    { rewrite Hps in Hps''. clear -Hps''. revert ps' Hps''.
      induction ps as [|p ps IH]; intros [|p' ps'] H; simpl in H; try done.
      injection H as -> H. f_equal. auto. }
    cbn zeta in *. rewrite <- ?Hop' in *. destruct Hopc as (? & ? & ?).
    split_and!; done.
Qed.

Lemma Create_locks_after_result_nodes_witness :
  ∃ ps cover,
    let s := one_op_created in
    let s' := chain_created in
    let ids := result_ids s (length [[4]]) in
    let op := (next_node_id s + N.of_nat (length [[4]]))%N in
    let unlocked := map ANewDataNode ids ++ map AAddNode ids ++ map ANewChunk ids in
    let body :=
      [ANewOpNode op; ASetDevice op; AAddNode op]
      ++ flat_map (λ p, ARtWrite p ::
                     if decide (state_at s' p = Some kCompleted)
                     then [] else [ARtWrite op]) ps
      ++ flat_map (λ r, [ARtWrite op; ARtWrite r]) ids
      ++ (if decide (triggers_at s' op = 0)
          then [AIncYetToFinish; AQueuePush (kToRun, op)] else []) in
    [DagChunk 0%N] = map DagChunk ps ∧ [DagChunk 2%N] = map DagChunk ids ∧
    (∀ p, p ∈ ps → p ∈ cover) ∧
    new_trace s s' = unlocked ++ [ALock cover] ++ body ++ [AUnlock] ∧
    outside_lock false (new_trace s s') = unlocked ∧
    lock_free unlocked ∧ lock_free body ∧
    next_data_id s' = (next_data_id s + N.of_nat (length [[4]]))%N ∧
    (∀ i, (i < length [[4]])%nat →
       data_id_at s' (next_node_id s + N.of_nat i)
       = Some (next_data_id s + N.of_nat i)%N) ∧
    (reachable s →
       (∀ k d, k ∈ index_to_node_ s → data_id_at s k = Some d → (d < next_data_id s)%N) ∧
       (op ∉ index_to_node_ s) ∧ (∀ r, r ∈ ids → r ∉ index_to_node_ s) ∧
       (∀ j p, p ∈ preds_at s' j ↔
          p ∈ preds_at s j ∨ (p ∈ ps ∧ j = op) ∨ (p = op ∧ j ∈ ids)) ∧
       (∀ j x, x ∈ succs_at s' j ↔
          x ∈ succs_at s j ∨ (j ∈ ps ∧ x = op) ∨ (j = op ∧ x ∈ ids)) ∧
       ((∀ p, p ∈ ps → p ∈ index_to_node_ s) →
          state_at s' op = Some kReady ∧
          rc_at s' op = Some (Z.of_nat (length [[4]])) ∧
          triggers_at s' op = Z.of_nat (length (pending_inputs s ps)) ∧
          (∀ r, r ∈ ids →
             state_at s' r = Some kReady ∧ rc_at s' r = Some 0 ∧ triggers_at s' r = 1) ∧
          (∀ k, k ∈ index_to_node_ s →
             state_at s' k = state_at s k ∧ triggers_at s' k = triggers_at s k ∧
             rc_at s' k = (λ x, x + occurrences k ps) <$> rc_at s k))).
Proof.
  apply (Create_locks_after_result_nodes [DagChunk 0%N] [[4]] 8%N one_op_created).
  vm_compute; reflexivity.
Defined.


(** * The completion of an op node that returns *)








